(** * Multi-language translation engine: a shallow embedding and its properties

    The TypeScript sources embedded here are
      - lib/utils/rate-limiter.ts     (TokenRateLimiter, ResponseValidator)
      - lib/utils/csv-parser.ts       (RobustCSVParser, validateCSVData)
      - lib/providers/anthropic.ts    (AnthropicProvider)
      - lib/utils/csv-merger.ts       (mergeTranslationResults, generateCSVContent,
                                       ParallelTranslationEngine)
      - app/api/translate route       (the previousResults merge block of POST)

    JavaScript strings are sequences of UTF-16 code units, modelled as
    [list N].  Regular expressions are given as abstract syntax and run by a
    small backtracking matcher that follows the ECMAScript matching order
    (leftmost start, alternatives left to right, greedy and lazy
    quantifiers).  Lower-casing follows the case tables of Unicode
    ([Module Unicode]).  Numbers are IEEE doubles: where the arithmetic of
    the program can round (the backoff delay, the percentages) it is
    rounded to the nearest double, ties to even, over the rationals
    ([Module Double]); the token counts and the times of the limiter are
    integers, and what is proved of them in [Z] carries the range in which
    the doubles of the program are exact integers wherever it depends on
    it.  Stateful and failing code is written in a state and exception
    monad. *)

From Stdlib Require Import ZArith NArith QArith Qround Qminmax Qpower List String Ascii Bool Lia Lqa.
From stdpp Require Import gmap.
Import ListNotations.

Local Open Scope N_scope.

(** ** Unicode case data

    [String.prototype.toLowerCase] follows the Default Case Conversion of
    the Unicode Standard.  The three tables are those of the Unicode
    Character Database, version 14.0: the lower-case mappings of
    UnicodeData.txt, and the properties Cased and Case_Ignorable of
    DerivedCoreProperties.txt, which decide the form of a capital sigma.
    The two conditional mappings of SpecialCasing.txt that hold in every
    locale (U+0130 and the final sigma) are written out in [toLowerCase]. *)

Module Unicode.

(** The code points with a lower-case form of their own: from [lo] to [hi]
    in steps of [stride], each moved by [delta]. *)
Definition lowerRuns : list (N * N * N * Z) :=
  [(65, 90, 1, 32%Z); (192, 214, 1, 32%Z); (216, 222, 1, 32%Z); (256, 302, 2, 1%Z);
   (306, 310, 2, 1%Z); (313, 327, 2, 1%Z); (330, 374, 2, 1%Z); (376, 376, 1, (-121)%Z);
   (377, 381, 2, 1%Z); (385, 385, 1, 210%Z); (386, 388, 2, 1%Z); (390, 390, 1, 206%Z);
   (391, 391, 1, 1%Z); (393, 394, 1, 205%Z); (395, 395, 1, 1%Z); (398, 398, 1, 79%Z);
   (399, 399, 1, 202%Z); (400, 400, 1, 203%Z); (401, 401, 1, 1%Z); (403, 403, 1, 205%Z);
   (404, 404, 1, 207%Z); (406, 406, 1, 211%Z); (407, 407, 1, 209%Z); (408, 408, 1, 1%Z);
   (412, 412, 1, 211%Z); (413, 413, 1, 213%Z); (415, 415, 1, 214%Z); (416, 420, 2, 1%Z);
   (422, 422, 1, 218%Z); (423, 423, 1, 1%Z); (425, 425, 1, 218%Z); (428, 428, 1, 1%Z);
   (430, 430, 1, 218%Z); (431, 431, 1, 1%Z); (433, 434, 1, 217%Z); (435, 437, 2, 1%Z);
   (439, 439, 1, 219%Z); (440, 440, 1, 1%Z); (444, 444, 1, 1%Z); (452, 452, 1, 2%Z);
   (453, 453, 1, 1%Z); (455, 455, 1, 2%Z); (456, 456, 1, 1%Z); (458, 458, 1, 2%Z);
   (459, 475, 2, 1%Z); (478, 494, 2, 1%Z); (497, 497, 1, 2%Z); (498, 500, 2, 1%Z);
   (502, 502, 1, (-97)%Z); (503, 503, 1, (-56)%Z); (504, 542, 2, 1%Z); (544, 544, 1, (-130)%Z);
   (546, 562, 2, 1%Z); (570, 570, 1, 10795%Z); (571, 571, 1, 1%Z); (573, 573, 1, (-163)%Z);
   (574, 574, 1, 10792%Z); (577, 577, 1, 1%Z); (579, 579, 1, (-195)%Z); (580, 580, 1, 69%Z);
   (581, 581, 1, 71%Z); (582, 590, 2, 1%Z); (880, 882, 2, 1%Z); (886, 886, 1, 1%Z);
   (895, 895, 1, 116%Z); (902, 902, 1, 38%Z); (904, 906, 1, 37%Z); (908, 908, 1, 64%Z);
   (910, 911, 1, 63%Z); (913, 929, 1, 32%Z); (932, 939, 1, 32%Z); (975, 975, 1, 8%Z);
   (984, 1006, 2, 1%Z); (1012, 1012, 1, (-60)%Z); (1015, 1015, 1, 1%Z); (1017, 1017, 1, (-7)%Z);
   (1018, 1018, 1, 1%Z); (1021, 1023, 1, (-130)%Z); (1024, 1039, 1, 80%Z); (1040, 1071, 1, 32%Z);
   (1120, 1152, 2, 1%Z); (1162, 1214, 2, 1%Z); (1216, 1216, 1, 15%Z); (1217, 1229, 2, 1%Z);
   (1232, 1326, 2, 1%Z); (1329, 1366, 1, 48%Z); (4256, 4293, 1, 7264%Z); (4295, 4295, 1, 7264%Z);
   (4301, 4301, 1, 7264%Z); (5024, 5103, 1, 38864%Z); (5104, 5109, 1, 8%Z); (7312, 7354, 1, (-3008)%Z);
   (7357, 7359, 1, (-3008)%Z); (7680, 7828, 2, 1%Z); (7838, 7838, 1, (-7615)%Z); (7840, 7934, 2, 1%Z);
   (7944, 7951, 1, (-8)%Z); (7960, 7965, 1, (-8)%Z); (7976, 7983, 1, (-8)%Z); (7992, 7999, 1, (-8)%Z);
   (8008, 8013, 1, (-8)%Z); (8025, 8031, 2, (-8)%Z); (8040, 8047, 1, (-8)%Z); (8072, 8079, 1, (-8)%Z);
   (8088, 8095, 1, (-8)%Z); (8104, 8111, 1, (-8)%Z); (8120, 8121, 1, (-8)%Z); (8122, 8123, 1, (-74)%Z);
   (8124, 8124, 1, (-9)%Z); (8136, 8139, 1, (-86)%Z); (8140, 8140, 1, (-9)%Z); (8152, 8153, 1, (-8)%Z);
   (8154, 8155, 1, (-100)%Z); (8168, 8169, 1, (-8)%Z); (8170, 8171, 1, (-112)%Z); (8172, 8172, 1, (-7)%Z);
   (8184, 8185, 1, (-128)%Z); (8186, 8187, 1, (-126)%Z); (8188, 8188, 1, (-9)%Z); (8486, 8486, 1, (-7517)%Z);
   (8490, 8490, 1, (-8383)%Z); (8491, 8491, 1, (-8262)%Z); (8498, 8498, 1, 28%Z); (8544, 8559, 1, 16%Z);
   (8579, 8579, 1, 1%Z); (9398, 9423, 1, 26%Z); (11264, 11311, 1, 48%Z); (11360, 11360, 1, 1%Z);
   (11362, 11362, 1, (-10743)%Z); (11363, 11363, 1, (-3814)%Z); (11364, 11364, 1, (-10727)%Z); (11367, 11371, 2, 1%Z);
   (11373, 11373, 1, (-10780)%Z); (11374, 11374, 1, (-10749)%Z); (11375, 11375, 1, (-10783)%Z); (11376, 11376, 1, (-10782)%Z);
   (11378, 11378, 1, 1%Z); (11381, 11381, 1, 1%Z); (11390, 11391, 1, (-10815)%Z); (11392, 11490, 2, 1%Z);
   (11499, 11501, 2, 1%Z); (11506, 11506, 1, 1%Z); (42560, 42604, 2, 1%Z); (42624, 42650, 2, 1%Z);
   (42786, 42798, 2, 1%Z); (42802, 42862, 2, 1%Z); (42873, 42875, 2, 1%Z); (42877, 42877, 1, (-35332)%Z);
   (42878, 42886, 2, 1%Z); (42891, 42891, 1, 1%Z); (42893, 42893, 1, (-42280)%Z); (42896, 42898, 2, 1%Z);
   (42902, 42920, 2, 1%Z); (42922, 42922, 1, (-42308)%Z); (42923, 42923, 1, (-42319)%Z); (42924, 42924, 1, (-42315)%Z);
   (42925, 42925, 1, (-42305)%Z); (42926, 42926, 1, (-42308)%Z); (42928, 42928, 1, (-42258)%Z); (42929, 42929, 1, (-42282)%Z);
   (42930, 42930, 1, (-42261)%Z); (42931, 42931, 1, 928%Z); (42932, 42946, 2, 1%Z); (42948, 42948, 1, (-48)%Z);
   (42949, 42949, 1, (-42307)%Z); (42950, 42950, 1, (-35384)%Z); (42951, 42953, 2, 1%Z); (42960, 42960, 1, 1%Z);
   (42966, 42968, 2, 1%Z); (42997, 42997, 1, 1%Z); (65313, 65338, 1, 32%Z); (66560, 66599, 1, 40%Z);
   (66736, 66771, 1, 40%Z); (66928, 66938, 1, 39%Z); (66940, 66954, 1, 39%Z); (66956, 66962, 1, 39%Z);
   (66964, 66965, 1, 39%Z); (68736, 68786, 1, 64%Z); (71840, 71871, 1, 32%Z); (93760, 93791, 1, 32%Z);
   (125184, 125217, 1, 34%Z)].

(** The code points with the property Case_Ignorable. *)
Definition caseIgnorableRanges : list (N * N) :=
  [(39, 39); (46, 46); (58, 58); (94, 94); (96, 96); (168, 168);
   (173, 173); (175, 175); (180, 180); (183, 184); (688, 879); (884, 885);
   (890, 890); (900, 901); (903, 903); (1155, 1161); (1369, 1369); (1375, 1375);
   (1425, 1469); (1471, 1471); (1473, 1474); (1476, 1477); (1479, 1479); (1524, 1524);
   (1536, 1541); (1552, 1562); (1564, 1564); (1600, 1600); (1611, 1631); (1648, 1648);
   (1750, 1757); (1759, 1768); (1770, 1773); (1807, 1807); (1809, 1809); (1840, 1866);
   (1958, 1968); (2027, 2037); (2042, 2042); (2045, 2045); (2070, 2093); (2137, 2139);
   (2184, 2184); (2192, 2193); (2200, 2207); (2249, 2306); (2362, 2362); (2364, 2364);
   (2369, 2376); (2381, 2381); (2385, 2391); (2402, 2403); (2417, 2417); (2433, 2433);
   (2492, 2492); (2497, 2500); (2509, 2509); (2530, 2531); (2558, 2558); (2561, 2562);
   (2620, 2620); (2625, 2626); (2631, 2632); (2635, 2637); (2641, 2641); (2672, 2673);
   (2677, 2677); (2689, 2690); (2748, 2748); (2753, 2757); (2759, 2760); (2765, 2765);
   (2786, 2787); (2810, 2815); (2817, 2817); (2876, 2876); (2879, 2879); (2881, 2884);
   (2893, 2893); (2901, 2902); (2914, 2915); (2946, 2946); (3008, 3008); (3021, 3021);
   (3072, 3072); (3076, 3076); (3132, 3132); (3134, 3136); (3142, 3144); (3146, 3149);
   (3157, 3158); (3170, 3171); (3201, 3201); (3260, 3260); (3263, 3263); (3270, 3270);
   (3276, 3277); (3298, 3299); (3328, 3329); (3387, 3388); (3393, 3396); (3405, 3405);
   (3426, 3427); (3457, 3457); (3530, 3530); (3538, 3540); (3542, 3542); (3633, 3633);
   (3636, 3642); (3654, 3662); (3761, 3761); (3764, 3772); (3782, 3782); (3784, 3789);
   (3864, 3865); (3893, 3893); (3895, 3895); (3897, 3897); (3953, 3966); (3968, 3972);
   (3974, 3975); (3981, 3991); (3993, 4028); (4038, 4038); (4141, 4144); (4146, 4151);
   (4153, 4154); (4157, 4158); (4184, 4185); (4190, 4192); (4209, 4212); (4226, 4226);
   (4229, 4230); (4237, 4237); (4253, 4253); (4348, 4348); (4957, 4959); (5906, 5908);
   (5938, 5939); (5970, 5971); (6002, 6003); (6068, 6069); (6071, 6077); (6086, 6086);
   (6089, 6099); (6103, 6103); (6109, 6109); (6155, 6159); (6211, 6211); (6277, 6278);
   (6313, 6313); (6432, 6434); (6439, 6440); (6450, 6450); (6457, 6459); (6679, 6680);
   (6683, 6683); (6742, 6742); (6744, 6750); (6752, 6752); (6754, 6754); (6757, 6764);
   (6771, 6780); (6783, 6783); (6823, 6823); (6832, 6862); (6912, 6915); (6964, 6964);
   (6966, 6970); (6972, 6972); (6978, 6978); (7019, 7027); (7040, 7041); (7074, 7077);
   (7080, 7081); (7083, 7085); (7142, 7142); (7144, 7145); (7149, 7149); (7151, 7153);
   (7212, 7219); (7222, 7223); (7288, 7293); (7376, 7378); (7380, 7392); (7394, 7400);
   (7405, 7405); (7412, 7412); (7416, 7417); (7468, 7530); (7544, 7544); (7579, 7679);
   (8125, 8125); (8127, 8129); (8141, 8143); (8157, 8159); (8173, 8175); (8189, 8190);
   (8203, 8207); (8216, 8217); (8228, 8228); (8231, 8231); (8234, 8238); (8288, 8292);
   (8294, 8303); (8305, 8305); (8319, 8319); (8336, 8348); (8400, 8432); (11388, 11389);
   (11503, 11505); (11631, 11631); (11647, 11647); (11744, 11775); (11823, 11823); (12293, 12293);
   (12330, 12333); (12337, 12341); (12347, 12347); (12441, 12446); (12540, 12542); (40981, 40981);
   (42232, 42237); (42508, 42508); (42607, 42610); (42612, 42621); (42623, 42623); (42652, 42655);
   (42736, 42737); (42752, 42785); (42864, 42864); (42888, 42890); (42994, 42996); (43000, 43001);
   (43010, 43010); (43014, 43014); (43019, 43019); (43045, 43046); (43052, 43052); (43204, 43205);
   (43232, 43249); (43263, 43263); (43302, 43309); (43335, 43345); (43392, 43394); (43443, 43443);
   (43446, 43449); (43452, 43453); (43471, 43471); (43493, 43494); (43561, 43566); (43569, 43570);
   (43573, 43574); (43587, 43587); (43596, 43596); (43632, 43632); (43644, 43644); (43696, 43696);
   (43698, 43700); (43703, 43704); (43710, 43711); (43713, 43713); (43741, 43741); (43756, 43757);
   (43763, 43764); (43766, 43766); (43867, 43871); (43881, 43883); (44005, 44005); (44008, 44008);
   (44013, 44013); (64286, 64286); (64434, 64450); (65024, 65039); (65043, 65043); (65056, 65071);
   (65106, 65106); (65109, 65109); (65279, 65279); (65287, 65287); (65294, 65294); (65306, 65306);
   (65342, 65342); (65344, 65344); (65392, 65392); (65438, 65439); (65507, 65507); (65529, 65531);
   (66045, 66045); (66272, 66272); (66422, 66426); (67456, 67461); (67463, 67504); (67506, 67514);
   (68097, 68099); (68101, 68102); (68108, 68111); (68152, 68154); (68159, 68159); (68325, 68326);
   (68900, 68903); (69291, 69292); (69446, 69456); (69506, 69509); (69633, 69633); (69688, 69702);
   (69744, 69744); (69747, 69748); (69759, 69761); (69811, 69814); (69817, 69818); (69821, 69821);
   (69826, 69826); (69837, 69837); (69888, 69890); (69927, 69931); (69933, 69940); (70003, 70003);
   (70016, 70017); (70070, 70078); (70089, 70092); (70095, 70095); (70191, 70193); (70196, 70196);
   (70198, 70199); (70206, 70206); (70367, 70367); (70371, 70378); (70400, 70401); (70459, 70460);
   (70464, 70464); (70502, 70508); (70512, 70516); (70712, 70719); (70722, 70724); (70726, 70726);
   (70750, 70750); (70835, 70840); (70842, 70842); (70847, 70848); (70850, 70851); (71090, 71093);
   (71100, 71101); (71103, 71104); (71132, 71133); (71219, 71226); (71229, 71229); (71231, 71232);
   (71339, 71339); (71341, 71341); (71344, 71349); (71351, 71351); (71453, 71455); (71458, 71461);
   (71463, 71467); (71727, 71735); (71737, 71738); (71995, 71996); (71998, 71998); (72003, 72003);
   (72148, 72151); (72154, 72155); (72160, 72160); (72193, 72202); (72243, 72248); (72251, 72254);
   (72263, 72263); (72273, 72278); (72281, 72283); (72330, 72342); (72344, 72345); (72752, 72758);
   (72760, 72765); (72767, 72767); (72850, 72871); (72874, 72880); (72882, 72883); (72885, 72886);
   (73009, 73014); (73018, 73018); (73020, 73021); (73023, 73029); (73031, 73031); (73104, 73105);
   (73109, 73109); (73111, 73111); (73459, 73460); (78896, 78904); (92912, 92916); (92976, 92982);
   (92992, 92995); (94031, 94031); (94095, 94111); (94176, 94177); (94179, 94180); (110576, 110579);
   (110581, 110587); (110589, 110590); (113821, 113822); (113824, 113827); (118528, 118573); (118576, 118598);
   (119143, 119145); (119155, 119170); (119173, 119179); (119210, 119213); (119362, 119364); (121344, 121398);
   (121403, 121452); (121461, 121461); (121476, 121476); (121499, 121503); (121505, 121519); (122880, 122886);
   (122888, 122904); (122907, 122913); (122915, 122916); (122918, 122922); (123184, 123197); (123566, 123566);
   (123628, 123631); (125136, 125142); (125252, 125259); (127995, 127999); (917505, 917505); (917536, 917631);
   (917760, 917999)].

(** The code points with the property Cased that are not Case_Ignorable. *)
Definition casedRanges : list (N * N) :=
  [(65, 90); (97, 122); (170, 170); (181, 181); (186, 186); (192, 214);
   (216, 246); (248, 442); (444, 447); (452, 659); (661, 687); (880, 883);
   (886, 887); (891, 893); (895, 895); (902, 902); (904, 906); (908, 908);
   (910, 929); (931, 1013); (1015, 1153); (1162, 1327); (1329, 1366); (1376, 1416);
   (4256, 4293); (4295, 4295); (4301, 4301); (4304, 4346); (4349, 4351); (5024, 5109);
   (5112, 5117); (7296, 7304); (7312, 7354); (7357, 7359); (7424, 7467); (7531, 7543);
   (7545, 7578); (7680, 7957); (7960, 7965); (7968, 8005); (8008, 8013); (8016, 8023);
   (8025, 8025); (8027, 8027); (8029, 8029); (8031, 8061); (8064, 8116); (8118, 8124);
   (8126, 8126); (8130, 8132); (8134, 8140); (8144, 8147); (8150, 8155); (8160, 8172);
   (8178, 8180); (8182, 8188); (8450, 8450); (8455, 8455); (8458, 8467); (8469, 8469);
   (8473, 8477); (8484, 8484); (8486, 8486); (8488, 8488); (8490, 8493); (8495, 8500);
   (8505, 8505); (8508, 8511); (8517, 8521); (8526, 8526); (8544, 8575); (8579, 8580);
   (9398, 9449); (11264, 11387); (11390, 11492); (11499, 11502); (11506, 11507); (11520, 11557);
   (11559, 11559); (11565, 11565); (42560, 42605); (42624, 42651); (42786, 42863); (42865, 42887);
   (42891, 42894); (42896, 42954); (42960, 42961); (42963, 42963); (42965, 42969); (42997, 42998);
   (43002, 43002); (43824, 43866); (43872, 43880); (43888, 43967); (64256, 64262); (64275, 64279);
   (65313, 65338); (65345, 65370); (66560, 66639); (66736, 66771); (66776, 66811); (66928, 66938);
   (66940, 66954); (66956, 66962); (66964, 66965); (66967, 66977); (66979, 66993); (66995, 67001);
   (67003, 67004); (68736, 68786); (68800, 68850); (71840, 71903); (93760, 93823); (119808, 119892);
   (119894, 119964); (119966, 119967); (119970, 119970); (119973, 119974); (119977, 119980); (119982, 119993);
   (119995, 119995); (119997, 120003); (120005, 120069); (120071, 120074); (120077, 120084); (120086, 120092);
   (120094, 120121); (120123, 120126); (120128, 120132); (120134, 120134); (120138, 120144); (120146, 120485);
   (120488, 120512); (120514, 120538); (120540, 120570); (120572, 120596); (120598, 120628); (120630, 120654);
   (120656, 120686); (120688, 120712); (120714, 120744); (120746, 120770); (120772, 120779); (122624, 122633);
   (122635, 122654); (125184, 125251); (127280, 127305); (127312, 127337); (127344, 127369)].

Definition inRanges (ranges : list (N * N)) (c : N) : bool :=
  existsb (fun r => (fst r <=? c) && (c <=? snd r)) ranges.

Definition caseIgnorable (c : N) : bool := inRanges caseIgnorableRanges c.
Definition cased (c : N) : bool := inRanges casedRanges c.

Fixpoint lowerIn (runs : list (N * N * N * Z)) (c : N) : N :=
  match runs with
  | [] => c
  | (lo, hi, stride, delta) :: runs' =>
      if (lo <=? c) && (c <=? hi) && ((c - lo) mod stride =? 0)
      then Z.to_N (Z.of_N c + delta)
      else lowerIn runs' c
  end.

(** The lower-case form of a code point, when it is one code point. *)
Definition lowerPoint (c : N) : N := lowerIn lowerRuns c.

(** UTF-16: the two halves of a code point above U+FFFF. *)
Definition isHighSurrogate (c : N) : bool := (55296 <=? c) && (c <=? 56319).
Definition isLowSurrogate (c : N) : bool := (56320 <=? c) && (c <=? 57343).
Definition pairPoint (high low : N) : N := 65536 + (high - 55296) * 1024 + (low - 56320).
Definition pairOf (c : N) : list N :=
  [55296 + (c - 65536) / 1024; 56320 + (c - 65536) mod 1024].

End Unicode.

(** ** JavaScript strings *)

Module Js.

Definition jsstring := list N.

(** An ASCII literal as a sequence of code units. *)
Definition js (s : string) : jsstring :=
  List.map N_of_ascii (list_ascii_of_string s).
Arguments js s%_string.

Fixpoint str_eqb (a b : jsstring) : bool :=
  match a, b with
  | [], [] => true
  | x :: a', y :: b' => N.eqb x y && str_eqb a' b'
  | _, _ => false
  end.

Fixpoint startsWith (s prefix : jsstring) : bool :=
  match prefix, s with
  | [], _ => true
  | p :: prefix', c :: s' => N.eqb p c && startsWith s' prefix'
  | _ :: _, [] => false
  end.

(** [String.prototype.includes]. *)
Fixpoint includes (s needle : jsstring) : bool :=
  startsWith s needle ||
  match s with
  | [] => false
  | _ :: s' => includes s' needle
  end.

(** [includes] for a one-code-unit needle. *)
Definition has (c : N) (s : jsstring) : bool := existsb (N.eqb c) s.

(** [String.prototype.split] with a separator of one code unit. *)
Fixpoint split_go (sep : N) (cur : jsstring) (s : jsstring) : list jsstring :=
  match s with
  | [] => [cur]
  | c :: s' => if N.eqb c sep then cur :: split_go sep [] s'
               else split_go sep (cur ++ [c]) s'
  end.
Definition split (sep : N) (s : jsstring) : list jsstring := split_go sep [] s.

(** [Array.prototype.join]. *)
Fixpoint join (sep : jsstring) (parts : list jsstring) : jsstring :=
  match parts with
  | [] => []
  | [p] => p
  | p :: rest => p ++ sep ++ join sep rest
  end.

(** WhiteSpace and LineTerminator code units: what [trim] strips and what
    the class [\s] matches. *)
Definition isWhiteSpace (c : N) : bool :=
  ((9 <=? c) && (c <=? 13)) || (c =? 32) || (c =? 160) || (c =? 5760)
  || ((8192 <=? c) && (c <=? 8202)) || (c =? 8232) || (c =? 8233)
  || (c =? 8239) || (c =? 8287) || (c =? 12288) || (c =? 65279).

Fixpoint trimStart (s : jsstring) : jsstring :=
  match s with
  | c :: s' => if isWhiteSpace c then trimStart s' else s
  | [] => []
  end.
Definition trimEnd (s : jsstring) : jsstring := rev (trimStart (rev s)).
Definition trim (s : jsstring) : jsstring := trimEnd (trimStart s).

(** The lower-case form of a code unit of Basic Latin and Latin-1, where
    it is a code unit of the same blocks: A-Z and the letters
    U+00C0..U+00DE (without the multiplication sign U+00D7) move down by
    32.  The regular expressions use it for their classes. *)
Definition lowerUnit (c : N) : N :=
  if (65 <=? c) && (c <=? 90) then c + 32
  else if (192 <=? c) && (c <=? 222) && negb (c =? 215) then c + 32
  else c.

(** The code point at the head of [s] is followed by a cased letter, with
    nothing but case-ignorable code points in between. *)
Fixpoint followedByCased (s : jsstring) : bool :=
  match s with
  | [] => false
  | c :: rest =>
      match rest with
      | low :: rest' =>
          if Unicode.isHighSurrogate c && Unicode.isLowSurrogate low
          then if Unicode.caseIgnorable (Unicode.pairPoint c low)
               then followedByCased rest'
               else Unicode.cased (Unicode.pairPoint c low)
          else if Unicode.caseIgnorable c then followedByCased rest else Unicode.cased c
      | [] => if Unicode.caseIgnorable c then false else Unicode.cased c
      end
  end.

(** The lower-case form of a code point of one code unit, [rest] being
    what follows it: U+0130 becomes i and a combining dot, a capital sigma
    (U+03A3) the final sigma (U+03C2) at the end of a word and the small
    sigma (U+03C3) elsewhere. *)
Definition lowerOne (afterCased : bool) (c : N) (rest : jsstring) : jsstring :=
  if c =? 304 then [105; 775]
  else if c =? 931 then [if afterCased && negb (followedByCased rest) then 962 else 963]
  else let c' := Unicode.lowerPoint c in if c' <? 65536 then [c'] else [c].

(** The lower-case form of a code point of two code units. *)
Definition lowerPair (high low : N) : jsstring :=
  let c' := Unicode.lowerPoint (Unicode.pairPoint high low) in
  if 65536 <=? c' then Unicode.pairOf c' else [high; low].

(** Whether a cased letter comes before the next code point, with nothing
    but case-ignorable code points in between, once [c] has been read. *)
Definition nextCased (afterCased : bool) (c : N) : bool :=
  if Unicode.caseIgnorable c then afterCased else Unicode.cased c.

Fixpoint lower_go (afterCased : bool) (s : jsstring) : jsstring :=
  match s with
  | [] => []
  | c :: rest =>
      match rest with
      | low :: rest' =>
          if Unicode.isHighSurrogate c && Unicode.isLowSurrogate low
          then lowerPair c low
               ++ lower_go (nextCased afterCased (Unicode.pairPoint c low)) rest'
          else lowerOne afterCased c rest ++ lower_go (nextCased afterCased c) rest
      | [] => lowerOne afterCased c rest ++ lower_go (nextCased afterCased c) rest
      end
  end.

(** [String.prototype.toLowerCase].  The string is read as code points: a
    high surrogate followed by a low one is one code point, a surrogate
    alone stays as it is.  Every code point is replaced by its lower-case
    form, whatever the locale. *)
Definition toLowerCase (s : jsstring) : jsstring := lower_go false s.

(** JavaScript truthiness of a string and of a possibly undefined string. *)
Definition truthy (s : jsstring) : bool :=
  match s with [] => false | _ => true end.
Definition orElse (o : option jsstring) (d : jsstring) : jsstring :=
  match o with
  | Some s => if truthy s then s else d
  | None => d
  end.

(** Decimal rendering of a number, as template literals do. *)
Fixpoint digits_go (fuel : nat) (n : N) (acc : jsstring) : jsstring :=
  match fuel with
  | O => acc
  | S f => let acc' := (48 + n mod 10) :: acc in
           if n / 10 =? 0 then acc' else digits_go f (n / 10) acc'
  end.
Definition ofN (n : N) : jsstring := digits_go (S (N.to_nat (N.log2 n))) n [].

End Js.
Export Js.

(** ** Numbers

    The numbers of JavaScript are IEEE 754 doubles.  An integer of
    magnitude up to 2^53 is a double, and a sum or difference of two such
    integers that stays in that range is exact: token counts, times in
    milliseconds and counters are integers in [Z], and the theorems that
    need it bound them.  Where the program multiplies or divides numbers
    that are not integers, the result is the exact result rounded to the
    nearest double, ties to the even significand: [round].  A double is a
    rational here; the subnormal numbers below 2^-1022, the overflow above
    2^1024, the infinities and NaN are not modelled, and no number of the
    program comes near them. *)

Module Double.
Local Open Scope Q_scope.

(** The binade of a positive number: the [e] with 2^e <= q < 2^(e+1). *)
Definition exponent (q : Q) : Z :=
  let k := (Z.log2 (Qnum q) - Z.log2 (Zpos (Qden q)))%Z in
  if Qle_bool (2 ^ k) q then k else (k - 1)%Z.

(** The nearest integer, the even one of two that are equally near. *)
Definition nearestEven (x : Q) : Z :=
  let f := Qfloor x in
  match Qcompare (x - inject_Z f) (1 # 2) with
  | Lt => f
  | Gt => (f + 1)%Z
  | Eq => if Z.even f then f else (f + 1)%Z
  end.

(** The unit in the last place of the binade of [q]. *)
Definition ulp (q : Q) : Q := 2 ^ (exponent q - 52).

(** A positive number rounded to 53 significant bits. *)
Definition roundPositive (q : Q) : Q :=
  inject_Z (nearestEven (q / ulp q)) * ulp q.

Definition round (q : Q) : Q :=
  match Qnum q with
  | Z0 => 0
  | Zpos _ => roundPositive q
  | Zneg _ => - roundPositive (- q)
  end.

(** [a + b], [a * b] and [a / b] on doubles. *)
Definition add (a b : Q) : Q := round (a + b).
Definition mul (a b : Q) : Q := round (a * b).
Definition div (a b : Q) : Q := round (a / b).

(** [Math.round]: the nearest integer, the larger one of two that are
    equally near. *)
Definition mathRound (x : Q) : Z := Qfloor (x + (1 # 2)).

End Double.

(** ** Regular expressions

    The patterns of the program only repeat single-character atoms and use
    no back-references, so a pattern is a term of [regex] and matching is
    structural: [run] explores the alternatives in the order an ECMAScript
    engine does and hands every candidate end position to a continuation. *)

Module Re.

Inductive citem :=
| IChar (c : N)
| IRange (lo hi : N)
| ISpace.

Inductive atom :=
| Chr (c : N)                          (* a literal code unit *)
| Dot                                  (* .   : anything but a line terminator *)
| Space                                (* \s *)
| Cls (negated : bool) (items : list citem).   (* [...] and [^...] *)

Inductive regex :=
| Empty
| One (a : atom)
| Bol                                  (* ^ *)
| Eol                                  (* $ *)
| WordB                                (* \b *)
| Seq (r s : regex)
| Alt (r s : regex)
| Opt (r : regex)                      (* r?  *)
| Rep (greedy atLeastOne : bool) (a : atom)    (* a*  a+  a*?  a+? *)
| Grp (n : nat) (r : regex).           (* the n-th capturing group *)

Record flags := { ignoreCase : bool; multiline : bool }.

Definition isLineTerminator (c : N) : bool :=
  (c =? 10) || (c =? 13) || (c =? 8232) || (c =? 8233).

Definition isWordChar (c : N) : bool :=
  ((97 <=? c) && (c <=? 122)) || ((65 <=? c) && (c <=? 90))
  || ((48 <=? c) && (c <=? 57)) || (c =? 95).

(** Canonicalize of the non-Unicode case-insensitive mode, on Basic Latin
    and Latin-1: the upper-case form when it is a single code unit of the
    same block.  The sharp s (U+00DF) and the division sign (U+00F7) stay. *)
Definition canon (c : N) : N :=
  if (97 <=? c) && (c <=? 122) then c - 32
  else if (224 <=? c) && (c <=? 254) && negb (c =? 247) then c - 32
  else c.

(** The code units with the same canonical form as [c]. *)
Definition variants (c : N) : list N := [c; canon c; lowerUnit c].

Definition item_has (i : citem) (c : N) : bool :=
  match i with
  | IChar x => x =? c
  | IRange lo hi => (lo <=? c) && (c <=? hi)
  | ISpace => isWhiteSpace c
  end.

Definition class_has (fl : flags) (items : list citem) (c : N) : bool :=
  if ignoreCase fl
  then existsb (fun i => existsb (item_has i) (variants c)) items
  else existsb (fun i => item_has i c) items.

Definition atom_matches (fl : flags) (a : atom) (c : N) : bool :=
  match a with
  | Chr x => if ignoreCase fl then canon x =? canon c else x =? c
  | Dot => negb (isLineTerminator c)
  | Space => isWhiteSpace c
  | Cls negated items => xorb negated (class_has fl items c)
  end.

(** A position in the subject: the code units before it, nearest first,
    and the code units after it. *)
Definition pos := (list N * list N)%type.
Definition captures := list (nat * jsstring).
Definition outcome := option (pos * captures).

Definition at_bol (fl : flags) (p : pos) : bool :=
  match fst p with
  | [] => true
  | c :: _ => multiline fl && isLineTerminator c
  end.

Definition at_eol (fl : flags) (p : pos) : bool :=
  match snd p with
  | [] => true
  | c :: _ => multiline fl && isLineTerminator c
  end.

Definition at_wordb (p : pos) : bool :=
  xorb (match fst p with c :: _ => isWordChar c | [] => false end)
       (match snd p with c :: _ => isWordChar c | [] => false end).

(** [a*] and [a*?] from a position: the greedy form takes as many units
    as it can and gives them back one by one; the lazy form tries the
    continuation first. *)
Fixpoint rep_greedy (fl : flags) (a : atom) (bef aft : list N)
    (k : pos -> outcome) : outcome :=
  match aft with
  | c :: aft' =>
      if atom_matches fl a c then
        match rep_greedy fl a (c :: bef) aft' k with
        | Some r => Some r
        | None => k (bef, aft)
        end
      else k (bef, aft)
  | [] => k (bef, [])
  end.

Fixpoint rep_lazy (fl : flags) (a : atom) (bef aft : list N)
    (k : pos -> outcome) : outcome :=
  match k (bef, aft) with
  | Some r => Some r
  | None =>
      match aft with
      | c :: aft' =>
          if atom_matches fl a c then rep_lazy fl a (c :: bef) aft' k else None
      | [] => None
      end
  end.

Definition rep (fl : flags) (greedy : bool) (a : atom) (p : pos)
    (k : pos -> outcome) : outcome :=
  if greedy then rep_greedy fl a (fst p) (snd p) k
  else rep_lazy fl a (fst p) (snd p) k.

(** The code units between two positions of one subject. *)
Definition between (p q : pos) : jsstring :=
  firstn (List.length (snd p) - List.length (snd q)) (snd p).

Fixpoint setCapture (n : nat) (v : jsstring) (cs : captures) : captures :=
  match cs with
  | [] => [(n, v)]
  | (m, w) :: cs' => if Nat.eqb m n then (n, v) :: cs'
                     else (m, w) :: setCapture n v cs'
  end.

Fixpoint getCapture (n : nat) (cs : captures) : option jsstring :=
  match cs with
  | [] => None
  | (m, w) :: cs' => if Nat.eqb m n then Some w else getCapture n cs'
  end.

Fixpoint run (fl : flags) (r : regex) (p : pos) (cs : captures)
    (k : pos -> captures -> outcome) : outcome :=
  match r with
  | Empty => k p cs
  | One a =>
      match snd p with
      | c :: aft' => if atom_matches fl a c then k (c :: fst p, aft') cs else None
      | [] => None
      end
  | Bol => if at_bol fl p then k p cs else None
  | Eol => if at_eol fl p then k p cs else None
  | WordB => if at_wordb p then k p cs else None
  | Seq r1 r2 => run fl r1 p cs (fun p' cs' => run fl r2 p' cs' k)
  | Alt r1 r2 =>
      match run fl r1 p cs k with
      | Some x => Some x
      | None => run fl r2 p cs k
      end
  | Opt r1 =>
      match run fl r1 p cs k with
      | Some x => Some x
      | None => k p cs
      end
  | Rep greedy atLeastOne a =>
      if atLeastOne then
        match snd p with
        | c :: aft' =>
            if atom_matches fl a c
            then rep fl greedy a (c :: fst p, aft') (fun p' => k p' cs)
            else None
        | [] => None
        end
      else rep fl greedy a p (fun p' => k p' cs)
  | Grp n r1 =>
      run fl r1 p cs (fun p' cs' => k p' (setCapture n (between p p') cs'))
  end.

(** A match that starts exactly at [p]. *)
Definition match_at (fl : flags) (r : regex) (p : pos) : outcome :=
  run fl r p [] (fun p' cs => Some (p', cs)).

Record found := {
  f_start : pos;          (* where the match starts *)
  f_end : pos;            (* where it ends *)
  f_caps : captures
}.

Definition matched (m : found) : jsstring := between (f_start m) (f_end m).

(** The leftmost match at or after a position. *)
Fixpoint search (fl : flags) (r : regex) (bef aft : list N) : option found :=
  match match_at fl r (bef, aft) with
  | Some (q, cs) => Some {| f_start := (bef, aft); f_end := q; f_caps := cs |}
  | None =>
      match aft with
      | [] => None
      | c :: aft' => search fl r (c :: bef) aft'
      end
  end.

(** [RegExp.prototype.exec] of a pattern without the [g] flag, and
    [RegExp.prototype.test]. *)
Definition exec (fl : flags) (r : regex) (s : jsstring) : option found :=
  search fl r [] s.
Definition test (fl : flags) (r : regex) (s : jsstring) : bool :=
  match exec fl r s with Some _ => true | None => false end.

(** The number of capturing groups of a pattern. *)
Fixpoint ngroups (r : regex) : nat :=
  match r with
  | Seq a b | Alt a b => ngroups a + ngroups b
  | Opt a => ngroups a
  | Grp _ a => S (ngroups a)
  | _ => 0%nat
  end.

Definition digitOf (c : N) : option nat :=
  if (48 <=? c) && (c <=? 57) then Some (N.to_nat (c - 48)) else None.

Definition capOr (n : nat) (cs : captures) : jsstring :=
  match getCapture n cs with Some w => w | None => [] end.

(** GetSubstitution: the replacement text with [$$], [$&], [$`], [$'],
    [$n] and [$nn] expanded. *)
Fixpoint substitute (tmpl : jsstring) (m : found) (groups : nat) : jsstring :=
  match tmpl with
  | [] => []
  | 36 :: rest =>
      match rest with
      | 36 :: rest' => 36 :: substitute rest' m groups
      | 38 :: rest' => matched m ++ substitute rest' m groups
      | 96 :: rest' => rev (fst (f_start m)) ++ substitute rest' m groups
      | 39 :: rest' => snd (f_end m) ++ substitute rest' m groups
      | d1 :: rest' =>
          match digitOf d1 with
          | Some n1 =>
              let one :=
                if (1 <=? n1)%nat && (n1 <=? groups)%nat
                then Some (capOr n1 (f_caps m) ++ substitute rest' m groups)
                else None in
              let two :=
                match rest' with
                | d2 :: rest'' =>
                    match digitOf d2 with
                    | Some n2 =>
                        let nn := (10 * n1 + n2)%nat in
                        if (1 <=? nn)%nat && (nn <=? groups)%nat
                        then Some (capOr nn (f_caps m) ++ substitute rest'' m groups)
                        else None
                    | None => None
                    end
                | [] => None
                end in
              match two, one with
              | Some t, _ => t
              | None, Some t => t
              | None, None => 36 :: substitute rest m groups
              end
          | None => 36 :: substitute rest m groups
          end
      | [] => [36]
      end
  | c :: rest => c :: substitute rest m groups
  end.

(** [String.prototype.replace] with a pattern that has the [g] flag: every
    match, left to right, without overlap; after an empty match the scan
    moves on by one code unit.  [skip] counts the units of the last match
    still to be passed. *)
Fixpoint replace_loop (fl : flags) (r : regex) (tmpl : jsstring)
    (bef aft : list N) (skip : nat) : jsstring :=
  match skip with
  | S n =>
      match aft with
      | c :: aft' => replace_loop fl r tmpl (c :: bef) aft' n
      | [] => []
      end
  | O =>
      match match_at fl r (bef, aft) with
      | Some (q, cs) =>
          let m := {| f_start := (bef, aft); f_end := q; f_caps := cs |} in
          let sub := substitute tmpl m (ngroups r) in
          match aft with
          | [] => sub
          | c :: aft' =>
              match List.length (matched m) with
              | O => sub ++ c :: replace_loop fl r tmpl (c :: bef) aft' 0
              | S n => sub ++ replace_loop fl r tmpl (c :: bef) aft' n
              end
          end
      | None =>
          match aft with
          | [] => []
          | c :: aft' => c :: replace_loop fl r tmpl (c :: bef) aft' 0
          end
      end
  end.

Definition replaceAll (fl : flags) (r : regex) (tmpl s : jsstring) : jsstring :=
  replace_loop fl r tmpl [] s 0.

(** [String.prototype.replace] with a pattern without the [g] flag: the
    leftmost match only. *)
Definition replaceFirst (fl : flags) (r : regex) (tmpl s : jsstring) : jsstring :=
  match exec fl r s with
  | Some m => rev (fst (f_start m)) ++ substitute tmpl m (ngroups r) ++ snd (f_end m)
  | None => s
  end.

(** Pattern-building helpers. *)
Definition noflags := {| ignoreCase := false; multiline := false |}.
Definition fi := {| ignoreCase := true; multiline := false |}.
Definition fm := {| ignoreCase := false; multiline := true |}.
Definition fim := {| ignoreCase := true; multiline := true |}.

Fixpoint lit_units (l : list N) : regex :=
  match l with
  | [] => Empty
  | [c] => One (Chr c)
  | c :: l' => Seq (One (Chr c)) (lit_units l')
  end.
Definition lit (s : string) : regex := lit_units (js s).
Arguments lit s%_string.

Fixpoint seqs (l : list regex) : regex :=
  match l with
  | [] => Empty
  | [r] => r
  | r :: l' => Seq r (seqs l')
  end.

Fixpoint alts (l : list regex) : regex :=
  match l with
  | [] => Empty
  | [r] => r
  | r :: l' => Alt r (alts l')
  end.

Definition oneOf (l : list string) : regex := alts (List.map lit l).
Definition star (a : atom) : regex := Rep true false a.
Definition plus (a : atom) : regex := Rep true true a.
Definition lazyStar (a : atom) : regex := Rep false false a.
Definition lazyPlus (a : atom) : regex := Rep false true a.
Definition chr (s : string) : atom :=
  match js s with c :: _ => Chr c | [] => Chr 0 end.
Arguments chr s%_string.

End Re.

(** ** CSV quoting and line parsing (lib/providers/anthropic.ts) *)

Module Csv.
Import Re.

Definition QUOTE : N := 34.
Definition COMMA : N := 44.
Definition NEWLINE : N := 10.

(** [escapeCSV]: a value with a comma, a newline or a double quote is
    wrapped in quotes, its double quotes doubled. *)
Definition escapeCSV (value : jsstring) : jsstring :=
  if has COMMA value || has NEWLINE value || has QUOTE value then
    let escaped := replaceAll noflags (One (Chr QUOTE)) [QUOTE; QUOTE] value in
    [QUOTE] ++ escaped ++ [QUOTE]
  else value.

(** The [while] loop of [parseCSVLine] on the units still to read: the
    index [i] of the source is the number of units already dropped. *)
Fixpoint parse_loop (line : list N) (fields : list jsstring)
    (current : jsstring) (inQuotes : bool) : list jsstring * jsstring :=
  match line with
  | [] => (fields, current)
  | char :: rest =>
      if inQuotes then
        if char =? QUOTE then
          match rest with
          | next :: rest' =>
              if next =? QUOTE
              then parse_loop rest' fields (current ++ [QUOTE]) true
              else parse_loop rest fields current false
          | [] => parse_loop rest fields current false
          end
        else parse_loop rest fields (current ++ [char]) true
      else
        if char =? QUOTE then parse_loop rest fields current true
        else if char =? COMMA then parse_loop rest (fields ++ [current]) [] false
        else parse_loop rest fields (current ++ [char]) false
  end.

Definition parseCSVLine (line : jsstring) : list jsstring :=
  let '(fields, current) := parse_loop line [] [] false in
  List.map trim (fields ++ [current]).

(** A row as the provider writes it: the escaped fields joined by commas. *)
Definition toRow (fields : list jsstring) : jsstring :=
  join [COMMA] (List.map escapeCSV fields).

(** No white space at either end of a field. *)
Definition edgeFree (f : jsstring) : bool :=
  match f with
  | [] => true
  | c :: _ => negb (isWhiteSpace c) && negb (isWhiteSpace (List.last f c))
  end.

End Csv.


(** ** Token rate limiter (lib/utils/rate-limiter.ts)

    Times are milliseconds, token counts are integers, and both are
    written in [Z]; [exactFor] below names the range in which the sums of
    [Z] are the sums of the doubles of the source.  Every method reads
    the clock; the reading [now] is an argument, one reading for one call.
    A method returns its result together with the limiter it leaves behind,
    because each of them prunes the usage log first. *)

Module RateLimiter.
Local Open Scope Z_scope.

Record UsageEntry := { timestamp : Z; tokens : Z }.

Record TokenRateLimiter := {
  tokenUsage : list UsageEntry;
  windowMs : Z;
  maxTokens : Z
}.

(** The constructor. *)
Definition create (maxTokensPerMinute : Z) : TokenRateLimiter :=
  {| tokenUsage := []; windowMs := 60000; maxTokens := maxTokensPerMinute |}.

Definition withUsage (l : TokenRateLimiter) (u : list UsageEntry) : TokenRateLimiter :=
  {| tokenUsage := u; windowMs := windowMs l; maxTokens := maxTokens l |}.

(** [Math.ceil(text.length / 4)]. *)
Definition estimateTokens (text : jsstring) : Z :=
  (Z.of_nat (List.length text) + 3) / 4.

Definition cleanOldEntries (now : Z) (l : TokenRateLimiter) : TokenRateLimiter :=
  let cutoff := now - windowMs l in
  withUsage l (List.filter (fun entry => cutoff <? timestamp entry) (tokenUsage l)).

(** [tokenUsage.reduce((sum, entry) => sum + entry.tokens, 0)]. *)
Definition currentUsage (l : TokenRateLimiter) : Z :=
  fold_left (fun sum entry => sum + tokens entry) (tokenUsage l) 0.

Definition canMakeRequest (now estimatedTokens : Z) (l : TokenRateLimiter)
    : bool * TokenRateLimiter :=
  let l := cleanOldEntries now l in
  (currentUsage l + estimatedTokens <=? maxTokens l, l).

(** The [for] loop of [getRequiredDelay]: oldest first, until the tokens
    still to free are covered; [fallback] is the initial value of
    [oldestRelevantTimestamp]. *)
Fixpoint oldestRelevant (tokensToFree : Z) (entries : list UsageEntry)
    (fallback : Z) : Z :=
  match entries with
  | [] => fallback
  | entry :: rest =>
      let tokensToFree := tokensToFree - tokens entry in
      if tokensToFree <=? 0 then timestamp entry
      else oldestRelevant tokensToFree rest fallback
  end.

Definition getRequiredDelay (now estimatedTokens : Z) (l : TokenRateLimiter)
    : Z * TokenRateLimiter :=
  let l := cleanOldEntries now l in
  let currentUsage := currentUsage l in
  if currentUsage + estimatedTokens <=? maxTokens l then (0, l)
  else
    let tokensToFree := currentUsage + estimatedTokens - maxTokens l in
    let oldestRelevantTimestamp := oldestRelevant tokensToFree (tokenUsage l) now in
    let timeSinceOldest := now - oldestRelevantTimestamp in
    let remainingTime := windowMs l - timeSinceOldest in
    (Z.max 0 remainingTime, l).

Definition recordUsage (now tokens : Z) (l : TokenRateLimiter) : TokenRateLimiter :=
  cleanOldEntries now
    (withUsage l (tokenUsage l ++ [{| timestamp := now; tokens := tokens |}])).

Definition estimateRequestTokens (systemPrompt userPrompt : jsstring)
    (responseEstimate : Z) : Z :=
  let promptTokens := estimateTokens systemPrompt + estimateTokens userPrompt in
  promptTokens + responseEstimate.

(** [Math.round((currentUsage / maxTokens) * 100)], for a budget that is
    not zero: the quotient and the product are doubles.  The value only
    goes to the console. *)
Definition getUsagePercentage (now : Z) (l : TokenRateLimiter) : Z * TokenRateLimiter :=
  let l := cleanOldEntries now l in
  (Double.mathRound
     (Double.mul (Double.div (inject_Z (currentUsage l)) (inject_Z (maxTokens l))) 100), l).

(** [Number.MAX_SAFE_INTEGER] and the largest time value of [Date]. *)
Definition maxSafeInteger : Z := 2 ^ 53 - 1.
Definition maxTime : Z := 8640000000000000.

(** Where the integers of this model are the doubles of the program.  The
    source adds and subtracts doubles; an integer of magnitude up to
    [maxSafeInteger] is a double, and a sum or a difference of two of
    them that stays in that range is exact.  For a log, a clock reading
    and a request that pass [exactFor], every number the methods compute
    is such an integer: the counts are not negative, the recorded counts
    and the request together are at most [maxSafeInteger], so is the
    budget, and the times are time values. *)
Definition exactFor (now estimatedTokens : Z) (l : TokenRateLimiter) : bool :=
  forallb (fun entry => (0 <=? tokens entry) && (0 <=? timestamp entry)
                        && (timestamp entry <=? maxTime)) (tokenUsage l)
  && (0 <=? estimatedTokens)
  && (fold_left (fun sum entry => sum + tokens entry) (tokenUsage l) 0 + estimatedTokens
      <=? maxSafeInteger)
  && (0 <=? maxTokens l) && (maxTokens l <=? maxSafeInteger)
  && (0 <=? windowMs l) && (windowMs l <=? maxTime)
  && (0 <=? now) && (now <=? maxTime).

(** Usages recorded one after the other, each at its own time. *)
Fixpoint recordAll (usages : list UsageEntry) (l : TokenRateLimiter) : TokenRateLimiter :=
  match usages with
  | [] => l
  | u :: rest => recordAll rest (recordUsage (timestamp u) (tokens u) l)
  end.

End RateLimiter.

(** ** Results that may be exceptions, and the state monad of the providers *)

Module Eff.

(** What a [catch] clause receives: an [Error] object with its message, or
    some other thrown value. *)
Inductive JsError :=
| ErrorObj (message : jsstring)
| Thrown.

(** How a call ends: it returns, it throws, it never ends, or it uses up
    the memory of the engine.  [Diverge] only comes from a loop of the
    source whose counter does not advance and that allocates nothing: the
    call stays pending for ever.  [Exhaust] only comes from such a loop
    that appends to an array in every round: the engine ends the process
    with a fatal out-of-memory error, which no [catch] clause sees (an
    engine with room for an array of 2^32 - 1 elements would throw a
    [RangeError] at that length instead). *)
Inductive Outcome (A : Type) :=
| Ret (a : A)
| Throw (e : JsError)
| Diverge
| Exhaust.
Arguments Ret {A} a.
Arguments Throw {A} e.
Arguments Diverge {A}.
Arguments Exhaust {A}.

(** The call ends in the ordinary way: it returns or it throws. *)
Definition settles {A} (o : Outcome A) : Prop :=
  match o with
  | Ret _ | Throw _ => True
  | Diverge | Exhaust => False
  end.

Definition bind {A B} (x : Outcome A) (f : A -> Outcome B) : Outcome B :=
  match x with
  | Ret a => f a
  | Throw e => Throw e
  | Diverge => Diverge
  | Exhaust => Exhaust
  end.

(** The [TypeError] of a method call on [undefined]. *)
Definition typeError : JsError :=
  ErrorObj (js "Cannot read properties of undefined").

(** [o.m()] for a receiver that may be [undefined]. *)
Definition call {A} (o : option jsstring) (m : jsstring -> A) : Outcome A :=
  match o with
  | Some s => Ret (m s)
  | None => Throw typeError
  end.

(** [error instanceof Error ? error.message : 'Unknown error']. *)
Definition messageOf (e : JsError) : jsstring :=
  match e with
  | ErrorObj message => message
  | Thrown => js "Unknown error"
  end.

(** Code that runs against a world of type [W] (the provider's API, the
    clock, the abort signal): it may change the world and ends with an
    [Outcome].  What was done before a [throw] stays done. *)
Definition M (W A : Type) := W -> Outcome A * W.

Definition ret {W A} (a : A) : M W A := fun w => (Ret a, w).
Definition throw {W A} (e : JsError) : M W A := fun w => (Throw e, w).
Definition diverge {W A} : M W A := fun w => (Diverge, w).
Definition exhaust {W A} : M W A := fun w => (Exhaust, w).
Definition lift {W A} (o : Outcome A) : M W A := fun w => (o, w).

Definition mbind {W A B} (c : M W A) (k : A -> M W B) : M W B :=
  fun w =>
    match c w with
    | (Ret a, w') => k a w'
    | (Throw e, w') => (Throw e, w')
    | (Diverge, w') => (Diverge, w')
    | (Exhaust, w') => (Exhaust, w')
    end.

(** [try { body } catch (error) { handler }] *)
Definition tryCatch {W A} (body : M W A) (handler : JsError -> M W A) : M W A :=
  fun w =>
    match body w with
    | (Throw e, w') => handler e w'
    | other => other
    end.

(** A [for ... of] loop with a body that may have effects. *)
Fixpoint forEachM {W A} (body : A -> M W unit) (l : list A) : M W unit :=
  match l with
  | [] => ret tt
  | x :: rest => mbind (body x) (fun _ => forEachM body rest)
  end.

(** The results of the calls of [f], first to last. *)
Fixpoint mapM {W A B} (f : A -> M W B) (l : list A) : M W (list B) :=
  match l with
  | [] => ret []
  | x :: rest => mbind (f x) (fun y => mbind (mapM f rest) (fun ys => ret (y :: ys)))
  end.

(** A loop that threads a value through its rounds. *)
Fixpoint foldM {W A B} (f : B -> A -> M W B) (l : list A) (b : B) : M W B :=
  match l with
  | [] => ret b
  | x :: rest => mbind (f b x) (fun b' => foldM f rest b')
  end.

End Eff.
Export Eff.

Declare Scope eff_scope.
Delimit Scope eff_scope with eff.
Notation "x <- c ;; k" := (Eff.bind c (fun x => k))
  (at level 100, c at next level, right associativity) : eff_scope.

Declare Scope m_scope.
Delimit Scope m_scope with m.
Notation "x <- c ;; k" := (Eff.mbind c (fun x => k))
  (at level 100, c at next level, right associativity) : m_scope.
Notation "c ;;; k" := (Eff.mbind c (fun _ => k))
  (at level 100, right associativity) : m_scope.

(** ** Response validator (ResponseValidator) *)

Module Validator.
Import Re.

Record ValidationResult := {
  isValid : bool;
  issues : list jsstring;
  confidence : Z;
  suggestedFix : option jsstring
}.

(** A pattern with its source text, which the issue messages quote. *)
Record pattern := { source : string; re : regex }.

Definition failurePatterns : list pattern := [
  {| source := "/^(i'm|i am) (ready|happy|prepared) to translate/i";
     re := seqs [Bol; Grp 1 (oneOf ["i'm"; "i am"]%string); lit " ";
                 Grp 2 (oneOf ["ready"; "happy"; "prepared"]%string);
                 lit " to translate"] |};
  {| source := "/^please provide/i"; re := seqs [Bol; lit "please provide"] |};
  {| source := "/^translate:/i"; re := seqs [Bol; lit "translate:"] |};
  {| source := "/^error:/i"; re := seqs [Bol; lit "error:"] |};
  {| source := "/^sorry/i"; re := seqs [Bol; lit "sorry"] |};
  {| source := "/^i cannot/i"; re := seqs [Bol; lit "i cannot"] |};
  {| source := "/^s concise$/i"; re := seqs [Bol; lit "s concise"; Eol] |};
  {| source := "/^[a-z]+ (concise|formal|informal)$/i";
     re := seqs [Bol; plus (Cls false [IRange 97 122]); lit " ";
                 Grp 1 (oneOf ["concise"; "formal"; "informal"]%string); Eol] |}
].

Definition explanatoryPatterns : list pattern := [
  {| source := "/\b(i'll|i will|let me|i would|i can) (output|return|provide|give you|format|translate)/i";
     re := seqs [WordB;
                 Grp 1 (oneOf ["i'll"; "i will"; "let me"; "i would"; "i can"]%string);
                 lit " ";
                 Grp 2 (oneOf ["output"; "return"; "provide"; "give you"; "format";
                               "translate"]%string)] |};
  {| source := "/\bformat you specified\b/i";
     re := seqs [WordB; lit "format you specified"; WordB] |};
  {| source := "/\band i'll\b/i"; re := seqs [WordB; lit "and i'll"; WordB] |};
  {| source := "/\bhere is the translation\b/i";
     re := seqs [WordB; lit "here is the translation"; WordB] |};
  {| source := "/\bhere are the four fields\b/i";
     re := seqs [WordB; lit "here are the four fields"; WordB] |};
  {| source := "/\bfour csv fields\b/i"; re := seqs [WordB; lit "four csv fields"; WordB] |};
  {| source := "/\boutput four csv fields\b/i";
     re := seqs [WordB; lit "output four csv fields"; WordB] |}
].

(** The first pattern of a list that matches, as the loops with [break]
    find it. *)
Definition firstMatch (ps : list pattern) (s : jsstring) : option pattern :=
  List.find (fun p => test fi (re p) s) ps.

Record LanguageCheck := { valid : bool; lc_issues : list jsstring; penalty : Z }.

Definition units_espanol : jsstring := [101; 115; 112; 97; 241; 111; 108].
Definition units_hindi : jsstring := [2361; 2367; 2306; 2342; 2368].
Definition units_francais : jsstring := [102; 114; 97; 110; 231; 97; 105; 115].
Definition units_marathi : jsstring := [2350; 2352; 2366; 2336; 2368].
Definition units_kannada : jsstring := [3221; 3240; 3277; 3240; 3233].

(** /[áéíóúñ¿¡]/i, /[àâäçèéêëîïôùûü]/i, /[äöüß]/i *)
Definition spanishChars : regex :=
  One (Cls false (List.map IChar [225; 233; 237; 243; 250; 241; 191; 161])).
Definition frenchChars : regex :=
  One (Cls false (List.map IChar
         [224; 226; 228; 231; 232; 233; 234; 235; 238; 239; 244; 249; 251; 252])).
Definition germanChars : regex :=
  One (Cls false (List.map IChar [228; 246; 252; 223])).
(** /[ऀ-ॿ]/ and /[ಀ-೿]/ *)
Definition devanagari : regex := One (Cls false [IRange 2304 2431]).
Definition kannadaScript : regex := One (Cls false [IRange 3200 3327]).

Definition spanishWords : regex :=
  seqs [WordB;
        Grp 1 (alts (List.map lit
                 ["el"; "la"; "de"; "que"; "y"; "a"; "en"; "un"; "ser"; "se"; "no";
                  "haber"; "por"; "con"; "su"; "para"; "como"; "estar"; "tener";
                  "le"; "lo"; "todo"; "pero"]%string
               ++ [lit_units [109; 225; 115]]
               ++ List.map lit
                 ["hacer"; "o"; "poder"; "decir"; "este"; "ir"; "ver"; "dar";
                  "saber"; "querer"; "llegar"; "pasar"; "deber"; "poner";
                  "parecer"; "quedar"; "creer"; "hablar"; "llevar"; "dejar";
                  "seguir"; "encontrar"; "llamar"; "venir"; "pensar"; "salir";
                  "volver"; "tomar"; "conocer"; "vivir"]%string));
        WordB].

Definition isAnyOf (s : jsstring) (names : list jsstring) : bool :=
  existsb (str_eqb s) names.

Definition checkLanguageSpecific (text language : jsstring) : LanguageCheck :=
  let lang := toLowerCase language in
  let '(issues, penalty) :=
    if isAnyOf lang [js "spanish"; units_espanol] then
      let '(issues, penalty) :=
        if negb (test fi spanishChars text) && (20 <? List.length text)%nat
        then ([js "Long text without Spanish-specific characters"], 10%Z)
        else ([], 0%Z) in
      if negb (test fi spanishWords text) && (3 <? List.length (split 32 text))%nat
      then (issues ++ [js "No common Spanish words detected"], (penalty + 20)%Z)
      else (issues, penalty)
    else if isAnyOf lang [js "hindi"; units_hindi] then
      if negb (test noflags devanagari text)
      then ([js "No Devanagari script detected for Hindi translation"], 50%Z)
      else ([], 0%Z)
    else if isAnyOf lang [js "french"; units_francais] then
      if negb (test fi frenchChars text) && (20 <? List.length text)%nat
      then ([js "Long text without French-specific characters"], 10%Z)
      else ([], 0%Z)
    else if isAnyOf lang [js "german"; js "deutsch"] then
      if negb (test fi germanChars text) && (20 <? List.length text)%nat
      then ([js "Long text without German-specific characters"], 10%Z)
      else ([], 0%Z)
    else if isAnyOf lang [js "marathi"; units_marathi] then
      if negb (test noflags devanagari text)
      then ([js "No Devanagari script detected for Marathi translation"], 50%Z)
      else ([], 0%Z)
    else if isAnyOf lang [js "kannada"; units_kannada] then
      if negb (test noflags kannadaScript text)
      then ([js "No Kannada script detected for Kannada translation"], 50%Z)
      else ([], 0%Z)
    else ([], 0%Z) in
  {| valid := (penalty <? 30)%Z; lc_issues := issues; penalty := penalty |}.

Definition suggestFix (issues : list jsstring) : option jsstring :=
  if existsb (fun i => includes i (js "style descriptor")) issues then
    Some (js "The AI returned a style descriptor instead of a translation. Try clarifying the prompt to explicitly request the translated text.")
  else if existsb (fun i => includes i (js "failure pattern")) issues then
    Some (js "The AI response suggests it didn't understand the request. Consider simplifying the prompt or providing examples.")
  else if existsb (fun i => includes i (js "identical to original")) issues then
    Some (js "The translation is identical to the original. The AI might not have processed the request correctly.")
  else None.

Definition styleDescriptors : list jsstring :=
  [js "concise"; js "formal"; js "casual"; js "polite"; js "friendly"].

(** One check of [validateTranslationResponse]: when [failed], the issue
    is pushed and the confidence lowered. *)
Definition check (failed : bool) (issue : list jsstring) (cost : Z)
    (acc : list jsstring * Z) : list jsstring * Z :=
  if failed then (fst acc ++ issue, (snd acc - cost)%Z) else acc.

Definition validateTranslationResponse
    (response originalText targetLanguage : jsstring) : ValidationResult :=
  let acc := ([], 100%Z) in
  (* Check 1 *)
  let acc := check (List.length response <? 3)%nat
               [js "Response is suspiciously short (less than 3 characters)"] 40 acc in
  (* Check 2 *)
  let acc := check (str_eqb (toLowerCase response) (toLowerCase originalText))
               [js "Response is identical to original text"] 50 acc in
  (* Check 3.5 *)
  let acc :=
    match firstMatch explanatoryPatterns response with
    | Some p => check true
        [js "Response contains explanatory text instead of translation: " ++ js (source p)]
        80 acc
    | None => acc
    end in
  (* Check 3 *)
  let acc :=
    match firstMatch failurePatterns response with
    | Some p => check true [js "Response matches failure pattern: " ++ js (source p)] 60 acc
    | None => acc
    end in
  (* Check 4 *)
  let languageChecks := checkLanguageSpecific response targetLanguage in
  let acc := check (negb (valid languageChecks)) (lc_issues languageChecks)
               (penalty languageChecks) acc in
  (* Check 5 *)
  let acc := check (has 10 response && negb (has 44 response))
               [js "Response has newlines but no commas - might be malformed"] 20 acc in
  (* Check 6 *)
  let words := split 32 (toLowerCase response) in
  let acc :=
    if (List.length words =? 1)%nat
       && match words with w :: _ => isAnyOf w styleDescriptors | [] => false end
    then check true
           [js "Response appears to be only a style descriptor, not a translation"] 70 acc
    else if (List.length words =? 2)%nat
            && forallb (fun word => isAnyOf word styleDescriptors
                                    || str_eqb word (js "translation")) words
    then check true
           [js "Response appears to be a style descriptor phrase, not a translation"] 70 acc
    else acc in
  let '(issues, confidence) := acc in
  {| isValid := (50 <=? confidence)%Z;
     issues := issues;
     confidence := Z.max 0 confidence;
     suggestedFix := suggestFix issues |}.

End Validator.

(** ** Response recovery (RobustCSVParser in lib/utils/csv-parser.ts) *)

Module Parser.
Import Re Validator.
Local Open Scope eff_scope.

Record TranslateResponse := {
  translation : jsstring;
  category : jsstring;
  reasoning : jsstring
}.

Section WithPapa.

(** [Papa.parse(row, config).data], with comma as delimiter and the double
    quote as quote and escape character: the rows PapaParse reads.
    PapaParse is a third-party package; the parser is a parameter. *)
Variable Papa_parse : jsstring -> list (list jsstring).

(** [(result.data[0] as string[]) || []] *)
Definition parseRow (row : jsstring) : list jsstring :=
  match Papa_parse row with
  | first :: _ => first
  | [] => []
  end.

Definition preprocessResponse (response : jsstring) : jsstring :=
  let cleaned := response in
  (* /^```(?:csv)?\s*\n?/gm *)
  let cleaned := replaceAll fm
    (seqs [Bol; lit "```"; Opt (lit "csv"); star Space; Opt (One (Chr 10))]) [] cleaned in
  (* /\n?```\s*$/gm *)
  let cleaned := replaceAll fm
    (seqs [Opt (One (Chr 10)); lit "```"; star Space; Eol]) [] cleaned in
  (* /\*\*(.+?)\*\*/g, /\*(.+?)\*/g, /`(.+?)`/g *)
  let cleaned := replaceAll noflags
    (seqs [lit "**"; Grp 1 (lazyPlus Dot); lit "**"]) (js "$1") cleaned in
  let cleaned := replaceAll noflags
    (seqs [lit "*"; Grp 1 (lazyPlus Dot); lit "*"]) (js "$1") cleaned in
  let cleaned := replaceAll noflags
    (seqs [lit "`"; Grp 1 (lazyPlus Dot); lit "`"]) (js "$1") cleaned in
  (* the two quote classes, as the source file has them *)
  let cleaned := replaceAll noflags (One (Cls false [IChar 34; IChar 34])) [34] cleaned in
  let cleaned := replaceAll noflags (One (Cls false [IChar 39; IChar 39])) [39] cleaned in
  (* /^(?:Here(?:'s| is) (?:the|your) (?:translation|CSV).*?:)\s*/im *)
  let cleaned := replaceFirst fim
    (seqs [Bol; lit "Here"; oneOf ["'s"; " is"]%string; lit " ";
           oneOf ["the"; "your"]%string; lit " "; oneOf ["translation"; "CSV"]%string;
           lazyStar Dot; lit ":"; star Space]) [] cleaned in
  (* /^(?:I've translated.*?:)\s*/im *)
  let cleaned := replaceFirst fim
    (seqs [Bol; lit "I've translated"; lazyStar Dot; lit ":"; star Space]) [] cleaned in
  trim cleaned.

(** The loop of [parseAIResponse] that looks for the data line. *)
Fixpoint findDataLine (lines : list jsstring) : jsstring :=
  match lines with
  | [] => []
  | line :: rest =>
      if includes (toLowerCase line) (js "key,")
         || includes (toLowerCase line) (js "category")
            && includes (toLowerCase line) (js "reasoning")
      then findDataLine rest
      else if has 44 line then line
      else findDataLine rest
  end.

Definition parseAIResponse (response : jsstring) : Outcome (option TranslateResponse) :=
  let cleanResponse := preprocessResponse response in
  if includes (toLowerCase cleanResponse) (js "i'm ready to translate")
     || includes (toLowerCase cleanResponse) (js "please provide")
     || test fi (seqs [WordB; Grp 1 (oneOf ["i'll"; "i will"; "let me"]%string); lit " ";
                       Grp 2 (oneOf ["output"; "return"; "provide"; "give you";
                                     "format"]%string)]) cleanResponse
     || includes cleanResponse (js "format you specified")
     || includes cleanResponse (js "four csv fields")
     || includes cleanResponse (js "four fields")
  then Ret None
  else
    let lines := List.filter (fun line => truthy (trim line)) (split 10 cleanResponse) in
    let dataLine := findDataLine lines in
    if negb (truthy dataLine) then Ret None
    else
      let fields := parseRow dataLine in
      if (List.length fields <? 2)%nat then Ret None
      else
        let translation := nth_error fields 1 in
        let category := nth_error fields 2 in
        let reasoning := nth_error fields 3 in
        if negb (match translation with Some t => truthy t | None => false end)
        then Ret None
        else
          trimmed <- call translation trim ;;
          if str_eqb trimmed [] then Ret None
          else
            Ret (Some {| translation := trimmed;
                         category := orElse (option_map trim category) (js "Unknown");
                         reasoning := orElse (option_map trim reasoning)
                                        (js "Parsed from CSV") |}).

(** The field in quotes, its quotes doubled, when it needs quoting. *)
Definition normalizeField (field : jsstring) : jsstring :=
  if has 44 field || has 34 field || has 10 field || has 13 field
  then [34] ++ replaceAll noflags (One (Chr 34)) [34; 34] field ++ [34]
  else field.

Definition toCSV (fields : list jsstring) : jsstring :=
  join [44] (List.map normalizeField fields).

Definition acknowledgmentPatterns : list regex := [
  (* /^(and |then |next |now |yes, )?(i'll|i will|i would|i can|let me) (output|return|provide|give you|format|translate)/i *)
  seqs [Bol; Opt (Grp 1 (oneOf ["and "; "then "; "next "; "now "; "yes, "]%string));
        Grp 2 (oneOf ["i'll"; "i will"; "i would"; "i can"; "let me"]%string); lit " ";
        Grp 3 (oneOf ["output"; "return"; "provide"; "give you"; "format";
                      "translate"]%string)];
  (* /^(sure|okay|yes|alright),?\s*(i'll|i will|here is|here are)/i *)
  seqs [Bol; Grp 1 (oneOf ["sure"; "okay"; "yes"; "alright"]%string);
        Opt (One (Chr 44)); star Space;
        Grp 2 (oneOf ["i'll"; "i will"; "here is"; "here are"]%string)];
  (* /\b(output|return|provide) (the |exactly )?(four|4) (csv )?(fields?|columns?)/i *)
  seqs [WordB; Grp 1 (oneOf ["output"; "return"; "provide"]%string); lit " ";
        Opt (Grp 2 (oneOf ["the "; "exactly "]%string));
        Grp 3 (oneOf ["four"; "4"]%string); lit " ";
        Opt (Grp 4 (lit "csv "));
        Grp 5 (Alt (Seq (lit "field") (Opt (One (Chr 115))))
                   (Seq (lit "column") (Opt (One (Chr 115)))))];
  (* /\bformat you (specified|requested|asked for)/i *)
  seqs [WordB; lit "format you ";
        Grp 1 (oneOf ["specified"; "requested"; "asked for"]%string)];
  (* /^(yes, )?here (is|are) (the|your) translation/i *)
  seqs [Bol; Opt (Grp 1 (lit "yes, ")); lit "here "; Grp 2 (oneOf ["is"; "are"]%string);
        lit " "; Grp 3 (oneOf ["the"; "your"]%string); lit " translation"]
].

(** /\b(Key|Category|Reasoning|Translation|CSV|fields?)\b/i *)
Definition mentionsCSVStructure : regex :=
  seqs [WordB;
        Grp 1 (alts [lit "Key"; lit "Category"; lit "Reasoning"; lit "Translation";
                     lit "CSV"; Seq (lit "field") (Opt (One (Chr 115)))]);
        WordB].

(** /translation[:\s]*(.+?)(?:,|\n|$)/i and its two siblings. *)
Definition labelled (label : string) : regex :=
  seqs [lit label; star (Cls false [IChar 58; ISpace]); Grp 1 (lazyPlus Dot);
        alts [One (Chr 44); One (Chr 10); Eol]].
Definition patterns : list regex :=
  [labelled "translation"; labelled "translated"; labelled "result"].

(** The [replace] that drops one quote or apostrophe at the start and one
    at the end. *)
Definition stripQuotes (s : jsstring) : jsstring :=
  replaceAll noflags
    (Alt (Seq Bol (One (Cls false [IChar 34; IChar 39])))
         (Seq (One (Cls false [IChar 34; IChar 39])) Eol)) [] s.

(** The group 1 of the first of [patterns] whose match has a truthy
    group 1. *)
Fixpoint firstLabelled (ps : list regex) (response : jsstring) : option jsstring :=
  match ps with
  | [] => None
  | p :: rest =>
      match exec fi p response with
      | Some m =>
          match getCapture 1 (f_caps m) with
          | Some g => if truthy g then Some g else firstLabelled rest response
          | None => firstLabelled rest response
          end
      | None => firstLabelled rest response
      end
  end.

Definition explanatoryPatterns : list regex := [
  seqs [WordB; Grp 1 (oneOf ["i'll"; "i will"; "let me"; "i would"]%string); lit " ";
        Grp 2 (oneOf ["output"; "return"; "provide"; "give you"; "format"]%string)];
  seqs [WordB; lit "format you specified"; WordB];
  seqs [WordB; lit "and i'll"; WordB];
  seqs [WordB; lit "four csv fields"; WordB];
  seqs [WordB; lit "output four csv fields"; WordB]
].

Definition errorResponse (translation reasoning : jsstring) : TranslateResponse :=
  {| translation := translation; category := js "Error"; reasoning := reasoning |}.

Definition unknownResponse (translation reasoning : jsstring) : TranslateResponse :=
  {| translation := translation; category := js "Unknown"; reasoning := reasoning |}.

(** The part of [parseWithFallbacks] after the explanatory patterns. *)
Definition acceptDirect (cleanedResponse text : jsstring)
    (targetLanguage : option jsstring) : TranslateResponse :=
  let rejected :=
    match targetLanguage with
    | Some language =>
        if truthy language && negb (has 44 cleanedResponse) then
          let validation := validateTranslationResponse cleanedResponse text language in
          if negb (isValid validation)
          then Some (errorResponse text
                       (js "Invalid response: " ++
                        match issues validation with
                        | first :: _ => first
                        | [] => js "undefined"
                        end))
          else None
        else None
    | None => None
    end in
  match rejected with
  | Some r => r
  | None =>
      if (List.length cleanedResponse <? List.length text * 3)%nat
         && negb (includes (toLowerCase cleanedResponse) (js "translate"))
         && negb (includes (toLowerCase cleanedResponse) (js "csv"))
      then unknownResponse cleanedResponse (js "Direct response assumed as translation")
      else errorResponse text (js "Failed to parse AI response")
  end.

(** The salvage of a malformed row inside Fallback 2: the second of the
    comma-separated parts, when it is not empty and not the source text. *)
Definition salvageMalformed (cleanedResponse text : jsstring)
    : Outcome (option TranslateResponse) :=
  if has 44 cleanedResponse && (2 <=? List.length (split 44 cleanedResponse))%nat then
    let parts := split 44 cleanedResponse in
    if (2 <=? List.length parts)%nat then
      second <- call (nth_error parts 1) trim ;;
      let possibleTranslation := stripQuotes second in
      if truthy possibleTranslation && negb (str_eqb possibleTranslation text)
      then Ret (Some (unknownResponse possibleTranslation
                        (js "Extracted from malformed CSV")))
      else Ret None
    else Ret None
  else Ret None.

(** [parseWithFallbacks] from Fallback 1 on. *)
Definition fallbacks (response text : jsstring) (targetLanguage : option jsstring)
    : Outcome TranslateResponse :=
  (* Fallback 1: Try to extract translation from common patterns *)
  match firstLabelled patterns response with
  | Some group1 =>
      Ret (unknownResponse (stripQuotes (trim group1)) (js "Extracted from response"))
  | None =>
      (* Fallback 2: If response looks like a translation *)
      let cleanedResponse := trim response in
      if existsb (fun pattern => test fi pattern cleanedResponse) explanatoryPatterns
      then Ret (errorResponse text
                  (js "AI returned explanatory text instead of translation"))
      else
        salvaged <- salvageMalformed cleanedResponse text ;;
        match salvaged with
        | Some r => Ret r
        | None => Ret (acceptDirect cleanedResponse text targetLanguage)
        end
  end.

Definition parseWithFallbacks (response text : jsstring)
    (targetLanguage : option jsstring) : Outcome TranslateResponse :=
  (* Early detection of acknowledgment/explanatory responses *)
  if existsb (fun pattern => test fi pattern (trim response)) acknowledgmentPatterns then
    Ret (errorResponse (js "[ERROR]")
           (js "AI returned acknowledgment text instead of translation - likely missing CSV data"))
  (* Detect incomplete responses that suggest the AI was explaining *)
  else if test fi mentionsCSVStructure response && negb (has 44 response)
          && (List.length response <? 100)%nat then
    Ret (errorResponse (js "[ERROR]")
           (js "Response mentions CSV structure without providing actual CSV"))
  else
    (* Try primary parsing *)
    parsed <- parseAIResponse response ;;
    match parsed with
    | Some p =>
        if truthy (translation p) then Ret p
        else fallbacks response text targetLanguage
    | None => fallbacks response text targetLanguage
    end.

End WithPapa.

End Parser.

(** ** The insertion-ordered [Map] of JavaScript

    [for ... of] over a [Map], [Array.from(map.values())] and [forEach]
    visit the keys in the order of their first insertion, and the batch
    parser depends on that order: a [Map] with string keys is an
    association list without repeated keys. *)

Module JsMap.
Section WithValue.
Context {V : Type}.

Definition t := list (jsstring * V).

Definition empty : t := [].

Fixpoint get (k : jsstring) (m : t) : option V :=
  match m with
  | [] => None
  | (k', v) :: rest => if str_eqb k' k then Some v else get k rest
  end.

Definition hasKey (k : jsstring) (m : t) : bool :=
  match get k m with Some _ => true | None => false end.

(** [map.set(k, v)]: a present key keeps its place. *)
Fixpoint set (k : jsstring) (v : V) (m : t) : t :=
  match m with
  | [] => [(k, v)]
  | (k', v') :: rest =>
      if str_eqb k' k then (k, v) :: rest else (k', v') :: set k v rest
  end.

Fixpoint delete (k : jsstring) (m : t) : t :=
  match m with
  | [] => []
  | (k', v') :: rest => if str_eqb k' k then rest else (k', v') :: delete k rest
  end.

Definition size (m : t) : nat := List.length m.
Definition keys (m : t) : list jsstring := List.map fst m.
Definition values (m : t) : list V := List.map snd m.
Definition entries (m : t) : list (jsstring * V) := m.

End WithValue.
Arguments t V : clear implicits.
End JsMap.

(** ** The data of a run (lib/types/translation-group.ts, lib/providers/base.ts) *)

Module Types.

Inductive Provider := openai | anthropic | google.

Record TranslationGroup := {
  id : jsstring;
  name : jsstring;
  provider : Provider;
  model : jsstring;
  systemPrompt : jsstring;
  userPrompt : jsstring;
  columnName : jsstring
}.

(** A record of the input with the columns added to it: an object with
    the three fixed properties and dynamic ones. *)
Record TranslationEntry := {
  key : jsstring;
  source : jsstring;
  english : jsstring;
  columns : JsMap.t jsstring
}.

(** [entry[name] = value] *)
Definition setColumn (name value : jsstring) (e : TranslationEntry) : TranslationEntry :=
  if str_eqb name (js "key") then
    {| key := value; source := source e; english := english e; columns := columns e |}
  else if str_eqb name (js "source") then
    {| key := key e; source := value; english := english e; columns := columns e |}
  else if str_eqb name (js "english") then
    {| key := key e; source := source e; english := value; columns := columns e |}
  else
    {| key := key e; source := source e; english := english e;
       columns := JsMap.set name value (columns e) |}.

Definition TranslationResult := Parser.TranslateResponse.

Record MergedResults := {
  entries : list TranslationEntry;
  headers : list jsstring
}.

Record TranslateOptions := {
  o_text : jsstring;
  o_key : jsstring;
  o_source : jsstring;
  o_language : jsstring;
  o_systemPrompt : jsstring;
  o_userPrompt : jsstring
}.

Record BatchTranslateOptions := {
  b_entries : list TranslationEntry;
  b_language : jsstring;
  b_systemPrompt : jsstring;
  b_userPrompt : jsstring
}.

Record BatchTranslateResponse := {
  results : JsMap.t Parser.TranslateResponse;
  errors : JsMap.t jsstring
}.

(** The abstract class [TranslationProvider] over a world [W]. *)
Record TranslationProvider (W : Type) := {
  translate : TranslateOptions -> M W Parser.TranslateResponse;
  translateBatch : BatchTranslateOptions -> M W BatchTranslateResponse
}.
Arguments translate {W} _ _.
Arguments translateBatch {W} _ _.

End Types.

(** ** Merging a retry into the previous results (the POST handler) *)

Module RetryMerge.
Import Types.

(** [entries.forEach(entry => map.set(entry.key, entry))] *)
Definition setAll (entries : list TranslationEntry) (map : JsMap.t TranslationEntry)
    : JsMap.t TranslationEntry :=
  fold_left (fun map entry => JsMap.set (key entry) entry map) entries map.

(** The block that follows [engine.processGroups] in the handler.  The
    body of the request may come without [previousResults]. *)
Definition mergeWithPrevious (previousResults : option MergedResults)
    (results : MergedResults) : MergedResults :=
  match previousResults with
  | Some previous =>
      let prevResultsMap := JsMap.empty in
      let prevResultsMap := setAll (entries previous) prevResultsMap in
      let prevResultsMap := setAll (entries results) prevResultsMap in
      {| entries := JsMap.values prevResultsMap; headers := headers results |}
  | None => results
  end.

End RetryMerge.

(** ** The Anthropic provider (lib/providers/anthropic.ts)

    The provider talks to a world: the Messages API, the clock, the random
    number generator and the timers.  The world answers the n-th request
    as [apiBehaviour] says and hands out the numbers of [randomStream];
    every provider object owns one rate limiter, kept in [limiters] under
    the number the object got when it was constructed.  [events] records
    what the world saw, with the reason of every sleep. *)

Module Anthropic.
Import Re Csv Parser Types RateLimiter.
Local Open Scope m_scope.

Record ApiRequest := {
  r_model : jsstring;
  r_max_tokens : Z;
  r_system : jsstring;
  r_prompt : jsstring
}.

(** The answer to a request: the time it took, and either the text of the
    first content block ([None] when that block is not text) or the error
    the client throws. *)
Record ApiAnswer := {
  latency : Z;
  reply : option jsstring + JsError
}.

Inductive SleepReason :=
| RateLimitWait
| Backoff (attempt : Z) (random : Q).

Inductive Event :=
| Requested (request : ApiRequest)
| Failed (error : JsError)
| Slept (reason : SleepReason) (ms : Q).

Record World := {
  clock : Z;
  apiBehaviour : nat -> ApiRequest -> ApiAnswer;
  apiCalls : nat;
  randomStream : nat -> Q;
  randomsDrawn : nat;
  limiters : list TokenRateLimiter;
  events : list Event
}.

Definition withClock (w : World) (t : Z) : World :=
  {| clock := t; apiBehaviour := apiBehaviour w; apiCalls := apiCalls w;
     randomStream := randomStream w; randomsDrawn := randomsDrawn w;
     limiters := limiters w; events := events w |}.
Definition withEvent (w : World) (e : Event) : World :=
  {| clock := clock w; apiBehaviour := apiBehaviour w; apiCalls := apiCalls w;
     randomStream := randomStream w; randomsDrawn := randomsDrawn w;
     limiters := limiters w; events := events w ++ [e] |}.
Definition withLimiters (w : World) (ls : list TokenRateLimiter) : World :=
  {| clock := clock w; apiBehaviour := apiBehaviour w; apiCalls := apiCalls w;
     randomStream := randomStream w; randomsDrawn := randomsDrawn w;
     limiters := ls; events := events w |}.

(** [this.delay(ms)]: the timer fires after [ms], at a whole millisecond. *)
Definition delay (reason : SleepReason) (ms : Q) : M World unit :=
  fun w => (Ret tt, withEvent (withClock w (clock w + Qceiling ms)) (Slept reason ms)).

(** [Math.random()] *)
Definition random : M World Q :=
  fun w =>
    (Ret (randomStream w (randomsDrawn w)),
     {| clock := clock w; apiBehaviour := apiBehaviour w; apiCalls := apiCalls w;
        randomStream := randomStream w; randomsDrawn := S (randomsDrawn w);
        limiters := limiters w; events := events w |}).

(** [await this.client.messages.create(...)] followed by the reading of
    [message.content[0]]. *)
Definition messagesCreate (request : ApiRequest) : M World jsstring :=
  fun w =>
    let answer := apiBehaviour w (apiCalls w) request in
    let w' :=
      {| clock := clock w + latency answer; apiBehaviour := apiBehaviour w;
         apiCalls := S (apiCalls w); randomStream := randomStream w;
         randomsDrawn := randomsDrawn w; limiters := limiters w;
         events := events w ++ [Requested request] |} in
    match reply answer with
    | inl (Some text) => (Ret text, w')
    | inl None => (Ret [], w')
    | inr error => (Throw error, withEvent w' (Failed error))
    end.

(** A method of the rate limiter of provider object [self], run at the
    current time. *)
Definition onLimiter {A} (self : nat)
    (method : Z -> TokenRateLimiter -> A * TokenRateLimiter) : M World A :=
  fun w =>
    let limiter := nth self (limiters w) (create 200000) in
    let '(a, limiter') := method (clock w) limiter in
    (Ret a, withLimiters w (firstn self (limiters w) ++ limiter' :: skipn (S self) (limiters w))).

Definition rateLimitRetries : Z := 3.
Definition initialRetryDelay : Z := 2000.

(** [isRateLimitError] *)
Definition isRateLimitError (error : JsError) : bool :=
  match error with
  | ErrorObj message =>
      includes message (js "429") || includes message (js "rate_limit_error")
      || includes message (js "rate limit")
  | Thrown => false
  end.

(** [calculateBackoffDelay], with the value of [Math.random()] as an
    argument.  [Math.pow(2, attempt - 1)] is a power of two and exact; the
    two products and the sum are rounded to doubles. *)
Definition calculateBackoffDelay (attempt : Z) (random : Q) : Q :=
  let baseDelay := Double.mul (inject_Z initialRetryDelay) (Qpower 2 (attempt - 1)) in
  let jitter := Double.mul random 1000 in
  Qmin (Double.add baseDelay jitter) 30000.

(** The prompts that expect CSV. *)
Definition isCSVPrompt (prompt : jsstring) : bool :=
  includes prompt (js "CSV snippet below")
  || includes prompt (js "For each entry in the CSV")
  || includes prompt (js "For each row in the CSV")
  || includes prompt (js "For every row you receive")
  || includes prompt (js "CSV format")
  || includes prompt (js "output four CSV fields")
  || includes prompt (js "output exactly four CSV fields").

(** [prompt.replace(/\{\{name\}\}/g, value)] *)
Definition replaceMacro (name : string) (value prompt : jsstring) : jsstring :=
  replaceAll noflags (lit_units (js "{{" ++ js name ++ js "}}")) value prompt.

Definition csvRowOf (key source text : jsstring) : jsstring :=
  escapeCSV key ++ js "," ++ escapeCSV source ++ js "," ++ escapeCSV text.

Definition singlePrompt (options : TranslateOptions) : jsstring :=
  let csvRow := csvRowOf (o_key options) (o_source options) (o_text options) in
  let csvWithHeaders := js "Key,Source,English Original" ++ [NEWLINE] ++ csvRow in
  let prompt := o_userPrompt options in
  let isCSV := isCSVPrompt prompt in
  let prompt := replaceMacro "csv_row" csvRow prompt in
  let prompt := replaceMacro "csv" csvWithHeaders prompt in
  let prompt := replaceMacro "key" (o_key options) prompt in
  let prompt := replaceMacro "source" (o_source options) prompt in
  let prompt := replaceMacro "english" (o_text options) prompt in
  let prompt := replaceMacro "text" (o_text options) prompt in
  let prompt := replaceMacro "language" (o_language options) prompt in
  if isCSV && negb (includes (o_userPrompt options) (js "{{csv_row}}"))
     && negb (includes (o_userPrompt options) (js "{{csv}}"))
     && negb (includes (o_userPrompt options) (js "{{key}}"))
  then prompt ++ [NEWLINE; NEWLINE] ++ csvWithHeaders
  else prompt.

Section WithPapa.
Variable Papa_parse : jsstring -> list (list jsstring).

(** [TranslationProvider.parseResponse] (lib/providers/base.ts) *)
Definition parseResponse (response originalText : jsstring) (language : option jsstring)
    : Outcome TranslateResponse :=
  parseWithFallbacks Papa_parse response originalText language.

(** The [for] loop of [parseCSVResponse]: the first line that decides. *)
Fixpoint firstCSVRow (lines : list jsstring) (count : nat)
    (expectedKey originalText : jsstring) : option TranslateResponse :=
  match lines with
  | [] => None
  | line :: rest =>
      if negb (truthy (trim line)) then firstCSVRow rest count expectedKey originalText
      else
        let fields := parseCSVLine line in
        if (4 <=? List.length fields)%nat then
          let key := nth 0 fields [] in
          if str_eqb key expectedKey || (count =? 1)%nat then
            Some {| translation := orElse (nth_error fields 1) originalText;
                    category := orElse (nth_error fields 2) (js "Unknown");
                    reasoning := orElse (nth_error fields 3) (js "Parsed from CSV response") |}
          else firstCSVRow rest count expectedKey originalText
        else if (2 <=? List.length fields)%nat then
          Some {| translation := nth 1 fields [];
                  category := orElse (nth_error fields 2) (js "Unknown");
                  reasoning := orElse (nth_error fields 3)
                                 (js "Parsed from partial CSV response") |}
        else firstCSVRow rest count expectedKey originalText
  end.

Definition parseCSVResponse (response expectedKey originalText : jsstring)
    (language : option jsstring) : Outcome TranslateResponse :=
  let lines := split NEWLINE (trim response) in
  match firstCSVRow lines (List.length lines) expectedKey originalText with
  | Some r => Ret r
  | None =>
      match parseResponse response originalText language with
      | Throw _ => parseResponse response originalText language
      | other => other
      end
  end.

(** The body of the [try] block of [translateWithRetry].  The message
    written to the console before a wait reads the usage percentage, which
    prunes the log once more at the same clock reading and changes
    nothing. *)
Definition translateOnce (self : nat) (model : jsstring) (options : TranslateOptions)
    : M World TranslateResponse :=
  let prompt := singlePrompt options in
  let isCSV := isCSVPrompt (o_userPrompt options) in
  let estimatedTokens := estimateRequestTokens (o_systemPrompt options) prompt 1000 in
  wait <- onLimiter self (fun now => getRequiredDelay now estimatedTokens) ;;
  (if (0 <? wait)%Z then delay RateLimitWait (inject_Z wait) else ret tt) ;;;
  response <- messagesCreate {| r_model := model; r_max_tokens := 1000;
                                r_system := o_systemPrompt options;
                                r_prompt := prompt |} ;;
  onLimiter self (fun now l => (tt, recordUsage now estimatedTokens l)) ;;;
  lift (if isCSV
        then parseCSVResponse response (o_key options) (o_text options)
               (Some (o_language options))
        else parseResponse response (o_text options) (Some (o_language options))).

(** [translateWithRetry].  The recursion of the source ends because
    [attempt] grows past [rateLimitRetries]; [fuel] bounds its depth. *)
Fixpoint translateWithRetry (fuel : nat) (self : nat) (model : jsstring)
    (options : TranslateOptions) (attempt : Z) : M World TranslateResponse :=
  tryCatch (translateOnce self model options)
    (fun error =>
       if isRateLimitError error && (attempt <=? rateLimitRetries)%Z then
         match fuel with
         | O => diverge
         | S fuel' =>
             r <- random ;;
             delay (Backoff attempt r) (calculateBackoffDelay attempt r) ;;;
             translateWithRetry fuel' self model options (attempt + 1)
         end
       else throw (ErrorObj (js "Anthropic translation failed: " ++ messageOf error))).

Definition translate (self : nat) (model : jsstring) (options : TranslateOptions)
    : M World TranslateResponse :=
  translateWithRetry (Z.to_nat rateLimitRetries) self model options 1.

(** [key.toLowerCase().replace(/[^a-z0-9]/g, '')] *)
Definition normalizeKey (key : jsstring) : jsstring :=
  replaceAll noflags (One (Cls true [IRange 97 122; IRange 48 57])) [] (toLowerCase key).

(** The lines of a batch response written into the [Map], in order. *)
Fixpoint readRows (lines : list jsstring) (results : JsMap.t TranslateResponse)
    : JsMap.t TranslateResponse :=
  match lines with
  | [] => results
  | raw :: rest =>
      let line := trim raw in
      if negb (truthy line) then readRows rest results
      else
        let fields := parseCSVLine line in
        if (4 <=? List.length fields)%nat then
          let key := nth 0 fields [] in
          if JsMap.hasKey key results then readRows rest results
          else
            readRows rest
              (JsMap.set key
                 {| translation := orElse (nth_error fields 1) [];
                    category := orElse (nth_error fields 2) (js "Unknown");
                    reasoning := orElse (nth_error fields 3) (js "Batch translated") |}
                 results)
        else if (2 <=? List.length fields)%nat then
          let key := nth 0 fields [] in
          readRows rest
            (JsMap.set key
               {| translation := orElse (nth_error fields 1) [];
                  category := orElse (nth_error fields 2) (js "Unknown");
                  reasoning := orElse (nth_error fields 3) (js "Partial response") |}
               results)
        else readRows rest results
  end.

(** The inner loop of the fuzzy matching: the first parsed key, in the
    order of the [Map], whose normal form is that of the entry's key. *)
Definition findNormalized (normalizedKey : jsstring) (results : JsMap.t TranslateResponse)
    : option (jsstring * TranslateResponse) :=
  List.find (fun kv => str_eqb (normalizeKey (fst kv)) normalizedKey)
    (JsMap.entries results).

(** The outer loop of the fuzzy matching. *)
Fixpoint fuzzyMatch (entries : list TranslationEntry) (results : JsMap.t TranslateResponse)
    : JsMap.t TranslateResponse :=
  match entries with
  | [] => results
  | entry :: rest =>
      if negb (JsMap.hasKey (key entry) results) then
        let normalizedKey := normalizeKey (key entry) in
        match findNormalized normalizedKey results with
        | Some (parsedKey, value) =>
            fuzzyMatch rest (JsMap.delete parsedKey (JsMap.set (key entry) value results))
        | None => fuzzyMatch rest results
        end
      else fuzzyMatch rest results
  end.

Definition parseBatchCSVResponse (response : jsstring) (entries : list TranslationEntry)
    : JsMap.t TranslateResponse :=
  (* /^```csv\s*/gm, /^```\s*/gm, /\s*```$/gm *)
  let cleanResponse := replaceAll fm (seqs [Bol; lit "```csv"; star Space]) [] response in
  let cleanResponse := replaceAll fm (seqs [Bol; lit "```"; star Space]) [] cleanResponse in
  let cleanResponse := replaceAll fm (seqs [star Space; lit "```"; Eol]) [] cleanResponse in
  let cleanResponse := trim cleanResponse in
  let lines := List.filter (fun line => truthy (trim line)) (split NEWLINE cleanResponse) in
  let startIndex :=
    match lines with
    | firstLine :: _ =>
        if includes (toLowerCase firstLine) (js "key")
           && includes (toLowerCase firstLine) (js "translation")
        then 1%nat else 0%nat
    | [] => 0%nat
    end in
  let results := readRows (skipn startIndex lines) JsMap.empty in
  (* If we didn't get all entries, try fuzzy matching *)
  if (JsMap.size results <? List.length entries)%nat
  then fuzzyMatch entries results
  else results.

Definition batchPrompt (options : BatchTranslateOptions) : jsstring :=
  let csvHeaders := js "Key,Source,English Original" in
  let csvRows := join [NEWLINE]
    (List.map (fun entry => csvRowOf (key entry) (source entry) (english entry))
       (b_entries options)) in
  let fullCSV := csvHeaders ++ [NEWLINE] ++ csvRows in
  let entryCount := ofN (N.of_nat (List.length (b_entries options))) in
  let prompt := b_userPrompt options in
  let isCSV := isCSVPrompt prompt in
  let prompt := replaceMacro "csv" fullCSV prompt in
  let prompt := replaceMacro "entries_count" entryCount prompt in
  let prompt := replaceMacro "language" (b_language options) prompt in
  if isCSV && negb (includes (b_userPrompt options) (js "{{csv}}"))
  then prompt ++ [NEWLINE; NEWLINE] ++ js "ENTRIES (" ++ entryCount ++ js " total):"
       ++ [NEWLINE] ++ js "<<<" ++ [NEWLINE] ++ fullCSV ++ [NEWLINE] ++ js ">>>"
       ++ [NEWLINE; NEWLINE] ++ js "REMINDER: Return exactly " ++ entryCount
       ++ js " output rows, one for each input entry above."
  else prompt.

Definition missingFromBatch : TranslateResponse :=
  {| translation := js "[ERROR]"; category := js "Error";
     reasoning := js "Missing from batch response" |}.

(** The loop that maps the parsed rows to the entries of the batch. *)
Fixpoint mapResults (entries : list TranslationEntry) (parsed : JsMap.t TranslateResponse)
    (acc : BatchTranslateResponse) : BatchTranslateResponse :=
  match entries with
  | [] => acc
  | entry :: rest =>
      match JsMap.get (key entry) parsed with
      | Some result =>
          mapResults rest parsed
            {| results := JsMap.set (key entry) result (results acc);
               errors := errors acc |}
      | None =>
          mapResults rest parsed
            {| results := JsMap.set (key entry) missingFromBatch (results acc);
               errors := JsMap.set (key entry) (js "No translation found in response")
                           (errors acc) |}
      end
  end.

(** The loop of the [catch] block that marks every entry as failed. *)
Fixpoint markAllFailed (entries : list TranslationEntry) (error : JsError)
    (acc : BatchTranslateResponse) : BatchTranslateResponse :=
  match entries with
  | [] => acc
  | entry :: rest =>
      let errorMsg := messageOf error in
      markAllFailed rest error
        {| results := JsMap.set (key entry)
                        {| translation := js "[ERROR]"; category := js "Error";
                           reasoning := js "Batch translation failed: " ++ errorMsg |}
                        (results acc);
           errors := JsMap.set (key entry) errorMsg (errors acc) |}
  end.

Definition emptyBatch : BatchTranslateResponse :=
  {| results := JsMap.empty; errors := JsMap.empty |}.

(** The body of the [try] block of [translateBatchWithRetry].  The call
    of the API is the only step that can throw, and it comes before the
    first write to [results] and [errors]; the logging of the response
    changes neither. *)
Definition translateBatchOnce (self : nat) (model : jsstring)
    (options : BatchTranslateOptions) : M World BatchTranslateResponse :=
  let prompt := batchPrompt options in
  let entryCount := Z.of_nat (List.length (b_entries options)) in
  let responseTokens := (1000 * Z.min entryCount 10)%Z in
  let estimatedTokens :=
    estimateRequestTokens (b_systemPrompt options) prompt responseTokens in
  wait <- onLimiter self (fun now => getRequiredDelay now estimatedTokens) ;;
  (if (0 <? wait)%Z then delay RateLimitWait (inject_Z wait) else ret tt) ;;;
  response <- messagesCreate {| r_model := model; r_max_tokens := responseTokens;
                                r_system := b_systemPrompt options;
                                r_prompt := prompt |} ;;
  onLimiter self (fun now l => (tt, recordUsage now estimatedTokens l)) ;;;
  let parsed := parseBatchCSVResponse response (b_entries options) in
  ret (mapResults (b_entries options) parsed emptyBatch).

Fixpoint translateBatchWithRetry (fuel : nat) (self : nat) (model : jsstring)
    (options : BatchTranslateOptions) (attempt : Z) : M World BatchTranslateResponse :=
  tryCatch (translateBatchOnce self model options)
    (fun error =>
       if isRateLimitError error && (attempt <=? rateLimitRetries)%Z then
         match fuel with
         | O => diverge
         | S fuel' =>
             r <- random ;;
             delay (Backoff attempt r) (calculateBackoffDelay attempt r) ;;;
             translateBatchWithRetry fuel' self model options (attempt + 1)
         end
       else ret (markAllFailed (b_entries options) error emptyBatch)).

Definition translateBatch (self : nat) (model : jsstring) (options : BatchTranslateOptions)
    : M World BatchTranslateResponse :=
  translateBatchWithRetry (Z.to_nat rateLimitRetries) self model options 1.

(** [new AnthropicProvider(apiKey, model)]: a new object with a new rate
    limiter for 200,000 tokens per minute. *)
Definition newProvider (apiKey model : jsstring) : M World (TranslationProvider World) :=
  fun w =>
    let self := List.length (limiters w) in
    (Ret {| Types.translate := translate self model;
            Types.translateBatch := translateBatch self model |},
     withLimiters w (limiters w ++ [create 200000])).

End WithPapa.

End Anthropic.

(** ** The parallel translation engine (lib/utils/csv-merger.ts)

    The result table is a [Map] from group ids to [Map]s from record keys
    to results; the engine only reads and writes it by key, so it is a
    [gmap].  The engine is written over any world [W] and any way to
    construct providers.  Promises that [Promise.all] runs together are
    run here one after the other, in the order of their array, which is
    one of the schedules the source allows.  What is proved of the engine
    is stated so that it holds under every schedule: which entries a
    table has, and which request an entry is the outcome of, in whichever
    worlds that request ran; never the order in which the requests of a
    batch reach the provider. *)

Module Engine.
Import Types Parser.
Local Open Scope m_scope.

#[global] Instance jsstring_eq_dec : EqDecision jsstring := _.
#[global] Instance jsstring_countable : Countable jsstring := _.

Abbreviation GroupTable := (gmap jsstring TranslationResult).
Abbreviation ResultTable := (gmap jsstring (gmap jsstring TranslationResult)).

Definition groupHeaders (includeMetadata : bool) (group : TranslationGroup) : list jsstring :=
  columnName group ::
  (if includeMetadata
   then [columnName group ++ js " Category"; columnName group ++ js " Reasoning"]
   else []).

(** The columns one group adds to a record. *)
Definition mergeGroup (results : ResultTable) (includeMetadata : bool)
    (entryKey : jsstring) (mergedEntry : TranslationEntry) (group : TranslationGroup)
    : TranslationEntry :=
  match results !! id group with
  | Some groupResults =>
      let '(translation, category, reasoning) :=
        match groupResults !! entryKey with
        | Some result =>
            (Parser.translation result, Parser.category result, Parser.reasoning result)
        | None => ([], [], [])
        end in
      let mergedEntry := setColumn (columnName group) translation mergedEntry in
      if includeMetadata then
        setColumn (columnName group ++ js " Reasoning") reasoning
          (setColumn (columnName group ++ js " Category") category mergedEntry)
      else mergedEntry
  | None => mergedEntry
  end.

Definition mergeTranslationResults (originalEntries : list TranslationEntry)
    (groups : list TranslationGroup) (results : ResultTable) (includeMetadata : bool)
    : MergedResults :=
  let baseHeaders := [js "Key"; js "Source"; js "English Original"] in
  let translationHeaders := flat_map (groupHeaders includeMetadata) groups in
  {| entries :=
       List.map (fun entry =>
                   fold_left (mergeGroup results includeMetadata (key entry)) groups entry)
         originalEntries;
     headers := baseHeaders ++ translationHeaders |}.

Record ProviderBatchConfig := {
  concurrentBatches : nat;
  batchSize : nat;
  delayMs : Z
}.

(** The options after the constructor has filled in its defaults. *)
Record EngineOptions := {
  openaiKey : jsstring;
  anthropicKey : jsstring;
  googleKey : jsstring;
  openaiConfig : ProviderBatchConfig;
  anthropicConfig : ProviderBatchConfig;
  googleConfig : ProviderBatchConfig
}.

Record ParallelEngineOptions := {
  in_openaiKey : option jsstring;
  in_anthropicKey : option jsstring;
  in_googleKey : option jsstring;
  in_openai : option ProviderBatchConfig;
  in_anthropic : option ProviderBatchConfig;
  in_google : option ProviderBatchConfig
}.

Definition newEngine (options : ParallelEngineOptions) : EngineOptions :=
  {| openaiKey := orElse (in_openaiKey options) [];
     anthropicKey := orElse (in_anthropicKey options) [];
     googleKey := orElse (in_googleKey options) [];
     openaiConfig := default {| concurrentBatches := 3; batchSize := 5; delayMs := 1000 |}
                       (in_openai options);
     anthropicConfig := default {| concurrentBatches := 2; batchSize := 5; delayMs := 2000 |}
                          (in_anthropic options);
     googleConfig := default {| concurrentBatches := 3; batchSize := 5; delayMs := 1000 |}
                       (in_google options) |}.

Definition configOf (options : EngineOptions) (p : Provider) : ProviderBatchConfig :=
  match p with
  | openai => openaiConfig options
  | anthropic => anthropicConfig options
  | google => googleConfig options
  end.

Definition apiKeyOf (options : EngineOptions) (p : Provider) : jsstring :=
  match p with
  | openai => openaiKey options
  | anthropic => anthropicKey options
  | google => googleKey options
  end.

Definition provider_eqb (a b : Provider) : bool :=
  match a, b with
  | openai, openai | anthropic, anthropic | google, google => true
  | _, _ => false
  end.

(** [groupByProvider(groups)[p]] *)
Definition groupsOf (p : Provider) (groups : list TranslationGroup) : list TranslationGroup :=
  List.filter (fun group => provider_eqb (provider group) p) groups.

Record Task := {
  t_entry : TranslationEntry;
  t_group : TranslationGroup;
  t_groupIndex : nat
}.

(** The loop of [createBatches] from index [i] on.  With a [batchSize]
    of at least 1 it ends within [List.length items] rounds.  With a
    [batchSize] of 0 and items left, [i] stays where it is and every round
    pushes one more empty slice: there is no list of batches, [None]. *)
Fixpoint createBatches_from {T} (fuel : nat) (items : list T) (batchSize i : nat)
    : option (list (list T)) :=
  if (i <? List.length items)%nat then
    match fuel with
    | O => None
    | S fuel' =>
        option_map (cons (firstn batchSize (skipn i items)))
          (createBatches_from fuel' items batchSize (i + batchSize))
    end
  else Some [].

Definition createBatches {T} (items : list T) (batchSize : nat) : option (list (list T)) :=
  createBatches_from (List.length items) items batchSize 0.

Definition errorResult (error : JsError) : TranslationResult :=
  {| translation := js "[ERROR]"; category := js "Error"; reasoning := messageOf error |}.

Definition optionsOf (entry : TranslationEntry) (group : TranslationGroup) : TranslateOptions :=
  {| o_text := english entry; o_key := key entry; o_source := source entry;
     o_language := name group; o_systemPrompt := systemPrompt group;
     o_userPrompt := userPrompt group |}.

Definition cancelled : JsError := ErrorObj (js "Translation cancelled").

Section WithWorld.
Context {W : Type}.

(** [createProvider] of lib/providers/index.ts, [abortSignal?.aborted],
    [this.delay] and the progress callback. *)
Variable createProvider : Provider -> jsstring -> jsstring -> M W (TranslationProvider W).
Variable aborted : W -> bool.
Variable sleep : Z -> M W unit.
Variable onGroupProgress : option (jsstring -> Z -> M W unit).

Definition checkAborted : M W unit :=
  fun w => if aborted w then (Throw cancelled, w) else (Ret tt, w).

Definition processMixedBatch (batch : list Task) (apiKey : jsstring)
    : M W (list TranslationResult) :=
  mapM (fun task =>
          provider <- createProvider (provider (t_group task)) apiKey (model (t_group task)) ;;
          tryCatch (translate provider (optionsOf (t_entry task) (t_group task)))
            (fun error => ret (errorResult error)))
    batch.

Definition ProviderState := (ResultTable * gmap jsstring nat)%type.

(** [Math.round((currentProgress + 1) / entries.length * 100)]: the
    quotient and the product are doubles.  A task has a record, so
    [total] is not zero where the engine computes a progress. *)
Definition progressOf (completed total : nat) : Z :=
  Double.mathRound
    (Double.mul (Double.div (inject_Z (Z.of_nat completed)) (inject_Z (Z.of_nat total))) 100).

(** The body of [batchResults.forEach] in [processProviderGroups]. *)
Definition distribute (entryCount : nat) (st : ProviderState)
    (item : Task * TranslationResult) : M W ProviderState :=
  let '(groupResults, groupProgress) := st in
  let '(task, result) := item in
  match groupResults !! id (t_group task) with
  | Some groupResult =>
      let groupResults :=
        <[id (t_group task) := <[key (t_entry task) := result]> groupResult]> groupResults in
      let currentProgress := default 0%nat (groupProgress !! id (t_group task)) in
      let groupProgress := <[id (t_group task) := S currentProgress]> groupProgress in
      let progress := progressOf (S currentProgress) entryCount in
      match onGroupProgress with
      | Some callback => callback (id (t_group task)) progress
      | None => ret tt
      end ;;;
      ret (groupResults, groupProgress)
  | None => ret st
  end.

Definition runBatch (entryCount : nat) (apiKey : jsstring) (st : ProviderState)
    (batch : list Task) : M W ProviderState :=
  batchResults <- processMixedBatch batch apiKey ;;
  foldM (distribute entryCount) (combine batch batchResults) st.

(** The loop over the waves of [processProviderGroups], from index [i]. *)
Fixpoint waves (fuel : nat) (config : ProviderBatchConfig) (entryCount : nat)
    (apiKey : jsstring) (batches : list (list Task)) (i : nat) (st : ProviderState)
    : M W ProviderState :=
  if (i <? List.length batches)%nat then
    match fuel with
    | O => diverge
    | S fuel' =>
        checkAborted ;;;
        let concurrent := firstn (concurrentBatches config) (skipn i batches) in
        st <- foldM (runBatch entryCount apiKey) concurrent st ;;
        (if (i + concurrentBatches config <? List.length batches)%nat
            && (0 <? delayMs config)%Z
         then checkAborted ;;; sleep (delayMs config)
         else ret tt) ;;;
        waves fuel' config entryCount apiKey batches (i + concurrentBatches config) st
    end
  else ret st.

Definition allTasks (entries : list TranslationEntry) (groups : list TranslationGroup)
    : list Task :=
  flat_map (fun ig => List.map (fun entry => {| t_entry := entry; t_group := snd ig;
                                                t_groupIndex := fst ig |}) entries)
    (combine (seq 0 (List.length groups)) groups).

Definition emptyTables (groups : list TranslationGroup) : ResultTable :=
  fold_left (fun results group => <[id group := ∅]> results) groups ∅.

Definition zeroProgress (groups : list TranslationGroup) : gmap jsstring nat :=
  fold_left (fun progress group => <[id group := 0%nat]> progress) groups ∅.

Definition processProviderGroups (options : EngineOptions) (p : Provider)
    (entries : list TranslationEntry) (groups : list TranslationGroup)
    : M W ResultTable :=
  let providerConfig := configOf options p in
  let apiKey := apiKeyOf options p in
  if negb (truthy apiKey) then
    (* Return empty results for all groups *)
    ret (emptyTables groups)
  else
    let tasks := allTasks entries groups in
    let groupResults := emptyTables groups in
    let groupProgress := zeroProgress groups in
    match createBatches tasks (batchSize providerConfig) with
    | None => exhaust
    | Some batches =>
        st <- waves (List.length batches) providerConfig (List.length entries) apiKey
                batches 0 (groupResults, groupProgress) ;;
        ret (fst st)
    end.

(** One of the three blocks of [processGroups]: the provider's groups,
    when there are any, and the copy of its tables into [allResults]. *)
Definition runProvider (options : EngineOptions) (entries : list TranslationEntry)
    (groups : list TranslationGroup) (allResults : ResultTable) (p : Provider)
    : M W ResultTable :=
  match groupsOf p groups with
  | [] => ret allResults
  | mine =>
      results <- processProviderGroups options p entries mine ;;
      ret (results ∪ allResults)
  end.

(** [processGroups] up to [await Promise.all(providerPromises)]: the
    result table. *)
Definition collectResults (options : EngineOptions) (entries : list TranslationEntry)
    (groups : list TranslationGroup) : M W ResultTable :=
  checkAborted ;;;
  foldM (runProvider options entries groups) [openai; anthropic; google] ∅.

Definition processGroups (options : EngineOptions) (entries : list TranslationEntry)
    (groups : list TranslationGroup) (includeMetadata : bool) : M W MergedResults :=
  allResults <- collectResults options entries groups ;;
  ret (mergeTranslationResults entries groups allResults includeMetadata).

(** [processBatch]: one request for the batch, and single requests when
    that request throws. *)
Definition processBatch (batch : list TranslationEntry) (group : TranslationGroup)
    (provider : TranslationProvider W) : M W (JsMap.t TranslationResult) :=
  tryCatch
    (batchResponse <- translateBatch provider
                        {| b_entries := batch; b_language := name group;
                           b_systemPrompt := systemPrompt group;
                           b_userPrompt := userPrompt group |} ;;
     ret (fold_left (fun batchResults kv => JsMap.set (fst kv) (snd kv) batchResults)
            (JsMap.entries (results batchResponse)) JsMap.empty))
    (fun error =>
       (* Fallback to individual translations if batch fails *)
       foldM (fun batchResults entry =>
                tryCatch
                  (response <- translate provider (optionsOf entry group) ;;
                   ret (JsMap.set (key entry) response batchResults))
                  (fun individualError =>
                     ret (JsMap.set (key entry) (errorResult individualError) batchResults)))
         batch JsMap.empty).

End WithWorld.

End Engine.

(** ** The merged records as CSV text (lib/utils/csv-merger.ts) *)

Module Output.
Import Types Csv Re.

(** [entry[name]] for a property the record has of its own: the three
    fixed properties and the columns added to it. *)
Definition getProp (name : jsstring) (e : TranslationEntry) : option jsstring :=
  if str_eqb name (js "key") then Some (key e)
  else if str_eqb name (js "source") then Some (source e)
  else if str_eqb name (js "english") then Some (english e)
  else JsMap.get name (columns e).

(** The names every object inherits from [Object.prototype]. *)
Definition inheritedNames : list jsstring :=
  [js "constructor"; js "__proto__"; js "hasOwnProperty"; js "isPrototypeOf";
   js "propertyIsEnumerable"; js "toLocaleString"; js "toString"; js "valueOf";
   js "__defineGetter__"; js "__defineSetter__"; js "__lookupGetter__";
   js "__lookupSetter__"].

Definition inherited (name : jsstring) : bool := existsb (str_eqb name) inheritedNames.

(** The headers of the output mapped to the internal field names. *)
Definition fieldNameOf (header : jsstring) : jsstring :=
  if str_eqb header (js "Key") then js "key"
  else if str_eqb header (js "Source") then js "source"
  else if str_eqb header (js "English Original") then js "english"
  else header.

(** [String(entry[fieldName] || '')].  For an inherited name that the
    record does not have of its own the value is a function or an object,
    and its text is left to the implementation: there the model has no
    value. *)
Definition valueOf (entry : TranslationEntry) (header : jsstring) : option jsstring :=
  let fieldName := fieldNameOf header in
  match getProp fieldName entry with
  | Some value => Some (if truthy value then value else [])
  | None => if inherited fieldName then None else Some []
  end.

(** The value in quotes, its quotes doubled. *)
Definition quote (value : jsstring) : jsstring :=
  [QUOTE] ++ replaceAll noflags (One (Chr QUOTE)) [QUOTE; QUOTE] value ++ [QUOTE].

Definition cell (entry : TranslationEntry) (header : jsstring) : option jsstring :=
  option_map quote (valueOf entry header).

(** The values of a list, when every one of them is there. *)
Fixpoint allOf {A} (l : list (option A)) : option (list A) :=
  match l with
  | [] => Some []
  | Some x :: rest => option_map (cons x) (allOf rest)
  | None :: _ => None
  end.

Definition headerRow (headers : list jsstring) : jsstring :=
  join [COMMA] (List.map (fun h => [QUOTE] ++ h ++ [QUOTE]) headers).

Definition dataRow (headers : list jsstring) (entry : TranslationEntry) : option jsstring :=
  option_map (join [COMMA]) (allOf (List.map (cell entry) headers)).

Definition generateCSVContent (entries : list TranslationEntry) (headers : list jsstring)
    : option jsstring :=
  option_map (fun dataRows => join [NEWLINE] (headerRow headers :: dataRows))
    (allOf (List.map (dataRow headers) entries)).

End Output.

(** ** Validation of the uploaded records (validateCSVData in lib/utils/csv-parser.ts) *)

Module CsvData.
Import Types.

Record ValidationResult := {
  valid : bool;
  errors : list jsstring
}.

(** The body of [data.forEach]: the errors so far and the [Set] of the
    keys seen. *)
Definition checkRow (st : list jsstring * gset jsstring) (item : nat * TranslationEntry)
    : list jsstring * gset jsstring :=
  let '(errors, seenKeys) := st in
  let '(index, entry) := item in
  let rowNum := ofN (N.of_nat index + 2) in
  let errors :=
    if negb (truthy (key entry))
    then errors ++ [js "Row " ++ rowNum ++ js ": Missing key"] else errors in
  let errors :=
    if negb (truthy (source entry))
    then errors ++ [js "Row " ++ rowNum ++ js ": Missing source text"] else errors in
  let errors :=
    if negb (truthy (english entry))
    then errors ++ [js "Row " ++ rowNum ++ js ": Missing English text"] else errors in
  if truthy (key entry) && bool_decide (key entry ∈ seenKeys) then
    (errors ++ [js "Row " ++ rowNum ++ js ": Duplicate key " ++ [34] ++ key entry ++ [34]],
     seenKeys)
  else if truthy (key entry) then (errors, {[key entry]} ∪ seenKeys)
  else (errors, seenKeys).

Definition validateCSVData (data : list TranslationEntry) : ValidationResult :=
  let '(errors, _) :=
    fold_left checkRow (combine (seq 0 (List.length data)) data) ([], ∅) in
  {| valid := (List.length errors =? 0)%nat; errors := errors |}.

End CsvData.
(** * Properties *)
(** ** Strings *)

Section CaseFolding.

Lemma lowerOne_length (afterCased : bool) (c : N) (rest : jsstring) :
  (1 <= List.length (lowerOne afterCased c rest))%nat.
Proof.
  unfold lowerOne. destruct (c =? 304); [cbn; lia|].
  destruct (c =? 931); [cbn; lia|]. cbn zeta.
  destruct (_ <? 65536); cbn; lia.
Qed.

Lemma lowerPair_length (high low : N) : List.length (lowerPair high low) = 2%nat.
Proof. unfold lowerPair. cbn zeta. now destruct (65536 <=? _). Qed.

Lemma lower_go_pair (afterCased : bool) (c low : N) (rest : jsstring) :
  lower_go afterCased (c :: low :: rest) =
  if Unicode.isHighSurrogate c && Unicode.isLowSurrogate low
  then lowerPair c low ++ lower_go (nextCased afterCased (Unicode.pairPoint c low)) rest
  else lowerOne afterCased c (low :: rest) ++ lower_go (nextCased afterCased c) (low :: rest).
Proof. reflexivity. Qed.

Lemma lower_go_length (n : nat) :
  forall (s : jsstring) (afterCased : bool),
    (List.length s <= n)%nat ->
    (List.length s <= List.length (lower_go afterCased s))%nat.
Proof.
  induction n as [|n IH]; intros s afterCased Hn.
  - destruct s; [cbn; lia | cbn in Hn; lia].
  - destruct s as [|c [|low rest']]; [cbn; lia | |].
    + cbn [lower_go]. rewrite length_app.
      pose proof (lowerOne_length afterCased c []). cbn. lia.
    + rewrite lower_go_pair. cbn [List.length] in Hn.
      destruct (Unicode.isHighSurrogate c && Unicode.isLowSurrogate low).
      * rewrite length_app, lowerPair_length.
        specialize (IH rest' (nextCased afterCased (Unicode.pairPoint c low))).
        cbn [List.length]. lia.
      * rewrite length_app.
        pose proof (lowerOne_length afterCased c (low :: rest')).
        specialize (IH (low :: rest') (nextCased afterCased c)).
        cbn [List.length] in *. lia.
Qed.

(** [toLowerCase] never makes a string shorter. *)
Lemma toLowerCase_length (s : jsstring) :
  (List.length s <= List.length (toLowerCase s))%nat.
Proof. apply (lower_go_length (List.length s)). lia. Qed.

(** On Basic Latin [toLowerCase] works code unit by code unit. *)
Example toLowerCase_ascii :
  toLowerCase (js "Menu_Settings: OK") = js "menu_settings: ok".
Proof. vm_compute. reflexivity. Qed.

(** Cyrillic, the Kelvin sign, the dotted capital I, the two sigmas and a
    letter above U+FFFF. *)
Example toLowerCase_beyond_latin :
  toLowerCase [1055; 1056; 1048; 1042; 1045; 1058] = [1087; 1088; 1080; 1074; 1077; 1090] /\
  toLowerCase [8490] = js "k" /\
  toLowerCase [304] = [105; 775] /\
  toLowerCase [927; 916; 927; 931; 32; 931; 927; 934; 927; 931]
    = [959; 948; 959; 962; 32; 963; 959; 966; 959; 962] /\
  toLowerCase [55297; 56320] = [55297; 56360].
Proof. vm_compute. repeat split. Qed.

End CaseFolding.

(** ** Rounding to a double *)

Section Rounding.
Import Double.
Local Open Scope Q_scope.

Lemma two_pos (z : Z) : 0 < 2 ^ z.
Proof. now apply Qpower_0_lt. Qed.

Lemma two_add (a b : Z) : 2 ^ (a + b) == 2 ^ a * 2 ^ b.
Proof. apply Qpower_plus. discriminate. Qed.

Lemma two_inject (a : Z) : (0 <= a)%Z -> inject_Z (2 ^ a) == 2 ^ a.
Proof. intros H. now rewrite Zpower_Qpower. Qed.

Lemma two_sub (a b : Z) : 2 ^ (a - b) == 2 ^ a / 2 ^ b.
Proof. apply Qpower_minus. discriminate. Qed.

Lemma exponent_spec (q : Q) :
  0 < q -> 2 ^ exponent q <= q /\ q < 2 ^ (exponent q + 1).
Proof.
  intros Hq. destruct q as [n d].
  assert (Hn : (0 < n)%Z) by (unfold Qlt in Hq; cbn in Hq; lia).
  pose proof (Z.log2_spec n Hn) as [Ha1 Ha2].
  pose proof (Z.log2_spec (Zpos d) (Pos2Z.is_pos d)) as [Hb1 Hb2].
  pose proof (Z.log2_nonneg n) as Ha0. pose proof (Z.log2_nonneg (Zpos d)) as Hb0.
  unfold exponent. cbn [Qnum Qden]. cbn zeta.
  set (a := Z.log2 n) in *. set (b := Z.log2 (Zpos d)) in *.
  assert (Hup : n # d < 2 ^ (a - b + 1)).
  { replace (a - b + 1)%Z with (Z.succ a - b)%Z by lia. rewrite two_sub.
    apply Qlt_shift_div_l; [apply two_pos|].
    rewrite <- !two_inject by lia.
    unfold Qlt, Qmult, inject_Z. cbn [Qnum Qden]. nia. }
  assert (Hlow : 2 ^ (a - b - 1) < n # d).
  { replace (a - b - 1)%Z with (a - Z.succ b)%Z by lia. rewrite two_sub.
    apply Qlt_shift_div_r; [apply two_pos|].
    rewrite <- !two_inject by lia.
    unfold Qlt, Qmult, inject_Z. cbn [Qnum Qden]. nia. }
  destruct (Qle_bool (2 ^ (a - b)) (n # d)) eqn:E.
  - apply Qle_bool_iff in E. split; [exact E | exact Hup].
  - assert (Hlt : n # d < 2 ^ (a - b)).
    { apply Qnot_le_lt. intros H. apply Qle_bool_iff in H. congruence. }
    split; [now apply Qlt_le_weak|]. now replace (a - b - 1 + 1)%Z with (a - b)%Z by lia.
Qed.

Lemma exponent_le (q : Q) (e : Z) : 0 < q -> q < 2 ^ (e + 1) -> (exponent q <= e)%Z.
Proof.
  intros Hq Hlt. destruct (exponent_spec q Hq) as [Hlow _].
  assert (H : 2 ^ exponent q < 2 ^ (e + 1)) by (eapply Qle_lt_trans; eassumption).
  apply Qpower_lt_compat_l_inv in H; [lia | reflexivity].
Qed.

Lemma nearestEven_floor (x : Q) :
  nearestEven x = Qfloor x \/ (nearestEven x = (Qfloor x + 1)%Z /\ 1 # 2 <= x - inject_Z (Qfloor x)).
Proof.
  unfold nearestEven. cbn zeta.
  destruct (Qcompare (x - inject_Z (Qfloor x)) (1 # 2)) eqn:E.
  - apply Qeq_alt in E. destruct (Z.even _); [now left|]. right. split; [reflexivity|].
    rewrite E. apply Qle_refl.
  - now left.
  - apply Qgt_alt in E. right. split; [reflexivity | now apply Qlt_le_weak].
Qed.

Lemma nearestEven_near (x : Q) :
  x - (1 # 2) <= inject_Z (nearestEven x) /\ inject_Z (nearestEven x) <= x + (1 # 2).
Proof.
  pose proof (Qfloor_le x) as Hf. pose proof (Qlt_floor x) as Hc.
  rewrite inject_Z_plus in Hc. change (inject_Z 1) with 1 in Hc.
  unfold nearestEven. cbn zeta.
  destruct (Qcompare (x - inject_Z (Qfloor x)) (1 # 2)) eqn:E.
  - apply Qeq_alt in E.
    destruct (Z.even _); rewrite ?inject_Z_plus; change (inject_Z 1) with 1; split; lra.
  - apply Qlt_alt in E. split; lra.
  - apply Qgt_alt in E. rewrite inject_Z_plus. change (inject_Z 1) with 1. split; lra.
Qed.

Lemma nearestEven_ge (x : Q) (k : Z) : inject_Z k <= x -> (k <= nearestEven x)%Z.
Proof.
  intros H. apply Qfloor_resp_le in H. rewrite Qfloor_Z in H.
  destruct (nearestEven_floor x) as [-> | [-> _]]; lia.
Qed.

Lemma nearestEven_le (x : Q) (k : Z) : x <= inject_Z k -> (nearestEven x <= k)%Z.
Proof.
  intros H. pose proof (Qfloor_resp_le _ _ H) as Hf. rewrite Qfloor_Z in Hf.
  destruct (nearestEven_floor x) as [-> | [-> Hhalf]]; [exact Hf|].
  destruct (Z.eq_dec (Qfloor x) k) as [E | E]; [|lia].
  rewrite E in Hhalf. lra.
Qed.

Lemma roundPositive_ulp (q : Q) :
  roundPositive q = inject_Z (nearestEven (q / ulp q)) * ulp q.
Proof. reflexivity. Qed.

Lemma ulp_pos (q : Q) : 0 < ulp q.
Proof. apply two_pos. Qed.

Lemma ulp_binade (q : Q) : 2 ^ exponent q == inject_Z (2 ^ 52) * ulp q.
Proof.
  unfold ulp. rewrite two_inject by lia. rewrite <- two_add. now replace (52 + (exponent q - 52))%Z with (exponent q) by lia.
Qed.

(** An integer of at most 53 bits below [q] is below the double of [q]. *)
Lemma roundPositive_ge (q : Q) (k : Z) :
  0 < q -> (k <= 2 ^ 53)%Z -> inject_Z k <= q -> inject_Z k <= roundPositive q.
Proof.
  intros Hq Hk Hle. destruct (exponent_spec q Hq) as [Hlow Hup].
  pose proof (ulp_pos q) as Hu. rewrite roundPositive_ulp.
  destruct (Qlt_le_dec (2 ^ exponent q) (inject_Z k)) as [Hin | Hout].
  - assert (He : (exponent q < 53)%Z).
    { apply (Qpower_lt_compat_l_inv 2); [|reflexivity].
      eapply Qlt_le_trans; [exact Hin|]. rewrite <- two_inject by lia.
      rewrite <- Zle_Qle. exact Hk. }
    assert (Hunit : ulp q * inject_Z (2 ^ (52 - exponent q)) == 1).
    { unfold ulp. rewrite two_inject by lia. rewrite <- two_add.
      now replace (exponent q - 52 + (52 - exponent q))%Z with 0%Z by lia. }
    assert (Hm : (k * 2 ^ (52 - exponent q) <= nearestEven (q / ulp q))%Z).
    { apply nearestEven_ge. apply Qle_shift_div_l; [exact Hu|].
      rewrite inject_Z_mult.
      setoid_replace (inject_Z k * inject_Z (2 ^ (52 - exponent q)) * ulp q)
        with (inject_Z k * (ulp q * inject_Z (2 ^ (52 - exponent q)))) using relation Qeq by ring.
      rewrite Hunit, Qmult_1_r. exact Hle. }
    rewrite Zle_Qle in Hm.
    apply (Qmult_le_compat_r _ _ (ulp q)) in Hm; [|now apply Qlt_le_weak].
    eapply Qle_trans; [|exact Hm]. rewrite inject_Z_mult.
    setoid_replace (inject_Z k * inject_Z (2 ^ (52 - exponent q)) * ulp q)
      with (inject_Z k * (ulp q * inject_Z (2 ^ (52 - exponent q)))) using relation Qeq by ring.
    rewrite Hunit, Qmult_1_r. apply Qle_refl.
  - assert (Hm : (2 ^ 52 <= nearestEven (q / ulp q))%Z).
    { apply nearestEven_ge. apply Qle_shift_div_l; [exact Hu|].
      rewrite <- ulp_binade. exact Hlow. }
    eapply Qle_trans; [exact Hout|]. rewrite ulp_binade.
    apply Qmult_le_compat_r; [|now apply Qlt_le_weak]. now rewrite <- Zle_Qle.
Qed.

(** An integer of at most 53 bits above [q] is above the double of [q]. *)
Lemma roundPositive_le (q : Q) (k : Z) :
  0 < q -> (k <= 2 ^ 53)%Z -> q <= inject_Z k -> roundPositive q <= inject_Z k.
Proof.
  intros Hq Hk Hle. destruct (exponent_spec q Hq) as [Hlow Hup].
  pose proof (ulp_pos q) as Hu. rewrite roundPositive_ulp.
  assert (He : (exponent q <= 53)%Z).
  { apply (Qpower_le_compat_l_inv 2); [|reflexivity].
    eapply Qle_trans; [exact Hlow|]. eapply Qle_trans; [exact Hle|].
    rewrite <- two_inject by lia. now rewrite <- Zle_Qle. }
  destruct (Z.eq_dec (exponent q) 53%Z) as [E53 | Hne].
  - (* [q] is 2^53 itself *)
    assert (Hm : (nearestEven (q / ulp q) <= 2 ^ 52)%Z).
    { apply nearestEven_le. apply Qle_shift_div_r; [exact Hu|].
      rewrite <- ulp_binade, E53. eapply Qle_trans; [exact Hle|].
      rewrite <- two_inject by lia. now rewrite <- Zle_Qle. }
    rewrite Zle_Qle in Hm.
    apply (Qmult_le_compat_r _ _ (ulp q)) in Hm; [|now apply Qlt_le_weak].
    rewrite <- ulp_binade in Hm. eapply Qle_trans; [exact Hm|].
    eapply Qle_trans; [exact Hlow | exact Hle].
  - assert (Hunit : ulp q * inject_Z (2 ^ (52 - exponent q)) == 1).
    { unfold ulp. rewrite two_inject by lia. rewrite <- two_add.
      now replace (exponent q - 52 + (52 - exponent q))%Z with 0%Z by lia. }
    assert (Hk' : inject_Z (k * 2 ^ (52 - exponent q)) * ulp q == inject_Z k).
    { rewrite inject_Z_mult.
      setoid_replace (inject_Z k * inject_Z (2 ^ (52 - exponent q)) * ulp q)
        with (inject_Z k * (ulp q * inject_Z (2 ^ (52 - exponent q)))) using relation Qeq by ring.
      now rewrite Hunit, Qmult_1_r. }
    assert (Hm : (nearestEven (q / ulp q) <= k * 2 ^ (52 - exponent q))%Z).
    { apply nearestEven_le. apply Qle_shift_div_r; [exact Hu|]. now rewrite Hk'. }
    rewrite Zle_Qle in Hm.
    apply (Qmult_le_compat_r _ _ (ulp q)) in Hm; [|now apply Qlt_le_weak].
    now rewrite Hk' in Hm.
Qed.

(** The rounding error is at most half a unit in the last place. *)
Lemma roundPositive_near (q : Q) :
  0 < q ->
  q - ulp q * (1 # 2) <= roundPositive q /\ roundPositive q <= q + ulp q * (1 # 2).
Proof.
  intros Hq. pose proof (ulp_pos q) as Hu. rewrite roundPositive_ulp.
  destruct (nearestEven_near (q / ulp q)) as [H1 H2].
  assert (E : q / ulp q * ulp q == q) by (field; lra).
  apply (Qmult_le_compat_r _ _ (ulp q)) in H1; [|now apply Qlt_le_weak].
  apply (Qmult_le_compat_r _ _ (ulp q)) in H2; [|now apply Qlt_le_weak].
  split.
  - eapply Qle_trans; [|exact H1].
    setoid_replace ((q / ulp q - (1 # 2)) * ulp q)
      with (q / ulp q * ulp q - ulp q * (1 # 2)) using relation Qeq by ring.
    rewrite E. apply Qle_refl.
  - eapply Qle_trans; [exact H2|].
    setoid_replace ((q / ulp q + (1 # 2)) * ulp q)
      with (q / ulp q * ulp q + ulp q * (1 # 2)) using relation Qeq by ring.
    rewrite E. apply Qle_refl.
Qed.

Lemma round_cases (q : Q) :
  0 <= q -> (q == 0 /\ round q = 0) \/ (0 < q /\ round q = roundPositive q).
Proof.
  intros Hq. destruct q as [[|n|n] d]; unfold round; cbn [Qnum].
  - left. split; reflexivity.
  - right. split; reflexivity.
  - exfalso. unfold Qle in Hq. cbn in Hq. lia.
Qed.

Lemma round_ge (q : Q) (k : Z) :
  0 <= q -> (k <= 2 ^ 53)%Z -> inject_Z k <= q -> inject_Z k <= round q.
Proof.
  intros Hq Hk Hle. destruct (round_cases q Hq) as [[E ->] | [Hpos ->]].
  - now rewrite <- E.
  - now apply roundPositive_ge.
Qed.

Lemma round_le (q : Q) (k : Z) :
  0 <= q -> (k <= 2 ^ 53)%Z -> q <= inject_Z k -> round q <= inject_Z k.
Proof.
  intros Hq Hk Hle. destruct (round_cases q Hq) as [[E ->] | [Hpos ->]].
  - now rewrite <- E.
  - now apply roundPositive_le.
Qed.

(** A number below [2^(e+1)] is rounded by at most [2^(e-53)]. *)
Lemma round_near (q : Q) (e : Z) :
  0 <= q -> q < 2 ^ (e + 1) ->
  q - 2 ^ (e - 53) <= round q /\ round q <= q + 2 ^ (e - 53).
Proof.
  intros Hq Hlt. pose proof (two_pos (e - 53)) as Hp.
  destruct (round_cases q Hq) as [[E ->] | [Hpos ->]].
  - rewrite E. split; lra.
  - pose proof (exponent_le q e Hpos Hlt) as He.
    assert (Hu : ulp q * (1 # 2) <= 2 ^ (e - 53)).
    { unfold ulp. change (1 # 2) with (2 ^ (-1)). rewrite <- two_add.
      apply Qpower_le_compat_l; [lia | discriminate]. }
    destruct (roundPositive_near q Hpos) as [H1 H2]. split; lra.
Qed.

(** The integers up to 2^53 are doubles. *)
Lemma round_integer (k : Z) : (0 <= k <= 2 ^ 53)%Z -> round (inject_Z k) == inject_Z k.
Proof.
  intros [H0 Hk]. assert (Hq : 0 <= inject_Z k) by (now rewrite (Zle_Qle 0 k) in H0).
  apply Qle_antisym; [apply round_le | apply round_ge]; auto using Qle_refl.
Qed.
(** Rounding depends on the number, not on the fraction that stands for
    it. *)
Lemma exponent_equal (q q' : Q) : 0 < q -> q == q' -> exponent q = exponent q'.
Proof.
  intros Hq E. assert (Hq' : 0 < q') by lra.
  destruct (exponent_spec q Hq) as [L U]. destruct (exponent_spec q' Hq') as [L' U'].
  assert (H1 : 2 ^ exponent q < 2 ^ (exponent q' + 1)).
  { set (a := 2 ^ exponent q) in *. set (b := 2 ^ (exponent q' + 1)) in *. lra. }
  assert (H2 : 2 ^ exponent q' < 2 ^ (exponent q + 1)).
  { set (a := 2 ^ exponent q') in *. set (b := 2 ^ (exponent q + 1)) in *. lra. }
  apply Qpower_lt_compat_l_inv in H1; [|reflexivity].
  apply Qpower_lt_compat_l_inv in H2; [|reflexivity]. lia.
Qed.

Lemma nearestEven_equal (x x' : Q) : x == x' -> nearestEven x = nearestEven x'.
Proof.
  intros E. unfold nearestEven. cbn zeta.
  rewrite (Qfloor_comp _ _ E).
  assert (Ec : Qcompare (x - inject_Z (Qfloor x')) (1 # 2) = Qcompare (x' - inject_Z (Qfloor x')) (1 # 2)).
  { apply Qcompare_comp; [|reflexivity]. set (f := inject_Z (Qfloor x')). lra. }
  now rewrite Ec.
Qed.

Lemma roundPositive_equal (q q' : Q) : 0 < q -> q == q' -> roundPositive q = roundPositive q'.
Proof.
  intros Hq E. unfold roundPositive, ulp. rewrite <- (exponent_equal q q' Hq E).
  f_equal. f_equal. apply nearestEven_equal.
  apply Qmult_comp; [exact E | reflexivity].
Qed.

Lemma round_equal (q q' : Q) : 0 <= q -> q == q' -> round q == round q'.
Proof.
  intros Hq E. assert (Hq' : 0 <= q') by lra.
  destruct (round_cases q Hq) as [[Z0 ->] | [Hpos ->]];
    destruct (round_cases q' Hq') as [[Z0' ->] | [Hpos' ->]].
  - reflexivity.
  - lra.
  - lra.
  - now rewrite (roundPositive_equal q q' Hpos E).
Qed.

End Rounding.


Section CsvRoundTrip.
Import Csv Re.

Lemma double_quotes (s : jsstring) (bef : list N) :
  replace_loop noflags (One (Chr QUOTE)) [QUOTE; QUOTE] bef s 0 =
  flat_map (fun c => if c =? QUOTE then [QUOTE; QUOTE] else [c]) s.
Proof.
  revert bef. induction s as [|c s IH]; intros bef; [reflexivity|].
  cbn [replace_loop flat_map]. unfold match_at. cbn [run snd fst atom_matches noflags ignoreCase].
  destruct (QUOTE =? c) eqn:E.
  - apply N.eqb_eq in E. subst c.
    replace (QUOTE =? QUOTE) with true by reflexivity.
    unfold matched, between. cbn [f_start f_end snd fst List.length].
    replace (S (List.length s) - List.length s)%nat with 1%nat by lia.
    cbn [firstn List.length]. rewrite IH. reflexivity.
  - rewrite N.eqb_sym, E. cbn. rewrite IH. reflexivity.
Qed.

Definition doubled (s : jsstring) : jsstring :=
  flat_map (fun c => if c =? QUOTE then [QUOTE; QUOTE] else [c]) s.

Definition opensWithQuote (s : jsstring) : bool :=
  match s with c :: _ => c =? QUOTE | [] => false end.

(** Inside quotes the loop undoes the doubling and leaves the quoted mode
    at the closing quote. *)
Lemma parse_quoted (f rest : jsstring) fields current :
  opensWithQuote rest = false ->
  parse_loop (doubled f ++ QUOTE :: rest) fields current true =
  parse_loop rest fields (current ++ f) false.
Proof.
  intros Hrest. revert current.
  induction f as [|c f IH]; intros current.
  - cbn [doubled flat_map app parse_loop]. rewrite N.eqb_refl.
    rewrite app_nil_r. destruct rest as [|n rest]; [reflexivity|].
    cbn in Hrest. rewrite Hrest. reflexivity.
  - cbn [doubled flat_map]. fold (doubled f).
    destruct (c =? QUOTE) eqn:E.
    + apply N.eqb_eq in E. subst c. cbn [app parse_loop].
      rewrite !N.eqb_refl. rewrite IH. now rewrite <- app_assoc.
    + cbn [app parse_loop]. rewrite E, IH. now rewrite <- app_assoc.
Qed.

(** Outside quotes a field without comma and quote is read as it is. *)
Lemma parse_plain (f rest : jsstring) fields current :
  has COMMA f = false -> has QUOTE f = false ->
  parse_loop (f ++ rest) fields current false =
  parse_loop rest fields (current ++ f) false.
Proof.
  revert current. induction f as [|c f IH]; intros current Hc Hq.
  - now rewrite app_nil_r.
  - unfold has in Hc, Hq. cbn [existsb] in Hc, Hq. fold (has COMMA f) in Hc.
    fold (has QUOTE f) in Hq. apply orb_false_iff in Hc as [Hc1 Hc2].
    apply orb_false_iff in Hq as [Hq1 Hq2].
    cbn [app parse_loop]. rewrite (N.eqb_sym c QUOTE), Hq1.
    rewrite (N.eqb_sym c COMMA), Hc1. rewrite IH by assumption.
    now rewrite <- app_assoc.
Qed.

Lemma parse_escaped (f rest : jsstring) fields current :
  opensWithQuote rest = false ->
  parse_loop (escapeCSV f ++ rest) fields current false =
  parse_loop rest fields (current ++ f) false.
Proof.
  intros Hrest. unfold escapeCSV.
  destruct (has COMMA f || has NEWLINE f || has QUOTE f) eqn:E.
  - unfold replaceAll. rewrite double_quotes. fold (doubled f).
    cbn [app parse_loop]. rewrite N.eqb_refl.
    rewrite <- app_assoc. cbn [app]. now apply parse_quoted.
  - apply orb_false_iff in E as [E Hq]. apply orb_false_iff in E as [Hc _].
    now apply parse_plain.
Qed.

Lemma parse_row (f : jsstring) (fs : list jsstring) fields :
  let '(done, current) := parse_loop (toRow (f :: fs)) fields [] false in
  done ++ [current] = fields ++ f :: fs.
Proof.
  revert f fields. induction fs as [|g fs IH]; intros f fields.
  - unfold toRow. cbn [List.map join].
    rewrite <- (app_nil_r (escapeCSV f)), parse_escaped by reflexivity.
    reflexivity.
  - unfold toRow. cbn [List.map join].
    rewrite parse_escaped by reflexivity.
    cbn [app parse_loop]. replace (COMMA =? QUOTE) with false by reflexivity.
    rewrite N.eqb_refl. specialize (IH g (fields ++ [f])).
    unfold toRow in IH. cbn [List.map] in IH.
    destruct (parse_loop _ _ _ _) as [done current].
    rewrite IH, <- app_assoc. reflexivity.
Qed.

Lemma trimStart_edge (f : jsstring) :
  match f with c :: _ => isWhiteSpace c = false | [] => True end ->
  trimStart f = f.
Proof. destruct f as [|c f]; [reflexivity|]. cbn. now intros ->. Qed.

Lemma edgeFree_trim (f : jsstring) : edgeFree f = true -> trim f = f.
Proof.
  destruct f as [|c f]; [reflexivity|].
  unfold edgeFree. intros H. apply andb_true_iff in H as [H1 H2].
  apply negb_true_iff in H1, H2.
  unfold trim. rewrite trimStart_edge by exact H1.
  unfold trimEnd. rewrite trimStart_edge; [apply rev_involutive|].
  destruct (exists_last (l := c :: f)) as [l' [x Hx]]; [discriminate|].
  rewrite Hx in *. rewrite last_last in H2. rewrite rev_app_distr. exact H2.
Qed.

(** C10 (as the code has it): a non-empty list of fields without white
    space at their ends, written as a row by [escapeCSV] and commas, is
    read back by [parseCSVLine] as the same list. *)
Theorem csv_round_trip (fields : list jsstring) :
  fields <> [] ->
  forallb edgeFree fields = true ->
  parseCSVLine (toRow fields) = fields.
Proof.
  intros Hne Hedge. destruct fields as [|f fs]; [congruence|].
  unfold parseCSVLine. pose proof (parse_row f fs []) as H.
  destruct (parse_loop _ _ _ _) as [done current]. rewrite H. cbn [app].
  rewrite forallb_forall in Hedge.
  rewrite <- (map_id (f :: fs)) at 2. apply map_ext_in.
  intros a Ha. apply edgeFree_trim, Hedge, Ha.
Qed.

Lemma csv_round_trip_witness :
  let quoted := js "say " ++ [QUOTE] ++ js "hi" ++ [QUOTE] ++ js ", then go" in
  parseCSVLine (toRow [js "menu.settings"; quoted; []]) =
  [js "menu.settings"; quoted; []].
Proof. apply csv_round_trip; [discriminate | reflexivity]. Defined.

(** C10 as stated fails on the empty list: the joined row is the empty
    line, which [parseCSVLine] reads as one empty field. *)
Lemma csv_round_trip_empty_list :
  forallb edgeFree [] = true /\ parseCSVLine (toRow []) = [[]] /\
  parseCSVLine (toRow []) <> [].
Proof. repeat split. discriminate. Qed.

End CsvRoundTrip.

Section LimiterConservation.
Import RateLimiter.
Local Open Scope Z_scope.

(** The tokens of a list of entries, and the entries of a log that lie
    inside the window that ends at [now]. *)
Fixpoint tokensOf (entries : list UsageEntry) : Z :=
  match entries with
  | [] => 0
  | entry :: rest => tokens entry + tokensOf rest
  end.

Definition withinWindow (now window : Z) (entries : list UsageEntry) : list UsageEntry :=
  List.filter (fun entry => now - window <? timestamp entry) entries.

Lemma fold_left_tokens (entries : list UsageEntry) (start : Z) :
  fold_left (fun sum entry => sum + tokens entry) entries start =
  start + tokensOf entries.
Proof.
  revert start.
  induction entries as [|e entries IH]; intros start; cbn [fold_left tokensOf].
  - lia.
  - rewrite IH. lia.
Qed.

Lemma currentUsage_clean now l :
  currentUsage (cleanOldEntries now l) =
  tokensOf (withinWindow now (windowMs l) (tokenUsage l)).
Proof. unfold currentUsage, cleanOldEntries. cbn. now rewrite fold_left_tokens. Qed.

Lemma tokensOf_app (a b : list UsageEntry) :
  tokensOf (a ++ b) = tokensOf a + tokensOf b.
Proof. induction a as [|e a IH]; cbn [app tokensOf]; [reflexivity | rewrite IH; lia]. Qed.

(** The loop stops at the first entry at which the freed tokens cover
    what has to be freed. *)
Lemma oldestRelevant_cover (pre post : list UsageEntry) (e : UsageEntry) need fallback :
  (forall pre1 x pre2, pre = pre1 ++ x :: pre2 -> tokensOf (pre1 ++ [x]) < need) ->
  need <= tokensOf pre + tokens e ->
  oldestRelevant need (pre ++ e :: post) fallback = timestamp e.
Proof.
  revert need. induction pre as [|x pre IH]; intros need Hpre Hcover.
  - cbn [app oldestRelevant tokensOf] in *. destruct (need - tokens e <=? 0) eqn:E; [reflexivity|].
    apply Z.leb_gt in E. lia.
  - cbn [app oldestRelevant].
    pose proof (Hpre [] x pre eq_refl) as Hx. cbn [app tokensOf] in Hx.
    destruct (need - tokens x <=? 0) eqn:E; [apply Z.leb_le in E; lia|].
    apply IH.
    + intros pre1 y pre2 ->. specialize (Hpre (x :: pre1) y pre2 eq_refl).
      cbn [app tokensOf] in Hpre. lia.
    + cbn [tokensOf] in Hcover. lia.
Qed.

Lemma oldestRelevant_none (entries : list UsageEntry) need fallback :
  (forall pre x post, entries = pre ++ x :: post -> tokensOf (pre ++ [x]) < need) ->
  oldestRelevant need entries fallback = fallback.
Proof.
  revert need. induction entries as [|x entries IH]; intros need H; [reflexivity|].
  cbn [oldestRelevant]. pose proof (H [] x entries eq_refl) as Hx. cbn [app tokensOf] in Hx.
  destruct (need - tokens x <=? 0) eqn:E; [apply Z.leb_le in E; lia|].
  apply IH. intros pre y post ->. specialize (H (x :: pre) y post eq_refl).
  cbn [app tokensOf] in H. lia.
Qed.

(** Whatever the loop returns is the clock reading or the time stamp of
    an entry of the log. *)
Lemma oldestRelevant_in (entries : list UsageEntry) need fallback :
  oldestRelevant need entries fallback = fallback \/
  exists e, In e entries /\ oldestRelevant need entries fallback = timestamp e.
Proof.
  revert need. induction entries as [|x entries IH]; intros need; [now left|].
  cbn [oldestRelevant]. destruct (need - tokens x <=? 0).
  - right. exists x. split; [now left | reflexivity].
  - destruct (IH (need - tokens x)) as [H | [e [He H]]]; [now left|].
    right. exists e. split; [now right | exact H].
Qed.

Lemma withinWindow_in now window entries e :
  In e (withinWindow now window entries) -> now - window < timestamp e.
Proof. unfold withinWindow. rewrite filter_In. intros [_ H]. now apply Z.ltb_lt. Qed.

Fixpoint nondecreasing (entries : list UsageEntry) : bool :=
  match entries with
  | e1 :: rest =>
      match rest with
      | e2 :: _ => (timestamp e1 <=? timestamp e2) && nondecreasing rest
      | [] => true
      end
  | [] => true
  end.

Definition nonnegative (entries : list UsageEntry) : bool :=
  forallb (fun entry => 0 <=? tokens entry) entries.

(** Every entry was recorded inside the window that ends at [now]. *)
Definition allWithin (now : Z) (entries : list UsageEntry) : bool :=
  forallb (fun entry => (now - 60000 <? timestamp entry) && (timestamp entry <=? now)) entries.

Lemma nondecreasing_head (x : UsageEntry) (rest : list UsageEntry) :
  nondecreasing (x :: rest) = true ->
  nondecreasing rest = true /\ forall e, In e rest -> timestamp x <= timestamp e.
Proof.
  revert x. induction rest as [|y rest IH]; intros x H.
  - split; [reflexivity | intros e []].
  - cbn [nondecreasing] in H. apply andb_true_iff in H as [Hxy Hrest].
    apply Z.leb_le in Hxy. split; [exact Hrest|].
    destruct (IH y Hrest) as [_ Hy].
    intros e [<- | He]; [exact Hxy | specialize (Hy e He); lia].
Qed.

Lemma tokensOf_filter_le (f : UsageEntry -> bool) (entries : list UsageEntry) :
  nonnegative entries = true ->
  0 <= tokensOf (List.filter f entries) <= tokensOf entries.
Proof.
  induction entries as [|x entries IH]; intros H; cbn [List.filter tokensOf]; [lia|].
  cbn [nonnegative forallb] in H. apply andb_true_iff in H as [Hx H].
  apply Z.leb_le in Hx. specialize (IH H).
  destruct (f x); cbn [tokensOf]; lia.
Qed.

Lemma tokensOf_filter_mono (f g : UsageEntry -> bool) (entries : list UsageEntry) :
  nonnegative entries = true ->
  (forall x, f x = true -> g x = true) ->
  tokensOf (List.filter f entries) <= tokensOf (List.filter g entries).
Proof.
  intros Hnn Hfg. induction entries as [|x entries IH]; cbn [List.filter tokensOf]; [lia|].
  cbn [nonnegative forallb] in Hnn. apply andb_true_iff in Hnn as [Hx Hnn].
  apply Z.leb_le in Hx. specialize (IH Hnn).
  destruct (f x) eqn:Ef.
  - rewrite (Hfg x Ef). cbn [tokensOf]. lia.
  - destruct (g x); cbn [tokensOf]; lia.
Qed.

(** On a log in recording order the entry the loop stops at is the last
    one that has to leave: once the window has passed it, what is left
    frees at least the tokens that were needed. *)
Lemma oldestRelevant_frees (entries : list UsageEntry) need fallback :
  nonnegative entries = true -> nondecreasing entries = true ->
  0 < need <= tokensOf entries ->
  let ts := oldestRelevant need entries fallback in
  (exists e, In e entries /\ ts = timestamp e) /\
  tokensOf (List.filter (fun x => ts <? timestamp x) entries) <= tokensOf entries - need.
Proof.
  revert need. induction entries as [|x entries IH]; intros need Hnn Hsorted Hneed.
  - cbn [tokensOf] in Hneed. lia.
  - cbn zeta. cbn [oldestRelevant].
    pose proof Hnn as Hnn'. cbn [nonnegative forallb] in Hnn'.
    apply andb_true_iff in Hnn' as [Hx Hrest]. apply Z.leb_le in Hx.
    destruct (nondecreasing_head _ _ Hsorted) as [Hsorted' Hhead].
    cbn [tokensOf] in Hneed.
    destruct (need - tokens x <=? 0) eqn:E.
    + apply Z.leb_le in E. split; [exists x; split; [now left | reflexivity]|].
      cbn [List.filter]. rewrite Z.ltb_irrefl. cbn [tokensOf].
      pose proof (tokensOf_filter_le (fun y => timestamp x <? timestamp y) entries Hrest).
      lia.
    + apply Z.leb_gt in E.
      destruct (IH (need - tokens x) Hrest Hsorted' ltac:(lia)) as [[e [He Hts]] Hsum].
      cbn zeta in Hts, Hsum.
      split; [exists e; split; [now right | exact Hts]|].
      cbn [List.filter].
      replace (oldestRelevant (need - tokens x) entries fallback <? timestamp x)
        with false by (symmetry; apply Z.ltb_ge; rewrite Hts; now apply Hhead).
      cbn [tokensOf]. lia.
Qed.

Lemma filter_all {A} (f : A -> bool) (l : list A) :
  forallb f l = true -> List.filter f l = l.
Proof.
  induction l as [|x l IH]; cbn; [reflexivity|].
  intros H. apply andb_true_iff in H as [-> H]. now rewrite IH.
Qed.

(** Nothing is pruned while usages are recorded inside one window. *)
Lemma recordAll_log (now : Z) (usages : list UsageEntry) (l : TokenRateLimiter) :
  windowMs l = 60000 ->
  allWithin now (tokenUsage l ++ usages) = true ->
  recordAll usages l = withUsage l (tokenUsage l ++ usages).
Proof.
  revert l. induction usages as [|u usages IH]; intros l Hw Hall.
  - cbn. rewrite app_nil_r. now destruct l.
  - cbn [recordAll].
    assert (Hrec : recordUsage (timestamp u) (tokens u) l =
                   withUsage l (tokenUsage l ++ [u])).
    { unfold recordUsage, cleanOldEntries. cbn [tokenUsage windowMs withUsage maxTokens].
      rewrite filter_all; [now destruct u|].
      unfold allWithin in Hall. rewrite forallb_app in Hall.
      apply andb_true_iff in Hall as [Hlog Hus].
      cbn [forallb] in Hus. apply andb_true_iff in Hus as [Hu _].
      apply andb_true_iff in Hu as [_ Hu]. apply Z.leb_le in Hu.
      rewrite forallb_app. apply andb_true_iff. split.
      - rewrite forallb_forall in *. intros e He. specialize (Hlog e He).
        apply andb_true_iff in Hlog as [Hlo _]. apply Z.ltb_lt in Hlo.
        apply Z.ltb_lt. lia.
      - cbn. rewrite andb_true_r. apply Z.ltb_lt. lia. }
    rewrite Hrec, IH.
    + unfold withUsage. cbn. now rewrite <- app_assoc.
    + exact Hw.
    + cbn [withUsage tokenUsage]. now rewrite <- app_assoc.
Qed.

(** *** The sums as doubles *)

(** [tokenUsage.reduce((sum, entry) => sum + entry.tokens, 0)] as the
    program computes it: every partial sum is rounded to a double. *)
Definition usageAsDoubles (entries : list UsageEntry) : Q :=
  fold_left (fun sum entry => Double.add sum (inject_Z (tokens entry))) entries 0%Q.

Lemma usageAsDoubles_from (entries : list UsageEntry) (start : Q) (a : Z) :
  (start == inject_Z a)%Q -> 0 <= a ->
  nonnegative entries = true -> a + tokensOf entries <= 2 ^ 53 ->
  (fold_left (fun sum entry => Double.add sum (inject_Z (tokens entry))) entries start
   == inject_Z (a + tokensOf entries))%Q.
Proof.
  revert start a. induction entries as [|e entries IH]; intros start a Hstart Ha Hnn Hsum.
  - cbn [fold_left tokensOf]. now rewrite Z.add_0_r.
  - cbn [fold_left tokensOf nonnegative forallb] in *.
    apply andb_true_iff in Hnn as [He Hnn]. apply Z.leb_le in He.
    assert (Hrest : 0 <= tokensOf entries).
    { clear -Hnn. induction entries as [|x entries IH]; cbn [tokensOf]; [lia|].
      cbn [forallb] in Hnn. apply andb_true_iff in Hnn as [Hx Hnn]. apply Z.leb_le in Hx.
      specialize (IH Hnn). lia. }
    replace (a + (tokens e + tokensOf entries)) with (a + tokens e + tokensOf entries) by lia.
    apply IH; [|lia | exact Hnn | lia].
    unfold Double.add.
    assert (Hq : (start + inject_Z (tokens e) == inject_Z (a + tokens e))%Q)
      by (rewrite inject_Z_plus, Hstart; reflexivity).
    assert (H0 : (0 <= start + inject_Z (tokens e))%Q).
    { rewrite Hq. rewrite <- (Zle_Qle 0). lia. }
    apply Qle_antisym.
    + apply round_le; [exact H0 | lia | rewrite Hq; apply Qle_refl].
    + apply round_ge; [exact H0 | lia | rewrite Hq; apply Qle_refl].
Qed.

(** Up to 2^53 the sum of the doubles is the sum of the integers. *)
Lemma usageAsDoubles_exact (entries : list UsageEntry) :
  nonnegative entries = true -> tokensOf entries <= 2 ^ 53 ->
  (usageAsDoubles entries == inject_Z (tokensOf entries))%Q.
Proof.
  intros Hnn Hsum. unfold usageAsDoubles.
  now rewrite (usageAsDoubles_from entries 0%Q 0) by (try reflexivity; lia || assumption).
Qed.

(** C4 (as the code has it).  For a limiter with budget [B] and the
    60-second window, at clock reading [now], with token counts, budget
    and times in the range where the doubles of the program are exact
    integers ([exactFor]):
    - [canMakeRequest t] is true exactly when the tokens recorded inside
      the window plus [t] do not exceed [B];
    - [getRequiredDelay t] is 0 exactly in that case;
    - otherwise it is the time left until the entry at which the freed
      tokens, counted oldest first, first cover the deficit leaves the
      window, and the whole window of 60000 ms when no prefix of the log
      covers the deficit;
    - for a budget of at least 1, after non-negative usages that sum to [B]
      were recorded in time order inside one window, [canMakeRequest 1] is
      false, the delay is positive, and after a wait of that delay or
      longer [canMakeRequest 1] is true. *)
Theorem limiter_conservation (B now t : Z) (log : list UsageEntry) :
  let l := {| tokenUsage := log; windowMs := 60000; maxTokens := B |} in
  let live := withinWindow now 60000 log in
  let deficit := tokensOf live + t - B in
  (exactFor now t l = true ->
   (fst (canMakeRequest now t l) = true <-> tokensOf live + t <= B)
   /\ (fst (getRequiredDelay now t l) = 0 <-> fst (canMakeRequest now t l) = true)
   /\ (forall pre e post,
         0 < deficit ->
         live = pre ++ e :: post ->
         (forall pre1 x pre2, pre = pre1 ++ x :: pre2 -> tokensOf (pre1 ++ [x]) < deficit) ->
         deficit <= tokensOf pre + tokens e ->
         fst (getRequiredDelay now t l) = timestamp e + 60000 - now)
   /\ (0 < deficit ->
       (forall pre x post, live = pre ++ x :: post -> tokensOf (pre ++ [x]) < deficit) ->
       fst (getRequiredDelay now t l) = 60000))
  /\ (forall usages,
        1 <= B ->
        nonnegative usages = true -> nondecreasing usages = true ->
        allWithin now usages = true ->
        tokensOf usages = B ->
        exactFor now 1 {| tokenUsage := usages; windowMs := 60000; maxTokens := B |} = true ->
        let l0 := recordAll usages (create B) in
        let d := fst (getRequiredDelay now 1 l0) in
        let l1 := snd (getRequiredDelay now 1 l0) in
        fst (canMakeRequest now 1 l0) = false /\ 0 < d /\
        forall wait, d <= wait -> now + wait <= maxTime ->
          fst (canMakeRequest (now + wait) 1 l1) = true).
Proof.
  cbn zeta.
  assert (Hcan : forall l' n t', fst (canMakeRequest n t' l') = true <->
            tokensOf (withinWindow n (windowMs l') (tokenUsage l')) + t' <= maxTokens l').
  { intros l' n t'. unfold canMakeRequest. cbn [fst]. rewrite currentUsage_clean.
    unfold cleanOldEntries. cbn [maxTokens withUsage]. apply Z.leb_le. }
  assert (Hdelay : forall l' n t', windowMs l' = 60000 ->
            ~ tokensOf (withinWindow n 60000 (tokenUsage l')) + t' <= maxTokens l' ->
            fst (getRequiredDelay n t' l') =
            oldestRelevant (tokensOf (withinWindow n 60000 (tokenUsage l')) + t' - maxTokens l')
              (withinWindow n 60000 (tokenUsage l')) n + 60000 - n /\
            0 < fst (getRequiredDelay n t' l')).
  { intros l' n t' Hw Hno. unfold getRequiredDelay. rewrite currentUsage_clean, Hw.
    unfold cleanOldEntries. cbn [maxTokens withUsage tokenUsage windowMs]. rewrite Hw.
    fold (withinWindow n 60000 (tokenUsage l')).
    destruct (_ <=? maxTokens l') eqn:E; [apply Z.leb_le in E; lia|]. cbn [fst].
    set (ts := oldestRelevant _ _ _).
    assert (n - 60000 < ts).
    { destruct (oldestRelevant_in (withinWindow n 60000 (tokenUsage l'))
        (tokensOf (withinWindow n 60000 (tokenUsage l')) + t' - maxTokens l') n)
        as [H | [e [He H]]]; fold ts in H; rewrite H; [lia|].
      now apply withinWindow_in in He. }
    lia. }
  set (l := {| tokenUsage := log; windowMs := 60000; maxTokens := B |}).
  split; [intros _; split; [apply (Hcan l)|]; split; [split|]|].
  - intros H0. destruct (Z_le_dec (tokensOf (withinWindow now 60000 log) + t) B) as [Hle|Hno].
    + now apply (Hcan l).
    + destruct (Hdelay l now t eq_refl Hno) as [_ Hpos]. exfalso. rewrite H0 in Hpos. lia.
  - intros Hc. apply (Hcan l) in Hc.
    unfold l in Hc. cbn [windowMs tokenUsage maxTokens] in Hc.
    unfold getRequiredDelay. rewrite currentUsage_clean.
    unfold l. cbn [cleanOldEntries maxTokens withUsage windowMs tokenUsage].
    destruct (_ <=? B) eqn:E; [reflexivity | apply Z.leb_gt in E; lia].
  - split.
    + intros pre e post Hdef Hlive Hpre Hcover.
      destruct (Hdelay l now t eq_refl) as [Heq _]; [unfold l; cbn [tokenUsage maxTokens]; lia|].
      rewrite Heq. unfold l. cbn [tokenUsage maxTokens]. rewrite Hlive at 2.
      rewrite (oldestRelevant_cover pre post e); [reflexivity | exact Hpre | exact Hcover].
    + intros Hdef Hnone.
      destruct (Hdelay l now t eq_refl) as [Heq _]; [unfold l; cbn [tokenUsage maxTokens]; lia|].
      rewrite Heq. unfold l. cbn [tokenUsage maxTokens].
      rewrite oldestRelevant_none; [lia | exact Hnone].
  - intros usages HB Hnn Hsorted Hwithin Hsum _. cbn zeta.
      set (l0 := {| tokenUsage := usages; windowMs := 60000; maxTokens := B |}).
      assert (Hrec : recordAll usages (create B) = l0).
      { rewrite (recordAll_log now); [reflexivity | reflexivity | exact Hwithin]. }
      assert (Hlive : withinWindow now 60000 usages = usages).
      { unfold withinWindow. rewrite filter_all; [reflexivity|].
        unfold allWithin in Hwithin. rewrite forallb_forall in *. intros e He.
        specialize (Hwithin e He). now apply andb_true_iff in Hwithin as [-> _]. }
      assert (Hno : ~ tokensOf (withinWindow now 60000 (tokenUsage l0)) + 1 <= maxTokens l0).
      { unfold l0. cbn [tokenUsage maxTokens]. rewrite Hlive. lia. }
      rewrite Hrec. destruct (Hdelay l0 now 1 eq_refl Hno) as [Heq Hpos].
      split; [|split].
      * apply not_true_is_false. rewrite (Hcan l0). exact Hno.
      * exact Hpos.
      * intros wait. rewrite Heq. unfold l0 at 1 2 3. cbn [tokenUsage maxTokens].
        rewrite Hlive. replace (tokensOf usages + 1 - B) with 1 by lia. intros Hwait _.
        assert (Hl1 : snd (getRequiredDelay now 1 l0) = l0).
        { unfold getRequiredDelay, cleanOldEntries, l0.
          cbn [windowMs tokenUsage maxTokens withUsage].
          fold (withinWindow now 60000 usages). rewrite Hlive.
          now destruct (_ <=? B). }
        rewrite Hl1. apply (Hcan l0). unfold l0. cbn [windowMs tokenUsage maxTokens].
        destruct (oldestRelevant_frees usages 1 now Hnn Hsorted ltac:(lia)) as [_ Hfree].
        cbn zeta in Hfree. unfold withinWindow.
        pose proof (tokensOf_filter_mono
                      (fun entry => now + wait - 60000 <? timestamp entry)
                      (fun x => oldestRelevant 1 usages now <? timestamp x) usages Hnn)
          as Hmono.
        assert (tokensOf (List.filter (fun entry => now + wait - 60000 <? timestamp entry) usages)
                <= tokensOf (List.filter (fun x => oldestRelevant 1 usages now <? timestamp x)
                               usages)).
        { apply Hmono. intros x Hx. apply Z.ltb_lt in Hx. apply Z.ltb_lt. lia. }
        lia.
Qed.

Definition usageAt (time count : Z) : UsageEntry :=
  {| timestamp := time; tokens := count |}.

(** The percentage of the budget in use is rounded from doubles: 29 of
    200 tokens are 14 percent, the product being just under 14.5. *)
Example usage_percentage_of_doubles :
  fst (getUsagePercentage 5000
         {| tokenUsage := [usageAt 1000 29]; windowMs := 60000; maxTokens := 200 |}) = 14.
Proof. vm_compute. reflexivity. Qed.

Lemma limiter_conservation_witness :
  (let l := {| tokenUsage := [usageAt 1000 40; usageAt 2000 60]; windowMs := 60000;
               maxTokens := 100 |} in
   fst (canMakeRequest 5000 1 l) = true <->
   tokensOf (withinWindow 5000 60000 [usageAt 1000 40; usageAt 2000 60]) + 1 <= 100) /\
  (let l0 := recordAll [usageAt 1000 40; usageAt 2000 60] (create 100) in
   fst (canMakeRequest 5000 1 l0) = false /\
   0 < fst (getRequiredDelay 5000 1 l0) /\
   forall wait, fst (getRequiredDelay 5000 1 l0) <= wait -> 5000 + wait <= maxTime ->
     fst (canMakeRequest (5000 + wait) 1 (snd (getRequiredDelay 5000 1 l0))) = true).
Proof.
  split.
  - apply (proj1 (limiter_conservation 100 5000 1 [usageAt 1000 40; usageAt 2000 60])).
    reflexivity.
  - apply (proj2 (limiter_conservation 100 5000 1 [])).
    + lia.
    + reflexivity.
    + reflexivity.
    + reflexivity.
    + reflexivity.
    + reflexivity.
Defined.

(** C4 as stated fails at the edges of the budget.  With budget 0 and
    nothing recorded the usages sum to the budget, the delay for one token
    is the whole window, and after it the request still cannot proceed.
    With budget 100, 50 tokens in the window and a request of 200 tokens no
    prefix of the log covers the deficit of 150: the delay is the whole
    window, not the time until a covering prefix leaves it, and after it
    the request still cannot proceed.  With budget 2^53 and usages that
    sum to it, the sum of the doubles with one more token is 2^53 again:
    it does not exceed the budget. *)
Lemma limiter_budget_edges :
  (let l0 := recordAll [] (create 0) in
   tokensOf [] = 0 /\
   fst (canMakeRequest 0 1 l0) = false /\
   fst (getRequiredDelay 0 1 l0) = 60000 /\
   fst (canMakeRequest (0 + 60000) 1 (snd (getRequiredDelay 0 1 l0))) = false)
  /\
  (let l := {| tokenUsage := [usageAt 0 50]; windowMs := 60000; maxTokens := 100 |} in
   fst (canMakeRequest 1000 200 l) = false /\
   tokensOf [usageAt 0 50] < 50 + 200 - 100 /\
   fst (getRequiredDelay 1000 200 l) = 60000 /\
   fst (canMakeRequest (1000 + 60000) 200 (snd (getRequiredDelay 1000 200 l))) = false)
  /\
  (let usages := [usageAt 0 (2 ^ 52); usageAt 1 (2 ^ 52)] in
   tokensOf usages = 2 ^ 53 /\
   (usageAsDoubles usages == inject_Z (2 ^ 53))%Q /\
   (Double.add (usageAsDoubles usages) 1 <= inject_Z (2 ^ 53))%Q).
Proof.
  split; [cbn; repeat split|]. split; [cbn; repeat split|].
  cbn zeta. split; [reflexivity|]. split; [vm_compute; reflexivity | vm_compute; discriminate].
Qed.

End LimiterConservation.

Section ResponseRecovery.
Import Re Validator Parser.

Variable Papa_parse : jsstring -> list (list jsstring).

Local Abbreviation parseAIResponse := (parseAIResponse Papa_parse).
Local Abbreviation parseWithFallbacks := (parseWithFallbacks Papa_parse).

(** The primary parser returns, with a row or with nothing; a row it
    returns has a non-empty translation. *)
Lemma parseAIResponse_returns (response : jsstring) :
  parseAIResponse response = Ret None \/
  exists p, parseAIResponse response = Ret (Some p) /\ truthy (translation p) = true.
Proof.
  unfold Parser.parseAIResponse.
  destruct (_ || _); [now left|].
  destruct (negb (truthy _)); [now left|].
  destruct (_ <? _)%nat; [now left|].
  destruct (nth_error _ 1) as [t|]; cbn [negb]; [|now left].
  destruct (truthy t); cbn [negb call Eff.bind]; [|now left].
  destruct (str_eqb (trim t) []) eqn:E; [now left|].
  right. eexists. split; [reflexivity|]. cbn [translation].
  destruct (trim t); [discriminate E | reflexivity].
Qed.

Lemma split_go_length (sep : N) (s cur : jsstring) :
  (1 <= List.length (split_go sep cur s))%nat.
Proof.
  revert cur. induction s as [|c s IH]; intros cur; cbn [split_go].
  - cbn. lia.
  - destruct (c =? sep); [cbn; lia | apply IH].
Qed.

Lemma salvageMalformed_returns (cleaned text : jsstring) :
  exists o, salvageMalformed cleaned text = Ret o.
Proof.
  unfold salvageMalformed.
  destruct (_ && _); [|now eexists].
  destruct (2 <=? _)%nat eqn:E; [|now eexists].
  apply Nat.leb_le in E.
  destruct (split 44 cleaned) as [|p0 [|p1 parts]]; cbn in E; try lia.
  cbn [nth_error call Eff.bind]. destruct (_ && _); now eexists.
Qed.

Lemma fallbacks_returns (response text : jsstring) (lang : option jsstring) :
  exists r, fallbacks response text lang = Ret r.
Proof.
  unfold fallbacks. destruct (firstLabelled _ _); [now eexists|].
  destruct (existsb _ _); [now eexists|].
  destruct (salvageMalformed_returns (trim response) text) as [o ->].
  cbn [Eff.bind]. destruct o; now eexists.
Qed.


Lemma parseWithFallbacks_returns (response text : jsstring) (lang : option jsstring) :
  exists r, parseWithFallbacks response text lang = Ret r.
Proof.
  unfold Parser.parseWithFallbacks.
  destruct (existsb _ _); [now eexists|].
  destruct (_ && _); [now eexists|].
  destruct (parseAIResponse_returns response) as [-> | [p [-> Hp]]]; cbn [Eff.bind].
  - apply fallbacks_returns.
  - rewrite Hp. now eexists.
Qed.


(** C5 (as the code has it).  A response whose trimmed text matches one of
    the acknowledgment patterns is rejected before any parsing: the result
    is the [ERROR] sentinel with category [Error]; its reasoning carries
    the suffix about the missing CSV data. *)
Theorem acknowledgment_rejected (response text : jsstring) (lang : option jsstring) :
  existsb (fun pattern => test fi pattern (trim response)) acknowledgmentPatterns = true ->
  parseWithFallbacks response text lang =
  Ret {| translation := js "[ERROR]"; category := js "Error";
         reasoning := js "AI returned acknowledgment text instead of translation - likely missing CSV data" |}.
Proof. intros H. unfold Parser.parseWithFallbacks. now rewrite H. Qed.

Lemma str_eqb_length (a b : jsstring) :
  str_eqb a b = true -> List.length a = List.length b.
Proof.
  revert b. induction a as [|x a IH]; intros [|y b]; cbn; try discriminate; [reflexivity|].
  intros H. apply andb_true_iff in H as [_ H]. now rewrite (IH b H).
Qed.

(** C7 (as the code has it).  For the candidate [Settings], the target
    language [Hindi] and a source text of 9 code units, the only failed
    check is the missing Devanagari script: the confidence is exactly 50,
    which the threshold [confidence >= 50] accepts, and the recoverer
    returns [Settings] as a direct response. *)
Theorem hindi_settings_accepted (text : jsstring) :
  List.length text = 9%nat ->
  let v := validateTranslationResponse (js "Settings") text (js "Hindi") in
  confidence v = 50%Z /\ isValid v = true /\
  issues v = [js "No Devanagari script detected for Hindi translation"] /\
  parseWithFallbacks (js "Settings") text (Some (js "Hindi")) =
  Ret {| translation := js "Settings"; category := js "Unknown";
         reasoning := js "Direct response assumed as translation" |}.
Proof.
  intros Hlen.
  assert (Hne : str_eqb (toLowerCase (js "Settings")) (toLowerCase text) = false).
  { apply not_true_is_false. intros H. apply str_eqb_length in H.
    pose proof (toLowerCase_length text) as Hl. rewrite <- H, Hlen in Hl.
    vm_compute in Hl. lia. }
  assert (Hv : validateTranslationResponse (js "Settings") text (js "Hindi") =
               {| isValid := true;
                  issues := [js "No Devanagari script detected for Hindi translation"];
                  confidence := 50; suggestedFix := None |}).
  { unfold validateTranslationResponse. rewrite Hne. reflexivity. }
  cbn zeta. rewrite Hv. repeat split.
  unfold Parser.parseWithFallbacks.
  replace (existsb _ acknowledgmentPatterns) with false by reflexivity.
  replace (test fi mentionsCSVStructure (js "Settings")) with false by reflexivity.
  cbn [andb].
  replace (parseAIResponse (js "Settings")) with (@Ret (option TranslateResponse) None)
    by reflexivity.
  cbn [Eff.bind]. unfold fallbacks.
  replace (firstLabelled patterns (js "Settings")) with (@None jsstring) by reflexivity.
  replace (existsb _ Parser.explanatoryPatterns) with false by reflexivity.
  replace (salvageMalformed (trim (js "Settings")) text)
    with (@Ret (option TranslateResponse) None) by reflexivity.
  cbn [Eff.bind]. unfold acceptDirect.
  replace (trim (js "Settings")) with (js "Settings") by reflexivity.
  rewrite Hv. cbn [isValid negb truthy andb has existsb]. rewrite Hlen. reflexivity.
Qed.

End ResponseRecovery.

(** A row reader to run the recoverer with: the provider's own line
    parser, one row for one line. *)
Definition rowsOfLine (row : jsstring) : list (list jsstring) :=
  [Csv.parseCSVLine row].

(** The folding of case is that of the whole of Unicode.  A response in
    Cyrillic capitals is the text itself after folding: the check for an
    identical response answers. *)
Example identical_text_beyond_latin :
  let response := [1055; 1056; 1048; 1042; 1045; 1058]%N ++ js " xcsvx" in
  let text := [1087; 1088; 1080; 1074; 1077; 1090]%N ++ js " xcsvx" in
  Parser.parseWithFallbacks rowsOfLine response text (Some (js "Hindi")) =
  Ret {| Parser.translation := text; Parser.category := js "Error";
         Parser.reasoning := js "Invalid response: Response is identical to original text" |}.
Proof. vm_compute. reflexivity. Qed.

(** A first line that starts with the Kelvin sign U+212A and [ey,] is a
    header line, and the row after it is read. *)
Example kelvin_header_is_skipped :
  Parser.parseWithFallbacks rowsOfLine ([8490]%N ++ js "ey," ++ [10]%N ++ js "x,Hola")
    (js "x") None =
  Ret {| Parser.translation := js "Hola"; Parser.category := js "Unknown";
         Parser.reasoning := js "Parsed from CSV" |}.
Proof. vm_compute. reflexivity. Qed.

Definition ackExample : jsstring := js "Sure, I'll output the four fields now: ...".


Lemma acknowledgment_rejected_witness :
  Parser.parseWithFallbacks rowsOfLine ackExample (js "Hello") (Some (js "Hindi")) =
  Ret {| Parser.translation := js "[ERROR]"; Parser.category := js "Error";
         Parser.reasoning := js "AI returned acknowledgment text instead of translation - likely missing CSV data" |}.
Proof. apply acknowledgment_rejected. reflexivity. Defined.

(** C5 as stated fails on its own example: the reasoning of the sentinel
    is not the text the claim gives. *)
Lemma acknowledgment_reasoning_differs :
  exists r,
    Parser.parseWithFallbacks rowsOfLine ackExample (js "Hello") (Some (js "Hindi")) = Ret r /\
    Parser.category r = js "Error" /\
    Parser.reasoning r <> js "AI returned acknowledgment text instead of translation".
Proof. eexists. split; [reflexivity|]. split; [reflexivity | discriminate]. Qed.

Lemma hindi_settings_accepted_witness :
  let v := Validator.validateTranslationResponse (js "Settings") (js "Configure") (js "Hindi") in
  Validator.confidence v = 50%Z /\ Validator.isValid v = true /\
  Validator.issues v = [js "No Devanagari script detected for Hindi translation"] /\
  Parser.parseWithFallbacks rowsOfLine (js "Settings") (js "Configure") (Some (js "Hindi")) =
  Ret {| Parser.translation := js "Settings"; Parser.category := js "Unknown";
         Parser.reasoning := js "Direct response assumed as translation" |}.
Proof. apply hindi_settings_accepted. reflexivity. Defined.

(** C7 as stated fails: the confidence is not below 50, the response is
    judged valid, and the recoverer returns [Settings], not the source
    text with category [Error]. *)
Lemma hindi_settings_not_rejected :
  let v := Validator.validateTranslationResponse (js "Settings") (js "Configure") (js "Hindi") in
  List.length (js "Configure") = 9%nat /\
  ~ (Validator.confidence v < 50)%Z /\ Validator.isValid v = true /\
  exists r,
    Parser.parseWithFallbacks rowsOfLine (js "Settings") (js "Configure") (Some (js "Hindi"))
    = Ret r /\
    Parser.translation r = js "Settings" /\ Parser.category r <> js "Error".
Proof.
  cbn zeta. split; [reflexivity|]. split; [vm_compute; discriminate|].
  split; [reflexivity|]. eexists. split; [reflexivity|].
  split; [reflexivity | discriminate].
Qed.

Section RetryMergeProps.
Import Types RetryMerge.

Lemma str_eqb_eq (a b : jsstring) : str_eqb a b = true <-> a = b.
Proof.
  revert b. induction a as [|x a IH]; intros [|y b]; cbn; try (split; congruence).
  rewrite andb_true_iff, N.eqb_eq, IH. split; [intros [-> ->] | intros [= -> ->]]; auto.
Qed.

Lemma str_eqb_refl (a : jsstring) : str_eqb a a = true.
Proof. now apply str_eqb_eq. Qed.

Lemma str_eqb_neq (a b : jsstring) : a <> b -> str_eqb a b = false.
Proof. intros H. apply not_true_is_false. now rewrite str_eqb_eq. Qed.

Lemma get_set {V} (k k' : jsstring) (v : V) (m : JsMap.t V) :
  JsMap.get k' (JsMap.set k v m) = if str_eqb k k' then Some v else JsMap.get k' m.
Proof.
  induction m as [|[k0 v0] m IH]; cbn [JsMap.set JsMap.get]; [reflexivity|].
  destruct (str_eqb k0 k) eqn:E0; cbn [JsMap.get].
  - apply str_eqb_eq in E0. subst k0. now destruct (str_eqb k k').
  - destruct (str_eqb k0 k') eqn:E1; [|exact IH].
    apply str_eqb_eq in E1. subst k0.
    rewrite (str_eqb_neq k k'); [reflexivity|].
    intros ->. now rewrite str_eqb_refl in E0.
Qed.

(** The entry a list of entries gives for a key when the entries are
    written into a [Map] one after the other: the last one with that key. *)
Definition lastWithKey (k : jsstring) (l : list TranslationEntry) : option TranslationEntry :=
  List.find (fun entry => str_eqb (key entry) k) (rev l).

(** The entry an array of entries has for a key. *)
Definition entryFor (k : jsstring) (l : list TranslationEntry) : option TranslationEntry :=
  List.find (fun entry => str_eqb (key entry) k) l.

Lemma find_snoc {A} (f : A -> bool) (l : list A) (x : A) :
  List.find f (l ++ [x]) =
  match List.find f l with
  | Some y => Some y
  | None => if f x then Some x else None
  end.
Proof.
  induction l as [|a l IH]; cbn [app List.find]; [reflexivity|].
  now destruct (f a).
Qed.

Lemma lastWithKey_cons (k : jsstring) (e : TranslationEntry) (l : list TranslationEntry) :
  lastWithKey k (e :: l) =
  match lastWithKey k l with
  | Some x => Some x
  | None => if str_eqb (key e) k then Some e else None
  end.
Proof.
  unfold lastWithKey. cbn [rev]. now rewrite find_snoc.
Qed.

Lemma get_setAll (k : jsstring) (l : list TranslationEntry) (m : JsMap.t TranslationEntry) :
  JsMap.get k (setAll l m) =
  match lastWithKey k l with
  | Some e => Some e
  | None => JsMap.get k m
  end.
Proof.
  revert m. induction l as [|e l IH]; intros m; [reflexivity|].
  unfold setAll in *. cbn [fold_left]. rewrite IH, lastWithKey_cons, get_set.
  destruct (lastWithKey k l); [reflexivity|]. now destruct (str_eqb (key e) k).
Qed.

(** Every value of the map sits under its own key, and no key is repeated. *)
Definition keyed (m : JsMap.t TranslationEntry) : Prop :=
  Forall (fun kv => key (snd kv) = fst kv) m /\ List.NoDup (JsMap.keys m).

Lemma set_keys_in {V} (k k' : jsstring) (v : V) (m : JsMap.t V) :
  In k' (JsMap.keys (JsMap.set k v m)) -> k' = k \/ In k' (JsMap.keys m).
Proof.
  induction m as [|[k0 v0] m IH]; cbn [JsMap.set JsMap.keys List.map In fst].
  - intros [<- | []]. now left.
  - destruct (str_eqb k0 k) eqn:E; cbn [List.map In fst].
    + intros [<- | H]; [now left | right; now right].
    + intros [<- | H]; [right; now left|].
      destruct (IH H) as [-> | H']; [now left | right; now right].
Qed.

Lemma keyed_set (e : TranslationEntry) (m : JsMap.t TranslationEntry) :
  keyed m -> keyed (JsMap.set (key e) e m).
Proof.
  intros [Hk Hn]. induction m as [|[k0 v0] m IH]; cbn [JsMap.set].
  - split; [repeat constructor|]. cbn. constructor; [intros [] | constructor].
  - inversion Hk as [|? ? Hk0 Hk']; subst. cbn in Hn. inversion Hn as [|? ? Hn0 Hn']; subst.
    destruct (str_eqb k0 (key e)) eqn:E.
    + apply str_eqb_eq in E. subst k0. split; [constructor; [reflexivity | exact Hk']|].
      cbn. now constructor.
    + destruct (IH Hk' Hn') as [IH1 IH2]. split; [constructor; assumption|].
      cbn. constructor; [|exact IH2].
      intros Hin. apply set_keys_in in Hin as [-> | Hin]; [|now apply Hn0].
      now rewrite str_eqb_refl in E.
Qed.

Lemma keyed_setAll (l : list TranslationEntry) (m : JsMap.t TranslationEntry) :
  keyed m -> keyed (setAll l m).
Proof.
  revert m. induction l as [|e l IH]; intros m H; [exact H|].
  unfold setAll in *. cbn [fold_left]. apply IH. now apply keyed_set.
Qed.

Lemma entryFor_values (k : jsstring) (m : JsMap.t TranslationEntry) :
  keyed m -> entryFor k (JsMap.values m) = JsMap.get k m.
Proof.
  intros [Hk _]. induction m as [|[k0 v0] m IH]; [reflexivity|].
  inversion Hk as [|? ? Hk0 Hk']; subst. cbn in Hk0.
  unfold entryFor in *. cbn [JsMap.values List.map List.find JsMap.get snd].
  rewrite Hk0. destruct (str_eqb k0 k); [reflexivity | now apply IH].
Qed.

Lemma keys_values (m : JsMap.t TranslationEntry) :
  keyed m -> List.map key (JsMap.values m) = JsMap.keys m.
Proof.
  intros [Hk _]. induction m as [|[k0 v0] m IH]; [reflexivity|].
  inversion Hk as [|? ? Hk0 Hk']; subst. cbn [snd fst] in Hk0.
  unfold JsMap.values, JsMap.keys in *. cbn [List.map snd fst].
  now rewrite Hk0, IH.
Qed.

(** C2.  With previous results the final table has one entry for a key:
    the entry of the new run when the new run has the key, the previous
    entry otherwise; a key the new run does not have keeps its previous
    entry. *)
Theorem retry_merge_last_write_wins (previous results : MergedResults) :
  let final := mergeWithPrevious (Some previous) results in
  List.NoDup (List.map key (entries final)) /\
  (forall k,
     entryFor k (entries final) =
     match lastWithKey k (entries results) with
     | Some e => Some e
     | None => lastWithKey k (entries previous)
     end) /\
  (forall k,
     ~ In k (List.map key (entries results)) ->
     entryFor k (entries final) = lastWithKey k (entries previous)).
Proof.
  cbn zeta. unfold mergeWithPrevious. cbn [entries].
  set (m := setAll (entries results) (setAll (entries previous) JsMap.empty)).
  assert (Hkeyed : keyed m).
  { apply keyed_setAll, keyed_setAll. split; constructor. }
  assert (Hget : forall k, entryFor k (JsMap.values m) =
            match lastWithKey k (entries results) with
            | Some e => Some e
            | None => lastWithKey k (entries previous)
            end).
  { intros k. rewrite entryFor_values by exact Hkeyed. unfold m.
    rewrite !get_setAll. cbn [JsMap.get JsMap.empty].
    destruct (lastWithKey k (entries results)); [reflexivity|].
    now destruct (lastWithKey k (entries previous)). }
  split; [|split].
  - rewrite keys_values by exact Hkeyed. apply Hkeyed.
  - exact Hget.
  - intros k Hnot. rewrite Hget.
    destruct (lastWithKey k (entries results)) as [e|] eqn:E; [|reflexivity].
    exfalso. apply Hnot. unfold lastWithKey in E. apply find_some in E as [Hin Hk].
    apply str_eqb_eq in Hk. subst k. apply in_map. now apply In_rev in Hin.
Qed.

Definition row (k translation : string) : TranslationEntry :=
  {| key := js k; source := js "menu"; english := js "Text";
     columns := [(js "Spanish", js translation)] |}.

(** The retry scenario: [a] succeeded before, [b] failed and is retried. *)
Lemma retry_merge_witness :
  let previous := {| entries := [row "a" "X"; row "b" "[ERROR]"]; headers := [] |} in
  let results := {| entries := [row "b" "Y"]; headers := [] |} in
  entryFor (js "a") (entries (mergeWithPrevious (Some previous) results)) =
  lastWithKey (js "a") (entries previous).
Proof.
  apply (proj2 (proj2 (retry_merge_last_write_wins _ _))).
  cbn. intros [H | []]. discriminate H.
Defined.

End RetryMergeProps.

Section RetryAndBackoff.
Import Types Parser RateLimiter Anthropic.
Local Open Scope m_scope.

Variable Papa_parse : jsstring -> list (list jsstring).

Local Open Scope Q_scope.

(** The backoff formula in the words of the specification, for the n-th
    attempt and a jitter of [j] milliseconds, in exact arithmetic. *)
Definition specBackoff (initialDelay : Z) (n : nat) (j : Q) : Q :=
  Qmin (inject_Z (initialDelay * 2 ^ (Z.of_nat n - 1)) + j) 30000.

(** The jitter of [calculateBackoffDelay]: [Math.random() * 1000]. *)
Definition jitterOf (random : Q) : Q := Double.mul random 1000.

Lemma jitter_range (r : Q) : 0 <= r -> r < 1 -> 0 <= jitterOf r /\ jitterOf r <= 1000.
Proof.
  intros H0 H1. unfold jitterOf, Double.mul.
  assert (Hq : 0 <= r * 1000) by lra.
  split.
  - apply (round_ge _ 0); [exact Hq | lia | exact Hq].
  - apply (round_le _ 1000); [exact Hq | lia | change (inject_Z 1000) with 1000; lra].
Qed.

(** The base delay of the first four attempts is exact. *)
Lemma baseDelay_exact (n : nat) :
  (1 <= n <= 4)%nat ->
  Double.mul (inject_Z initialRetryDelay) (2 ^ (Z.of_nat n - 1))
  == inject_Z (initialRetryDelay * 2 ^ (Z.of_nat n - 1)).
Proof.
  intros Hn.
  assert (H : n = 1%nat \/ n = 2%nat \/ n = 3%nat \/ n = 4%nat) by lia.
  destruct H as [-> | [-> | [-> | ->]]]; vm_compute; reflexivity.
Qed.

Lemma baseDelay_large (n : nat) :
  (5 <= n)%nat ->
  32000 <= inject_Z (initialRetryDelay * 2 ^ (Z.of_nat n - 1)) /\
  32000 <= Double.mul (inject_Z initialRetryDelay) (2 ^ (Z.of_nat n - 1)).
Proof.
  intros Hn.
  assert (Hp : (16 <= 2 ^ (Z.of_nat n - 1))%Z).
  { change 16%Z with (2 ^ 4)%Z. apply Z.pow_le_mono_r; lia. }
  assert (Hz : (32000 <= initialRetryDelay * 2 ^ (Z.of_nat n - 1))%Z)
    by (unfold initialRetryDelay; lia).
  assert (Hq : 32000 <= inject_Z initialRetryDelay * 2 ^ (Z.of_nat n - 1)).
  { rewrite <- two_inject by lia. rewrite <- inject_Z_mult.
    change 32000 with (inject_Z 32000). now rewrite <- Zle_Qle. }
  split.
  - change 32000 with (inject_Z 32000). now rewrite <- Zle_Qle.
  - unfold Double.mul. apply (round_ge _ 32000); [lra | lia | exact Hq].
Qed.


(** [calculateBackoffDelay] against the formula: the two agree up to the
    rounding of the sum, which is below 2^-39 ms, and from the fifth
    attempt on both are the cap. *)
Lemma backoff_near (n : nat) (r : Q) :
  (1 <= n)%nat -> 0 <= r -> r < 1 ->
  let d := calculateBackoffDelay (Z.of_nat n) r in
  let s := specBackoff initialRetryDelay n (jitterOf r) in
  s - 2 ^ (-39) <= d /\ d <= s + 2 ^ (-39) /\ ((5 <= n)%nat -> d == 30000).
Proof.
  intros Hn H0 H1. cbn zeta. unfold calculateBackoffDelay, specBackoff. cbn zeta.
  fold (jitterOf r). destruct (jitter_range r H0 H1) as [Hj0 Hj1].
  pose proof (two_pos (-39)) as Hp.
  destruct (le_lt_dec n 4) as [Hsmall | Hbig].
  - pose proof (baseDelay_exact n (conj Hn Hsmall)) as Hb.
    assert (HB : 2000 <= inject_Z (initialRetryDelay * 2 ^ (Z.of_nat n - 1)) /\
                 inject_Z (initialRetryDelay * 2 ^ (Z.of_nat n - 1)) <= 16000).
    { assert (H : n = 1%nat \/ n = 2%nat \/ n = 3%nat \/ n = 4%nat) by lia.
      destruct H as [-> | [-> | [-> | ->]]]; vm_compute; split; discriminate. }
    set (B := inject_Z (initialRetryDelay * 2 ^ (Z.of_nat n - 1))) in *.
    set (base := Double.mul (inject_Z initialRetryDelay) (2 ^ (Z.of_nat n - 1))) in *.
    destruct HB as [HB0 HB1]. unfold Double.add.
    assert (Hx0 : 0 <= base + jitterOf r) by lra.
    assert (Hx1 : base + jitterOf r <= inject_Z 17000)
      by (change (inject_Z 17000) with 17000; lra).
    pose proof (round_le _ 17000 Hx0 ltac:(lia) Hx1) as Hr.
    change (inject_Z 17000) with 17000 in Hr.
    assert (Hlt : base + jitterOf r < 2 ^ (14 + 1)).
    { change (2 ^ (14 + 1)) with 32768. change (inject_Z 17000) with 17000 in Hx1. lra. }
    destruct (round_near _ 14 Hx0 Hlt) as [Hn1 Hn2].
    change (14 - 53)%Z with (-39)%Z in Hn1, Hn2.
    rewrite (Q.min_l (Double.round (base + jitterOf r)) 30000) by lra.
    rewrite (Q.min_l (B + jitterOf r) 30000) by lra.
    split; [lra|]. split; [lra|]. intros; lia.
  - destruct (baseDelay_large n Hbig) as [HB Hbase].
    set (B := inject_Z (initialRetryDelay * 2 ^ (Z.of_nat n - 1))) in *.
    set (base := Double.mul (inject_Z initialRetryDelay) (2 ^ (Z.of_nat n - 1))) in *.
    unfold Double.add.
    assert (Hx0 : 0 <= base + jitterOf r) by lra.
    assert (Hx1 : inject_Z 30000 <= base + jitterOf r)
      by (change (inject_Z 30000) with 30000; lra).
    pose proof (round_ge _ 30000 Hx0 ltac:(lia) Hx1) as Hr.
    change (inject_Z 30000) with 30000 in Hr.
    rewrite (Q.min_r (Double.round (base + jitterOf r)) 30000) by lra.
    rewrite (Q.min_r (B + jitterOf r) 30000) by lra.
    split; [lra|]. split; [lra|]. intros _. reflexivity.
Qed.

(** For the first four attempts, where the cap is out of reach,
    [calculateBackoffDelay] is the sum of the formula rounded to a double. *)
Lemma backoff_rounded (n : nat) (r : Q) :
  (1 <= n <= 4)%nat -> 0 <= r -> r < 1 ->
  calculateBackoffDelay (Z.of_nat n) r ==
  Double.round (inject_Z (initialRetryDelay * 2 ^ (Z.of_nat n - 1)) + jitterOf r).
Proof.
  intros Hn H0 H1. unfold calculateBackoffDelay. cbn zeta.
  fold (jitterOf r). destruct (jitter_range r H0 H1) as [Hj0 Hj1].
  pose proof (baseDelay_exact n Hn) as Hb.
  assert (HB : 2000 <= inject_Z (initialRetryDelay * 2 ^ (Z.of_nat n - 1)) /\
               inject_Z (initialRetryDelay * 2 ^ (Z.of_nat n - 1)) <= 16000).
  { assert (H : n = 1%nat \/ n = 2%nat \/ n = 3%nat \/ n = 4%nat) by lia.
    destruct H as [-> | [-> | [-> | ->]]]; vm_compute; split; discriminate. }
  set (B := inject_Z (initialRetryDelay * 2 ^ (Z.of_nat n - 1))) in *.
  set (base := Double.mul (inject_Z initialRetryDelay) (2 ^ (Z.of_nat n - 1))) in *.
  destruct HB as [HB0 HB1]. unfold Double.add.
  assert (Hx0 : 0 <= base + jitterOf r) by lra.
  assert (Hx1 : base + jitterOf r <= inject_Z 17000)
    by (change (inject_Z 17000) with 17000; lra).
  pose proof (round_le _ 17000 Hx0 ltac:(lia) Hx1) as Hr.
  change (inject_Z 17000) with 17000 in Hr.
  rewrite (Q.min_l (Double.round (base + jitterOf r)) 30000) by lra.
  apply round_equal; [exact Hx0 | lra].
Qed.

(** With a whole number of milliseconds of jitter the formula is exact. *)
Example backoff_whole_jitter :
  calculateBackoffDelay 3 (1 # 2) == specBackoff initialRetryDelay 3 500.
Proof. vm_compute. reflexivity. Qed.

Local Close Scope Q_scope.

Definition isBackoff (e : Event) : bool :=
  match e with
  | Slept (Backoff _ _) _ => true
  | _ => false
  end.

Definition noBackoff (evs : list Event) : bool := forallb (fun e => negb (isBackoff e)) evs.

(** What a retry loop that starts at [attempt] may leave in the event
    log: the events of an attempt hold no backoff sleep; a backoff sleep
    comes right after a failure that is a rate-limit error, while the
    attempt number is at most [rateLimitRetries]; its length is
    [calculateBackoffDelay] at the attempt number and the random number
    drawn; the next attempt has the next number. *)
Inductive RetryLog : Z -> list Event -> Prop :=
| retry_last attempt evs :
    noBackoff evs = true -> RetryLog attempt evs
| retry_more attempt evs error r rest :
    noBackoff evs = true ->
    isRateLimitError error = true ->
    (attempt <= rateLimitRetries)%Z ->
    RetryLog (attempt + 1) rest ->
    RetryLog attempt
      (evs ++ Failed error :: Slept (Backoff attempt r) (calculateBackoffDelay attempt r)
           :: rest).

Lemma noBackoff_filter (evs : list Event) :
  noBackoff evs = true -> List.filter isBackoff evs = [].
Proof.
  induction evs as [|e evs IH]; cbn; [reflexivity|].
  intros H. apply andb_true_iff in H as [He H]. apply negb_true_iff in He.
  rewrite He. now apply IH.
Qed.

(** A retry loop that starts at attempt 1 sleeps at most three times. *)
Lemma RetryLog_count (attempt : Z) (evs : list Event) :
  RetryLog attempt evs ->
  (Z.of_nat (List.length (List.filter isBackoff evs))
   <= Z.max 0 (rateLimitRetries + 1 - attempt))%Z.
Proof.
  induction 1 as [attempt evs H | attempt evs error r rest H Hrl Hle Hrest IH].
  - rewrite noBackoff_filter by exact H. cbn. lia.
  - rewrite List.filter_app, noBackoff_filter by exact H. cbn [app List.filter isBackoff].
    cbn [List.length]. lia.
Qed.

(** One attempt: it adds events without a backoff sleep, it does not
    diverge, and when it throws, the failure is the last event. *)
Definition attemptOK {A} (body : M World A) : Prop :=
  forall w,
    exists new,
      events (snd (body w)) = events w ++ new /\ noBackoff new = true /\
      settles (fst (body w)) /\
      (forall error, fst (body w) = Throw error -> exists pre, new = pre ++ [Failed error]).

Definition quiet {A} (handler : JsError -> M World A) : Prop :=
  forall error w, events (snd (handler error w)) = events w /\ settles (fst (handler error w)).

(** The shape the two retrying methods share. *)
Definition retryStep {A} (body : M World A) (giveUp : JsError -> M World A)
    (again : Z -> option (M World A)) (attempt : Z) : M World A :=
  tryCatch body
    (fun error =>
       if isRateLimitError error && (attempt <=? rateLimitRetries)%Z then
         match again (attempt + 1)%Z with
         | None => diverge
         | Some next =>
             r <- random ;;
             delay (Backoff attempt r) (calculateBackoffDelay attempt r) ;;; next
         end
       else giveUp error).

Lemma retry_log {A} (body : M World A) (giveUp : JsError -> M World A)
    (loop : nat -> Z -> M World A) :
  (forall fuel attempt,
     loop fuel attempt =
     retryStep body giveUp
       (fun next => match fuel with O => None | S fuel' => Some (loop fuel' next) end)
       attempt) ->
  attemptOK body -> quiet giveUp ->
  forall fuel attempt w,
    (exists new, events (snd (loop fuel attempt w)) = events w ++ new /\ RetryLog attempt new)
    /\ ((rateLimitRetries + 1 - attempt <= Z.of_nat fuel)%Z ->
        settles (fst (loop fuel attempt w))).
Proof.
  intros Hloop Hbody Hquiet fuel.
  induction fuel as [|fuel IH]; intros attempt w; rewrite Hloop;
    unfold retryStep, tryCatch;
    destruct (Hbody w) as [new [Hev [Hnb [Hnd Hthrow]]]];
    destruct (body w) as [[a|error| |] w1] eqn:Ebody; cbn [fst snd] in *;
    try (split; [exists new; split; [exact Hev | now apply retry_last] | intros _; exact I]);
    try contradiction.
  - destruct (isRateLimitError error && (attempt <=? rateLimitRetries)%Z) eqn:Econd.
    + apply andb_true_iff in Econd as [_ Hle]. apply Z.leb_le in Hle.
      split; [|intros; unfold rateLimitRetries in *; lia].
      exists new. split; [exact Hev | now apply retry_last].
    + destruct (Hquiet error w1) as [Hq Hqd].
      split; [|intros _; exact Hqd].
      exists new. rewrite Hq. split; [exact Hev | now apply retry_last].
  - destruct (isRateLimitError error && (attempt <=? rateLimitRetries)%Z) eqn:Econd.
    + apply andb_true_iff in Econd as [Hrl Hle]. apply Z.leb_le in Hle.
      destruct (Hthrow error eq_refl) as [pre ->].
      unfold mbind, random, delay. cbn [fst snd].
      set (r := randomStream w1 (randomsDrawn w1)).
      set (w2 := withEvent _ _).
      destruct (IH (attempt + 1)%Z w2) as [[rest [Hrest Hlog]] Hdiv].
      split.
      * exists (pre ++ Failed error
                  :: Slept (Backoff attempt r) (calculateBackoffDelay attempt r) :: rest).
        split.
        -- rewrite Hrest. unfold w2. cbn [events withEvent withClock]. rewrite Hev.
           rewrite <- !app_assoc. reflexivity.
        -- apply retry_more; try assumption.
           unfold noBackoff in *. rewrite forallb_app in Hnb.
           now apply andb_true_iff in Hnb as [-> _].
      * intros Hfuel. apply Hdiv. lia.
    + destruct (Hquiet error w1) as [Hq Hqd].
      split; [|intros _; exact Hqd].
      exists new. rewrite Hq. split; [exact Hev | now apply retry_last].
Qed.

Lemma attemptOK_bind {A B} (c : M World A) (k : A -> M World B) :
  attemptOK c -> (forall a, attemptOK (k a)) -> attemptOK (mbind c k).
Proof.
  intros Hc Hk w. unfold mbind.
  destruct (Hc w) as [new1 [Hev1 [Hnb1 [Hnd1 Hth1]]]].
  destruct (c w) as [[a|error| |] w1]; cbn [fst snd] in *; try contradiction.
  - destruct (Hk a w1) as [new2 [Hev2 [Hnb2 [Hnd2 Hth2]]]].
    exists (new1 ++ new2). rewrite Hev2, Hev1, app_assoc.
    split; [reflexivity|]. split.
    { unfold noBackoff in *. now rewrite forallb_app, Hnb1, Hnb2. }
    split; [exact Hnd2|].
    intros error Herr. destruct (Hth2 error Herr) as [pre ->].
    exists (new1 ++ pre). now rewrite app_assoc.
  - exists new1. split; [exact Hev1|]. split; [exact Hnb1|].
    split; [exact I|]. intros e [= <-]. now apply Hth1.
Qed.

Lemma attemptOK_ret {A} (a : A) : attemptOK (ret a).
Proof.
  intros w. exists []. cbn. rewrite app_nil_r. repeat split; try discriminate.
Qed.

Lemma attemptOK_onLimiter {A} (self : nat)
    (method : Z -> TokenRateLimiter -> A * TokenRateLimiter) :
  attemptOK (onLimiter self method).
Proof.
  intros w. exists []. unfold onLimiter. destruct (method _ _) as [a l]. cbn.
  rewrite app_nil_r. repeat split; try discriminate.
Qed.

Lemma attemptOK_wait (ms : Q) : attemptOK (delay RateLimitWait ms).
Proof.
  intros w. exists [Slept RateLimitWait ms]. cbn. repeat split; try discriminate.
Qed.

Lemma attemptOK_messagesCreate (request : ApiRequest) : attemptOK (messagesCreate request).
Proof.
  intros w. unfold messagesCreate. cbn zeta.
  destruct (reply _) as [[text|]|error].
  - exists [Requested request]. cbn. repeat split; try discriminate.
  - exists [Requested request]. cbn. repeat split; try discriminate.
  - exists [Requested request; Failed error]. cbn. rewrite <- app_assoc.
    repeat split; try discriminate. intros e [= <-]. now exists [Requested request].
Qed.

Lemma attemptOK_lift {A} (o : Outcome A) :
  (exists r, o = Ret r) -> attemptOK (lift o).
Proof.
  intros [r ->] w. exists []. cbn. rewrite app_nil_r. repeat split; try discriminate.
Qed.

Lemma translateBatchOnce_ok (self : nat) (model : jsstring) (options : BatchTranslateOptions) :
  attemptOK (translateBatchOnce self model options).
Proof.
  unfold translateBatchOnce. cbn zeta.
  repeat (apply attemptOK_bind; [|intros ?]);
    auto using attemptOK_onLimiter, attemptOK_messagesCreate, attemptOK_ret.
  destruct (_ <? _)%Z; auto using attemptOK_wait, attemptOK_ret.
Qed.

Lemma parseCSVResponse_returns response expectedKey originalText language :
  exists r, parseCSVResponse Papa_parse response expectedKey originalText language = Ret r.
Proof.
  unfold parseCSVResponse. destruct (firstCSVRow _ _ _ _); [now eexists|].
  unfold parseResponse.
  destruct (parseWithFallbacks_returns Papa_parse response originalText language) as [r ->].
  now eexists.
Qed.

Lemma translateOnce_ok (self : nat) (model : jsstring) (options : TranslateOptions) :
  attemptOK (translateOnce Papa_parse self model options).
Proof.
  unfold translateOnce. cbn zeta.
  repeat (apply attemptOK_bind; [|intros ?]);
    auto using attemptOK_onLimiter, attemptOK_messagesCreate, attemptOK_ret.
  - destruct (_ <? _)%Z; auto using attemptOK_wait, attemptOK_ret.
  - apply attemptOK_lift. destruct (isCSVPrompt _); [apply parseCSVResponse_returns|].
    apply parseWithFallbacks_returns.
Qed.

Lemma translateBatchWithRetry_step fuel self model options attempt :
  translateBatchWithRetry fuel self model options attempt =
  retryStep (translateBatchOnce self model options)
    (fun error => ret (markAllFailed (b_entries options) error emptyBatch))
    (fun next => match fuel with
                 | O => None
                 | S fuel' => Some (translateBatchWithRetry fuel' self model options next)
                 end)
    attempt.
Proof. destruct fuel; reflexivity. Qed.

Lemma translateWithRetry_step fuel self model options attempt :
  translateWithRetry Papa_parse fuel self model options attempt =
  retryStep (translateOnce Papa_parse self model options)
    (fun error => throw (ErrorObj (js "Anthropic translation failed: " ++ messageOf error)))
    (fun next => match fuel with
                 | O => None
                 | S fuel' => Some (translateWithRetry Papa_parse fuel' self model options next)
                 end)
    attempt.
Proof. destruct fuel; reflexivity. Qed.

Lemma quiet_markAllFailed (options : BatchTranslateOptions) :
  quiet (fun error => ret (markAllFailed (b_entries options) error emptyBatch)
           : M World BatchTranslateResponse).
Proof. intros error w. cbn. split; [reflexivity | exact I]. Qed.

Lemma quiet_rethrow :
  quiet (fun error =>
           throw (ErrorObj (js "Anthropic translation failed: " ++ messageOf error))
           : M World TranslateResponse).
Proof. intros error w. cbn. split; [reflexivity | exact I]. Qed.

(** The event log of one call of [translateBatch] and of [translate]. *)
Lemma translateBatch_log (self : nat) (model : jsstring)
    (options : BatchTranslateOptions) (w : World) :
  (exists new,
     events (snd (translateBatch self model options w)) = events w ++ new /\
     RetryLog 1 new) /\
  settles (fst (translateBatch self model options w)).
Proof.
  destruct (retry_log _ _ (fun fuel attempt =>
              translateBatchWithRetry fuel self model options attempt)
              (fun fuel attempt => translateBatchWithRetry_step fuel self model options attempt)
              (translateBatchOnce_ok self model options) (quiet_markAllFailed options)
              (Z.to_nat rateLimitRetries) 1%Z w) as [Hlog Hdiv].
  split; [exact Hlog | apply Hdiv; reflexivity].
Qed.

Lemma translate_log (self : nat) (model : jsstring) (options : TranslateOptions) (w : World) :
  (exists new,
     events (snd (translate Papa_parse self model options w)) = events w ++ new /\
     RetryLog 1 new) /\
  settles (fst (translate Papa_parse self model options w)).
Proof.
  destruct (retry_log _ _ (fun fuel attempt =>
              translateWithRetry Papa_parse fuel self model options attempt)
              (fun fuel attempt => translateWithRetry_step fuel self model options attempt)
              (translateOnce_ok self model options) quiet_rethrow
              (Z.to_nat rateLimitRetries) 1%Z w) as [Hlog Hdiv].
  split; [exact Hlog | apply Hdiv; reflexivity].
Qed.

(** *** The retry loop, event by event *)

(** The events of one attempt: a wait for the rate limiter when one is
    due, the request, and its failure when [failure] names one. *)
Definition attemptLog (evs : list Event) (failure : option JsError) : Prop :=
  exists waits request,
    (waits = [] \/ exists ms, waits = [Slept RateLimitWait ms]) /\
    evs = waits ++ Requested request ::
            match failure with Some error => [Failed error] | None => [] end.

(** The events of a retry loop that starts at [attempt] in a world that
    has handed out [drawn] random numbers of [stream].  The loop ends with
    an attempt that returns, or with an attempt whose failure is not a
    rate-limit error or comes after the last retry.  Every other failure
    is followed by a backoff sleep, for the delay of the attempt with the
    next random number, and by the next attempt. *)
Inductive RetryRun (stream : nat -> Q) : nat -> Z -> list Event -> Prop :=
| run_returned drawn attempt evs :
    attemptLog evs None -> RetryRun stream drawn attempt evs
| run_gave_up drawn attempt evs error :
    attemptLog evs (Some error) ->
    isRateLimitError error = false \/ (rateLimitRetries < attempt)%Z ->
    RetryRun stream drawn attempt evs
| run_retried drawn attempt evs error rest :
    attemptLog evs (Some error) ->
    isRateLimitError error = true ->
    (attempt <= rateLimitRetries)%Z ->
    RetryRun stream (S drawn) (attempt + 1) rest ->
    RetryRun stream drawn attempt
      (evs ++ Slept (Backoff attempt (stream drawn))
                (calculateBackoffDelay attempt (stream drawn)) :: rest).

Definition isRequest (e : Event) : bool :=
  match e with Requested _ => true | _ => false end.

Definition backoffCount (evs : list Event) : nat := List.length (List.filter isBackoff evs).
Definition requestCount (evs : list Event) : nat := List.length (List.filter isRequest evs).

Lemma attemptLog_counts (evs : list Event) (failure : option JsError) :
  attemptLog evs failure -> backoffCount evs = 0%nat /\ requestCount evs = 1%nat.
Proof.
  intros [waits [request [Hw ->]]]. unfold backoffCount, requestCount.
  rewrite !List.filter_app, !length_app.
  destruct Hw as [-> | [ms ->]]; destruct failure; cbn; split; reflexivity.
Qed.

(** A retry loop sends one request per attempt and sleeps between two
    attempts: at most three times when it starts at attempt 1. *)
Lemma RetryRun_counts (stream : nat -> Q) (drawn : nat) (attempt : Z) (evs : list Event) :
  RetryRun stream drawn attempt evs ->
  requestCount evs = S (backoffCount evs) /\
  (Z.of_nat (backoffCount evs) <= Z.max 0 (rateLimitRetries + 1 - attempt))%Z.
Proof.
  induction 1 as [drawn attempt evs H | drawn attempt evs error H Hwhy
                  | drawn attempt evs error rest H Hrl Hle Hrest [IH1 IH2]].
  - destruct (attemptLog_counts _ _ H) as [-> ->]. split; [reflexivity | lia].
  - destruct (attemptLog_counts _ _ H) as [-> ->]. split; [reflexivity | lia].
  - destruct (attemptLog_counts _ _ H) as [Hb Hr].
    unfold backoffCount, requestCount in *.
    rewrite !List.filter_app, !length_app. cbn [List.filter isBackoff isRequest List.length].
    rewrite Hb, Hr, IH1. split; lia.
Qed.

(** One attempt: it leaves the events of an attempt and draws no random
    number; it returns, or it throws the failure of its request. *)
Definition attemptExact {A} (body : M World A) : Prop :=
  forall w, exists evs,
    events (snd (body w)) = events w ++ evs /\
    randomStream (snd (body w)) = randomStream w /\
    randomsDrawn (snd (body w)) = randomsDrawn w /\
    match fst (body w) with
    | Ret _ => attemptLog evs None
    | Throw error => attemptLog evs (Some error)
    | Diverge | Exhaust => False
    end.

Lemma retry_exact {A} (body : M World A) (giveUp : JsError -> M World A)
    (loop : nat -> Z -> M World A) :
  (forall fuel attempt,
     loop fuel attempt =
     retryStep body giveUp
       (fun next => match fuel with O => None | S fuel' => Some (loop fuel' next) end)
       attempt) ->
  attemptExact body ->
  (forall error w, events (snd (giveUp error w)) = events w) ->
  forall fuel attempt w,
    (rateLimitRetries + 1 - attempt <= Z.of_nat fuel)%Z ->
    exists new,
      events (snd (loop fuel attempt w)) = events w ++ new /\
      RetryRun (randomStream w) (randomsDrawn w) attempt new.
Proof.
  intros Hloop Hbody Hquiet fuel.
  induction fuel as [|fuel IH]; intros attempt w Hfuel; rewrite Hloop;
    unfold retryStep, tryCatch;
    destruct (Hbody w) as [evs [Hev [Hrs [Hrd Hlog]]]];
    destruct (body w) as [[a|error| |] w1] eqn:Ebody; cbn [fst snd] in *.
  - exists evs. split; [exact Hev | now apply run_returned].
  - assert (Econd : isRateLimitError error && (attempt <=? rateLimitRetries)%Z = false).
    { apply andb_false_iff. right. apply Z.leb_gt. lia. }
    rewrite Econd. exists evs. rewrite Hquiet. split; [exact Hev|].
    eapply run_gave_up; [exact Hlog|]. right. lia.
  - contradiction.
  - contradiction.
  - exists evs. split; [exact Hev | now apply run_returned].
  - destruct (isRateLimitError error && (attempt <=? rateLimitRetries)%Z) eqn:Econd.
    + apply andb_true_iff in Econd as [Hrl Hle]. apply Z.leb_le in Hle.
      unfold mbind, random, delay. cbn [fst snd].
      set (w2 := withEvent _ _).
      destruct (IH (attempt + 1)%Z w2 ltac:(lia)) as [rest [Hrest Hrun]].
      exists (evs ++ Slept (Backoff attempt (randomStream w (randomsDrawn w)))
                       (calculateBackoffDelay attempt (randomStream w (randomsDrawn w)))
                  :: rest).
      split.
      * rewrite Hrest. unfold w2. cbn [events withEvent withClock]. rewrite Hev, Hrs, Hrd.
        rewrite <- !app_assoc. reflexivity.
      * eapply run_retried; try eassumption.
        unfold w2 in Hrun. cbn [randomStream randomsDrawn withEvent withClock] in Hrun.
        now rewrite Hrs, Hrd in Hrun.
    + exists evs. rewrite Hquiet. split; [exact Hev|].
      eapply run_gave_up; [exact Hlog|].
      apply andb_false_iff in Econd as [H | H]; [now left|].
      right. apply Z.leb_gt in H. lia.
  - contradiction.
  - contradiction.
Qed.

(** The steps of an attempt around its request: they always return and
    leave the events and the random numbers alone. *)
Definition plainStep {A} (c : M World A) : Prop :=
  forall w, exists a,
    fst (c w) = Ret a /\ events (snd (c w)) = events w /\
    randomStream (snd (c w)) = randomStream w /\ randomsDrawn (snd (c w)) = randomsDrawn w.

Lemma plainStep_onLimiter {A} (self : nat)
    (method : Z -> TokenRateLimiter -> A * TokenRateLimiter) :
  plainStep (onLimiter self method).
Proof.
  intros w. unfold onLimiter. destruct (method _ _) as [a l]. exists a. now cbn.
Qed.

Lemma plainStep_lift {A} (o : Outcome A) : (exists r, o = Ret r) -> plainStep (lift o).
Proof. intros [r ->] w. exists r. now cbn. Qed.

(** The shape the two attempts share. *)
Lemma attemptExact_shape {B} (self : nat) (estimatedTokens : Z) (request : ApiRequest)
    (after : jsstring -> M World B) :
  (forall response, plainStep (after response)) ->
  attemptExact
    (wait <- onLimiter self (fun now => getRequiredDelay now estimatedTokens) ;;
     (if (0 <? wait)%Z then delay RateLimitWait (inject_Z wait) else ret tt) ;;;
     response <- messagesCreate request ;;
     after response)%m.
Proof.
  intros Hafter w.
  set (body := mbind (onLimiter self (fun now => getRequiredDelay now estimatedTokens)) _).
  assert (E : exists w2 waits,
            body w = mbind (messagesCreate request) after w2 /\
            events w2 = events w ++ waits /\ randomStream w2 = randomStream w /\
            randomsDrawn w2 = randomsDrawn w /\
            (waits = [] \/ exists ms, waits = [Slept RateLimitWait ms])).
  { unfold body. unfold mbind at 1. unfold onLimiter.
    destruct (getRequiredDelay _ _ _) as [wait l].
    destruct (0 <? wait)%Z.
    - unfold mbind at 1. unfold delay.
      eexists _, [Slept RateLimitWait (inject_Z wait)].
      split; [reflexivity|]. cbn. repeat split. right. now eexists.
    - unfold mbind at 1. unfold ret.
      eexists _, []. split; [reflexivity|]. cbn. rewrite app_nil_r. repeat split. now left. }
  destruct E as [w2 [waits [-> [Hev [Hrs [Hrd Hw]]]]]]. clear body.
  unfold mbind, messagesCreate. cbn zeta.
  destruct (reply _) as [[text|]|error].
  - match goal with |- context [after ?t ?w3] =>
      destruct (Hafter t w3) as [b [Hb [He [Hs Hd]]]]; destruct (after t w3) as [o w4] end.
    cbn [fst snd] in *. subst o. exists (waits ++ [Requested request]).
    rewrite He, Hs, Hd. cbn [events randomStream randomsDrawn]. rewrite Hev, app_assoc.
    repeat split; try assumption. now exists waits, request.
  - match goal with |- context [after ?t ?w3] =>
      destruct (Hafter t w3) as [b [Hb [He [Hs Hd]]]]; destruct (after t w3) as [o w4] end.
    cbn [fst snd] in *. subst o. exists (waits ++ [Requested request]).
    rewrite He, Hs, Hd. cbn [events randomStream randomsDrawn]. rewrite Hev, app_assoc.
    repeat split; try assumption. now exists waits, request.
  - cbn [fst snd]. exists (waits ++ [Requested request; Failed error]).
    cbn [events randomStream randomsDrawn withEvent]. rewrite Hev, <- !app_assoc.
    repeat split; try assumption. now exists waits, request.
Qed.

Lemma translateOnce_exact (self : nat) (model : jsstring) (options : TranslateOptions) :
  attemptExact (translateOnce Papa_parse self model options).
Proof.
  unfold translateOnce. cbn zeta. apply attemptExact_shape. intros response w.
  unfold mbind. destruct (plainStep_onLimiter self
    (fun now l => (tt, recordUsage now
       (estimateRequestTokens (o_systemPrompt options) (singlePrompt options) 1000) l)) w)
    as [[] [H1 [H2 [H3 H4]]]].
  destruct (onLimiter _ _ w) as [o w1]. cbn [fst snd] in *. subst o.
  assert (Hparse : exists r,
            (if isCSVPrompt (o_userPrompt options)
             then parseCSVResponse Papa_parse response (o_key options) (o_text options)
                    (Some (o_language options))
             else parseResponse Papa_parse response (o_text options)
                    (Some (o_language options))) = Ret r).
  { destruct (isCSVPrompt _); [apply parseCSVResponse_returns|].
    apply parseWithFallbacks_returns. }
  destruct Hparse as [r Hr]. rewrite Hr. exists r. cbn. now rewrite H2, H3, H4.
Qed.

Lemma translateBatchOnce_exact (self : nat) (model : jsstring)
    (options : BatchTranslateOptions) :
  attemptExact (translateBatchOnce self model options).
Proof.
  unfold translateBatchOnce. cbn zeta. apply attemptExact_shape. intros response w.
  unfold mbind.
  match goal with |- context [onLimiter self ?m w] =>
    destruct (plainStep_onLimiter self m w) as [[] [H1 [H2 [H3 H4]]]];
    destruct (onLimiter self m w) as [o w1] end.
  cbn [fst snd] in *. subst o. eexists. cbn. now rewrite H2, H3, H4.
Qed.

(** C9 (as the code has it).  The backoff delay of attempt [n >= 1] is
    [min(2000 * 2^(n-1) + j, 30000)] with the sum rounded to a double: the
    jitter [j = random * 1000] lies in [0, 1000], the delay of the first
    four attempts is the sum rounded to the nearest double, from the fifth
    attempt on it is 30000, and it is always within 2^-39 ms of the formula.
    Every run of [translateBatch] and of [translate] is a [RetryRun] from
    attempt 1: a failure is followed by a backoff sleep and a new request
    exactly when [isRateLimitError] accepts it and the attempt is one of
    the first three, the sleep lasts the delay of that attempt, and there
    is one request more than there are sleeps, at most three. *)
Theorem backoff_policy :
  (forall (n : nat) (r : Q),
     (1 <= n)%nat -> (0 <= r)%Q -> (r < 1)%Q ->
     let j := jitterOf r in
     let d := calculateBackoffDelay (Z.of_nat n) r in
     (0 <= j)%Q /\ (j <= 1000)%Q /\
     ((n <= 4)%nat -> (d == Double.round (inject_Z (2000 * 2 ^ (Z.of_nat n - 1)) + j))%Q) /\
     ((5 <= n)%nat -> (d == 30000)%Q) /\
     (specBackoff 2000 n j - 2 ^ (-39) <= d)%Q /\
     (d <= specBackoff 2000 n j + 2 ^ (-39))%Q) /\
  (forall self model options w,
     exists new,
       events (snd (translateBatch self model options w)) = events w ++ new /\
       RetryRun (randomStream w) (randomsDrawn w) 1 new /\
       requestCount new = S (backoffCount new) /\ (backoffCount new <= 3)%nat) /\
  (forall self model options w,
     exists new,
       events (snd (translate Papa_parse self model options w)) = events w ++ new /\
       RetryRun (randomStream w) (randomsDrawn w) 1 new /\
       requestCount new = S (backoffCount new) /\ (backoffCount new <= 3)%nat).
Proof.
  split; [|split].
  - intros n r Hn H0 H1. cbn zeta.
    destruct (jitter_range r H0 H1) as [Hj0 Hj1].
    destruct (backoff_near n r Hn H0 H1) as [Hd0 [Hd1 Hcap]].
    split; [exact Hj0|]. split; [exact Hj1|].
    split; [intros Hsmall; now apply backoff_rounded|].
    split; [exact Hcap|]. split; assumption.
  - intros self model options w.
    destruct (retry_exact _ _ (fun fuel attempt =>
                translateBatchWithRetry fuel self model options attempt)
                (fun fuel attempt => translateBatchWithRetry_step fuel self model options attempt)
                (translateBatchOnce_exact self model options)
                (fun error w => eq_refl)
                (Z.to_nat rateLimitRetries) 1%Z w ltac:(reflexivity)) as [new [Hev Hrun]].
    exists new. split; [exact Hev|]. split; [exact Hrun|].
    destruct (RetryRun_counts _ _ _ _ Hrun) as [Hreq Hcount].
    split; [exact Hreq|]. unfold rateLimitRetries in Hcount. lia.
  - intros self model options w.
    destruct (retry_exact _ _ (fun fuel attempt =>
                translateWithRetry Papa_parse fuel self model options attempt)
                (fun fuel attempt => translateWithRetry_step fuel self model options attempt)
                (translateOnce_exact self model options)
                (fun error w => eq_refl)
                (Z.to_nat rateLimitRetries) 1%Z w ltac:(reflexivity)) as [new [Hev Hrun]].
    exists new. split; [exact Hev|]. split; [exact Hrun|].
    destruct (RetryRun_counts _ _ _ _ Hrun) as [Hreq Hcount].
    split; [exact Hreq|]. unfold rateLimitRetries in Hcount. lia.
Qed.

(** A failed request never leaves [translateBatch] as an exception. *)
Lemma translateBatchWithRetry_no_throw fuel self model options attempt w error :
  fst (translateBatchWithRetry fuel self model options attempt w) <> Throw error.
Proof.
  revert attempt w. induction fuel as [|fuel IH]; intros attempt w;
    rewrite translateBatchWithRetry_step; unfold retryStep, tryCatch;
    destruct (translateBatchOnce self model options w) as [[a|e| |] w1];
    cbn [fst]; try discriminate;
    destruct (isRateLimitError e && (attempt <=? rateLimitRetries)%Z);
    cbn; try discriminate.
  unfold mbind, random, delay. cbn [fst snd]. apply IH.
Qed.

(** Hence [processBatch] never reaches its fallback with this provider:
    what it returns is what [translateBatch] returned. *)
Lemma processBatch_no_fallback (batch : list TranslationEntry) (group : TranslationGroup)
    (self : nat) (w : World) :
  let provider := {| Types.translate := translate Papa_parse self (model group);
                     Types.translateBatch := translateBatch self (model group) |} in
  Engine.processBatch batch group provider w =
  mbind (translateBatch self (model group)
           {| b_entries := batch; b_language := name group;
              b_systemPrompt := systemPrompt group; b_userPrompt := userPrompt group |})
    (fun batchResponse =>
       ret (fold_left (fun batchResults kv => JsMap.set (fst kv) (snd kv) batchResults)
              (JsMap.entries (results batchResponse)) JsMap.empty)) w.
Proof.
  cbn zeta. unfold Engine.processBatch, tryCatch, mbind. cbn [Types.translateBatch].
  pose proof (translateBatchWithRetry_no_throw (Z.to_nat rateLimitRetries) self (model group)
    {| b_entries := batch; b_language := name group;
       b_systemPrompt := systemPrompt group; b_userPrompt := userPrompt group |} 1%Z w)
    as Hno.
  fold (translateBatch self (model group)
    {| b_entries := batch; b_language := name group;
       b_systemPrompt := systemPrompt group; b_userPrompt := userPrompt group |}) in Hno.
  destruct (translateBatch _ _ _ w) as [[r|e| |] w1]; cbn [fst] in *; try reflexivity.
  now destruct (Hno e).
Qed.

End RetryAndBackoff.

Lemma backoff_policy_witness :
  let j := jitterOf (1 # 2) in
  let d := Anthropic.calculateBackoffDelay (Z.of_nat 3) (1 # 2) in
  (0 <= j)%Q /\ (j <= 1000)%Q /\
  ((3 <= 4)%nat -> (d == Double.round (inject_Z (2000 * 2 ^ (Z.of_nat 3 - 1)) + j))%Q) /\
  ((5 <= 3)%nat -> (d == 30000)%Q) /\
  (specBackoff 2000 3 j - 2 ^ (-39) <= d)%Q /\
  (d <= specBackoff 2000 3 j + 2 ^ (-39))%Q.
Proof.
  apply (proj1 (backoff_policy rowsOfLine) 3%nat (1 # 2)).
  - lia.
  - discriminate.
  - reflexivity.
Defined.

(** C9 as stated fails: the sum of the formula is a floating-point sum.
    At the first attempt, with the random number 2^-50, the jitter is
    1000 * 2^-50, inside [0, 1000), and the delay is 2000 + 2^-40, not
    2000 plus the jitter. *)
Lemma backoff_formula_not_exact :
  let r := (2 ^ (-50))%Q in
  let j := jitterOf r in
  (0 <= j)%Q /\ (j < 1000)%Q /\ (j == 1000 * 2 ^ (-50))%Q /\
  (Anthropic.calculateBackoffDelay 1 r == 2000 + 2 ^ (-40))%Q /\
  ~ (Anthropic.calculateBackoffDelay 1 r == specBackoff 2000 1 j)%Q.
Proof.
  cbn zeta. repeat split; try (vm_compute; reflexivity); vm_compute; discriminate.
Qed.

(** *** Runs of the provider against a concrete world *)

Section ConcreteRuns.
Import Types Parser Anthropic.

Definition entryOf (k text : string) : TranslationEntry :=
  {| key := js k; source := js "menu"; english := js text; columns := [] |}.

Definition spanish : TranslationGroup :=
  {| id := js "es"; name := js "Spanish"; provider := anthropic;
     model := js "claude-3-5-sonnet-20241022";
     systemPrompt := js "You are an expert app localiser.";
     userPrompt := js "Translate every row to {{language}}: {{csv}}";
     columnName := js "Spanish" |}.

Definition serverError : JsError := ErrorObj (js "500 Internal Server Error").

(** The rows of the examples have no quotes and no space next to a comma:
    every CSV reader reads the same fields from them. *)

(** A world in which the API answers every request with the same text,
    except that the first [failures] requests fail with [error]. *)
Definition worldWith (failures : nat) (error : JsError) (answer : jsstring) : World :=
  {| clock := 0;
     apiBehaviour := fun n _ =>
       {| latency := 100;
          reply := if (n <? failures)%nat then inr error else inl (Some answer) |};
     apiCalls := 0;
     randomStream := fun _ => (1 # 2)%Q;
     randomsDrawn := 0;
     limiters := [];
     events := [] |}.



Definition greetingRow : jsstring := js "greeting.hi,Hola,Onboarding,Friendly greeting".

Definition rateLimited : JsError := ErrorObj (js "429 rate_limit_error").





Definition settingsRow : jsstring := js "Menu_Settings,Ajustes,Menu,Label of the settings menu".

Definition settingsResult : TranslateResponse :=
  {| translation := js "Ajustes"; category := js "Menu";
     reasoning := js "Label of the settings menu" |}.

(** C8, at a failing input.  One key is requested and one row comes back
    under a key with other punctuation.  The two keys are equal after
    normalisation, but one row is not fewer than one task: the fuzzy pass
    is skipped, the parsed map has no row for the requested key, and
    [translateBatch] reports the key as missing. *)
Theorem fuzzy_recovery_skipped_on_equal_counts :
  let entries := [entryOf "menu.settings" "Settings"] in
  let parsed := parseBatchCSVResponse settingsRow entries in
  normalizeKey (js "menu.settings") = normalizeKey (js "Menu_Settings")
  /\ parsed = [(js "Menu_Settings", settingsResult)]
  /\ JsMap.get (js "menu.settings") parsed = None
  /\ fuzzyMatch entries parsed = [(js "menu.settings", settingsResult)]
  /\ option_map results
       (match fst (translateBatch 0 (model spanish)
                     {| b_entries := entries; b_language := js "Spanish";
                        b_systemPrompt := systemPrompt spanish;
                        b_userPrompt := userPrompt spanish |}
                     (worldWith 0 serverError settingsRow)) with
        | Ret r => Some r
        | _ => None
        end) = Some [(js "menu.settings", missingFromBatch)].
Proof. vm_compute. repeat split. Qed.

(** With a second requested key the same row is fewer than the tasks, and
    the fuzzy pass adopts it. *)
Lemma fuzzy_recovery_when_rows_are_fewer :
  let entries := [entryOf "menu.settings" "Settings"; entryOf "menu.home" "Home"] in
  parseBatchCSVResponse settingsRow entries = [(js "menu.settings", settingsResult)].
Proof. vm_compute. reflexivity. Qed.

(** The structural parse of a single row with quoted fields, for the
    expected key: the translation starts with the inverted exclamation
    mark U+00A1. *)
Example single_row_parse :
  let quoted s := [Csv.QUOTE] ++ s ++ [Csv.QUOTE] in
  let hola := [161] ++ js "Hola!" in
  parseCSVResponse rowsOfLine
    (js "greeting.hi," ++ quoted hola ++ js ",Onboarding," ++ quoted (js "Friendly greeting"))
    (js "greeting.hi") (js "Hello!") None =
  Ret {| translation := hola; category := js "Onboarding";
         reasoning := js "Friendly greeting" |}.
Proof. reflexivity. Qed.

End ConcreteRuns.
(** ** The columns of the merged table (mergeTranslationResults in lib/utils/csv-merger.ts) *)

Section Columns.
Import Types Parser Engine Output.

Lemma str_eqb_sym (a b : jsstring) : str_eqb a b = str_eqb b a.
Proof.
  destruct (str_eqb a b) eqn:E.
  - apply str_eqb_eq in E. subst. symmetry. apply str_eqb_refl.
  - symmetry. apply str_eqb_neq. intros ->. now rewrite str_eqb_refl in E.
Qed.

(** Reading a property after writing one. *)
Lemma getProp_setColumn (name name' value : jsstring) (e : TranslationEntry) :
  getProp name (setColumn name' value e) =
  if str_eqb name' name then Some value else getProp name e.
Proof.
  unfold setColumn, getProp.
  destruct (str_eqb name' (js "key")) eqn:K'; [apply str_eqb_eq in K'; subst name'|];
  [|destruct (str_eqb name' (js "source")) eqn:S'; [apply str_eqb_eq in S'; subst name'|]];
  [| |destruct (str_eqb name' (js "english")) eqn:E'; [apply str_eqb_eq in E'; subst name'|]];
  cbn [key source english columns];
  destruct (str_eqb name (js "key")) eqn:K; [apply str_eqb_eq in K; subst name| |
    apply str_eqb_eq in K; subst name| |apply str_eqb_eq in K; subst name| |
    apply str_eqb_eq in K; subst name|];
  try (rewrite (str_eqb_sym (js "key") name), K);
  try reflexivity;
  try (rewrite K'; reflexivity);
  (destruct (str_eqb name (js "source")) eqn:S; [apply str_eqb_eq in S; subst name|]);
  try (rewrite (str_eqb_sym (js "source") name), S);
  try reflexivity;
  try (rewrite S'; reflexivity);
  (destruct (str_eqb name (js "english")) eqn:E; [apply str_eqb_eq in E; subst name|]);
  try (rewrite (str_eqb_sym (js "english") name), E);
  try reflexivity;
  try (rewrite E'; reflexivity).
  apply get_set.
Qed.

(** What a group with a result table writes into a record. *)
Definition resultColumns (includeMetadata : bool) (group : TranslationGroup)
    (result : option TranslationResult) : list (jsstring * jsstring) :=
  (columnName group, from_option translation [] result) ::
  (if includeMetadata
   then [(columnName group ++ js " Category", from_option category [] result);
         (columnName group ++ js " Reasoning", from_option reasoning [] result)]
   else []).

Lemma suffix_differs (a b : jsstring) : b <> [] -> str_eqb (a ++ b) a = false.
Proof.
  intros Hb. apply str_eqb_neq. intros H.
  apply (f_equal (@List.length N)) in H. rewrite length_app in H.
  destruct b; [congruence | cbn in H; lia].
Qed.

Lemma mergeGroup_other (results : ResultTable) (includeMetadata : bool)
    (entryKey name : jsstring) (m : TranslationEntry) (g : TranslationGroup) :
  ~ In name (groupHeaders includeMetadata g) ->
  getProp name (mergeGroup results includeMetadata entryKey m g) = getProp name m.
Proof.
  intros Hnot. unfold mergeGroup.
  destruct (results !! id g) as [table|]; [|reflexivity].
  destruct (match table !! entryKey with Some _ => _ | None => _ end) as [[t c] r].
  unfold groupHeaders in Hnot. destruct includeMetadata; cbn [In] in Hnot.
  - rewrite !getProp_setColumn.
    rewrite !str_eqb_neq; [reflexivity| | |]; intros H; apply Hnot; auto.
  - rewrite getProp_setColumn, str_eqb_neq; [reflexivity|]. intros H. apply Hnot. auto.
Qed.

Lemma mergeGroup_own (results : ResultTable) (includeMetadata : bool)
    (entryKey : jsstring) (m : TranslationEntry) (g : TranslationGroup)
    (table : GroupTable) (name value : jsstring) :
  results !! id g = Some table ->
  In (name, value) (resultColumns includeMetadata g (table !! entryKey)) ->
  getProp name (mergeGroup results includeMetadata entryKey m g) = Some value.
Proof.
  intros Ht Hin. unfold mergeGroup. rewrite Ht.
  assert (E : (match table !! entryKey with
               | Some result => (translation result, category result, reasoning result)
               | None => ([], [], [])
               end) = (from_option translation [] (table !! entryKey),
                       from_option category [] (table !! entryKey),
                       from_option reasoning [] (table !! entryKey)))
    by now destruct (table !! entryKey).
  rewrite E. clear E. unfold resultColumns in Hin.
  destruct includeMetadata; cbn [In] in Hin.
  - rewrite !getProp_setColumn.
    destruct Hin as [[= <- <-] | [[= <- <-] | [[= <- <-] | []]]].
    + rewrite !suffix_differs by discriminate. now rewrite str_eqb_refl.
    + rewrite (str_eqb_neq (columnName g ++ js " Reasoning")).
      * now rewrite str_eqb_refl.
      * intros H. apply app_inv_head in H. discriminate.
    + now rewrite str_eqb_refl.
  - destruct Hin as [[= <- <-] | []]. now rewrite getProp_setColumn, str_eqb_refl.
Qed.

Lemma mergeAll_other (results : ResultTable) (includeMetadata : bool)
    (entryKey name : jsstring) (groups : list TranslationGroup) (m : TranslationEntry) :
  ~ In name (flat_map (groupHeaders includeMetadata) groups) ->
  getProp name (fold_left (mergeGroup results includeMetadata entryKey) groups m) =
  getProp name m.
Proof.
  revert m. induction groups as [|g groups IH]; intros m Hnot; [reflexivity|].
  cbn [fold_left]. cbn [flat_map] in Hnot. rewrite IH.
  - apply mergeGroup_other. intros H. apply Hnot, in_or_app. now left.
  - intros H. apply Hnot, in_or_app. now right.
Qed.

Lemma resultColumns_names (includeMetadata : bool) (g : TranslationGroup)
    (result : option TranslationResult) :
  List.map fst (resultColumns includeMetadata g result) = groupHeaders includeMetadata g.
Proof. unfold resultColumns, groupHeaders. now destruct includeMetadata. Qed.

Lemma mergeAll_own (results : ResultTable) (includeMetadata : bool)
    (entryKey : jsstring) (groups : list TranslationGroup) (g : TranslationGroup) :
  List.NoDup (flat_map (groupHeaders includeMetadata) groups) ->
  In g groups ->
  forall m,
    match results !! id g with
    | Some table =>
        forall name value,
          In (name, value) (resultColumns includeMetadata g (table !! entryKey)) ->
          getProp name (fold_left (mergeGroup results includeMetadata entryKey) groups m)
          = Some value
    | None =>
        forall name, In name (groupHeaders includeMetadata g) ->
          getProp name (fold_left (mergeGroup results includeMetadata entryKey) groups m)
          = getProp name m
    end.
Proof.
  induction groups as [|g0 groups IH]; intros Hnd Hin m; [destruct Hin|].
  cbn [flat_map] in Hnd. cbn [fold_left].
  assert (Hsplit := Hnd). apply NoDup_app_remove_l in Hsplit.
  assert (Hdisj : forall name, In name (groupHeaders includeMetadata g0) ->
            ~ In name (flat_map (groupHeaders includeMetadata) groups)).
  { intros name H1 H2. revert Hnd H1 H2. generalize (groupHeaders includeMetadata g0).
    intros l. induction l as [|x l IHl]; [intros _ []|].
    cbn [app]. intros Hnd [-> | H1] H2.
    - inversion Hnd as [|? ? Hx _]. apply Hx, in_or_app. now right.
    - inversion Hnd. now apply IHl. }
  destruct Hin as [-> | Hin].
  - destruct (results !! id g) as [table|] eqn:Et.
    + intros name value Hnv. rewrite mergeAll_other.
      * now apply (mergeGroup_own results includeMetadata entryKey m g table).
      * apply Hdisj. rewrite <- (resultColumns_names _ _ (table !! entryKey)).
        apply in_map_iff. now exists (name, value).
    + intros name Hname. rewrite mergeAll_other by now apply Hdisj.
      unfold mergeGroup. now rewrite Et.
  - specialize (IH Hsplit Hin (mergeGroup results includeMetadata entryKey m g0)).
    assert (Hother : forall name, In name (groupHeaders includeMetadata g) ->
              ~ In name (groupHeaders includeMetadata g0)).
    { intros name H1 H2. apply (Hdisj name H2). apply in_flat_map. now exists g. }
    destruct (results !! id g) as [table|]; [exact IH|].
    intros name Hname. rewrite IH by exact Hname.
    apply mergeGroup_other. now apply Hother.
Qed.

End Columns.


Section EngineCompleteness.
Import Types Parser Engine Output.
Local Open Scope m_scope.

Context {W : Type}.
Variable createProvider : Provider -> jsstring -> jsstring -> M W (TranslationProvider W).
Variable aborted : W -> bool.
Variable sleep : Z -> M W unit.
Variable onGroupProgress : option (jsstring -> Z -> M W unit).

(** A computation that returns from every world, with a result in [Q]. *)
Definition returns {A} (c : M W A) (Q : A -> Prop) : Prop :=
  forall w, exists a w', c w = (Ret a, w') /\ Q a.

Lemma returns_ret {A} (a : A) (Q : A -> Prop) : Q a -> returns (ret a) Q.
Proof. intros H w. now exists a, w. Qed.

Lemma returns_bind {A B} (c : M W A) (k : A -> M W B) (P : A -> Prop) (Q : B -> Prop) :
  returns c P -> (forall a, P a -> returns (k a) Q) -> returns (mbind c k) Q.
Proof.
  intros Hc Hk w. destruct (Hc w) as [a [w1 [E Ha]]].
  destruct (Hk a Ha w1) as [b [w2 [E2 Hb]]].
  exists b, w2. unfold mbind. now rewrite E, E2.
Qed.

Lemma returns_weaken {A} (c : M W A) (P Q : A -> Prop) :
  returns c P -> (forall a, P a -> Q a) -> returns c Q.
Proof.
  intros Hc HPQ w. destruct (Hc w) as [a [w1 [E Ha]]]. exists a, w1. auto.
Qed.

Lemma returns_tryCatch {A} (body : M W A) (handler : JsError -> M W A) :
  (forall w, settles (fst (body w))) ->
  (forall e, returns (handler e) (fun _ => True)) ->
  returns (tryCatch body handler) (fun _ => True).
Proof.
  intros Hbody Hhandler w. unfold tryCatch. specialize (Hbody w).
  destruct (body w) as [[a|e| |] w1]; cbn [fst] in Hbody.
  - now exists a, w1.
  - apply Hhandler.
  - contradiction.
  - contradiction.
Qed.

Lemma returns_mapM {A B} (f : A -> M W B) (l : list A) :
  (forall x, returns (f x) (fun _ => True)) ->
  returns (mapM f l) (fun ys => List.length ys = List.length l).
Proof.
  intros Hf. induction l as [|x l IH]; cbn [mapM].
  - now apply returns_ret.
  - eapply returns_bind; [apply Hf|]. intros y _.
    eapply returns_bind; [apply IH|]. intros ys Hys.
    apply returns_ret. cbn. now rewrite Hys.
Qed.

Lemma returns_foldM {A B} (f : B -> A -> M W B) (I : list A -> B -> Prop) (l : list A) :
  forall done b,
    I done b ->
    (forall done x b, In x l -> I done b -> returns (f b x) (I (done ++ [x]))) ->
    returns (foldM f l b) (I (done ++ l)).
Proof.
  induction l as [|x l IH]; intros done b Hb Hstep; cbn [foldM].
  - rewrite app_nil_r. now apply returns_ret.
  - eapply returns_bind; [apply (Hstep done x b); [now left | exact Hb]|].
    intros b' Hb'. replace (done ++ x :: l) with ((done ++ [x]) ++ l)
      by now rewrite <- app_assoc.
    apply IH; [exact Hb'|]. intros d y c Hy. apply Hstep. now right.
Qed.

(** What the run assumes of its collaborators: constructing a provider
    returns, a request returns or throws, the run is not cancelled, the
    timer and the progress callback return. *)
Hypothesis providers_return :
  forall p apiKey model,
    returns (createProvider p apiKey model)
      (fun provider => forall options w, settles (fst (translate provider options w))).
Hypothesis never_aborted : forall w, aborted w = false.
Hypothesis sleep_returns : forall ms, returns (sleep ms) (fun _ => True).
Hypothesis progress_returns :
  forall callback, onGroupProgress = Some callback ->
  forall groupId progress, returns (callback groupId progress) (fun _ => True).

Local Abbreviation checkAborted := (checkAborted aborted).
Local Abbreviation processMixedBatch := (processMixedBatch createProvider).
Local Abbreviation distribute := (distribute onGroupProgress).
Local Abbreviation runBatch := (runBatch createProvider onGroupProgress).
Local Abbreviation waves := (waves createProvider aborted sleep onGroupProgress).
Local Abbreviation processProviderGroups :=
  (processProviderGroups createProvider aborted sleep onGroupProgress).
Local Abbreviation runProvider := (runProvider createProvider aborted sleep onGroupProgress).
Local Abbreviation collectResults :=
  (collectResults createProvider aborted sleep onGroupProgress).

(** A request that throws leaves the sentinel as the result of its task,
    wherever the task is in its batch. *)
Lemma failed_request_is_sentinel (provider : TranslationProvider W)
    (request : TranslateOptions) (w w' : W) (e : JsError) :
  translate provider request w = (Throw e, w') ->
  tryCatch (translate provider request) (fun error => ret (errorResult error)) w =
  (Ret {| translation := js "[ERROR]"; category := js "Error"; reasoning := messageOf e |},
   w').
Proof. intros H. unfold tryCatch. now rewrite H. Qed.

(** The progress of a group is rounded from doubles: 23 of 40 records are
    57 percent, the product being just under 57.5. *)
Example progress_of_doubles : progressOf 23 40 = 57%Z.
Proof. vm_compute. reflexivity. Qed.

(** With a batch size of 0 there is no list of batches. *)
Example zero_batch_size_has_no_batches : createBatches [1; 2; 3]%nat 0 = None.
Proof. reflexivity. Qed.

Lemma checkAborted_returns : returns checkAborted (fun _ => True).
Proof. intros w. exists tt, w. unfold Engine.checkAborted. now rewrite never_aborted. Qed.

(** The outcome of the request for the record [e] in the group [g]: the
    response [translate] returned, or the sentinel made of the failure it
    threw.  The worlds are those the request ran in, whichever they are, so
    that the statement does not depend on the order in which the requests
    of a batch are served. *)
Definition requested (apiKey : jsstring) (e : TranslationEntry) (g : TranslationGroup)
    (result : TranslationResult) : Prop :=
  exists (object : TranslationProvider W) (w0 w1 w2 : W),
    createProvider (provider g) apiKey (model g) w0 = (Ret object, w1) /\
    (translate object (optionsOf e g) w1 = (Ret result, w2) \/
     exists error,
       translate object (optionsOf e g) w1 = (Throw error, w2) /\
       result = {| translation := js "[ERROR]"; category := js "Error";
                   reasoning := messageOf error |}).

Lemma returns_mapM_each {A B} (f : A -> M W B) (R : A -> B -> Prop) (l : list A) :
  (forall x, returns (f x) (R x)) -> returns (mapM f l) (List.Forall2 R l).
Proof.
  intros Hf. induction l as [|x l IH]; cbn [mapM].
  - apply returns_ret. constructor.
  - eapply returns_bind; [apply Hf|]. intros y Hy.
    eapply returns_bind; [apply IH|]. intros ys Hys.
    apply returns_ret. now constructor.
Qed.

Lemma processMixedBatch_returns (batch : list Task) (apiKey : jsstring) :
  returns (processMixedBatch batch apiKey)
    (List.Forall2 (fun task => requested apiKey (t_entry task) (t_group task)) batch).
Proof.
  apply returns_mapM_each. intros task w.
  destruct (providers_return (provider (t_group task)) apiKey (model (t_group task)) w)
    as [object [w1 [E Hs]]].
  unfold mbind. rewrite E. unfold tryCatch.
  specialize (Hs (optionsOf (t_entry task) (t_group task)) w1).
  destruct (translate object (optionsOf (t_entry task) (t_group task)) w1)
    as [[r|e| |] w2] eqn:Et; cbn [fst] in Hs; try contradiction.
  - exists r, w2. split; [reflexivity|]. exists object, w, w1, w2. split; [exact E|]. now left.
  - exists (errorResult e), w2. split; [reflexivity|].
    exists object, w, w1, w2. split; [exact E|]. right. exists e. now split.
Qed.

(** The table has an entry for every task of a list. *)
Definition covers (table : ResultTable) (tasks : list Task) : Prop :=
  forall task, In task tasks ->
    exists (groupTable : GroupTable) result,
      table !! id (t_group task) = Some groupTable /\
      groupTable !! key (t_entry task) = Some result.

(** Every entry of the table is the outcome of the request of one of
    [tasks]. *)
Definition produced (apiKey : jsstring) (tasks : list Task) (table : ResultTable) : Prop :=
  forall groupId (groupTable : GroupTable) k result,
    table !! groupId = Some groupTable -> groupTable !! k = Some result ->
    exists task,
      In task tasks /\ id (t_group task) = groupId /\ key (t_entry task) = k /\
      requested apiKey (t_entry task) (t_group task) result.

(** The table has the group ids [ids], entries for [tasks], and no entry
    but the outcomes of their requests. *)
Definition tableInv (apiKey : jsstring) (ids : list jsstring) (tasks : list Task)
    (st : ProviderState) : Prop :=
  (forall groupId, is_Some (fst st !! groupId) <-> In groupId ids) /\
  covers (fst st) tasks /\
  produced apiKey tasks (fst st).

Lemma distribute_spec (entryCount : nat) (apiKey : jsstring) (ids : list jsstring)
    (done : list Task) (st : ProviderState) (task : Task) (result : TranslationResult) :
  tableInv apiKey ids done st -> In (id (t_group task)) ids ->
  requested apiKey (t_entry task) (t_group task) result ->
  returns (distribute entryCount st (task, result)) (tableInv apiKey ids (done ++ [task])).
Proof.
  intros [Hdom [Hcov Hprod]] Hin Hreq. destruct st as [groupResults groupProgress].
  cbn [fst] in *. unfold Engine.distribute.
  destruct (proj2 (Hdom _) Hin) as [groupResult Hgr]. rewrite Hgr.
  eapply returns_bind with (P := fun _ => True).
  { destruct onGroupProgress as [callback|] eqn:E.
    - now apply (progress_returns callback).
    - now apply returns_ret. }
  intros _ _. apply returns_ret. split; [|split]; cbn [fst].
  - intros groupId. rewrite lookup_insert_is_Some. rewrite <- Hdom. split.
    + intros [<- | [_ H]]; [now rewrite Hgr | exact H].
    + intros H. destruct (decide (id (t_group task) = groupId)); [now left | now right].
  - intros t Ht. apply in_app_or in Ht.
    destruct (decide (id (t_group task) = id (t_group t))) as [Eid|Nid].
    + rewrite <- Eid, lookup_insert_eq.
      destruct (decide (key (t_entry task) = key (t_entry t))) as [Ek|Nk].
      * eexists _, result. split; [reflexivity|]. now rewrite <- Ek, lookup_insert_eq.
      * destruct Ht as [Ht | [<- | []]]; [|congruence].
        destruct (Hcov t Ht) as [gt [r [Hgt Hr]]]. rewrite <- Eid, Hgr in Hgt.
        injection Hgt as <-. eexists _, r. split; [reflexivity|].
        now rewrite lookup_insert_ne.
    + destruct Ht as [Ht | [<- | []]]; [|congruence].
      destruct (Hcov t Ht) as [gt [r [Hgt Hr]]]. exists gt, r.
      split; [now rewrite lookup_insert_ne | exact Hr].
  - intros groupId groupTable k r Hgt Hr.
    assert (Hold : forall t, (exists t', t' = t /\ In t' done) -> In t (done ++ [task])).
    { intros t [t' [<- Ht]]. apply in_or_app. now left. }
    destruct (decide (id (t_group task) = groupId)) as [Eid|Nid].
    + subst groupId. rewrite lookup_insert_eq in Hgt. injection Hgt as <-.
      destruct (decide (key (t_entry task) = k)) as [Ek|Nk].
      * subst k. rewrite lookup_insert_eq in Hr. injection Hr as <-.
        exists task. split; [apply in_or_app; right; now left|]. now repeat split.
      * rewrite lookup_insert_ne in Hr by exact Nk.
        destruct (Hprod _ _ _ _ Hgr Hr) as [t [Ht Hrest]].
        exists t. split; [apply in_or_app; now left | exact Hrest].
    + rewrite lookup_insert_ne in Hgt by exact Nid.
      destruct (Hprod _ _ _ _ Hgt Hr) as [t [Ht Hrest]].
      exists t. split; [apply in_or_app; now left | exact Hrest].
Qed.

Lemma distribute_all (entryCount : nat) (apiKey : jsstring) (ids : list jsstring)
    (batch : list Task) :
  forall (batchResults : list TranslationResult) (done : list Task) (st : ProviderState),
    List.Forall2 (fun task => requested apiKey (t_entry task) (t_group task))
      batch batchResults ->
    tableInv apiKey ids done st ->
    (forall task, In task batch -> In (id (t_group task)) ids) ->
    returns (foldM (distribute entryCount) (combine batch batchResults) st)
      (tableInv apiKey ids (done ++ batch)).
Proof.
  induction batch as [|task batch IH]; intros batchResults done st Hall Hinv Hids;
    inversion Hall as [|? result ? rest Hreq Hrest]; subst; cbn [combine foldM].
  - rewrite app_nil_r. now apply returns_ret.
  - eapply returns_bind.
    + apply (distribute_spec entryCount apiKey ids done st task result Hinv);
        [apply Hids; now left | exact Hreq].
    + intros st' Hst'. replace (done ++ task :: batch) with ((done ++ [task]) ++ batch)
        by now rewrite <- app_assoc.
      apply IH; [exact Hrest | exact Hst' |]. intros t Ht. apply Hids. now right.
Qed.

Lemma runBatch_spec (entryCount : nat) (apiKey : jsstring) (ids : list jsstring)
    (done batch : list Task) (st : ProviderState) :
  tableInv apiKey ids done st ->
  (forall task, In task batch -> In (id (t_group task)) ids) ->
  returns (runBatch entryCount apiKey st batch) (tableInv apiKey ids (done ++ batch)).
Proof.
  intros Hinv Hids. unfold Engine.runBatch.
  eapply returns_bind; [apply processMixedBatch_returns|].
  intros batchResults Hall. now apply distribute_all.
Qed.

Lemma runBatches_spec (entryCount : nat) (apiKey : jsstring) (ids : list jsstring)
    (batches : list (list Task)) :
  forall (done : list Task) (st : ProviderState),
    tableInv apiKey ids done st ->
    (forall batch task, In batch batches -> In task batch -> In (id (t_group task)) ids) ->
    returns (foldM (runBatch entryCount apiKey) batches st)
      (tableInv apiKey ids (done ++ concat batches)).
Proof.
  induction batches as [|batch batches IH]; intros done st Hinv Hids; cbn [foldM concat].
  - rewrite app_nil_r. now apply returns_ret.
  - eapply returns_bind.
    + apply (runBatch_spec entryCount apiKey ids done batch st Hinv).
      intros t Ht. apply (Hids batch t); [now left | exact Ht].
    + intros st' Hst'. rewrite app_assoc. apply IH; [exact Hst'|].
      intros b t Hb Ht. apply (Hids b t); [now right | exact Ht].
Qed.

Lemma in_firstn {T} (n : nat) (l : list T) (x : T) : In x (firstn n l) -> In x l.
Proof. intros H. rewrite <- (firstn_skipn n l). apply in_or_app. now left. Qed.

Lemma in_skipn {T} (n : nat) (l : list T) (x : T) : In x (skipn n l) -> In x l.
Proof. intros H. rewrite <- (firstn_skipn n l). apply in_or_app. now right. Qed.

Lemma concat_skipn_step {T} (batches : list (list T)) (i n : nat) :
  concat (skipn i batches) =
  concat (firstn n (skipn i batches)) ++ concat (skipn (i + n) batches).
Proof.
  rewrite <- concat_app. f_equal.
  rewrite (Nat.add_comm i n), <- skipn_skipn. symmetry. apply firstn_skipn.
Qed.

Lemma waves_spec (config : ProviderBatchConfig) (entryCount : nat) (apiKey : jsstring)
    (ids : list jsstring) (batches : list (list Task)) :
  (1 <= concurrentBatches config)%nat ->
  (forall batch task, In batch batches -> In task batch -> In (id (t_group task)) ids) ->
  forall (fuel i : nat) (done : list Task) (st : ProviderState),
    (List.length batches - i <= fuel)%nat ->
    tableInv apiKey ids done st ->
    returns (waves fuel config entryCount apiKey batches i st)
      (tableInv apiKey ids (done ++ concat (skipn i batches))).
Proof.
  intros Hcb Hids fuel. induction fuel as [|fuel IH]; intros i done st Hfuel Hinv.
  - cbn [Engine.waves]. destruct (i <? List.length batches)%nat eqn:E.
    + apply Nat.ltb_lt in E. lia.
    + apply Nat.ltb_ge in E. rewrite skipn_all2 by exact E.
      cbn [concat]. rewrite app_nil_r. now apply returns_ret.
  - cbn [Engine.waves]. destruct (i <? List.length batches)%nat eqn:E.
    + apply Nat.ltb_lt in E.
      eapply returns_bind; [apply checkAborted_returns|]. intros _ _.
      eapply returns_bind.
      { apply (runBatches_spec entryCount apiKey ids _ done st Hinv).
        intros b t Hb Ht. apply (Hids b t); [|exact Ht].
        apply (in_skipn i). now apply (in_firstn (concurrentBatches config)). }
      intros st' Hst'.
      eapply returns_bind with (P := fun _ => True).
      { destruct (_ && _); [|now apply returns_ret].
        eapply returns_bind; [apply checkAborted_returns|]. intros _ _.
        apply sleep_returns. }
      intros _ _.
      rewrite (concat_skipn_step batches i (concurrentBatches config)), app_assoc.
      apply IH; [lia | exact Hst'].
    + apply Nat.ltb_ge in E. rewrite skipn_all2 by exact E.
      cbn [concat]. rewrite app_nil_r. now apply returns_ret.
Qed.

Lemma createBatches_from_spec {T} (items : list T) (batchSize : nat) :
  (1 <= batchSize)%nat ->
  forall fuel i,
    (List.length items - i <= fuel)%nat ->
    exists batches,
      createBatches_from fuel items batchSize i = Some batches /\
      concat batches = skipn i items.
Proof.
  intros Hbs fuel. induction fuel as [|fuel IH]; intros i Hfuel; cbn [createBatches_from].
  - destruct (i <? List.length items)%nat eqn:E.
    + apply Nat.ltb_lt in E. lia.
    + apply Nat.ltb_ge in E. exists []. now rewrite skipn_all2.
  - destruct (i <? List.length items)%nat eqn:E.
    + destruct (IH (i + batchSize)%nat ltac:(lia)) as [rest [-> Hrest]].
      eexists. split; [reflexivity|]. cbn [concat]. rewrite Hrest.
      rewrite (Nat.add_comm i batchSize), <- skipn_skipn. apply firstn_skipn.
    + apply Nat.ltb_ge in E. exists []. now rewrite skipn_all2.
Qed.

Lemma emptyTables_notin (groups : list TranslationGroup) (start : ResultTable)
    (groupId : jsstring) :
  ~ In groupId (List.map id groups) ->
  fold_left (fun results group => <[id group := ∅]> results) groups start !! groupId =
  start !! groupId.
Proof.
  revert start. induction groups as [|g groups IH]; intros start Hnot;
    cbn [fold_left List.map] in *; [reflexivity|].
  rewrite IH by (intros H; apply Hnot; now right).
  apply lookup_insert_ne. intros H. apply Hnot. now left.
Qed.

Lemma emptyTables_in (groups : list TranslationGroup) (start : ResultTable)
    (groupId : jsstring) :
  In groupId (List.map id groups) ->
  fold_left (fun results group => <[id group := ∅]> results) groups start !! groupId =
  Some ∅.
Proof.
  revert start. induction groups as [|g groups IH]; intros start Hin;
    cbn [fold_left List.map] in *; [destruct Hin|].
  destruct (in_dec (List.list_eq_dec N.eq_dec) groupId (List.map id groups)) as [H|H].
  - now apply IH.
  - destruct Hin as [<- | Hin]; [|contradiction].
    rewrite emptyTables_notin by exact H. apply lookup_insert_eq.
Qed.

Lemma allTasks_group (entries : list TranslationEntry) (groups : list TranslationGroup)
    (task : Task) :
  In task (allTasks entries groups) -> In (t_group task) groups.
Proof.
  unfold allTasks. rewrite in_flat_map. intros [[n g] [Hg Ht]].
  apply in_map_iff in Ht as [e [<- _]]. cbn. now apply in_combine_r in Hg.
Qed.

Lemma allTasks_entry (entries : list TranslationEntry) (groups : list TranslationGroup)
    (task : Task) :
  In task (allTasks entries groups) -> In (t_entry task) entries.
Proof.
  unfold allTasks. rewrite in_flat_map. intros [[n g] [Hg Ht]].
  apply in_map_iff in Ht as [e [<- He]]. exact He.
Qed.

Lemma in_combine_seq {A} (l : list A) (x : A) (start : nat) :
  In x l -> exists n, In (n, x) (combine (seq start (List.length l)) l).
Proof.
  revert start. induction l as [|y l IH]; intros start; [intros []|].
  intros [-> | H]; cbn.
  - exists start. now left.
  - destruct (IH (S start) H) as [n Hn]. exists n. now right.
Qed.

Lemma allTasks_complete (entries : list TranslationEntry) (groups : list TranslationGroup)
    (e : TranslationEntry) (g : TranslationGroup) :
  In e entries -> In g groups ->
  exists task, In task (allTasks entries groups) /\ t_entry task = e /\ t_group task = g.
Proof.
  intros He Hg. destruct (in_combine_seq groups g 0 Hg) as [n Hn].
  exists {| t_entry := e; t_group := g; t_groupIndex := n |}.
  split; [|now split]. unfold allTasks. rewrite in_flat_map.
  exists (n, g). split; [exact Hn|]. apply in_map_iff. exists e. now split.
Qed.

(** What a provider's run leaves in its table for one of its groups: for
    every record an entry, which is the outcome of the request for a record
    of that key, when the provider has an API key; an empty table when it
    has none. *)
Definition settled (options : EngineOptions) (entries : list TranslationEntry)
    (table : ResultTable) (g : TranslationGroup) : Prop :=
  (truthy (apiKeyOf options (provider g)) = true ->
   forall e, In e entries ->
     exists (groupTable : GroupTable) result,
       table !! id g = Some groupTable /\ groupTable !! key e = Some result /\
       exists e', In e' entries /\ key e' = key e /\
                  requested (apiKeyOf options (provider g)) e' g result) /\
  (truthy (apiKeyOf options (provider g)) = false -> table !! id g = Some ∅).

Lemma NoDup_map_injective {A B} (f : A -> B) (l : list A) (x y : A) :
  List.NoDup (List.map f l) -> In x l -> In y l -> f x = f y -> x = y.
Proof.
  induction l as [|a l IH]; cbn [List.map]; [intros _ []|].
  intros Hnd Hx Hy Hf. inversion Hnd as [|? ? Hnot Hnd']; subst.
  destruct Hx as [<- | Hx], Hy as [<- | Hy]; auto.
  - exfalso. apply Hnot. rewrite Hf. now apply in_map.
  - exfalso. apply Hnot. rewrite <- Hf. now apply in_map.
Qed.

Lemma NoDup_map_filter {A B} (f : A -> B) (keep : A -> bool) (l : list A) :
  List.NoDup (List.map f l) -> List.NoDup (List.map f (List.filter keep l)).
Proof.
  induction l as [|a l IH]; cbn [List.map List.filter]; [auto|].
  intros Hnd. inversion Hnd as [|? ? Hnot Hnd']; subst.
  destruct (keep a); cbn [List.map]; [|now apply IH].
  constructor; [|now apply IH].
  intros Hin. apply Hnot. apply in_map_iff in Hin as [x [Hx Hin]].
  apply filter_In in Hin as [Hin _]. rewrite <- Hx. now apply in_map.
Qed.

Variable options : EngineOptions.
Hypothesis sizes_positive :
  forall p, (1 <= batchSize (configOf options p))%nat /\
            (1 <= concurrentBatches (configOf options p))%nat.

Lemma processProviderGroups_spec (p : Provider) (entries : list TranslationEntry)
    (groups : list TranslationGroup) :
  (forall g, In g groups -> provider g = p) ->
  List.NoDup (List.map id groups) ->
  returns (processProviderGroups options p entries groups)
    (fun table =>
       (forall groupId, is_Some (table !! groupId) <-> In groupId (List.map id groups)) /\
       (forall g, In g groups -> settled options entries table g)).
Proof.
  intros Hp Hnd. unfold Engine.processProviderGroups.
  assert (Hdom : forall groupId,
            is_Some (emptyTables groups !! groupId) <-> In groupId (List.map id groups)).
  { intros groupId. unfold emptyTables. split.
    - intros Hsome.
      destruct (in_dec (List.list_eq_dec N.eq_dec) groupId (List.map id groups)) as [H|H];
        [exact H|].
      rewrite emptyTables_notin, lookup_empty in Hsome by exact H.
      now destruct Hsome.
    - intros Hin. now rewrite emptyTables_in. }
  destruct (truthy (apiKeyOf options p)) eqn:Ekey; cbn [negb].
  - destruct (sizes_positive p) as [Hbs Hcb].
    destruct (createBatches_from_spec (allTasks entries groups) _ Hbs
                (List.length (allTasks entries groups)) 0 ltac:(lia))
      as [batches [Hbatches Hconcat]].
    unfold createBatches. rewrite Hbatches. rewrite skipn_0 in Hconcat.
    eapply returns_bind.
    { apply (waves_spec (configOf options p) (List.length entries) (apiKeyOf options p)
               (List.map id groups) batches Hcb) with (done := []).
      - intros batch task Hb Ht. apply in_map, (allTasks_group entries).
        rewrite <- Hconcat. apply in_concat. now exists batch.
      - lia.
      - split; [exact Hdom | split; [intros t [] |]].
        intros groupId groupTable k result Hgt Hr. cbn [fst] in Hgt.
        unfold emptyTables in Hgt.
        destruct (in_dec (List.list_eq_dec N.eq_dec) groupId (List.map id groups)) as [H|H].
        + rewrite emptyTables_in in Hgt by exact H. injection Hgt as <-.
          now rewrite lookup_empty in Hr.
        + rewrite emptyTables_notin, lookup_empty in Hgt by exact H. discriminate. }
    intros st [Hdom' [Hcov Hprod]]. apply returns_ret. split; [exact Hdom'|].
    rewrite skipn_0, Hconcat in Hcov, Hprod. cbn [app] in Hcov, Hprod.
    intros g Hg. split; [|rewrite (Hp g Hg), Ekey; discriminate].
    intros _ e He. destruct (allTasks_complete entries groups e g He Hg) as [task [Ht [<- <-]]].
    destruct (Hcov task Ht) as [groupTable [result [Hgt Hr]]].
    exists groupTable, result. split; [exact Hgt|]. split; [exact Hr|].
    destruct (Hprod _ _ _ _ Hgt Hr) as [task' [Ht' [Hid [Hkey Hreq]]]].
    assert (Eg : t_group task' = t_group task).
    { apply (NoDup_map_injective id groups _ _ Hnd);
        [now apply (allTasks_group entries) | exact Hg | exact Hid]. }
    exists (t_entry task'). split; [now apply (allTasks_entry entries groups)|].
    split; [exact Hkey|]. rewrite (Hp _ Hg), <- Eg. exact Hreq.
  - apply returns_ret. split; [exact Hdom|].
    intros g Hg. split; [rewrite (Hp g Hg), Ekey; discriminate|].
    intros _. unfold emptyTables. apply emptyTables_in. now apply in_map.
Qed.

Lemma settled_lookup (entries : list TranslationEntry) (table table' : ResultTable)
    (g : TranslationGroup) :
  table' !! id g = table !! id g ->
  settled options entries table g -> settled options entries table' g.
Proof. unfold settled. intros ->. auto. Qed.

Lemma groupsOf_in (p : Provider) (groups : list TranslationGroup) (g : TranslationGroup) :
  In g (groupsOf p groups) <-> In g groups /\ provider g = p.
Proof.
  unfold groupsOf. rewrite filter_In. split; intros [H1 H2]; (split; [exact H1|]).
  - now destruct (provider g), p.
  - subst p. now destruct (provider g).
Qed.

Variable entries : list TranslationEntry.
Variable groups : list TranslationGroup.
Hypothesis unique_ids : List.NoDup (List.map id groups).

Lemma other_provider_id (p : Provider) (g : TranslationGroup) :
  In g groups -> provider g <> p -> ~ In (id g) (List.map id (groupsOf p groups)).
Proof.
  intros Hg Hp Hin. apply in_map_iff in Hin as [g' [Hid Hg']].
  apply groupsOf_in in Hg' as [Hg' Hp'].
  apply Hp. rewrite <- Hp'. f_equal.
  symmetry. now apply (NoDup_map_injective id groups g' g unique_ids).
Qed.

Lemma runProvider_spec (p : Provider) (allResults : ResultTable) :
  returns (runProvider options entries groups allResults p)
    (fun table =>
       (forall g, In g groups -> provider g = p -> settled options entries table g) /\
       (forall g, In g groups -> provider g <> p -> table !! id g = allResults !! id g)).
Proof.
  unfold Engine.runProvider.
  destruct (groupsOf p groups) as [|g0 mine] eqn:Emine.
  - apply returns_ret. split; [|reflexivity].
    intros g Hg Hp. assert (H : In g (groupsOf p groups)) by now apply groupsOf_in.
    rewrite Emine in H. destruct H.
  - rewrite <- Emine.
    eapply returns_bind.
    { apply (processProviderGroups_spec p entries (groupsOf p groups)).
      - intros g Hg. now apply groupsOf_in in Hg.
      - apply NoDup_map_filter, unique_ids. }
    intros results [Hdom Hsettled]. apply returns_ret. split.
    + intros g Hg Hp. assert (H : In g (groupsOf p groups)) by now apply groupsOf_in.
      apply (settled_lookup entries results); [|now apply Hsettled].
      apply lookup_union_l'. apply Hdom. now apply in_map.
    + intros g Hg Hp. apply lookup_union_r.
      apply eq_None_not_Some. rewrite Hdom. now apply other_provider_id.
Qed.

Lemma emptyColumns (includeMetadata : bool) (g : TranslationGroup) (name : jsstring) :
  In name (groupHeaders includeMetadata g) ->
  In (name, []) (resultColumns includeMetadata g None).
Proof.
  unfold groupHeaders, resultColumns. cbn [from_option].
  destruct includeMetadata; cbn [In]; intuition (subst; auto).
Qed.

(** C1 (as the code has it).  When the run is not cancelled, the batch
    settings are at least 1 and the group ids are unique, [processGroups]
    returns the merge of the result table its providers collected, and for
    every group of the input: if the provider of the group has an API key,
    the table of the group has an entry for the key of every record, and
    that entry is the response of the request for a record of that key, or,
    when that request threw, the sentinel with translation [[ERROR]],
    category [Error] and the message of the failure as its reasoning; if
    the provider has no API key, the table of the group is empty, and (when
    no two columns of the output share a name and none is named
    [__proto__]) every record of the merged output has the empty string in
    each column of the group. *)
Theorem sentinel_completeness (includeMetadata : bool) (w : W) :
  exists table w',
    collectResults options entries groups w = (Ret table, w') /\
    processGroups createProvider aborted sleep onGroupProgress options entries groups
      includeMetadata w =
    (Ret (mergeTranslationResults entries groups table includeMetadata), w') /\
    forall g, In g groups ->
      (truthy (apiKeyOf options (provider g)) = true ->
       forall e, In e entries ->
         exists (groupTable : GroupTable) result,
           table !! id g = Some groupTable /\ groupTable !! key e = Some result /\
           exists e', In e' entries /\ key e' = key e /\
                      requested (apiKeyOf options (provider g)) e' g result) /\
      (truthy (apiKeyOf options (provider g)) = false ->
       table !! id g = Some ∅ /\
       (List.NoDup (flat_map (groupHeaders includeMetadata) groups) ->
        ~ In (js "__proto__") (flat_map (groupHeaders includeMetadata) groups) ->
        forall m name,
          In m (Types.entries (mergeTranslationResults entries groups table includeMetadata)) ->
          In name (groupHeaders includeMetadata g) ->
          getProp name m = Some [])).
Proof.
  assert (H : returns (collectResults options entries groups)
                (fun table => forall g, In g groups -> settled options entries table g)).
  { unfold Engine.collectResults.
    eapply returns_bind; [apply checkAborted_returns|]. intros _ _.
    cbn [foldM].
    eapply returns_bind; [apply (runProvider_spec openai)|]. intros t1 [H1 _].
    eapply returns_bind; [apply (runProvider_spec anthropic)|]. intros t2 [H2 K2].
    eapply returns_bind; [apply (runProvider_spec google)|]. intros t3 [H3 K3].
    apply returns_ret. intros g Hg.
    destruct (provider g) eqn:Ep.
    - apply (settled_lookup entries t1); [|now apply H1].
      rewrite K3, K2 by (try exact Hg; rewrite Ep; discriminate). reflexivity.
    - apply (settled_lookup entries t2); [|now apply H2].
      rewrite K3 by (try exact Hg; rewrite Ep; discriminate). reflexivity.
    - now apply H3. }
  destruct (H w) as [table [w' [E Hsettled]]]. exists table, w'. split; [exact E|].
  split; [unfold Engine.processGroups, mbind; now rewrite E|].
  intros g Hg. destruct (Hsettled g Hg) as [Hkey Hnone]. split; [exact Hkey|].
  intros Hno. specialize (Hnone Hno). split; [exact Hnone|].
  intros Hnd _ m name Hm Hname. unfold mergeTranslationResults in Hm. cbn [Types.entries] in Hm.
  apply in_map_iff in Hm as [e [<- He]].
  pose proof (mergeAll_own table includeMetadata (key e) groups g Hnd Hg e) as Hown.
  rewrite Hnone in Hown. apply Hown. rewrite lookup_empty. now apply emptyColumns.
Qed.

End EngineCompleteness.

(** *** A run of the engine against the world of the Anthropic provider *)

Section EngineRun.
Import Types Parser Engine.

(** Every provider is played by the model of the Anthropic provider. *)
Definition providerFor (p : Provider) (apiKey model : jsstring)
    : M Anthropic.World (TranslationProvider Anthropic.World) :=
  Anthropic.newProvider rowsOfLine apiKey model.

Definition notAborted (w : Anthropic.World) : bool := false.

Definition timer (ms : Z) : M Anthropic.World unit :=
  fun w => (Ret tt, Anthropic.withClock w (Anthropic.clock w + ms)).

(** The engine as the route constructs it: keys for OpenAI and Anthropic,
    none for Google, default batch settings. *)
Definition routeOptions : EngineOptions :=
  newEngine {| in_openaiKey := Some (js "sk-openai"); in_anthropicKey := Some (js "sk-ant");
               in_googleKey := None; in_openai := None; in_anthropic := None;
               in_google := None |}.

Definition gemini : TranslationGroup :=
  {| id := js "de"; name := js "German"; provider := google;
     model := js "gemini-1.5-flash";
     systemPrompt := js "You are an expert app localiser.";
     userPrompt := js "Translate every row to {{language}}: {{csv}}";
     columnName := js "German" |}.

Definition hiEntry : TranslationEntry := entryOf "greeting.hi" "Hi".

Lemma anthropic_providers_return (p : Provider) (apiKey model : jsstring) :
  returns (providerFor p apiKey model)
    (fun provider => forall options w, settles (fst (translate provider options w))).
Proof.
  intros w. eexists _, _. split; [reflexivity|].
  intros options w1. cbn [translate]. apply translate_log.
Qed.

Lemma sentinel_completeness_witness :
  exists table w',
    collectResults providerFor notAborted timer None routeOptions [hiEntry] [spanish; gemini]
      (worldWith 1 serverError greetingRow) = (Ret table, w') /\
    processGroups providerFor notAborted timer None routeOptions [hiEntry] [spanish; gemini]
      true (worldWith 1 serverError greetingRow) =
    (Ret (mergeTranslationResults [hiEntry] [spanish; gemini] table true), w') /\
    forall g, In g [spanish; gemini] ->
      (truthy (apiKeyOf routeOptions (provider g)) = true ->
       forall e, In e [hiEntry] ->
         exists (groupTable : GroupTable) result,
           table !! id g = Some groupTable /\ groupTable !! key e = Some result /\
           exists e', In e' [hiEntry] /\ key e' = key e /\
                      requested providerFor (apiKeyOf routeOptions (provider g)) e' g result) /\
      (truthy (apiKeyOf routeOptions (provider g)) = false ->
       table !! id g = Some ∅ /\
       (List.NoDup (flat_map (groupHeaders true) [spanish; gemini]) ->
        ~ In (js "__proto__") (flat_map (groupHeaders true) [spanish; gemini]) ->
        forall m name,
          In m (Types.entries (mergeTranslationResults [hiEntry] [spanish; gemini] table true)) ->
          In name (groupHeaders true g) ->
          Output.getProp name m = Some [])).
Proof.
  apply (sentinel_completeness providerFor notAborted timer None).
  - exact anthropic_providers_return.
  - reflexivity.
  - intros ms w. now eexists _, _.
  - intros callback [=].
  - intros p. destruct p; cbn; lia.
  - repeat constructor; cbn; intuition discriminate.
Defined.

(** C1 as stated fails for a group whose provider has no API key: the run
    returns, the table of the group is empty, it has no entry for the key
    of the record, and the merged record carries empty strings, not a
    sentinel. *)
Lemma missing_api_key_leaves_no_entry :
  let w0 := worldWith 0 serverError greetingRow in
  (exists table,
      fst (collectResults providerFor notAborted timer None routeOptions
             [hiEntry] [gemini] w0) = Ret table /\
      table !! id gemini = Some ∅ /\
      (table !! id gemini) ≫= (fun groupTable => groupTable !! key hiEntry) = None) /\
  fst (processGroups providerFor notAborted timer None routeOptions
         [hiEntry] [gemini] true w0) =
  Ret {| entries :=
           [{| key := js "greeting.hi"; source := js "menu"; english := js "Hi";
               columns := [(js "German", []); (js "German Category", []);
                           (js "German Reasoning", [])] |}];
         headers := [js "Key"; js "Source"; js "English Original"; js "German";
                     js "German Category"; js "German Reasoning"] |}.
Proof.
  cbn zeta. split.
  - eexists. split; [vm_compute; reflexivity|]. split; reflexivity.
  - vm_compute. reflexivity.
Qed.

End EngineRun.
(** ** The fallback of [processBatch] (lib/utils/csv-merger.ts)

    [processBatch] is a private method whose only caller,
    [processSingleGroupWithConcurrentBatches], is called from nowhere: a
    run of [processGroups] sends single requests only.  What follows is
    about the method by itself. *)

Section BatchFallback.
Import Types Parser Engine.
Local Open Scope m_scope.

Context {W : Type}.

Lemma hasKey_set {V} (k k' : jsstring) (v : V) (m : JsMap.t V) :
  JsMap.hasKey k' (JsMap.set k v m) = str_eqb k k' || JsMap.hasKey k' m.
Proof. unfold JsMap.hasKey. rewrite get_set. now destruct (str_eqb k k'). Qed.

(** The request of [processBatch] for its whole batch. *)
Definition batchRequest (batch : list TranslationEntry) (group : TranslationGroup)
    : BatchTranslateOptions :=
  {| b_entries := batch; b_language := name group;
     b_systemPrompt := systemPrompt group; b_userPrompt := userPrompt group |}.

(** The outcome of the single request for the record [e]: the response
    [translate] returned, or the sentinel made of the failure it threw, in
    whichever world the request ran. *)
Definition answered (provider : TranslationProvider W) (group : TranslationGroup)
    (e : TranslationEntry) (result : TranslationResult) : Prop :=
  exists w1 w2 : W,
    translate provider (optionsOf e group) w1 = (Ret result, w2) \/
    exists error,
      translate provider (optionsOf e group) w1 = (Throw error, w2) /\
      result = {| translation := js "[ERROR]"; category := js "Error";
                  reasoning := messageOf error |}.

(** The catch block of [processBatch]. *)
Lemma fallback_spec (provider : TranslationProvider W) (group : TranslationGroup)
    (batch : list TranslationEntry) :
  (forall options w, settles (fst (translate provider options w))) ->
  returns
    (foldM (fun batchResults entry =>
              tryCatch
                (response <- translate provider (optionsOf entry group) ;;
                 ret (JsMap.set (key entry) response batchResults))
                (fun individualError =>
                   ret (JsMap.set (key entry) (errorResult individualError) batchResults)))
       batch JsMap.empty)
    (fun batchResults =>
       (forall k, JsMap.hasKey k batchResults = true <-> In k (List.map key batch)) /\
       (forall k result, JsMap.get k batchResults = Some result ->
          exists e, In e batch /\ key e = k /\ answered provider group e result)).
Proof.
  intros Hsingle.
  pose (I := fun (done : list TranslationEntry) (m : JsMap.t TranslationResult) =>
               (forall k, JsMap.hasKey k m = true <-> In k (List.map key done)) /\
               (forall k result, JsMap.get k m = Some result ->
                  exists e, In e done /\ key e = k /\ answered provider group e result)).
  change (returns
            (foldM (fun batchResults entry =>
                      tryCatch
                        (response <- translate provider (optionsOf entry group) ;;
                         ret (JsMap.set (key entry) response batchResults))
                        (fun individualError =>
                           ret (JsMap.set (key entry) (errorResult individualError)
                                  batchResults)))
               batch JsMap.empty)
            (I ([] ++ batch))).
  apply (returns_foldM _ I).
  - split; [intros k; cbn; split; [discriminate | tauto] | intros k result [=]].
  - intros done x m _ [Hkeys Hprov] w0. unfold tryCatch, mbind.
    pose proof (Hsingle (optionsOf x group) w0) as Hs.
    assert (Hstep : forall result, answered provider group x result ->
              I (done ++ [x]) (JsMap.set (key x) result m)).
    { intros result Hres. split.
      - intros k. rewrite hasKey_set, orb_true_iff, Hkeys, List.map_app, in_app_iff.
        cbn [List.map In]. rewrite str_eqb_eq. tauto.
      - intros k r Hr. rewrite get_set in Hr. destruct (str_eqb (key x) k) eqn:Ek.
        + apply str_eqb_eq in Ek. injection Hr as <-.
          exists x. split; [apply in_or_app; right; now left | now split].
        + destruct (Hprov k r Hr) as [e [He Hrest]].
          exists e. split; [apply in_or_app; now left | exact Hrest]. }
    destruct (translate provider (optionsOf x group) w0) as [[r|e| |] w'] eqn:Et;
      cbn [fst] in Hs; try contradiction.
    + exists (JsMap.set (key x) r m), w'. split; [reflexivity|].
      apply Hstep. exists w0, w'. now left.
    + exists (JsMap.set (key x) (errorResult e) m), w'. split; [reflexivity|].
      apply Hstep. exists w0, w'. right. exists e. now split.
Qed.

Lemma processBatch_thrown (provider : TranslationProvider W)
    (batch : list TranslationEntry) (group : TranslationGroup) (w w1 : W) (error : JsError) :
  translateBatch provider (batchRequest batch group) w = (Throw error, w1) ->
  (forall options w', settles (fst (translate provider options w'))) ->
  exists batchResults w2,
    processBatch batch group provider w = (Ret batchResults, w2) /\
    (forall k, JsMap.hasKey k batchResults = true <-> In k (List.map key batch)) /\
    (forall k result, JsMap.get k batchResults = Some result ->
       exists e, In e batch /\ key e = k /\ answered provider group e result).
Proof.
  intros Hthrow Hsingle. unfold processBatch, tryCatch. unfold mbind at 1.
  unfold batchRequest in Hthrow. rewrite Hthrow.
  destruct (fallback_spec provider group batch Hsingle w1) as [m [w2 [E Hm]]].
  exists m, w2. split; [exact E | exact Hm].
Qed.


End BatchFallback.

(** A provider whose batch request always throws and whose single
    requests answer with the English text. *)
Definition batchless : Types.TranslationProvider unit :=
  {| Types.translate := fun options =>
       ret {| Parser.translation := Types.o_text options; Parser.category := js "Echo";
              Parser.reasoning := js "Single request" |};
     Types.translateBatch := fun _ => throw (ErrorObj (js "Batch endpoint is down")) |}.

Section BatchDegradation.
Import Types Parser Engine.


End BatchDegradation.



(** ** The task queue and its batches (lib/utils/csv-merger.ts) *)

Section TaskQueue.
Import Types Engine.
Local Open Scope nat_scope.

(** [Math.ceil(n / batchSize)] *)
Definition batchCount (n batchSize : nat) : nat := (n + batchSize - 1) / batchSize.

Lemma batchCount_step (m batchSize : nat) :
  1 <= batchSize -> 1 <= m ->
  batchCount m batchSize = S (batchCount (m - batchSize) batchSize).
Proof.
  intros Hbs Hm. unfold batchCount.
  destruct (Nat.le_gt_cases batchSize m) as [H|H].
  - replace (m + batchSize - 1) with ((m - batchSize + batchSize - 1) + 1 * batchSize) by lia.
    rewrite Nat.div_add by lia. lia.
  - replace (m - batchSize) with 0 by lia. cbn [Nat.add].
    replace (m + batchSize - 1) with ((m - 1) + 1 * batchSize) by lia.
    rewrite Nat.div_add by lia.
    rewrite (Nat.div_small (m - 1)) by lia. rewrite (Nat.div_small (batchSize - 1)) by lia.
    reflexivity.
Qed.

Lemma batchCount_zero (batchSize : nat) : batchCount 0 batchSize = 0.
Proof.
  unfold batchCount. destruct batchSize as [|n]; [reflexivity|].
  apply Nat.div_small. lia.
Qed.

(** The loop pushes the slices [items.slice(i, i + batchSize)],
    [items.slice(i + batchSize, i + 2 * batchSize)], and so on. *)
Lemma createBatches_from_slices {T} (items : list T) (batchSize : nat) :
  1 <= batchSize ->
  forall fuel i,
    List.length items - i <= fuel ->
    createBatches_from fuel items batchSize i =
    Some (List.map (fun n => firstn batchSize (skipn (i + n * batchSize) items))
            (seq 0 (batchCount (List.length items - i) batchSize))).
Proof.
  intros Hbs fuel. induction fuel as [|fuel IH]; intros i Hfuel; cbn [createBatches_from].
  - destruct (i <? List.length items) eqn:E.
    + apply Nat.ltb_lt in E. lia.
    + apply Nat.ltb_ge in E. replace (List.length items - i) with 0 by lia.
      now rewrite batchCount_zero.
  - destruct (i <? List.length items) eqn:E.
    + apply Nat.ltb_lt in E. rewrite IH by lia. cbn [option_map]. f_equal.
      rewrite (batchCount_step (List.length items - i)) by lia.
      cbn [seq List.map]. rewrite Nat.add_0_r. f_equal.
      rewrite <- seq_shift, List.map_map.
      replace (List.length items - (i + batchSize)) with (List.length items - i - batchSize) by lia.
      apply map_ext. intros n. do 2 f_equal. lia.
    + apply Nat.ltb_ge in E. replace (List.length items - i) with 0 by lia.
      now rewrite batchCount_zero.
Qed.

Lemma createBatches_slices {T} (items : list T) (batchSize : nat) :
  1 <= batchSize ->
  createBatches items batchSize =
  Some (List.map (fun n => firstn batchSize (skipn (n * batchSize) items))
          (seq 0 (batchCount (List.length items) batchSize))).
Proof.
  intros Hbs. unfold createBatches. rewrite createBatches_from_slices by lia.
  now rewrite Nat.sub_0_r.
Qed.

(** X1.  [createBatches]: for a batch size of at least 1 the loop ends; the
    batches, one after the other, are the items in their order; there are
    ceil(n / batchSize) of them; the batch of index [n] is
    [items.slice(n * batchSize, n * batchSize + batchSize)]; no batch is
    empty and none has more than [batchSize] items. *)
Theorem createBatches_partition {T} (items : list T) (batchSize : nat) :
  1 <= batchSize ->
  exists batches,
    createBatches items batchSize = Some batches /\
    concat batches = items /\
    List.length batches = batchCount (List.length items) batchSize /\
    (forall n batch, nth_error batches n = Some batch ->
       batch = firstn batchSize (skipn (n * batchSize) items)) /\
    (forall batch, In batch batches -> 1 <= List.length batch <= batchSize).
Proof.
  intros Hbs. unfold createBatches.
  destruct (createBatches_from_spec items batchSize Hbs (List.length items) 0 ltac:(lia))
    as [batches [E Hconcat]].
  exists batches. split; [exact E|]. split; [exact Hconcat|].
  rewrite createBatches_from_slices in E by lia. injection E as E.
  rewrite Nat.sub_0_r in E. cbn [Nat.add] in E.
  assert (Hnth : forall n batch, nth_error batches n = Some batch ->
            n < batchCount (List.length items) batchSize /\
            batch = firstn batchSize (skipn (n * batchSize) items)).
  { intros n batch Hn. rewrite <- E in Hn.
    rewrite nth_error_map in Hn.
    rewrite nth_error_seq in Hn.
    destruct (n <? _) eqn:Hltb in Hn; [|discriminate].
    apply Nat.ltb_lt in Hltb. cbn in Hn. injection Hn as <-. now split. }
  split; [rewrite <- E; now rewrite length_map, length_seq|].
  split; [intros n batch Hn; now apply Hnth|].
  intros batch Hin. apply In_nth_error in Hin as [n Hn].
  destruct (Hnth n batch Hn) as [Hlt ->].
  rewrite length_firstn, length_skipn.
  assert (n * batchSize < List.length items); [|lia].
  unfold batchCount in Hlt.
  destruct (Nat.lt_ge_cases (n * batchSize) (List.length items)) as [H|H]; [exact H|].
  exfalso. assert ((List.length items + batchSize - 1) / batchSize < S n); [|lia].
  apply Nat.Div0.div_lt_upper_bound. nia.
Qed.

Lemma createBatches_partition_witness :
  exists batches,
    createBatches [1; 2; 3; 4; 5] 2 = Some batches /\
    concat batches = [1; 2; 3; 4; 5] /\
    List.length batches = batchCount 5 2 /\
    (forall n batch, nth_error batches n = Some batch ->
       batch = firstn 2 (skipn (n * 2) [1; 2; 3; 4; 5])) /\
    (forall batch, In batch batches -> 1 <= List.length batch <= 2).
Proof. apply (createBatches_partition [1; 2; 3; 4; 5] 2). lia. Defined.

Lemma createBatches_from_stuck {T} (items : list T) (fuel i : nat) :
  i < List.length items -> createBatches_from fuel items 0 i = None.
Proof.
  intros Hi. induction fuel as [|fuel IH]; cbn [createBatches_from];
    apply Nat.ltb_lt in Hi; rewrite Hi; [reflexivity|].
  rewrite Nat.add_0_r, IH. reflexivity.
Qed.


Lemma in_combine_seq_iff {A} (l : list A) (x : A) (start n : nat) :
  In (n, x) (combine (seq start (List.length l)) l) <->
  start <= n /\ nth_error l (n - start) = Some x.
Proof.
  revert start. induction l as [|y l IH]; intros start; cbn [List.length seq combine].
  - split; [intros [] | intros [_ H]]. now destruct (n - start).
  - cbn [In]. rewrite IH. split.
    + intros [[= <- <-] | [Hle Hn]].
      * split; [lia|]. now rewrite Nat.sub_diag.
      * split; [lia|]. replace (n - start) with (S (n - S start)) by lia. exact Hn.
    + intros [Hle Hn]. destruct (Nat.eq_dec n start) as [->|Hne].
      * left. rewrite Nat.sub_diag in Hn. cbn in Hn. now injection Hn as ->.
      * right. split; [lia|].
        replace (n - start) with (S (n - S start)) in Hn by lia. exact Hn.
Qed.

Lemma length_flat_map_const {A B} (f : A -> list B) (l : list A) (k : nat) :
  (forall a, List.length (f a) = k) -> List.length (flat_map f l) = List.length l * k.
Proof.
  intros H. induction l as [|a l IH]; [reflexivity|].
  cbn [flat_map List.length]. rewrite length_app, H, IH. lia.
Qed.

Lemma allTasks_length (entries : list TranslationEntry) (groups : list TranslationGroup) :
  List.length (allTasks entries groups) = List.length groups * List.length entries.
Proof.
  unfold allTasks. rewrite (length_flat_map_const _ _ (List.length entries)).
  - now rewrite length_combine, length_seq, Nat.min_id.
  - intros a. apply length_map.
Qed.

(** X3.  The queue of [processProviderGroups] has one task for every pair of a
    group and a record, [groupIndex] being the position of the group:
    [groups.length * entries.length] tasks in all. *)
Theorem allTasks_exact (entries : list TranslationEntry) (groups : list TranslationGroup) :
  List.length (allTasks entries groups) = List.length groups * List.length entries /\
  forall task,
    In task (allTasks entries groups) <->
    In (t_entry task) entries /\ nth_error groups (t_groupIndex task) = Some (t_group task).
Proof.
  split; [apply allTasks_length|].
  - intros task. unfold allTasks. rewrite in_flat_map. split.
    + intros [[n g] [Hg Ht]]. apply in_map_iff in Ht as [e [<- He]]. cbn.
      apply in_combine_seq_iff in Hg as [_ Hg]. rewrite Nat.sub_0_r in Hg. now split.
    + intros [He Hg]. exists (t_groupIndex task, t_group task). split.
      * apply in_combine_seq_iff. split; [lia|]. now rewrite Nat.sub_0_r.
      * apply in_map_iff. exists (t_entry task). split; [|exact He]. now destruct task.
Qed.

(** X4.  [groupByProvider]: the three lists hold every group once, each under
    its own provider and in the order of the input. *)
Theorem groupByProvider_partition (groups : list TranslationGroup) :
  groups ≡ₚ groupsOf openai groups ++ groupsOf anthropic groups ++ groupsOf google groups /\
  forall p g, In g (groupsOf p groups) <-> In g groups /\ provider g = p.
Proof.
  split.
  - induction groups as [|g groups IH]; [reflexivity|].
    unfold groupsOf in *. cbn [List.filter].
    destruct (provider g); cbn [provider_eqb app].
    + now constructor.
    + rewrite IH at 1. apply Permutation_middle.
    + rewrite IH at 1. rewrite !app_assoc. apply Permutation_middle.
  - intros p g. unfold groupsOf. rewrite filter_In.
    split; intros [H1 H2]; (split; [exact H1|]).
    + destruct (provider g), p; (reflexivity || discriminate).
    + rewrite H2. now destruct p.
Qed.

End TaskQueue.

Section StuckLoops.
Import Types Engine.
Local Open Scope m_scope.

Context {W : Type}.
Variable createProvider : Provider -> jsstring -> jsstring -> M W (TranslationProvider W).
Variable aborted : W -> bool.
Variable sleep : Z -> M W unit.
Variable onGroupProgress : option (jsstring -> Z -> M W unit).

(** With a batch size of 0 the loop of [createBatches] pushes empty
    slices without end: the run uses up the memory before it constructs a
    provider or sends a request. *)
Lemma zero_batch_size_exhausts (options : EngineOptions) (p : Provider)
    (entries : list TranslationEntry) (groups : list TranslationGroup) (w : W) :
  truthy (apiKeyOf options p) = true ->
  batchSize (configOf options p) = 0%nat ->
  entries <> [] -> groups <> [] ->
  processProviderGroups createProvider aborted sleep onGroupProgress options p entries groups w
  = (Exhaust, w).
Proof.
  intros Hkey Hsize He Hg. unfold processProviderGroups. rewrite Hkey, Hsize. cbn [negb].
  unfold createBatches. rewrite createBatches_from_stuck; [reflexivity|].
  rewrite allTasks_length.
  destruct entries, groups; try congruence. cbn. lia.
Qed.

Lemma waves_stuck (config : ProviderBatchConfig) (entryCount : nat) (apiKey : jsstring)
    (batches : list (list Task)) (i : nat) (st : ProviderState) :
  concurrentBatches config = 0%nat ->
  (forall w, aborted w = false) ->
  (forall ms w, exists w', sleep ms w = (Ret tt, w')) ->
  (i < List.length batches)%nat ->
  forall fuel w,
    fst (waves createProvider aborted sleep onGroupProgress fuel config entryCount apiKey
           batches i st w) = Diverge.
Proof.
  intros Hc Hab Hsleep Hi fuel.
  induction fuel as [|fuel IH]; intros w; cbn [waves];
    pose proof Hi as Hlt; apply Nat.ltb_lt in Hlt; rewrite Hlt; [reflexivity|].
  rewrite Hc, Nat.add_0_r, Hlt, firstn_O. cbn [foldM].
  unfold mbind at 1. unfold checkAborted at 1. rewrite Hab.
  unfold mbind at 1. unfold ret at 1. unfold mbind at 1.
  destruct (true && (0 <? delayMs config)%Z).
  - unfold mbind at 1. unfold checkAborted at 1. rewrite Hab.
    destruct (Hsleep (delayMs config) w) as [w' ->]. apply IH.
  - unfold ret at 1. apply IH.
Qed.

(** X2.  With 0 concurrent batches the run of a provider that has an API
    key hangs as soon as there is one record and one group: the loop over
    the batches of [processProviderGroups] does not advance, and a run
    that is not cancelled, with a timer that fires, never returns and
    never throws. *)
Theorem zero_concurrency_hangs (options : EngineOptions) (p : Provider)
    (entries : list TranslationEntry) (groups : list TranslationGroup) (w : W) :
  (forall w, aborted w = false) ->
  (forall ms w, exists w', sleep ms w = (Ret tt, w')) ->
  truthy (apiKeyOf options p) = true ->
  (1 <= batchSize (configOf options p))%nat ->
  concurrentBatches (configOf options p) = 0%nat ->
  entries <> [] -> groups <> [] ->
  fst (processProviderGroups createProvider aborted sleep onGroupProgress options p
         entries groups w) = Diverge.
Proof.
  intros Hab Hsleep Hkey Hsize Hc He Hg. unfold processProviderGroups.
  rewrite Hkey. cbn [negb].
  rewrite createBatches_slices by exact Hsize.
  set (batches := List.map _ _).
  assert (Hlen : List.length batches
                 = batchCount (List.length (allTasks entries groups))
                     (batchSize (configOf options p)))
    by (unfold batches; now rewrite length_map, length_seq).
  clearbody batches. unfold mbind.
  rewrite (surjective_pairing (waves _ _ _ _ _ _ _ _ _ _ _ _)).
  rewrite waves_stuck; try assumption; [reflexivity|].
  rewrite Hlen, allTasks_length.
  unfold batchCount.
  assert (1 <= List.length groups * List.length entries)%nat
    by (destruct entries, groups; try congruence; cbn; lia).
  apply (Nat.lt_le_trans _ (batchSize (configOf options p) / batchSize (configOf options p))).
  - rewrite Nat.div_same by lia. lia.
  - apply Nat.Div0.div_le_mono. lia.
Qed.

End StuckLoops.

Definition zeroBatchOptions : Engine.EngineOptions :=
  Engine.newEngine
    {| Engine.in_openaiKey := None; Engine.in_anthropicKey := Some (js "sk-ant");
       Engine.in_googleKey := None; Engine.in_openai := None;
       Engine.in_anthropic :=
         Some {| Engine.concurrentBatches := 2; Engine.batchSize := 0;
                 Engine.delayMs := 2000 |};
       Engine.in_google := None |}.

Definition zeroConcurrencyOptions : Engine.EngineOptions :=
  Engine.newEngine
    {| Engine.in_openaiKey := None; Engine.in_anthropicKey := Some (js "sk-ant");
       Engine.in_googleKey := None; Engine.in_openai := None;
       Engine.in_anthropic :=
         Some {| Engine.concurrentBatches := 0; Engine.batchSize := 5;
                 Engine.delayMs := 2000 |};
       Engine.in_google := None |}.

Lemma zero_concurrency_hangs_witness :
  fst (Engine.processProviderGroups providerFor notAborted timer None zeroConcurrencyOptions
         Types.anthropic [hiEntry] [spanish] (worldWith 0 serverError greetingRow)) = Diverge.
Proof.
  apply (zero_concurrency_hangs providerFor notAborted timer None zeroConcurrencyOptions
           Types.anthropic [hiEntry] [spanish] (worldWith 0 serverError greetingRow)).
  - reflexivity.
  - intros ms w'. now eexists.
  - reflexivity.
  - cbn. lia.
  - reflexivity.
  - discriminate.
  - discriminate.
Defined.

(** The run with a batch size of 0, at the settings above. *)
Example zero_batch_size_run :
  let w := worldWith 0 serverError greetingRow in
  Engine.processProviderGroups providerFor notAborted timer None zeroBatchOptions
    Types.anthropic [hiEntry] [spanish] w = (Exhaust, w).
Proof. reflexivity. Qed.

(** ** The merged table (mergeTranslationResults in lib/utils/csv-merger.ts) *)

Section MergedColumns.
Import Types Parser Engine Output.

(** X5.  [mergeTranslationResults] when no two columns of the output share a
    name and none is named [__proto__] (an assignment to that name adds no
    property): the merged table has one record for each input record, in
    the same order, and three headers followed by those of the groups; in
    a record, a group with a result table has its columns filled from the
    result of the record (empty strings when the table has none), a group
    without a table leaves its columns as they were, and every other
    property of the record is unchanged. *)
Theorem merged_columns (originalEntries : list TranslationEntry)
    (groups : list TranslationGroup) (results : ResultTable) (includeMetadata : bool) :
  List.NoDup (flat_map (groupHeaders includeMetadata) groups) ->
  ~ In (js "__proto__") (flat_map (groupHeaders includeMetadata) groups) ->
  let merged := mergeTranslationResults originalEntries groups results includeMetadata in
  List.length (headers merged)
  = (3 + (if includeMetadata then 3 else 1) * List.length groups)%nat /\
  List.length (entries merged) = List.length originalEntries /\
  forall i e, nth_error originalEntries i = Some e ->
    exists m,
      nth_error (entries merged) i = Some m /\
      (forall name, ~ In name (flat_map (groupHeaders includeMetadata) groups) ->
         getProp name m = getProp name e) /\
      (forall g, In g groups ->
         match results !! id g with
         | Some table =>
             forall name value,
               In (name, value) (resultColumns includeMetadata g (table !! key e)) ->
               getProp name m = Some value
         | None =>
             forall name, In name (groupHeaders includeMetadata g) ->
               getProp name m = getProp name e
         end).
Proof.
  intros Hnd _ merged. unfold merged, mergeTranslationResults. cbn [headers entries].
  split; [|split].
  - rewrite length_app. cbn [List.length]. f_equal.
    rewrite (length_flat_map_const _ _ (if includeMetadata then 3 else 1)%nat); [lia|].
    intros g. unfold groupHeaders. now destruct includeMetadata.
  - apply length_map.
  - intros i e He. eexists. split; [rewrite nth_error_map, He; reflexivity|]. split.
    + intros name Hname. now apply mergeAll_other.
    + intros g Hg. now apply mergeAll_own.
Qed.

Definition french : TranslationGroup :=
  {| id := js "fr"; name := js "French"; provider := openai; model := js "gpt-4o-mini";
     systemPrompt := js "You are an expert app localiser.";
     userPrompt := js "{{csv}}"; columnName := js "French" |}.

Lemma merged_columns_witness :
  let results : ResultTable :=
    {[ id spanish := {[ key hiEntry := {| translation := js "Hola"; category := js "Greeting";
                                          reasoning := js "Informal" |} ]} ]} in
  let merged := mergeTranslationResults [hiEntry] [spanish; french] results true in
  List.length (headers merged) = 9%nat /\
  List.length (entries merged) = 1%nat /\
  forall i e, nth_error [hiEntry] i = Some e ->
    exists m,
      nth_error (entries merged) i = Some m /\
      (forall name, ~ In name (flat_map (groupHeaders true) [spanish; french]) ->
         getProp name m = getProp name e) /\
      (forall g, In g [spanish; french] ->
         match results !! id g with
         | Some table =>
             forall name value,
               In (name, value) (resultColumns true g (table !! key e)) ->
               getProp name m = Some value
         | None =>
             forall name, In name (groupHeaders true g) -> getProp name m = getProp name e
         end).
Proof.
  intros results.
  apply (merged_columns [hiEntry] [spanish; french] results true).
  - repeat constructor; cbn; intuition discriminate.
  - cbn. intuition discriminate.
Defined.

End MergedColumns.

(** ** The exported file (generateCSVContent in lib/utils/csv-merger.ts) *)

Section ExportedFile.
Import Types Csv Re Output.

Lemma has_app (c : N) (a b : jsstring) : has c (a ++ b) = has c a || has c b.
Proof. apply existsb_app. Qed.

Lemma has_doubled (c : N) (s : jsstring) : c <> QUOTE -> has c (doubled s) = has c s.
Proof.
  intros Hc. induction s as [|x s IH]; [reflexivity|].
  unfold doubled. cbn [flat_map]. fold (doubled s). rewrite has_app, IH.
  unfold has at 3. cbn [existsb]. fold (has c s). f_equal.
  destruct (x =? QUOTE) eqn:E; [|cbn; now rewrite orb_false_r].
  apply N.eqb_eq in E. subst x. cbn. now rewrite orb_false_r, orb_diag.
Qed.

Lemma doubled_plain (s : jsstring) : has QUOTE s = false -> doubled s = s.
Proof.
  induction s as [|x s IH]; [reflexivity|].
  unfold has. cbn [existsb]. fold (has QUOTE s). intros H.
  apply orb_false_iff in H as [H1 H2]. unfold doubled. cbn [flat_map]. fold (doubled s).
  rewrite N.eqb_sym, H1, IH by exact H2. reflexivity.
Qed.

(** A value in quotes, its quotes doubled. *)
Definition quoted (value : jsstring) : jsstring := [QUOTE] ++ doubled value ++ [QUOTE].

Lemma quote_quoted (value : jsstring) : quote value = quoted value.
Proof. unfold quote, quoted, replaceAll. now rewrite double_quotes. Qed.

(** The record has the property of the header, or the name is not one of
    the inherited ones. *)
Definition readable (entry : TranslationEntry) (header : jsstring) : bool :=
  match getProp (fieldNameOf header) entry with
  | Some _ => true
  | None => negb (inherited (fieldNameOf header))
  end.

(** [entry[fieldName] || ''] where the model has a value. *)
Definition valueText (entry : TranslationEntry) (header : jsstring) : jsstring :=
  orElse (getProp (fieldNameOf header) entry) [].

Lemma valueOf_readable (entry : TranslationEntry) (header : jsstring) :
  readable entry header = true -> valueOf entry header = Some (valueText entry header).
Proof.
  unfold readable, valueOf, valueText, orElse. cbn zeta.
  destruct (getProp _ entry); [reflexivity|].
  destruct (inherited _); [discriminate | reflexivity].
Qed.

Lemma allOf_map {A B} (f : A -> option B) (g : A -> B) (l : list A) :
  (forall x, In x l -> f x = Some (g x)) -> allOf (List.map f l) = Some (List.map g l).
Proof.
  induction l as [|x l IH]; intros H; [reflexivity|].
  cbn [List.map allOf]. rewrite (H x (or_introl eq_refl)), IH; [reflexivity|].
  intros y Hy. apply H. now right.
Qed.

Lemma parse_quoted_row (v : jsstring) (vs : list jsstring) fields :
  let '(done, current) := parse_loop (join [COMMA] (List.map quoted (v :: vs))) fields [] false in
  done ++ [current] = fields ++ v :: vs.
Proof.
  revert v fields. induction vs as [|v' vs IH]; intros v fields.
  - cbn [List.map join]. unfold quoted. cbn [app parse_loop].
    replace (QUOTE =? QUOTE) with true by reflexivity.
    rewrite parse_quoted by reflexivity. reflexivity.
  - cbn [List.map join]. unfold quoted at 1. rewrite <- !app_assoc. cbn [app parse_loop].
    replace (QUOTE =? QUOTE) with true by reflexivity.
    rewrite parse_quoted by reflexivity.
    cbn [parse_loop]. replace (COMMA =? QUOTE) with false by reflexivity.
    rewrite N.eqb_refl. specialize (IH v' (fields ++ [v])). cbn [List.map] in IH.
    destruct (parse_loop _ _ _ _) as [done current].
    rewrite IH, <- app_assoc. reflexivity.
Qed.

Lemma parse_quoted_line (values : list jsstring) :
  values <> [] ->
  parseCSVLine (join [COMMA] (List.map quoted values)) = List.map trim values.
Proof.
  intros Hne. destruct values as [|v vs]; [congruence|].
  unfold parseCSVLine. pose proof (parse_quoted_row v vs []) as H.
  destruct (parse_loop _ _ _ _) as [done current]. now rewrite H.
Qed.

Lemma split_go_part (sep : N) (p rest cur : jsstring) :
  has sep p = false ->
  split_go sep cur (p ++ rest) = split_go sep (cur ++ p) rest.
Proof.
  revert cur. induction p as [|c p IH]; intros cur Hp; [now rewrite app_nil_r|].
  unfold has in Hp. cbn [existsb] in Hp. fold (has sep p) in Hp.
  apply orb_false_iff in Hp as [H1 H2].
  cbn [app split_go]. rewrite N.eqb_sym, H1, IH by exact H2. now rewrite <- app_assoc.
Qed.

(** Splitting at the separator undoes joining with it, when no part holds
    the separator. *)
Lemma split_join (sep : N) (p : jsstring) (parts : list jsstring) :
  forallb (fun part => negb (has sep part)) (p :: parts) = true ->
  split sep (join [sep] (p :: parts)) = p :: parts.
Proof.
  unfold split. revert p. induction parts as [|q parts IH]; intros p H.
  - cbn [join]. cbn [forallb] in H. apply andb_true_iff in H as [H _].
    apply negb_true_iff in H. rewrite <- (app_nil_r p) at 1.
    rewrite split_go_part by exact H. reflexivity.
  - cbn [forallb] in H. apply andb_true_iff in H as [Hp Hrest].
    apply negb_true_iff in Hp. cbn [join].
    rewrite split_go_part by exact Hp. cbn [app split_go]. rewrite N.eqb_refl.
    f_equal. now apply IH.
Qed.

Lemma has_join (c : N) (sep : jsstring) (parts : list jsstring) :
  has c sep = false ->
  forallb (fun part => negb (has c part)) parts = true ->
  has c (join sep parts) = false.
Proof.
  intros Hsep. induction parts as [|p parts IH]; [reflexivity|].
  cbn [forallb]. intros H. apply andb_true_iff in H as [Hp Hrest].
  apply negb_true_iff in Hp. destruct parts as [|q parts]; [exact Hp|].
  cbn [join]. rewrite !has_app, Hp, Hsep. cbn [orb]. apply (IH Hrest).
Qed.

Lemma has_quoted (value : jsstring) : has NEWLINE (quoted value) = has NEWLINE value.
Proof.
  unfold quoted. rewrite !has_app, has_doubled by discriminate.
  cbn. now rewrite orb_false_r.
Qed.

(** The values of a record under the headers, as the export reads them. *)
Definition valuesOf (headers : list jsstring) (entry : TranslationEntry) : list jsstring :=
  List.map (valueText entry) headers.

(** Whether a text is free of line feeds and of double quotes. *)
Definition oneLine (s : jsstring) : bool := negb (has NEWLINE s).
Definition quoteFree (s : jsstring) : bool := negb (has QUOTE s).

Lemma dataRow_quoted (headers : list jsstring) (entry : TranslationEntry) :
  forallb (readable entry) headers = true ->
  dataRow headers entry = Some (join [COMMA] (List.map quoted (valuesOf headers entry))).
Proof.
  intros Hr. unfold dataRow, valuesOf. rewrite List.map_map.
  rewrite (allOf_map _ (fun h => quoted (valueText entry h))); [reflexivity|].
  intros h Hh. rewrite forallb_forall in Hr. unfold cell.
  rewrite valueOf_readable by now apply Hr. cbn [option_map]. now rewrite quote_quoted.
Qed.

Lemma headerRow_quoted (headers : list jsstring) :
  forallb quoteFree headers = true ->
  headerRow headers = join [COMMA] (List.map quoted headers).
Proof.
  intros H. unfold headerRow. f_equal. apply map_ext_in. intros h Hh.
  rewrite forallb_forall in H. specialize (H h Hh). apply negb_true_iff in H.
  unfold quoted. now rewrite doubled_plain.
Qed.

Lemma oneLine_row (values : list jsstring) :
  forallb oneLine values = true ->
  has NEWLINE (join [COMMA] (List.map quoted values)) = false.
Proof.
  intros H. apply has_join; [reflexivity|].
  rewrite forallb_forall in *. intros part Hpart.
  apply in_map_iff in Hpart as [v [<- Hv]]. rewrite has_quoted. now apply H.
Qed.

Lemma quoted_row_parses (headers : list jsstring) (entry : TranslationEntry) :
  headers <> [] ->
  parseCSVLine (join [COMMA] (List.map quoted (valuesOf headers entry)))
  = List.map trim (valuesOf headers entry).
Proof.
  intros Hne. apply parse_quoted_line.
  unfold valuesOf. destruct headers; [congruence | discriminate].
Qed.

(** X6.  Every data row of the export is read back by [parseCSVLine] as the
    values of its record, trimmed, whatever commas, quotes and line feeds
    they hold; a property the record does not have is read back as the
    empty string.  The headers are not names that the record only
    inherits. *)
Theorem exported_row_round_trip (headers : list jsstring) (entry : TranslationEntry) :
  headers <> [] ->
  forallb (readable entry) headers = true ->
  exists row,
    dataRow headers entry = Some row /\
    parseCSVLine row = List.map trim (valuesOf headers entry) /\
    forall header, In header headers -> getProp (fieldNameOf header) entry = None ->
      In [] (parseCSVLine row).
Proof.
  intros Hne Hr. eexists. split; [now apply dataRow_quoted|].
  rewrite quoted_row_parses by exact Hne. split; [reflexivity|].
  intros header Hin Hnone. apply in_map_iff. exists []. split; [reflexivity|].
  unfold valuesOf. apply in_map_iff. exists header. split; [|exact Hin].
  unfold valueText. now rewrite Hnone.
Qed.

Lemma exported_row_round_trip_witness :
  let headers := [js "Key"; js "English Original"; js "Spanish"; js "French"] in
  let entry := setColumn (js "Spanish") (js "Hola, " ++ [QUOTE] ++ js "amigo" ++ [QUOTE])
                 hiEntry in
  exists row,
    dataRow headers entry = Some row /\
    parseCSVLine row = List.map trim (valuesOf headers entry) /\
    forall header, In header headers -> getProp (fieldNameOf header) entry = None ->
      In [] (parseCSVLine row).
Proof.
  apply (exported_row_round_trip [js "Key"; js "English Original"; js "Spanish"; js "French"]).
  - discriminate.
  - reflexivity.
Defined.

(** X7.  The exported text read line by line: when no header holds a double
    quote (the header row is written without doubling them), no header
    and no value holds a line feed, and the headers are not names that a
    record only inherits, the lines are the header row and one row for
    each record, and they parse to the trimmed headers and values. *)
Theorem export_round_trip (entries : list TranslationEntry) (headers : list jsstring) :
  headers <> [] ->
  forallb quoteFree headers = true ->
  forallb oneLine headers = true ->
  forallb (fun entry => forallb (readable entry) headers) entries = true ->
  forallb (fun entry => forallb oneLine (valuesOf headers entry)) entries = true ->
  exists text,
    generateCSVContent entries headers = Some text /\
    List.map parseCSVLine (split NEWLINE text) =
    List.map trim headers
    :: List.map (fun entry => List.map trim (valuesOf headers entry)) entries.
Proof.
  intros Hne Hq Hh Hr Hv. unfold generateCSVContent.
  rewrite (allOf_map _ (fun entry => join [COMMA] (List.map quoted (valuesOf headers entry)))).
  2:{ intros e He. apply dataRow_quoted. rewrite forallb_forall in Hr. now apply Hr. }
  eexists. split; [reflexivity|].
  rewrite split_join.
  - cbn [List.map]. f_equal.
    + rewrite headerRow_quoted by exact Hq. now apply parse_quoted_line.
    + rewrite List.map_map. apply map_ext. intros e. now apply quoted_row_parses.
  - cbn [forallb]. apply andb_true_iff. split.
    + apply negb_true_iff. rewrite headerRow_quoted by exact Hq. now apply oneLine_row.
    + rewrite forallb_forall in Hv |- *. intros row Hrow.
      apply in_map_iff in Hrow as [e [<- He]]. apply negb_true_iff.
      apply oneLine_row. now apply Hv.
Qed.

Lemma export_round_trip_witness :
  let headers := [js "Key"; js "English Original"; js "Spanish"] in
  let entries := [setColumn (js "Spanish") (js "Hola, amigo") hiEntry;
                  entryOf "farewell" "Bye"] in
  exists text,
    generateCSVContent entries headers = Some text /\
    List.map parseCSVLine (split NEWLINE text) =
    List.map trim headers
    :: List.map (fun entry => List.map trim (valuesOf headers entry)) entries.
Proof.
  apply (export_round_trip
           [setColumn (js "Spanish") (js "Hola, amigo") hiEntry; entryOf "farewell" "Bye"]
           [js "Key"; js "English Original"; js "Spanish"]);
    (discriminate || reflexivity).
Defined.

End ExportedFile.

(** ** Validation of the uploaded records (lib/utils/csv-parser.ts) *)

Section UploadValidation.
Import Types CsvData.

(** A record with its three required fields. *)
Definition complete (entry : TranslationEntry) : bool :=
  truthy (key entry) && truthy (source entry) && truthy (english entry).

Lemma checkRow_grows (errs : list jsstring) (seen : gset jsstring)
    (index : nat) (entry : TranslationEntry) :
  (List.length errs <= List.length (fst (checkRow (errs, seen) (index, entry))))%nat.
Proof.
  unfold checkRow.
  destruct (truthy (key entry)), (truthy (source entry)), (truthy (english entry)),
    (bool_decide (key entry ∈ seen));
    cbn [negb andb fst]; rewrite ?length_app; cbn [List.length]; lia.
Qed.

Lemma checkRow_clean (errs : list jsstring) (seen : gset jsstring)
    (index : nat) (entry : TranslationEntry) :
  complete entry = true -> key entry ∉ seen ->
  checkRow (errs, seen) (index, entry) = (errs, {[key entry]} ∪ seen).
Proof.
  unfold complete, checkRow. intros H Hnew.
  apply andb_true_iff in H as [H He]. apply andb_true_iff in H as [Hk Hs].
  rewrite Hk, Hs, He. cbn [negb andb]. now rewrite bool_decide_eq_false_2.
Qed.

Lemma checkRow_reports (errs : list jsstring) (seen : gset jsstring)
    (index : nat) (entry : TranslationEntry) :
  complete entry = false \/ key entry ∈ seen ->
  (List.length errs < List.length (fst (checkRow (errs, seen) (index, entry))))%nat.
Proof.
  unfold complete, checkRow. intros H.
  destruct (truthy (key entry)) eqn:Hk, (truthy (source entry)),
    (truthy (english entry)), (bool_decide (key entry ∈ seen)) eqn:Hd;
    cbn [negb andb fst]; rewrite ?length_app; cbn [List.length]; try lia;
    destruct H as [H | H]; try discriminate;
    apply bool_decide_eq_false in Hd; contradiction.
Qed.

Lemma checkRows_grow (rows : list (nat * TranslationEntry)) (st : list jsstring * gset jsstring) :
  (List.length (fst st) <= List.length (fst (fold_left checkRow rows st)))%nat.
Proof.
  revert st. induction rows as [|[index entry] rows IH]; intros [errs seen]; [cbn; lia|].
  cbn [fold_left]. etransitivity; [|apply IH]. apply checkRow_grows.
Qed.

Lemma checkRows_clean (data : list TranslationEntry) (start : nat)
    (errs : list jsstring) (seen : gset jsstring) :
  List.length (fst (fold_left checkRow (combine (seq start (List.length data)) data)
                      (errs, seen))) = List.length errs <->
  forallb complete data = true /\ List.NoDup (List.map key data) /\
  forall k, In k (List.map key data) -> k ∉ seen.
Proof.
  revert start errs seen. induction data as [|entry data IH]; intros start errs seen.
  - cbn. split; [intros _|reflexivity]. split; [reflexivity|]. split; [constructor|tauto].
  - cbn [List.length seq combine fold_left List.map forallb].
    destruct (complete entry) eqn:Hc; [destruct (decide (key entry ∈ seen)) as [Hin|Hnew]|].
    + split.
      * intros H. exfalso.
        pose proof (checkRow_reports errs seen start entry (or_intror Hin)) as H1.
        pose proof (checkRows_grow (combine (seq (S start) (List.length data)) data)
                      (checkRow (errs, seen) (start, entry))) as H2. lia.
      * intros [_ [_ H]]. exfalso. apply (H (key entry)); [now left | exact Hin].
    + rewrite checkRow_clean by assumption. rewrite IH. cbn [andb]. split.
      * intros [Hall [Hnd Hseen]]. split; [exact Hall|]. split.
        -- constructor; [|exact Hnd]. intros H. apply (Hseen _ H).
           apply elem_of_union. left. now apply elem_of_singleton.
        -- intros k [<- | Hk]; [exact Hnew|]. intros H. apply (Hseen k Hk).
           apply elem_of_union. now right.
      * intros [Hall [Hnd Hseen]]. inversion Hnd as [|? ? Hfresh Hnd']; subst.
        split; [exact Hall|]. split; [exact Hnd'|].
        intros k Hk H. apply elem_of_union in H as [H | H].
        -- apply elem_of_singleton in H. subst k. contradiction.
        -- apply (Hseen k); [now right | exact H].
    + split.
      * intros H. exfalso.
        pose proof (checkRow_reports errs seen start entry (or_introl Hc)) as H1.
        pose proof (checkRows_grow (combine (seq (S start) (List.length data)) data)
                      (checkRow (errs, seen) (start, entry))) as H2. lia.
      * intros [H _]. discriminate.
Qed.

(** X8.  [validateCSVData] accepts the records exactly when every record has a
    key, a source text and an English text and no two records share a
    key. *)
Theorem validateCSVData_accepts (data : list TranslationEntry) :
  valid (validateCSVData data) = true <->
  forallb complete data = true /\ List.NoDup (List.map key data).
Proof.
  unfold validateCSVData.
  pose proof (checkRows_clean data 0 [] ∅) as H.
  destruct (fold_left _ _ _) as [errs seen]. cbn [valid fst List.length] in *.
  rewrite Nat.eqb_eq, H. split; [tauto|]. intros [H1 H2]. split; [exact H1|].
  split; [exact H2|]. intros k _. apply not_elem_of_empty.
Qed.

End UploadValidation.

(** ** The order of the rows after a retry (the POST handler) *)

Section RetryOrder.
Import Types RetryMerge.

Lemma keys_set_old {V} (k : jsstring) (v : V) (m : JsMap.t V) :
  In k (JsMap.keys m) -> JsMap.keys (JsMap.set k v m) = JsMap.keys m.
Proof.
  induction m as [|[k0 v0] m IH]; [intros []|].
  cbn [JsMap.set JsMap.keys List.map fst]. destruct (str_eqb k0 k) eqn:E.
  - apply str_eqb_eq in E. now subst k0.
  - intros [-> | H]; [now rewrite str_eqb_refl in E|].
    cbn [List.map fst]. f_equal. now apply IH.
Qed.

Lemma keys_set_new {V} (k : jsstring) (v : V) (m : JsMap.t V) :
  ~ In k (JsMap.keys m) -> JsMap.keys (JsMap.set k v m) = JsMap.keys m ++ [k].
Proof.
  induction m as [|[k0 v0] m IH]; [reflexivity|].
  cbn [JsMap.set JsMap.keys List.map fst]. intros Hnot.
  destruct (str_eqb k0 k) eqn:E.
  - apply str_eqb_eq in E. subst k0. exfalso. apply Hnot. now left.
  - cbn [List.map fst app]. f_equal. apply IH. intros H. apply Hnot. now right.
Qed.

Lemma keys_setAll_fresh (l : list TranslationEntry) (m : JsMap.t TranslationEntry) :
  List.NoDup (JsMap.keys m ++ List.map key l) ->
  JsMap.keys (setAll l m) = JsMap.keys m ++ List.map key l.
Proof.
  revert m. induction l as [|e l IH]; intros m Hnd; [now rewrite app_nil_r|].
  unfold setAll in *. cbn [fold_left List.map].
  assert (Hnew : ~ In (key e) (JsMap.keys m)).
  { intros H. apply NoDup_remove_2 in Hnd. apply Hnd, in_or_app. now left. }
  rewrite IH; rewrite keys_set_new by exact Hnew; rewrite <- app_assoc; [reflexivity|].
  exact Hnd.
Qed.

Lemma keys_setAll (l : list TranslationEntry) (m : JsMap.t TranslationEntry) :
  exists added,
    JsMap.keys (setAll l m) = JsMap.keys m ++ added /\
    List.NoDup added /\
    forall k, In k added <-> In k (List.map key l) /\ ~ In k (JsMap.keys m).
Proof.
  revert m. induction l as [|e l IH]; intros m.
  - exists []. split; [now rewrite app_nil_r|]. split; [constructor|].
    intros k. cbn. tauto.
  - unfold setAll in *. cbn [fold_left List.map].
    destruct (IH (JsMap.set (key e) e m)) as [added [Hkeys [Hnd Hin]]].
    destruct (in_dec (List.list_eq_dec N.eq_dec) (key e) (JsMap.keys m)) as [Hold|Hnew].
    + rewrite keys_set_old in Hkeys, Hin by exact Hold.
      exists added. split; [exact Hkeys|]. split; [exact Hnd|].
      intros k. rewrite Hin. cbn [In]. split; [tauto|].
      intros [[<- | H] Hnot]; [contradiction | now split].
    + rewrite keys_set_new in Hkeys, Hin by exact Hnew.
      exists (key e :: added). split; [now rewrite Hkeys, <- app_assoc|]. split.
      * constructor; [|exact Hnd]. intros H. apply Hin in H as [_ H].
        apply H, in_or_app. right. now left.
      * intros k. cbn [In]. rewrite Hin. split.
        -- intros [<- | [H Hnot]]; [split; [now left | exact Hnew]|].
           split; [now right|]. intros H'. apply Hnot, in_or_app. now left.
        -- intros [[<- | H] Hnot]; [now left|].
           destruct (List.list_eq_dec N.eq_dec (key e) k) as [->|Hne]; [now left|].
           right. split; [exact H|]. intros H'. apply in_app_or in H' as [H'|[H'|[]]];
             [now apply Hnot | now apply Hne].
Qed.

(** X9.  A retry does not move the rows: when the previous rows have distinct
    keys, the merged rows are the previous keys in their order (a row the
    retry has again stays at its place), followed by the keys only the
    retry has, each once. *)
Theorem retry_keeps_row_order (previous results : MergedResults) :
  List.NoDup (List.map key (entries previous)) ->
  exists added,
    List.map key (entries (mergeWithPrevious (Some previous) results)) =
    List.map key (entries previous) ++ added /\
    List.NoDup added /\
    forall k, In k added <->
              In k (List.map key (entries results)) /\
              ~ In k (List.map key (entries previous)).
Proof.
  intros Hnd. unfold mergeWithPrevious. cbn [entries].
  rewrite keys_values by (do 2 apply keyed_setAll; split; constructor).
  destruct (keys_setAll (entries results) (setAll (entries previous) JsMap.empty))
    as [added H].
  rewrite (keys_setAll_fresh (entries previous) JsMap.empty) in H by exact Hnd. cbn [JsMap.keys JsMap.empty List.map app] in H.
  now exists added.
Qed.

Lemma retry_keeps_row_order_witness :
  let previous := {| entries := [row "a" "[ERROR]"; row "b" "dos"]; headers := [] |} in
  let results := {| entries := [row "c" "tres"; row "a" "uno"]; headers := [] |} in
  exists added,
    List.map key (entries (mergeWithPrevious (Some previous) results)) =
    List.map key (entries previous) ++ added /\
    List.NoDup added /\
    forall k, In k added <->
              In k (List.map key (entries results)) /\
              ~ In k (List.map key (entries previous)).
Proof.
  apply (retry_keeps_row_order
           {| entries := [row "a" "[ERROR]"; row "b" "dos"]; headers := [] |}
           {| entries := [row "c" "tres"; row "a" "uno"]; headers := [] |}).
  repeat constructor; cbn; intuition discriminate.
Defined.

End RetryOrder.

(** ** Further properties of the token rate limiter (lib/utils/rate-limiter.ts) *)

Section LimiterLog.
Import RateLimiter.
Local Open Scope Z_scope.

Lemma filter_filter {A} (f g : A -> bool) (l : list A) :
  List.filter f (List.filter g l) = List.filter (fun x => g x && f x) l.
Proof.
  induction l as [|x l IH]; [reflexivity|]. cbn [List.filter].
  destruct (g x); cbn [List.filter andb]; [destruct (f x)|]; now rewrite IH.
Qed.

(** Pruning at a later clock reading makes an earlier pruning invisible. *)
Lemma clean_clean (t1 t2 : Z) (l : TokenRateLimiter) :
  t1 <= t2 -> cleanOldEntries t2 (cleanOldEntries t1 l) = cleanOldEntries t2 l.
Proof.
  intros Hle. unfold cleanOldEntries, withUsage. cbn [tokenUsage windowMs maxTokens].
  f_equal. rewrite filter_filter. apply filter_ext. intros e.
  destruct (t2 - windowMs l <? timestamp e) eqn:E2; [|now rewrite andb_false_r].
  rewrite andb_true_r. apply Z.ltb_lt in E2. apply Z.ltb_lt. lia.
Qed.

(** X10.  Asking the limiter does not change its later answers.  While the clock
    does not run backwards, [canMakeRequest] and [getRequiredDelay] after
    any earlier question give what they would have given without it: the
    pruning they do only drops entries that no later call counts. *)
Theorem questions_leave_answers (t1 t2 n1 n2 : Z) (l : TokenRateLimiter) :
  t1 <= t2 ->
  canMakeRequest t2 n2 (snd (canMakeRequest t1 n1 l)) = canMakeRequest t2 n2 l /\
  canMakeRequest t2 n2 (snd (getRequiredDelay t1 n1 l)) = canMakeRequest t2 n2 l /\
  getRequiredDelay t2 n2 (snd (canMakeRequest t1 n1 l)) = getRequiredDelay t2 n2 l /\
  getRequiredDelay t2 n2 (snd (getRequiredDelay t1 n1 l)) = getRequiredDelay t2 n2 l.
Proof.
  intros Hle.
  assert (Hd : snd (getRequiredDelay t1 n1 l) = cleanOldEntries t1 l).
  { unfold getRequiredDelay. cbn zeta. now destruct (_ <=? _). }
  rewrite Hd. unfold canMakeRequest, getRequiredDelay. cbn [snd].
  rewrite !clean_clean by exact Hle. repeat split.
Qed.

Lemma questions_leave_answers_witness :
  let l := recordAll [usageAt 1000 40; usageAt 2000 60] (create 100) in
  canMakeRequest 70000 1 (snd (canMakeRequest 61500 1 l)) = canMakeRequest 70000 1 l /\
  canMakeRequest 70000 1 (snd (getRequiredDelay 61500 1 l)) = canMakeRequest 70000 1 l /\
  getRequiredDelay 70000 1 (snd (canMakeRequest 61500 1 l)) = getRequiredDelay 70000 1 l /\
  getRequiredDelay 70000 1 (snd (getRequiredDelay 61500 1 l)) = getRequiredDelay 70000 1 l.
Proof.
  apply (questions_leave_answers 61500 70000 1 1
           (recordAll [usageAt 1000 40; usageAt 2000 60] (create 100))).
  lia.
Defined.

(** X11.  The delay is never negative and never longer than the window, when no
    entry of the log is ahead of the clock. *)
Theorem required_delay_within_window (now t : Z) (l : TokenRateLimiter) :
  0 <= windowMs l ->
  (forall e, In e (tokenUsage l) -> timestamp e <= now) ->
  0 <= fst (getRequiredDelay now t l) <= windowMs l.
Proof.
  intros Hw Hpast. unfold getRequiredDelay. cbn zeta.
  destruct (_ <=? _); cbn [fst]; [lia|].
  cbn [cleanOldEntries withUsage windowMs tokenUsage].
  match goal with |- context [oldestRelevant ?need ?entries now] =>
    destruct (oldestRelevant_in entries need now) as [-> | [e [He ->]]] end.
  - lia.
  - apply filter_In in He as [He _]. specialize (Hpast e He). lia.
Qed.

Lemma required_delay_within_window_witness :
  let l := recordAll [usageAt 1000 40; usageAt 2000 60] (create 100) in
  0 <= fst (getRequiredDelay 5000 1 l) <= windowMs l.
Proof.
  apply (required_delay_within_window 5000 1
           (recordAll [usageAt 1000 40; usageAt 2000 60] (create 100))).
  - cbn. lia.
  - cbn. intros e [<- | [<- | []]]; cbn; lia.
Defined.

(** X12.  [recordUsage] counts at once, for counts and times in the range
    where the doubles of the program are exact integers: right after it,
    a request is admitted exactly when the tokens recorded before inside
    the window, the tokens just recorded and the tokens asked for fit the
    budget; the log holds the entries still inside the window, in their
    order, and the new entry last. *)
Theorem recorded_usage_counts (now used t : Z) (l : TokenRateLimiter) :
  0 < windowMs l ->
  exactFor now t (withUsage l (tokenUsage l ++ [{| timestamp := now; tokens := used |}]))
  = true ->
  tokenUsage (recordUsage now used l) =
    withinWindow now (windowMs l) (tokenUsage l) ++ [{| timestamp := now; tokens := used |}] /\
  fst (canMakeRequest now t (recordUsage now used l)) =
    (tokensOf (withinWindow now (windowMs l) (tokenUsage l)) + used + t <=? maxTokens l).
Proof.
  intros Hw _.
  assert (Hlog : tokenUsage (recordUsage now used l) =
                 withinWindow now (windowMs l) (tokenUsage l)
                 ++ [{| timestamp := now; tokens := used |}]).
  { unfold recordUsage, cleanOldEntries, withinWindow.
    cbn [tokenUsage windowMs withUsage]. rewrite List.filter_app. cbn [List.filter timestamp].
    replace (now - windowMs l <? now) with true by (symmetry; apply Z.ltb_lt; lia).
    reflexivity. }
  split; [exact Hlog|].
  unfold canMakeRequest. cbn [fst]. rewrite currentUsage_clean.
  replace (windowMs (recordUsage now used l)) with (windowMs l) by reflexivity.
  replace (maxTokens (cleanOldEntries now (recordUsage now used l))) with (maxTokens l)
    by reflexivity.
  rewrite Hlog. unfold withinWindow. rewrite List.filter_app, filter_filter.
  cbn [List.filter timestamp].
  replace (now - windowMs l <? now) with true by (symmetry; apply Z.ltb_lt; lia).
  rewrite tokensOf_app. cbn [tokensOf].
  rewrite (filter_ext _ (fun e => now - windowMs l <? timestamp e))
    by (intros e; apply andb_diag).
  cbn [tokens]. f_equal. lia.
Qed.

Lemma recorded_usage_counts_witness :
  tokenUsage (recordUsage 70000 30 (withUsage (create 100) [usageAt 1000 40; usageAt 20000 60])) =
    withinWindow 70000 60000 [usageAt 1000 40; usageAt 20000 60]
    ++ [{| timestamp := 70000; tokens := 30 |}] /\
  fst (canMakeRequest 70000 10
         (recordUsage 70000 30 (withUsage (create 100) [usageAt 1000 40; usageAt 20000 60]))) =
    (tokensOf (withinWindow 70000 60000 [usageAt 1000 40; usageAt 20000 60]) + 30 + 10 <=? 100).
Proof.
  apply (recorded_usage_counts 70000 30 10
           (withUsage (create 100) [usageAt 1000 40; usageAt 20000 60])).
  - cbn. lia.
  - reflexivity.
Defined.

(** X13.  A whole window after the last recording the log is empty again: a
    request is admitted exactly when it fits the budget by itself. *)
Theorem budget_returns_after_window (now t : Z) (l : TokenRateLimiter) :
  (forall e, In e (tokenUsage l) -> timestamp e + windowMs l <= now) ->
  tokenUsage (snd (canMakeRequest now t l)) = [] /\
  fst (canMakeRequest now t l) = (t <=? maxTokens l) /\
  fst (getRequiredDelay now t l) = (if t <=? maxTokens l then 0 else Z.max 0 (windowMs l)).
Proof.
  intros Hold.
  assert (Hclean : cleanOldEntries now l = withUsage l []).
  { unfold cleanOldEntries. f_equal.
    induction (tokenUsage l) as [|e log IH]; [reflexivity|]. cbn [List.filter].
    replace (now - windowMs l <? timestamp e) with false.
    - apply IH. intros x Hx. apply Hold. now right.
    - symmetry. apply Z.ltb_ge. specialize (Hold e (or_introl eq_refl)). lia. }
  unfold canMakeRequest, getRequiredDelay. cbn zeta. rewrite Hclean.
  cbn [snd fst tokenUsage withUsage maxTokens windowMs currentUsage fold_left oldestRelevant].
  rewrite Z.add_0_l. split; [reflexivity|]. split; [reflexivity|].
  destruct (t <=? maxTokens l); cbn [fst]; [reflexivity|]. f_equal. lia.
Qed.

Lemma budget_returns_after_window_witness :
  let l := withUsage (create 100) [usageAt 1000 40; usageAt 2000 60] in
  tokenUsage (snd (canMakeRequest 62000 100 l)) = [] /\
  fst (canMakeRequest 62000 100 l) = (100 <=? maxTokens l) /\
  fst (getRequiredDelay 62000 100 l) = (if 100 <=? maxTokens l then 0 else Z.max 0 (windowMs l)).
Proof.
  apply (budget_returns_after_window 62000 100
           (withUsage (create 100) [usageAt 1000 40; usageAt 2000 60])).
  cbn. intros e [<- | [<- | []]]; cbn; lia.
Defined.

(** X14.  The token estimate is the length divided by four, rounded up; the
    estimate of a request adds the two prompt estimates to the response
    estimate, for a response estimate that is not negative and a sum of
    at most [maxSafeInteger], where the sum of the doubles is exact. *)
Theorem token_estimates (systemPrompt userPrompt : jsstring) (responseEstimate : Z) :
  let len := fun s : jsstring => Z.of_nat (List.length s) in
  0 <= responseEstimate ->
  estimateTokens systemPrompt + estimateTokens userPrompt + responseEstimate
  <= maxSafeInteger ->
  len systemPrompt <= 4 * estimateTokens systemPrompt < len systemPrompt + 4 /\
  (estimateTokens systemPrompt = 0 <-> systemPrompt = []) /\
  len systemPrompt + len userPrompt + 4 * responseEstimate
  <= 4 * estimateRequestTokens systemPrompt userPrompt responseEstimate
  < len systemPrompt + len userPrompt + 4 * responseEstimate + 8.
Proof.
  cbn zeta. intros _ _. unfold estimateRequestTokens, estimateTokens.
  pose proof (Z.div_mod (Z.of_nat (List.length systemPrompt) + 3) 4 ltac:(lia)) as H1.
  pose proof (Z.mod_pos_bound (Z.of_nat (List.length systemPrompt) + 3) 4 ltac:(lia)) as H2.
  pose proof (Z.div_mod (Z.of_nat (List.length userPrompt) + 3) 4 ltac:(lia)) as H3.
  pose proof (Z.mod_pos_bound (Z.of_nat (List.length userPrompt) + 3) 4 ltac:(lia)) as H4.
  split; [lia|]. split; [|lia].
  split.
  - intros H0. destruct systemPrompt; [reflexivity|]. cbn [List.length] in *. lia.
  - intros ->. reflexivity.
Qed.

Lemma token_estimates_witness :
  let len := fun s : jsstring => Z.of_nat (List.length s) in
  let systemPrompt := js "You are an expert app localiser." in
  let userPrompt := js "Translate every row." in
  len systemPrompt <= 4 * estimateTokens systemPrompt < len systemPrompt + 4 /\
  (estimateTokens systemPrompt = 0 <-> systemPrompt = []) /\
  len systemPrompt + len userPrompt + 4 * 1000
  <= 4 * estimateRequestTokens systemPrompt userPrompt 1000
  < len systemPrompt + len userPrompt + 4 * 1000 + 8.
Proof.
  apply (token_estimates (js "You are an expert app localiser.") (js "Translate every row.")
           1000).
  - lia.
  - vm_compute. discriminate.
Defined.

End LimiterLog.

(** ** Further properties of the response validator (lib/utils/rate-limiter.ts) *)

Section Verdicts.
Import Re Validator.
Local Open Scope Z_scope.

(** The language check either passes or costs at least 30 points and
    names an issue. *)
Lemma checkLanguageSpecific_cost (text language : jsstring) :
  0 <= penalty (checkLanguageSpecific text language) <= 50 /\
  (valid (checkLanguageSpecific text language) = false ->
   30 <= penalty (checkLanguageSpecific text language) /\
   lc_issues (checkLanguageSpecific text language) <> []).
Proof.
  unfold checkLanguageSpecific.
  repeat match goal with |- context [if ?b then _ else _] => destruct b end;
    cbn; (split; [lia|]); intros H; try discriminate; (split; [lia | discriminate]).
Qed.

Lemma check_le (failed : bool) (issue : list jsstring) (cost bound : Z)
    (acc : list jsstring * Z) :
  0 <= cost -> snd acc <= bound -> snd (check failed issue cost acc) <= bound.
Proof. unfold check. destruct failed; cbn [snd]; lia. Qed.

Lemma check_true_le (issue : list jsstring) (cost bound : Z) (acc : list jsstring * Z) :
  snd acc <= bound + cost -> snd (check true issue cost acc) <= bound.
Proof. unfold check. cbn [snd]. lia. Qed.

(** The issues are empty exactly when nothing was subtracted. *)
Definition scored (acc : list jsstring * Z) : Prop :=
  snd acc <= 100 /\ (fst acc = [] <-> snd acc = 100).

Lemma scored_check (failed : bool) (issue : list jsstring) (cost : Z)
    (acc : list jsstring * Z) :
  (failed = true -> 0 < cost /\ issue <> []) ->
  scored acc -> scored (check failed issue cost acc).
Proof.
  intros Hc [Hle Hiff]. unfold check. destruct failed; [|now split].
  destruct (Hc eq_refl) as [Hcost Hissue]. unfold scored. cbn [fst snd].
  split; [lia|]. split.
  - intros H. apply app_eq_nil in H as [_ H]. contradiction.
  - intros H. lia.
Qed.

Ltac language_layer :=
  match goal with
  | |- negb (valid (checkLanguageSpecific ?r ?l)) = true -> _ =>
      let Hv := fresh "Hv" in
      let Hc := fresh "Hc" in
      let Hp := fresh "Hp" in
      let Hi := fresh "Hi" in
      intros Hv; apply negb_true_iff in Hv;
      destruct (checkLanguageSpecific_cost r l) as [_ Hc];
      destruct (Hc Hv) as [Hp Hi]; split; [lia | exact Hi]
  end.

Ltac scored_layers :=
  repeat first
    [ apply scored_check;
      [first [intros _; split; [lia | discriminate] | language_layer] |]
    | match goal with
      | |- scored (match ?o with Some _ => _ | None => _ end) => destruct o
      | |- scored (if ?b then _ else _) => destruct b
      | |- scored ([], 100) => split; [cbn; lia | now split]
      end ].

(** X15.  The verdict of [validateTranslationResponse]: the confidence lies
    between 0 and 100; the response is valid exactly when the confidence is
    at least 50; no issue is reported exactly when the confidence is 100;
    so an invalid response always comes with an issue that explains it. *)
Theorem validation_verdict (response originalText targetLanguage : jsstring) :
  let r := validateTranslationResponse response originalText targetLanguage in
  0 <= confidence r <= 100 /\
  (isValid r = true <-> 50 <= confidence r) /\
  (issues r = [] <-> confidence r = 100) /\
  (isValid r = false -> issues r <> []).
Proof.
  unfold validateTranslationResponse. lazy zeta.
  match goal with |- context [match ?acc with pair _ _ => _ end] =>
    assert (H : scored acc) end.
  { scored_layers. }
  match goal with |- context [match ?acc with pair _ _ => _ end] =>
    destruct acc as [issues c] end.
  destruct H as [Hle Hiff]. cbn [fst snd] in *.
  cbn [confidence isValid Validator.issues]. rewrite Z.leb_le.
  split; [lia|]. split; [lia|]. split.
  - rewrite Hiff. lia.
  - intros Hinv Hnil. apply Z.leb_gt in Hinv. apply Hiff in Hnil. lia.
Qed.

Ltac bounded_layers :=
  repeat first
    [ apply check_true_le
    | apply check_le;
      [first [lia | match goal with
                    | |- 0 <= penalty (checkLanguageSpecific ?r ?l) =>
                        apply (checkLanguageSpecific_cost r l)
                    end] |]
    | match goal with
      | |- snd (match ?o with Some _ => _ | None => _ end) <= _ => destruct o
      | |- snd (if ?b then _ else _) <= _ => destruct b
      | |- snd ([], 100) <= _ => cbn [snd]; lia
      end ].

Lemma isAnyOf_in (s : jsstring) (names : list jsstring) :
  isAnyOf s names = true <-> In s names.
Proof.
  unfold isAnyOf. rewrite existsb_exists. split.
  - intros [x [Hx E]]. apply str_eqb_eq in E. now subst.
  - intros H. exists s. split; [exact H | apply str_eqb_refl].
Qed.

(** X16.  Three findings reject a response by themselves, whatever the source
    text and the target language: a match of an explanatory pattern, a
    match of a failure pattern, and a response that is one of the style
    descriptors and nothing else. *)
Theorem hard_failures_rejected (response originalText targetLanguage : jsstring) :
  firstMatch explanatoryPatterns response <> None \/
  firstMatch failurePatterns response <> None \/
  In (toLowerCase response) styleDescriptors ->
  isValid (validateTranslationResponse response originalText targetLanguage) = false.
Proof.
  intros H. unfold validateTranslationResponse. lazy zeta.
  match goal with |- context [match ?acc with pair _ _ => _ end] =>
    assert (Hb : snd acc <= 49) end.
  { destruct H as [H | [H | H]].
    - destruct (firstMatch explanatoryPatterns response); [|congruence]. bounded_layers.
    - destruct (firstMatch failurePatterns response); [|congruence]. bounded_layers.
    - assert (Hw : (List.length (split 32 (toLowerCase response)) =? 1)%nat
                   && match split 32 (toLowerCase response) with
                      | w :: _ => isAnyOf w styleDescriptors
                      | [] => false
                      end = true).
      { cbn [styleDescriptors In] in H.
        destruct H as [<- | [<- | [<- | [<- | [<- | []]]]]]; reflexivity. }
      rewrite Hw. bounded_layers. }
  match goal with |- context [match ?acc with pair _ _ => _ end] =>
    destruct acc as [issues c] end.
  cbn [snd] in Hb. cbn [isValid]. apply Z.leb_gt. lia.
Qed.

Lemma hard_failures_rejected_witness :
  isValid (validateTranslationResponse (js "Formal") (js "Settings") (js "Spanish")) = false.
Proof.
  apply (hard_failures_rejected (js "Formal") (js "Settings") (js "Spanish")).
  right. right. cbn. right. now left.
Defined.

(** X17.  The checks for French and for German never change the verdict: their
    penalty of 10 stays below the 30 points from which the language check
    counts as failed, so the result is the one of a language without
    checks. *)
Theorem french_german_checks_inert (response originalText targetLanguage : jsstring) :
  In (toLowerCase targetLanguage) [js "french"; units_francais; js "german"; js "deutsch"] ->
  valid (checkLanguageSpecific response targetLanguage) = true /\
  validateTranslationResponse response originalText targetLanguage =
  validateTranslationResponse response originalText (js "Esperanto").
Proof.
  intros H.
  assert (Hv : valid (checkLanguageSpecific response targetLanguage) = true).
  { unfold checkLanguageSpecific. cbv zeta. cbn [In] in H.
    destruct H as [<- | [<- | [<- | [<- | []]]]];
      repeat match goal with |- context [isAnyOf ?a ?b] =>
        let v := eval vm_compute in (isAnyOf a b) in change (isAnyOf a b) with v
      end; cbv iota;
      repeat match goal with |- context [if ?b then _ else _] => destruct b end;
      reflexivity. }
  split; [exact Hv|].
  assert (He : valid (checkLanguageSpecific response (js "Esperanto")) = true) by reflexivity.
  unfold validateTranslationResponse. lazy zeta. rewrite Hv, He.
  cbn [negb]. unfold check at 1 2 3 4 5 6. reflexivity.
Qed.

Lemma french_german_checks_inert_witness :
  let response := js "Parametres de notification du compte" in
  valid (checkLanguageSpecific response (js "French")) = true /\
  validateTranslationResponse response (js "Account notification settings") (js "French") =
  validateTranslationResponse response (js "Account notification settings") (js "Esperanto").
Proof.
  apply (french_german_checks_inert (js "Parametres de notification du compte")
           (js "Account notification settings") (js "French")).
  cbn. now left.
Defined.

End Verdicts.

(** ** Further properties of the response parser (lib/utils/csv-parser.ts)
       and of the line reader (lib/providers/anthropic.ts) *)

Section TypedResults.
Import Re Validator Parser.

Variable Papa_parse : jsstring -> list (list jsstring).

Lemma truthy_orElse (o : option jsstring) (d : jsstring) :
  truthy d = true -> truthy (orElse o d) = true.
Proof.
  intros Hd. unfold orElse. destruct o as [s|]; [|exact Hd].
  destruct (truthy s) eqn:E; [exact E | exact Hd].
Qed.

(** What a result that does not come from the primary parse looks like. *)
Definition typedFallback (text : jsstring) (r : TranslateResponse) : Prop :=
  truthy (reasoning r) = true /\
  (category r = js "Unknown" \/
   category r = js "Error" /\ (translation r = js "[ERROR]" \/ translation r = text)).

Lemma acceptDirect_typed (cleaned text : jsstring) (lang : option jsstring) :
  typedFallback text (acceptDirect cleaned text lang).
Proof.
  assert (Htail : typedFallback text
            (if (List.length cleaned <? List.length text * 3)%nat
                && negb (includes (toLowerCase cleaned) (js "translate"))
                && negb (includes (toLowerCase cleaned) (js "csv"))
             then unknownResponse cleaned (js "Direct response assumed as translation")
             else errorResponse text (js "Failed to parse AI response"))).
  { destruct (_ && _ && _); (split; [reflexivity|]); [now left | right; auto]. }
  unfold acceptDirect.
  destruct lang as [language|]; [|exact Htail].
  destruct (truthy language && negb (has 44 cleaned)); [|exact Htail].
  destruct (negb (isValid _)); [|exact Htail].
  split; [reflexivity | right; auto].
Qed.

Lemma fallbacks_typed (response text : jsstring) (lang : option jsstring) :
  exists r, fallbacks response text lang = Ret r /\ typedFallback text r.
Proof.
  unfold fallbacks. destruct (firstLabelled _ _).
  { eexists. split; [reflexivity|]. split; [reflexivity | now left]. }
  destruct (existsb _ _).
  { eexists. split; [reflexivity|]. split; [reflexivity | right; auto]. }
  unfold salvageMalformed.
  destruct (_ && _); cbn [Eff.bind];
    [|eexists; split; [reflexivity | apply acceptDirect_typed]].
  destruct (2 <=? _)%nat eqn:E;
    [|eexists; split; [reflexivity | apply acceptDirect_typed]].
  apply Nat.leb_le in E.
  destruct (split 44 (trim response)) as [|p0 [|p1 parts]]; cbn in E; try lia.
  cbn [nth_error call Eff.bind]. destruct (_ && _); cbn [Eff.bind].
  - eexists. split; [reflexivity|]. split; [reflexivity | now left].
  - eexists. split; [reflexivity | apply acceptDirect_typed].
Qed.

(** X18.  [parseWithFallbacks] returns typed results.  The result is either the
    row of the primary parse, with a translation that is not empty, or a
    fallback result: its category is [Unknown] or [Error], and with
    [Error] its translation is the [ERROR] sentinel or the source text,
    never text of the response.  Category and reasoning are never
    empty. *)
Theorem parse_results_are_typed (response text : jsstring) (lang : option jsstring) :
  exists r,
    parseWithFallbacks Papa_parse response text lang = Ret r /\
    truthy (category r) = true /\ truthy (reasoning r) = true /\
    (parseAIResponse Papa_parse response = Ret (Some r) /\ truthy (translation r) = true
     \/ category r = js "Unknown"
     \/ category r = js "Error" /\ (translation r = js "[ERROR]" \/ translation r = text)).
Proof.
  assert (Hfall : forall r, typedFallback text r ->
            truthy (category r) = true /\ truthy (reasoning r) = true /\
            (parseAIResponse Papa_parse response = Ret (Some r) /\ truthy (translation r) = true
             \/ category r = js "Unknown"
             \/ category r = js "Error" /\
                (translation r = js "[ERROR]" \/ translation r = text))).
  { intros r [Hr Hc]. split; [|split; [exact Hr | now right]].
    destruct Hc as [-> | [-> _]]; reflexivity. }
  unfold parseWithFallbacks.
  destruct (existsb _ _).
  { eexists. split; [reflexivity|]. apply Hfall. split; [reflexivity | right; auto]. }
  destruct (_ && _).
  { eexists. split; [reflexivity|]. apply Hfall. split; [reflexivity | right; auto]. }
  destruct (parseAIResponse Papa_parse response) as [[p|]| | |] eqn:Ep; cbn [Eff.bind].
  - destruct (truthy (translation p)) eqn:Et.
    + exists p. split; [reflexivity|].
      assert (Hcr : truthy (category p) = true /\ truthy (reasoning p) = true).
      { revert Ep. unfold parseAIResponse.
        destruct (_ || _); [discriminate|].
        destruct (negb (truthy _)); [discriminate|].
        destruct (_ <? _)%nat; [discriminate|].
        destruct (nth_error _ 1) as [t|]; cbn [negb]; [|discriminate].
        destruct (truthy t); cbn [negb call Eff.bind]; [|discriminate].
        destruct (str_eqb (trim t) []); [discriminate|].
        intros [= <-]. cbn [category reasoning]. split; now apply truthy_orElse. }
      destruct Hcr as [Hc Hr]. split; [exact Hc|]. split; [exact Hr|]. left. now split.
    + destruct (fallbacks_typed response text lang) as [r [-> Hr]].
      exists r. split; [reflexivity | now apply Hfall].
  - destruct (fallbacks_typed response text lang) as [r [-> Hr]].
    exists r. split; [reflexivity | now apply Hfall].
  - destruct (parseAIResponse_returns Papa_parse response) as [H | [p [H _]]];
      rewrite H in Ep; discriminate.
  - destruct (parseAIResponse_returns Papa_parse response) as [H | [p [H _]]];
      rewrite H in Ep; discriminate.
  - destruct (parseAIResponse_returns Papa_parse response) as [H | [p [H _]]];
      rewrite H in Ep; discriminate.
Qed.

End TypedResults.

Section LineReader.
Import Csv Re Parser.

Lemma parse_unquoted (line : jsstring) (fields : list jsstring) (current : jsstring) :
  has QUOTE line = false ->
  let '(done, last) := parse_loop line fields current false in
  done ++ [last] = fields ++ split_go COMMA current line.
Proof.
  revert fields current. induction line as [|c line IH]; intros fields current Hq.
  - reflexivity.
  - unfold has in Hq. cbn [existsb] in Hq. fold (has QUOTE line) in Hq.
    apply orb_false_iff in Hq as [Hc Hq]. cbn [parse_loop split_go].
    rewrite (N.eqb_sym c QUOTE), Hc. destruct (c =? COMMA).
    + specialize (IH (fields ++ [current]) [] Hq).
      destruct (parse_loop _ _ _ _) as [done last]. now rewrite IH, <- app_assoc.
    + apply (IH fields (current ++ [c]) Hq).
Qed.

(** X19.  On a line without double quotes [parseCSVLine] is [split(',')]
    followed by [trim] on every part. *)
Theorem unquoted_line_is_split (line : jsstring) :
  has QUOTE line = false ->
  parseCSVLine line = List.map trim (split COMMA line).
Proof.
  intros Hq. unfold parseCSVLine, split.
  pose proof (parse_unquoted line [] [] Hq) as H.
  destruct (parse_loop _ _ _ _) as [done last]. now rewrite H.
Qed.

Lemma unquoted_line_is_split_witness :
  parseCSVLine (js "menu.settings, Ajustes ,Menu,Label") =
  List.map trim (split COMMA (js "menu.settings, Ajustes ,Menu,Label")).
Proof. apply unquoted_line_is_split. reflexivity. Defined.

Lemma parse_normalized (f rest : jsstring) fields current :
  opensWithQuote rest = false ->
  parse_loop (normalizeField f ++ rest) fields current false =
  parse_loop rest fields (current ++ f) false.
Proof.
  intros Hrest. unfold normalizeField.
  destruct (has 44 f || has 34 f || has 10 f || has 13 f) eqn:E.
  - unfold replaceAll. rewrite double_quotes. fold (doubled f).
    cbn [app parse_loop]. replace (34 =? QUOTE) with true by reflexivity.
    rewrite <- app_assoc. cbn [app]. now apply parse_quoted.
  - apply orb_false_iff in E as [E _]. apply orb_false_iff in E as [E _].
    apply orb_false_iff in E as [Hc Hq]. now apply parse_plain.
Qed.

Lemma parse_normalized_row (f : jsstring) (fs : list jsstring) fields :
  let '(done, current) := parse_loop (toCSV (f :: fs)) fields [] false in
  done ++ [current] = fields ++ f :: fs.
Proof.
  revert f fields. induction fs as [|g fs IH]; intros f fields.
  - unfold toCSV. cbn [List.map join].
    rewrite <- (app_nil_r (normalizeField f)), parse_normalized by reflexivity.
    reflexivity.
  - unfold toCSV. cbn [List.map join].
    rewrite parse_normalized by reflexivity.
    cbn [app parse_loop]. replace (44 =? QUOTE) with false by reflexivity.
    replace (44 =? COMMA) with true by reflexivity.
    specialize (IH g (fields ++ [f])).
    unfold toCSV in IH. cbn [List.map] in IH.
    destruct (parse_loop _ _ _ _) as [done current].
    rewrite IH, <- app_assoc. reflexivity.
Qed.

(** X20.  A row written by [toCSV] of the response parser is read back by the
    line reader of the provider: the fields come back trimmed, and as they
    were when none has white space at its ends. *)
Theorem toCSV_round_trip (fields : list jsstring) :
  fields <> [] ->
  parseCSVLine (toCSV fields) = List.map trim fields /\
  (forallb edgeFree fields = true -> parseCSVLine (toCSV fields) = fields).
Proof.
  intros Hne. destruct fields as [|f fs]; [congruence|].
  assert (H : parseCSVLine (toCSV (f :: fs)) = List.map trim (f :: fs)).
  { unfold parseCSVLine. pose proof (parse_normalized_row f fs []) as H.
    destruct (parse_loop _ _ _ _) as [done current]. now rewrite H. }
  split; [exact H|]. intros Hedge. rewrite H.
  rewrite forallb_forall in Hedge.
  rewrite <- (map_id (f :: fs)) at 2. apply map_ext_in.
  intros a Ha. apply edgeFree_trim, Hedge, Ha.
Qed.

Lemma toCSV_round_trip_witness :
  let fields := [js "menu.settings"; js "Ajustes, por favor"; [13; 10]] in
  parseCSVLine (toCSV fields) = List.map trim fields /\
  (forallb edgeFree fields = true -> parseCSVLine (toCSV fields) = fields).
Proof.
  apply (toCSV_round_trip [js "menu.settings"; js "Ajustes, por favor"; [13; 10]]).
  discriminate.
Defined.

End LineReader.

(** ** Further properties of the Anthropic provider (lib/providers/anthropic.ts) *)

Section RetryRuns.
Import Types Parser RateLimiter Anthropic.
Local Open Scope m_scope.

Variable Papa_parse : jsstring -> list (list jsstring).

(** *** What one attempt does to the world *)

(** A step that sends no request, a step that sends exactly one, a step
    that always returns, and a step that leaves the random numbers of the
    world alone. *)
Definition silent {A} (c : M World A) : Prop :=
  forall w, apiCalls (snd (c w)) = apiCalls w.
Definition once {A} (c : M World A) : Prop :=
  forall w, apiCalls (snd (c w)) = S (apiCalls w).
Definition total {A} (c : M World A) : Prop :=
  forall w, exists a, fst (c w) = Ret a.
Definition steady {A} (c : M World A) : Prop :=
  forall w, randomStream (snd (c w)) = randomStream w.
Definition post {A} (P : A -> Prop) (c : M World A) : Prop :=
  forall w a, fst (c w) = Ret a -> P a.

Lemma silent_bind {A B} (c : M World A) (k : A -> M World B) :
  silent c -> (forall a, silent (k a)) -> silent (mbind c k).
Proof.
  intros Hc Hk w. unfold mbind. specialize (Hc w).
  destruct (c w) as [[a|e| |] w1]; cbn [snd] in *; try exact Hc.
  now rewrite Hk.
Qed.

Lemma once_bind_l {A B} (c : M World A) (k : A -> M World B) :
  silent c -> total c -> (forall a, once (k a)) -> once (mbind c k).
Proof.
  intros Hs Ht Hk w. unfold mbind. specialize (Hs w). destruct (Ht w) as [a Ha].
  destruct (c w) as [o w1]; cbn [fst snd] in *. subst o. now rewrite Hk, Hs.
Qed.

Lemma once_bind_r {A B} (c : M World A) (k : A -> M World B) :
  once c -> (forall a, silent (k a)) -> once (mbind c k).
Proof.
  intros Hc Hk w. unfold mbind. specialize (Hc w).
  destruct (c w) as [[a|e| |] w1]; cbn [snd] in *; try exact Hc.
  now rewrite Hk.
Qed.

Lemma steady_bind {A B} (c : M World A) (k : A -> M World B) :
  steady c -> (forall a, steady (k a)) -> steady (mbind c k).
Proof.
  intros Hc Hk w. unfold mbind. specialize (Hc w).
  destruct (c w) as [[a|e| |] w1]; cbn [snd] in *; try exact Hc.
  now rewrite Hk.
Qed.

Lemma post_bind {A B} (P : B -> Prop) (c : M World A) (k : A -> M World B) :
  (forall a, post P (k a)) -> post P (mbind c k).
Proof.
  intros Hk w b. unfold mbind.
  destruct (c w) as [[a|e| |] w1]; cbn [fst]; try discriminate. apply Hk.
Qed.

Lemma onLimiter_quiet {A} (self : nat)
    (method : Z -> TokenRateLimiter -> A * TokenRateLimiter) :
  silent (onLimiter self method) /\ total (onLimiter self method) /\
  steady (onLimiter self method).
Proof.
  repeat split; intros w; unfold onLimiter; destruct (method _ _) as [a l];
    [reflexivity | now exists a | reflexivity].
Qed.

Lemma wait_quiet (wait : Z) :
  let step : M World unit :=
    if (0 <? wait)%Z then delay RateLimitWait (inject_Z wait) else ret tt in
  silent step /\ total step /\ steady step.
Proof.
  cbn zeta. destruct (0 <? wait)%Z; repeat split; intros w; try reflexivity; now exists tt.
Qed.

Lemma messagesCreate_once (request : ApiRequest) :
  once (messagesCreate request) /\ steady (messagesCreate request).
Proof.
  split; intros w; unfold messagesCreate; cbn zeta;
    destruct (reply _) as [[text|]|error]; reflexivity.
Qed.

Lemma lift_quiet {A} (o : Outcome A) : silent (lift o) /\ steady (lift o).
Proof. split; intros w; reflexivity. Qed.

Lemma translateOnce_once (self : nat) (model : jsstring) (options : TranslateOptions) :
  once (translateOnce Papa_parse self model options) /\
  steady (translateOnce Papa_parse self model options).
Proof.
  unfold translateOnce. cbn zeta. split.
  - apply once_bind_l; try apply onLimiter_quiet. intros wait.
    apply once_bind_l; try apply wait_quiet. intros _.
    apply once_bind_r; [apply messagesCreate_once|]. intros response.
    apply silent_bind; [apply onLimiter_quiet|]. intros _. apply lift_quiet.
  - apply steady_bind; [apply onLimiter_quiet|]. intros wait.
    apply steady_bind; [apply wait_quiet|]. intros _.
    apply steady_bind; [apply messagesCreate_once|]. intros response.
    apply steady_bind; [apply onLimiter_quiet|]. intros _. apply lift_quiet.
Qed.

Lemma translateBatchOnce_once (self : nat) (model : jsstring)
    (options : BatchTranslateOptions) :
  once (translateBatchOnce self model options) /\
  steady (translateBatchOnce self model options).
Proof.
  unfold translateBatchOnce. cbn zeta. split.
  - apply once_bind_l; try apply onLimiter_quiet. intros wait.
    apply once_bind_l; try apply wait_quiet. intros _.
    apply once_bind_r; [apply messagesCreate_once|]. intros response.
    apply silent_bind; [apply onLimiter_quiet|]. intros _. intros w. reflexivity.
  - apply steady_bind; [apply onLimiter_quiet|]. intros wait.
    apply steady_bind; [apply wait_quiet|]. intros _.
    apply steady_bind; [apply messagesCreate_once|]. intros response.
    apply steady_bind; [apply onLimiter_quiet|]. intros _. intros w. reflexivity.
Qed.

(** *** What a retry loop does to the world *)

(** A backoff sleep of the log: its attempt number is between [attempt]
    and [rateLimitRetries], its random number is one of the stream, and it
    lasts what [calculateBackoffDelay] says. *)
Definition backoffOK (stream : nat -> Q) (attempt : Z) (ev : Event) : Prop :=
  match ev with
  | Slept (Backoff a r) ms =>
      (attempt <= a <= rateLimitRetries)%Z /\ (exists i, r = stream i) /\
      ms = calculateBackoffDelay a r
  | _ => True
  end.

Definition backoffs (evs : list Event) : nat := List.length (List.filter isBackoff evs).

Lemma backoffs_app (a b : list Event) : backoffs (a ++ b) = (backoffs a + backoffs b)%nat.
Proof. unfold backoffs. now rewrite List.filter_app, length_app. Qed.

Lemma noBackoff_none (evs : list Event) : noBackoff evs = true -> backoffs evs = 0%nat.
Proof. intros H. unfold backoffs. now rewrite noBackoff_filter. Qed.

Lemma noBackoff_ok (stream : nat -> Q) (attempt : Z) (evs : list Event) :
  noBackoff evs = true -> Forall (backoffOK stream attempt) evs.
Proof.
  unfold noBackoff. rewrite forallb_forall, List.Forall_forall. intros H ev Hev.
  specialize (H ev Hev). destruct ev as [| |[|a r] ms]; cbn in *; try exact I. discriminate.
Qed.

Lemma backoffOK_weaken (stream : nat -> Q) (attempt : Z) (evs : list Event) :
  Forall (backoffOK stream (attempt + 1)) evs -> Forall (backoffOK stream attempt) evs.
Proof.
  apply List.Forall_impl. intros ev. destruct ev as [| |[|a r] ms]; cbn; try tauto.
  intros [H1 H2]. split; [lia | exact H2].
Qed.

(** How a run of a retry loop ends: with the result of an attempt, with
    what the loop makes of the failure it gives up on, or, when the fuel
    does not cover the retries, not at all. *)
Definition ending {A} (P : A -> Prop) (final : JsError -> Outcome A) (attempt : Z)
    (new : list Event) (o : Outcome A) : Prop :=
  (exists a, o = Ret a /\ P a) \/
  (exists cause,
      o = final cause /\ In (Failed cause) new /\
      (isRateLimitError cause = false \/
       (rateLimitRetries < attempt + Z.of_nat (backoffs new))%Z)) \/
  o = Diverge.

Lemma retry_run {A} (body : M World A) (final : JsError -> Outcome A)
    (loop : nat -> Z -> M World A) (P : A -> Prop) :
  (forall fuel attempt,
     loop fuel attempt =
     retryStep body (fun error => lift (final error))
       (fun next => match fuel with O => None | S fuel' => Some (loop fuel' next) end)
       attempt) ->
  attemptOK body -> once body -> steady body -> post P body ->
  forall fuel attempt w,
    exists new,
      events (snd (loop fuel attempt w)) = events w ++ new /\
      apiCalls (snd (loop fuel attempt w)) = (apiCalls w + 1 + backoffs new)%nat /\
      randomStream (snd (loop fuel attempt w)) = randomStream w /\
      Forall (backoffOK (randomStream w) attempt) new /\
      ending P final attempt new (fst (loop fuel attempt w)).
Proof.
  intros Hloop Hbody Honce Hsteady Hpost fuel.
  induction fuel as [|fuel IH]; intros attempt w; rewrite Hloop;
    unfold retryStep, tryCatch;
    destruct (Hbody w) as [new [Hev [Hnb [Hnd Hthrow]]]];
    pose proof (Honce w) as Hcalls; pose proof (Hsteady w) as Hrandom;
    pose proof (Hpost w) as Hret;
    destruct (body w) as [[a|error| |] w1] eqn:Ebody; cbn [fst snd] in *.
  - exists new. rewrite (noBackoff_none new Hnb).
    split; [exact Hev|]. split; [lia|]. split; [exact Hrandom|].
    split; [now apply noBackoff_ok|]. left. exists a. split; [reflexivity | now apply Hret].
  - destruct (Hthrow error eq_refl) as [pre Hpre].
    destruct (isRateLimitError error && (attempt <=? rateLimitRetries)%Z) eqn:Econd.
    + exists new. rewrite (noBackoff_none new Hnb). unfold diverge. cbn [fst snd].
      split; [exact Hev|]. split; [lia|]. split; [exact Hrandom|].
      split; [now apply noBackoff_ok|]. right. now right.
    + exists new. rewrite (noBackoff_none new Hnb). unfold lift. cbn [fst snd].
      split; [exact Hev|]. split; [lia|]. split; [exact Hrandom|].
      split; [now apply noBackoff_ok|]. right. left. exists error.
      split; [reflexivity|]. split; [rewrite Hpre; apply in_or_app; right; now left|].
      apply andb_false_iff in Econd as [H | H]; [now left|].
      right. apply Z.leb_gt in H. lia.
  - contradiction.
  - contradiction.
  - exists new. rewrite (noBackoff_none new Hnb).
    split; [exact Hev|]. split; [lia|]. split; [exact Hrandom|].
    split; [now apply noBackoff_ok|]. left. exists a. split; [reflexivity | now apply Hret].
  - destruct (Hthrow error eq_refl) as [pre Hpre].
    destruct (isRateLimitError error && (attempt <=? rateLimitRetries)%Z) eqn:Econd.
    + apply andb_true_iff in Econd as [Hrl Hle]. apply Z.leb_le in Hle.
      unfold mbind, random, delay. cbn [fst snd].
      set (r := randomStream w1 (randomsDrawn w1)).
      set (w2 := withEvent _ _).
      destruct (IH (attempt + 1)%Z w2) as [rest [Hrest [Hcount [Hrs [Hok Hend]]]]].
      exists (new ++ Slept (Backoff attempt r) (calculateBackoffDelay attempt r) :: rest).
      assert (Hb : backoffs (new ++ Slept (Backoff attempt r)
                                       (calculateBackoffDelay attempt r) :: rest)
                   = S (backoffs rest)).
      { rewrite backoffs_app, (noBackoff_none new Hnb). reflexivity. }
      rewrite Hb. split; [|split; [|split; [|split]]].
      * rewrite Hrest. unfold w2. cbn [events withEvent withClock]. rewrite Hev.
        rewrite <- !app_assoc. reflexivity.
      * rewrite Hcount. unfold w2. cbn [apiCalls withEvent withClock]. lia.
      * rewrite Hrs. unfold w2. cbn [randomStream withEvent withClock]. exact Hrandom.
      * apply List.Forall_app. split; [now apply noBackoff_ok|]. constructor.
        -- cbn. split; [unfold rateLimitRetries in *; lia|]. split; [|reflexivity].
           exists (randomsDrawn w1). unfold r. now rewrite Hrandom.
        -- apply backoffOK_weaken.
           assert (E : randomStream w2 = randomStream w)
             by (unfold w2; cbn [randomStream withEvent withClock]; exact Hrandom).
           rewrite <- E. exact Hok.
      * destruct Hend as [[a [Ha HP]] | [[cause [Hc [Hin Hwhy]]] | Hdiv]].
        -- left. now exists a.
        -- right. left. exists cause. split; [exact Hc|]. split.
           ++ apply in_or_app. right. now right.
           ++ destruct Hwhy as [H | H]; [now left | right; lia].
        -- right. now right.
    + exists new. rewrite (noBackoff_none new Hnb). unfold lift. cbn [fst snd].
      split; [exact Hev|]. split; [lia|]. split; [exact Hrandom|].
      split; [now apply noBackoff_ok|]. right. left. exists error.
      split; [reflexivity|]. split; [rewrite Hpre; apply in_or_app; right; now left|].
      apply andb_false_iff in Econd as [H | H]; [now left|].
      right. apply Z.leb_gt in H. lia.
  - contradiction.
  - contradiction.
Qed.

Lemma translateWithRetry_final fuel self model options attempt :
  translateWithRetry Papa_parse fuel self model options attempt =
  retryStep (translateOnce Papa_parse self model options)
    (fun error =>
       lift (Throw (ErrorObj (js "Anthropic translation failed: " ++ messageOf error))))
    (fun next => match fuel with
                 | O => None
                 | S fuel' => Some (translateWithRetry Papa_parse fuel' self model options next)
                 end)
    attempt.
Proof. destruct fuel; reflexivity. Qed.

Lemma translateBatchWithRetry_final fuel self model options attempt :
  translateBatchWithRetry fuel self model options attempt =
  retryStep (translateBatchOnce self model options)
    (fun error => lift (Ret (markAllFailed (b_entries options) error emptyBatch)))
    (fun next => match fuel with
                 | O => None
                 | S fuel' => Some (translateBatchWithRetry fuel' self model options next)
                 end)
    attempt.
Proof. destruct fuel; reflexivity. Qed.

(** *** The answer of a batch request *)

Definition inKeys (k : jsstring) (entries : list TranslationEntry) : bool :=
  existsb (fun entry => str_eqb (key entry) k) entries.

Lemma inKeys_in (k : jsstring) (entries : list TranslationEntry) :
  inKeys k entries = true <-> In k (List.map key entries).
Proof.
  unfold inKeys. rewrite existsb_exists, in_map_iff. split.
  - intros [e [He E]]. apply str_eqb_eq in E. now exists e.
  - intros [e [E He]]. exists e. split; [exact He|]. now apply str_eqb_eq.
Qed.

Definition rowOr (parsed : JsMap.t TranslateResponse) (k : jsstring) : TranslateResponse :=
  match JsMap.get k parsed with
  | Some result => result
  | None => missingFromBatch
  end.

Lemma mapResults_get (entries : list TranslationEntry) (parsed : JsMap.t TranslateResponse)
    (acc : BatchTranslateResponse) (k : jsstring) :
  JsMap.get k (results (mapResults entries parsed acc)) =
    (if inKeys k entries then Some (rowOr parsed k) else JsMap.get k (results acc)) /\
  JsMap.get k (errors (mapResults entries parsed acc)) =
    (if inKeys k entries && negb (JsMap.hasKey k parsed)
     then Some (js "No translation found in response")
     else JsMap.get k (errors acc)).
Proof.
  revert acc. induction entries as [|e entries IH]; intros acc; [now split|].
  cbn [mapResults inKeys existsb]. fold (inKeys k entries).
  unfold rowOr, JsMap.hasKey in *.
  destruct (JsMap.get (key e) parsed) as [result|] eqn:Ee;
    destruct (IH {| results := JsMap.set (key e) (match JsMap.get (key e) parsed with
                                                  | Some r => r
                                                  | None => missingFromBatch
                                                  end) (results acc);
                    errors := match JsMap.get (key e) parsed with
                              | Some _ => errors acc
                              | None => JsMap.set (key e)
                                          (js "No translation found in response")
                                          (errors acc)
                              end |}) as [IH1 IH2];
    rewrite Ee in IH1, IH2; rewrite IH1, IH2; cbn [results errors];
    rewrite ?get_set;
    destruct (str_eqb (key e) k) eqn:Ek; cbn [orb andb];
    try (apply str_eqb_eq in Ek; subst k; rewrite Ee);
    destruct (inKeys _ entries); cbn [andb negb]; split; try reflexivity;
    now destruct (JsMap.get _ parsed).
Qed.

Lemma markAllFailed_get (entries : list TranslationEntry) (error : JsError)
    (acc : BatchTranslateResponse) (k : jsstring) :
  JsMap.get k (results (markAllFailed entries error acc)) =
    (if inKeys k entries
     then Some {| translation := js "[ERROR]"; category := js "Error";
                  reasoning := js "Batch translation failed: " ++ messageOf error |}
     else JsMap.get k (results acc)) /\
  JsMap.get k (errors (markAllFailed entries error acc)) =
    (if inKeys k entries then Some (messageOf error) else JsMap.get k (errors acc)).
Proof.
  revert acc. induction entries as [|e entries IH]; intros acc; [now split|].
  cbn [markAllFailed inKeys existsb]. fold (inKeys k entries).
  destruct (IH {| results := JsMap.set (key e)
                               {| translation := js "[ERROR]"; category := js "Error";
                                  reasoning := js "Batch translation failed: "
                                               ++ messageOf error |} (results acc);
                  errors := JsMap.set (key e) (messageOf error) (errors acc) |})
    as [-> ->].
  cbn [results errors]. rewrite !get_set.
  destruct (str_eqb (key e) k), (inKeys k entries); now split.
Qed.

(** A batch answer that has a result for every requested key and for no
    other key, and the [ERROR] sentinel as the result of every key it
    lists as an error. *)
Definition answersAll (entries : list TranslationEntry) (r : BatchTranslateResponse) : Prop :=
  (forall k, JsMap.hasKey k (results r) = true <-> In k (List.map key entries)) /\
  (forall k, JsMap.hasKey k (errors r) = true ->
     In k (List.map key entries) /\
     exists result,
       JsMap.get k (results r) = Some result /\
       translation result = js "[ERROR]" /\ category result = js "Error").

Lemma mapResults_answersAll (entries : list TranslationEntry)
    (parsed : JsMap.t TranslateResponse) :
  answersAll entries (mapResults entries parsed emptyBatch).
Proof.
  split; intros k; unfold JsMap.hasKey;
    destruct (mapResults_get entries parsed emptyBatch k) as [H1 H2];
    rewrite ?H1, ?H2, <- inKeys_in; cbn [emptyBatch results errors JsMap.get JsMap.empty].
  - destruct (inKeys k entries); split; congruence.
  - destruct (inKeys k entries); cbn [andb]; [|discriminate].
    unfold JsMap.hasKey, rowOr. destruct (JsMap.get k parsed); cbn [negb]; [discriminate|].
    intros _. split; [reflexivity|]. now eexists.
Qed.

Lemma markAllFailed_answersAll (entries : list TranslationEntry) (error : JsError) :
  answersAll entries (markAllFailed entries error emptyBatch).
Proof.
  split; intros k; unfold JsMap.hasKey;
    destruct (markAllFailed_get entries error emptyBatch k) as [H1 H2];
    rewrite ?H1, ?H2, <- inKeys_in; cbn [emptyBatch results errors JsMap.get JsMap.empty].
  - destruct (inKeys k entries); split; congruence.
  - destruct (inKeys k entries); [|discriminate].
    intros _. split; [reflexivity|]. now eexists.
Qed.

Lemma translateBatchOnce_post (self : nat) (model : jsstring)
    (options : BatchTranslateOptions) :
  post (answersAll (b_entries options)) (translateBatchOnce self model options).
Proof.
  unfold translateBatchOnce. cbn zeta.
  repeat (apply post_bind; intros ?).
  intros w0 r0 [= <-]. apply mapResults_answersAll.
Qed.

(** *** The properties of a call *)

(** X21.  [translateBatch] answers for every key.  Whatever the API does, the
    call returns, and it throws nothing: its answer has a result for
    every requested key and for no other key, and every key it lists as
    an error has the [ERROR] sentinel as its result. *)
Theorem translateBatch_answers_every_key (self : nat) (model : jsstring)
    (options : BatchTranslateOptions) (w : World) :
  exists r,
    fst (translateBatch self model options w) = Ret r /\
    (forall k, JsMap.hasKey k (results r) = true <->
               In k (List.map key (b_entries options))) /\
    (forall k, JsMap.hasKey k (errors r) = true ->
       In k (List.map key (b_entries options)) /\
       exists result,
         JsMap.get k (results r) = Some result /\
         translation result = js "[ERROR]" /\ category result = js "Error").
Proof.
  destruct (retry_run _ _ (fun fuel attempt =>
              translateBatchWithRetry fuel self model options attempt)
              (answersAll (b_entries options))
              (fun fuel attempt => translateBatchWithRetry_final fuel self model options attempt)
              (translateBatchOnce_ok self model options)
              (proj1 (translateBatchOnce_once self model options))
              (proj2 (translateBatchOnce_once self model options))
              (translateBatchOnce_post self model options)
              (Z.to_nat rateLimitRetries) 1%Z w) as [new [_ [_ [_ [_ Hend]]]]].
  fold (translateBatch self model options) in Hend.
  destruct Hend as [[r [Hr HP]] | [[cause [Hc _]] | Hdiv]].
  - exists r. split; [exact Hr | exact HP].
  - eexists. split; [exact Hc | apply markAllFailed_answersAll].
  - pose proof (proj2 (translateBatch_log self model options w)) as Hends.
    rewrite Hdiv in Hends. contradiction.
Qed.

(** X22.  The requests of a call.  One call of [translate] or of
    [translateBatch] sends one request and one more after every backoff
    sleep: at least 1 and at most 4. *)
Theorem requests_per_call (self : nat) (model : jsstring) :
  (forall options w,
     exists new,
       events (snd (translate Papa_parse self model options w)) = events w ++ new /\
       apiCalls (snd (translate Papa_parse self model options w))
       = (apiCalls w + 1 + backoffs new)%nat /\
       (backoffs new <= 3)%nat) /\
  (forall options w,
     exists new,
       events (snd (translateBatch self model options w)) = events w ++ new /\
       apiCalls (snd (translateBatch self model options w))
       = (apiCalls w + 1 + backoffs new)%nat /\
       (backoffs new <= 3)%nat).
Proof.
  split; intros options w.
  - destruct (retry_run _ _ (fun fuel attempt =>
                translateWithRetry Papa_parse fuel self model options attempt)
                (fun _ => True)
                (fun fuel attempt => translateWithRetry_final fuel self model options attempt)
                (translateOnce_ok Papa_parse self model options)
                (proj1 (translateOnce_once self model options))
                (proj2 (translateOnce_once self model options))
                (fun _ _ _ => I)
                (Z.to_nat rateLimitRetries) 1%Z w) as [new [Hev [Hcalls _]]].
    fold (translate Papa_parse self model options) in Hev, Hcalls.
    exists new. split; [exact Hev|]. split; [exact Hcalls|].
    destruct (translate_log Papa_parse self model options w) as [[new' [Hev' Hlog]] _].
    rewrite Hev in Hev'. apply app_inv_head in Hev'. subst new'.
    apply RetryLog_count in Hlog. unfold backoffs, rateLimitRetries in *. lia.
  - destruct (retry_run _ _ (fun fuel attempt =>
                translateBatchWithRetry fuel self model options attempt)
                (fun _ => True)
                (fun fuel attempt => translateBatchWithRetry_final fuel self model options attempt)
                (translateBatchOnce_ok self model options)
                (proj1 (translateBatchOnce_once self model options))
                (proj2 (translateBatchOnce_once self model options))
                (fun _ _ _ => I)
                (Z.to_nat rateLimitRetries) 1%Z w) as [new [Hev [Hcalls _]]].
    fold (translateBatch self model options) in Hev, Hcalls.
    exists new. split; [exact Hev|]. split; [exact Hcalls|].
    destruct (translateBatch_log self model options w) as [[new' [Hev' Hlog]] _].
    rewrite Hev in Hev'. apply app_inv_head in Hev'. subst new'.
    apply RetryLog_count in Hlog. unfold backoffs, rateLimitRetries in *. lia.
Qed.

(** X23.  How [translate] ends.  It returns a response, or it throws an [Error]
    whose message is [Anthropic translation failed: ] followed by the
    message of the failure of its last request; it gives up only on a
    failure that is not a rate-limit error or after three backoff sleeps.
    It throws nothing else and it always ends. *)
Theorem translate_gives_up (self : nat) (model : jsstring) (options : TranslateOptions)
    (w : World) :
  exists new,
    events (snd (translate Papa_parse self model options w)) = events w ++ new /\
    ((exists r, fst (translate Papa_parse self model options w) = Ret r) \/
     (exists cause,
         fst (translate Papa_parse self model options w)
         = Throw (ErrorObj (js "Anthropic translation failed: " ++ messageOf cause)) /\
         In (Failed cause) new /\
         (isRateLimitError cause = false \/ backoffs new = 3%nat))).
Proof.
  destruct (retry_run _ _ (fun fuel attempt =>
              translateWithRetry Papa_parse fuel self model options attempt)
              (fun _ => True)
              (fun fuel attempt => translateWithRetry_final fuel self model options attempt)
              (translateOnce_ok Papa_parse self model options)
              (proj1 (translateOnce_once self model options))
              (proj2 (translateOnce_once self model options))
              (fun _ _ _ => I)
              (Z.to_nat rateLimitRetries) 1%Z w) as [new [Hev [_ [_ [_ Hend]]]]].
  fold (translate Papa_parse self model options) in Hev, Hend.
  exists new. split; [exact Hev|].
  destruct Hend as [[r [Hr _]] | [[cause [Hc [Hin Hwhy]]] | Hdiv]].
  - left. now exists r.
  - right. exists cause. split; [exact Hc|]. split; [exact Hin|].
    destruct Hwhy as [H | H]; [now left | right].
    destruct (translate_log Papa_parse self model options w) as [[new' [Hev' Hlog]] _].
    rewrite Hev in Hev'. apply app_inv_head in Hev'. subst new'.
    apply RetryLog_count in Hlog. unfold backoffs, rateLimitRetries in *. lia.
  - pose proof (proj2 (translate_log Papa_parse self model options w)) as Hends.
    rewrite Hdiv in Hends. contradiction.
Qed.

(** For the attempts the loops make, the cap of 30 seconds is out of
    reach: the delay is the doubled base delay plus the jitter, rounded
    to a double. *)
Lemma backoff_uncapped (attempt : Z) (r : Q) :
  (1 <= attempt <= rateLimitRetries)%Z -> (0 <= r)%Q -> (r < 1)%Q ->
  let base := inject_Z (2000 * 2 ^ (attempt - 1)) in
  let ms := calculateBackoffDelay attempt r in
  (base + jitterOf r - 2 ^ (-40) <= ms)%Q /\ (ms <= base + jitterOf r + 2 ^ (-40))%Q /\
  (base <= ms)%Q /\ (ms <= base + 1000)%Q /\ (2000 <= ms)%Q /\ (ms <= 9000)%Q.
Proof.
  unfold rateLimitRetries. intros Ha H0 H1. cbn zeta.
  destruct (jitter_range r H0 H1) as [Hj0 Hj1].
  pose proof (two_pos (-40)) as Hp.
  assert (Hcases : exists n, attempt = Z.of_nat n /\ (1 <= n <= 3)%nat).
  { exists (Z.to_nat attempt). lia. }
  destruct Hcases as [n [-> Hn]].
  pose proof (baseDelay_exact n ltac:(lia)) as Hb.
  assert (HB : (2000 <= inject_Z (initialRetryDelay * 2 ^ (Z.of_nat n - 1)))%Q /\
               (inject_Z (initialRetryDelay * 2 ^ (Z.of_nat n - 1)) <= 8000)%Q).
  { assert (H : n = 1%nat \/ n = 2%nat \/ n = 3%nat) by lia.
    destruct H as [-> | [-> | ->]]; vm_compute; split; discriminate. }
  unfold calculateBackoffDelay. cbn zeta. fold (jitterOf r).
  change (2000 * 2 ^ (Z.of_nat n - 1))%Z with (initialRetryDelay * 2 ^ (Z.of_nat n - 1))%Z.
  set (B := (initialRetryDelay * 2 ^ (Z.of_nat n - 1))%Z) in *.
  set (base := Double.mul (inject_Z initialRetryDelay) (2 ^ (Z.of_nat n - 1))) in *.
  destruct HB as [HB0 HB1]. unfold Double.add.
  assert (HBz : (2000 <= B <= 8000)%Z).
  { split; [rewrite Zle_Qle | rewrite Zle_Qle]; assumption. }
  assert (Hx0 : (0 <= base + jitterOf r)%Q) by lra.
  assert (Hlow : (inject_Z B <= base + jitterOf r)%Q) by lra.
  assert (Hhigh : (base + jitterOf r <= inject_Z (B + 1000))%Q).
  { rewrite inject_Z_plus. change (inject_Z 1000) with 1000%Q. lra. }
  pose proof (round_ge _ B Hx0 ltac:(lia) Hlow) as Hr0.
  pose proof (round_le _ (B + 1000) Hx0 ltac:(lia) Hhigh) as Hr1.
  rewrite inject_Z_plus in Hr1. change (inject_Z 1000) with 1000%Q in Hr1.
  assert (Hlt : (base + jitterOf r < 2 ^ (13 + 1))%Q).
  { change (2 ^ (13 + 1))%Q with 16384%Q. lra. }
  destruct (round_near _ 13 Hx0 Hlt) as [Hn1 Hn2].
  change (13 - 53)%Z with (-40)%Z in Hn1, Hn2.
  rewrite (Q.min_l (Double.round (base + jitterOf r)) 30000) by lra.
  repeat split; lra.
Qed.

Definition shortBackoffs (new : list Event) : Prop :=
  forall attempt r ms,
    In (Slept (Backoff attempt r) ms) new ->
    (1 <= attempt <= 3)%Z /\
    let base := inject_Z (2000 * 2 ^ (attempt - 1)) in
    (base + jitterOf r - 2 ^ (-40) <= ms)%Q /\ (ms <= base + jitterOf r + 2 ^ (-40))%Q /\
    (base <= ms)%Q /\ (ms <= base + 1000)%Q /\ (2000 <= ms)%Q /\ (ms <= 9000)%Q.

Lemma backoffOK_short (w : World) (new : list Event) :
  (forall i, (0 <= randomStream w i)%Q /\ (randomStream w i < 1)%Q) ->
  Forall (backoffOK (randomStream w) 1) new -> shortBackoffs new.
Proof.
  intros Hrandom Hok attempt r ms Hin.
  rewrite List.Forall_forall in Hok. specialize (Hok _ Hin). cbn in Hok.
  destruct Hok as [Ha [[i ->] ->]]. split; [exact Ha|].
  destruct (Hrandom i) as [H0 H1]. now apply backoff_uncapped.
Qed.

(** X24.  The backoff sleeps of a call, when [Math.random] gives numbers
    from 0 up to but not 1: every backoff sleep of [translate] and of
    [translateBatch] belongs to attempt 1, 2 or 3 and lasts the doubled
    base delay plus the jitter [random * 1000], both as doubles: it is
    within 2^-40 ms of their exact sum, between the base delay and the
    base delay plus one second, and so between 2 and 9 seconds; the cap of
    30 seconds is never applied. *)
Theorem backoff_sleeps_are_short (self : nat) (model : jsstring) (w : World) :
  (forall i, (0 <= randomStream w i)%Q /\ (randomStream w i < 1)%Q) ->
  (forall options,
     exists new,
       events (snd (translate Papa_parse self model options w)) = events w ++ new /\
       forall attempt r ms,
         In (Slept (Backoff attempt r) ms) new ->
         (1 <= attempt <= 3)%Z /\
         let base := inject_Z (2000 * 2 ^ (attempt - 1)) in
         (base + jitterOf r - 2 ^ (-40) <= ms)%Q /\
         (ms <= base + jitterOf r + 2 ^ (-40))%Q /\
         (base <= ms)%Q /\ (ms <= base + 1000)%Q /\ (2000 <= ms)%Q /\ (ms <= 9000)%Q) /\
  (forall options,
     exists new,
       events (snd (translateBatch self model options w)) = events w ++ new /\
       forall attempt r ms,
         In (Slept (Backoff attempt r) ms) new ->
         (1 <= attempt <= 3)%Z /\
         let base := inject_Z (2000 * 2 ^ (attempt - 1)) in
         (base + jitterOf r - 2 ^ (-40) <= ms)%Q /\
         (ms <= base + jitterOf r + 2 ^ (-40))%Q /\
         (base <= ms)%Q /\ (ms <= base + 1000)%Q /\ (2000 <= ms)%Q /\ (ms <= 9000)%Q).
Proof.
  intros Hrandom. split; intros options.
  - destruct (retry_run _ _ (fun fuel attempt =>
                translateWithRetry Papa_parse fuel self model options attempt)
                (fun _ => True)
                (fun fuel attempt => translateWithRetry_final fuel self model options attempt)
                (translateOnce_ok Papa_parse self model options)
                (proj1 (translateOnce_once self model options))
                (proj2 (translateOnce_once self model options))
                (fun _ _ _ => I)
                (Z.to_nat rateLimitRetries) 1%Z w) as [new [Hev [_ [_ [Hok _]]]]].
    exists new. split; [exact Hev|]. now apply (backoffOK_short w).
  - destruct (retry_run _ _ (fun fuel attempt =>
                translateBatchWithRetry fuel self model options attempt)
                (fun _ => True)
                (fun fuel attempt => translateBatchWithRetry_final fuel self model options attempt)
                (translateBatchOnce_ok self model options)
                (proj1 (translateBatchOnce_once self model options))
                (proj2 (translateBatchOnce_once self model options))
                (fun _ _ _ => I)
                (Z.to_nat rateLimitRetries) 1%Z w) as [new [Hev [_ [_ [Hok _]]]]].
    exists new. split; [exact Hev|]. now apply (backoffOK_short w).
Qed.

End RetryRuns.

Lemma backoff_sleeps_are_short_witness :
  let w := worldWith 2 rateLimited greetingRow in
  (forall options,
     exists new,
       Anthropic.events (snd (Anthropic.translate rowsOfLine 0 (Types.model spanish) options w))
       = Anthropic.events w ++ new /\
       forall attempt r ms,
         In (Anthropic.Slept (Anthropic.Backoff attempt r) ms) new ->
         (1 <= attempt <= 3)%Z /\
         let base := inject_Z (2000 * 2 ^ (attempt - 1)) in
         (base + jitterOf r - 2 ^ (-40) <= ms)%Q /\
         (ms <= base + jitterOf r + 2 ^ (-40))%Q /\
         (base <= ms)%Q /\ (ms <= base + 1000)%Q /\ (2000 <= ms)%Q /\ (ms <= 9000)%Q) /\
  (forall options,
     exists new,
       Anthropic.events (snd (Anthropic.translateBatch 0 (Types.model spanish) options w))
       = Anthropic.events w ++ new /\
       forall attempt r ms,
         In (Anthropic.Slept (Anthropic.Backoff attempt r) ms) new ->
         (1 <= attempt <= 3)%Z /\
         let base := inject_Z (2000 * 2 ^ (attempt - 1)) in
         (base + jitterOf r - 2 ^ (-40) <= ms)%Q /\
         (ms <= base + jitterOf r + 2 ^ (-40))%Q /\
         (base <= ms)%Q /\ (ms <= base + 1000)%Q /\ (2000 <= ms)%Q /\ (ms <= 9000)%Q).
Proof.
  apply (backoff_sleeps_are_short rowsOfLine 0 (Types.model spanish)
           (worldWith 2 rateLimited greetingRow)).
  intros i. cbn. split; [discriminate | reflexivity].
Defined.

(** The last double below 1 as random number at the third attempt: the
    sleep lasts 9000 ms, the upper end of the range. *)
Example backoff_reaches_nine_seconds :
  (Anthropic.calculateBackoffDelay 3 (1 - 2 ^ (-53)) == 9000)%Q.
Proof. vm_compute. reflexivity. Qed.

(** *** The fuzzy pass of the batch parser *)

Section FuzzyPass.
Import Types Parser Anthropic.

Lemma get_delete_ne {V} (k pk : jsstring) (m : JsMap.t V) :
  k <> pk -> JsMap.get k (JsMap.delete pk m) = JsMap.get k m.
Proof.
  intros Hne. induction m as [|[k0 v0] m IH]; [reflexivity|].
  cbn [JsMap.delete JsMap.get]. destruct (str_eqb k0 pk) eqn:E.
  - apply str_eqb_eq in E. subst k0. rewrite (str_eqb_neq pk k); [reflexivity|].
    congruence.
  - cbn [JsMap.get]. now rewrite IH.
Qed.

Lemma size_set_new {V} (k : jsstring) (v : V) (m : JsMap.t V) :
  JsMap.get k m = None -> JsMap.size (JsMap.set k v m) = S (JsMap.size m).
Proof.
  unfold JsMap.size. induction m as [|[k0 v0] m IH]; [reflexivity|].
  cbn [JsMap.get JsMap.set]. destruct (str_eqb k0 k); [discriminate|].
  intros H. cbn [List.length]. now rewrite IH.
Qed.

Lemma size_delete {V} (pk : jsstring) (m : JsMap.t V) :
  JsMap.get pk m <> None -> S (JsMap.size (JsMap.delete pk m)) = JsMap.size m.
Proof.
  unfold JsMap.size. induction m as [|[k0 v0] m IH]; [now intros []|].
  cbn [JsMap.get JsMap.delete]. destruct (str_eqb k0 pk); [reflexivity|].
  intros H. cbn [List.length]. now rewrite IH.
Qed.

Lemma in_get {V} (k : jsstring) (v : V) (m : JsMap.t V) :
  In (k, v) m -> JsMap.get k m <> None.
Proof.
  induction m as [|[k0 v0] m IH]; [intros []|].
  cbn [JsMap.get]. destruct (str_eqb k0 k) eqn:E; [discriminate|].
  intros [[= -> ->] | H]; [now rewrite str_eqb_refl in E | now apply IH].
Qed.

Lemma findNormalized_found (nk pk : jsstring) (v : TranslateResponse)
    (results : JsMap.t TranslateResponse) :
  findNormalized nk results = Some (pk, v) ->
  In (pk, v) results /\ normalizeKey pk = nk.
Proof.
  unfold findNormalized, JsMap.entries. intros H. apply find_some in H as [Hin E].
  cbn [fst] in E. apply str_eqb_eq in E. now split.
Qed.

Lemma hasKey_get {V} (k : jsstring) (m : JsMap.t V) :
  JsMap.hasKey k m = true <-> JsMap.get k m <> None.
Proof. unfold JsMap.hasKey. destruct (JsMap.get k m); split; congruence. Qed.

Lemma fuzzyMatch_size (entries : list TranslationEntry) (results : JsMap.t TranslateResponse) :
  JsMap.size (fuzzyMatch entries results) = JsMap.size results.
Proof.
  revert results. induction entries as [|e entries IH]; intros results; [reflexivity|].
  cbn [fuzzyMatch]. destruct (JsMap.hasKey (key e) results) eqn:Eh; cbn [negb]; [apply IH|].
  destruct (findNormalized _ results) as [[pk v]|] eqn:Ef; [|apply IH].
  rewrite IH. apply findNormalized_found in Ef as [Hin _].
  assert (Hnone : JsMap.get (key e) results = None).
  { unfold JsMap.hasKey in Eh. now destruct (JsMap.get (key e) results). }
  assert (Hne : pk <> key e).
  { intros ->. now apply (in_get (key e) v results). }
  apply eq_add_S. rewrite size_delete, size_set_new; [reflexivity | exact Hnone |].
  rewrite get_set, str_eqb_neq by congruence. now apply (in_get pk v).
Qed.

Lemma fuzzyMatch_exact (requested : list jsstring) (entries : list TranslationEntry)
    (results : JsMap.t TranslateResponse) :
  (forall k k', In k requested -> In k' requested ->
                normalizeKey k = normalizeKey k' -> k = k') ->
  (forall e, In e entries -> In (key e) requested) ->
  forall k, In k requested -> JsMap.get k results <> None ->
    JsMap.get k (fuzzyMatch entries results) = JsMap.get k results.
Proof.
  intros Hinj. revert results.
  induction entries as [|e entries IH]; intros results Hreq k Hk Hhas; [reflexivity|].
  assert (Hrest : forall e', In e' entries -> In (key e') requested)
    by (intros e' He'; apply Hreq; now right).
  cbn [fuzzyMatch]. destruct (JsMap.hasKey (key e) results) eqn:Eh; cbn [negb];
    [now apply IH|].
  destruct (findNormalized _ results) as [[pk v]|] eqn:Ef; [|now apply IH].
  apply findNormalized_found in Ef as [Hin Hnorm].
  assert (Hnone : JsMap.get (key e) results = None).
  { unfold JsMap.hasKey in Eh. now destruct (JsMap.get (key e) results). }
  assert (Hke : k <> key e) by (intros ->; contradiction).
  assert (Hkp : k <> pk).
  { intros ->. apply Hke. apply Hinj; [exact Hk | apply Hreq; now left | exact Hnorm]. }
  assert (Hsame : JsMap.get k (JsMap.delete pk (JsMap.set (key e) v results))
                  = JsMap.get k results).
  { rewrite get_delete_ne by exact Hkp. rewrite get_set, str_eqb_neq by congruence.
    reflexivity. }
  rewrite IH; [exact Hsame | exact Hrest | exact Hk | now rewrite Hsame].
Qed.

(** X25.  The fuzzy pass renames rows.  It never changes the number of rows;
    and when no two requested keys have the same normal form, the row a
    requested key already has stays under that key. *)
Theorem fuzzy_match_keeps_exact_rows (entries : list TranslationEntry)
    (results : JsMap.t TranslateResponse) :
  (forall e e', In e entries -> In e' entries ->
                normalizeKey (key e) = normalizeKey (key e') -> key e = key e') ->
  JsMap.size (fuzzyMatch entries results) = JsMap.size results /\
  forall e, In e entries -> JsMap.hasKey (key e) results = true ->
    JsMap.get (key e) (fuzzyMatch entries results) = JsMap.get (key e) results.
Proof.
  intros Hinj. split; [apply fuzzyMatch_size|].
  intros e He Hhas. apply (fuzzyMatch_exact (List.map key entries)).
  - intros k k' Hk Hk' Hn. apply in_map_iff in Hk as [x [<- Hx]].
    apply in_map_iff in Hk' as [x' [<- Hx']]. now apply Hinj.
  - intros x Hx. now apply in_map.
  - now apply in_map.
  - now apply hasKey_get.
Qed.

Lemma fuzzy_match_keeps_exact_rows_witness :
  let entries := [entryOf "menu.home" "Home"; entryOf "menu.settings" "Settings"] in
  let results := [(js "menu.home", settingsResult); (js "Menu_Settings", settingsResult)] in
  JsMap.size (fuzzyMatch entries results) = JsMap.size results /\
  forall e, In e entries -> JsMap.hasKey (key e) results = true ->
    JsMap.get (key e) (fuzzyMatch entries results) = JsMap.get (key e) results.
Proof.
  apply (fuzzy_match_keeps_exact_rows
           [entryOf "menu.home" "Home"; entryOf "menu.settings" "Settings"]
           [(js "menu.home", settingsResult); (js "Menu_Settings", settingsResult)]).
  intros e e' [<- | [<- | []]] [<- | [<- | []]]; vm_compute; congruence.
Defined.

(** The Kelvin sign U+212A is the letter [k] after normalisation: for the
    requested keys [k] and U+212A the condition above does not hold. *)
Example normalizeKey_kelvin : normalizeKey [8490]%N = normalizeKey (js "k").
Proof. vm_compute. reflexivity. Qed.

(** Without that condition the pass can take the row of a requested key:
    [ab] and [a.b] are both requested, the response has a row for [ab]
    only, and the row ends under [a.b]. *)
Example fuzzy_match_takes_a_row :
  let entries := [entryOf "ab" "Home"; entryOf "a.b" "Settings"; entryOf "c" "Back"] in
  let parsed := fuzzyMatch entries [(js "ab", settingsResult)] in
  JsMap.get (js "ab") parsed = None /\ JsMap.get (js "a.b") parsed = Some settingsResult.
Proof. vm_compute. split; reflexivity. Qed.

End FuzzyPass.

(** ** The fallback of [processBatch], entry by entry *)

Section FallbackEntries.
Import Types Parser Engine.

(** X26.  When the batch request throws (and the single requests return
    or throw), [processBatch] asks for every record of the batch by itself
    and returns a map with a result for every key of the batch and for no
    other key; every result of the map is the response of the single
    request for a record of the batch with that key, or, when that request
    threw, the sentinel with translation [[ERROR]], category [Error] and
    the message of the failure as its reasoning. *)
Theorem processBatch_fallback_covers {W : Type} (provider : TranslationProvider W)
    (batch : list TranslationEntry) (group : TranslationGroup) (w w1 : W) (error : JsError) :
  translateBatch provider
    {| b_entries := batch; b_language := name group;
       b_systemPrompt := systemPrompt group; b_userPrompt := userPrompt group |} w
  = (Throw error, w1) ->
  (forall options w', settles (fst (translate provider options w'))) ->
  exists batchResults w2,
    processBatch batch group provider w = (Ret batchResults, w2) /\
    (forall k, JsMap.hasKey k batchResults = true <-> In k (List.map key batch)) /\
    (forall k result, JsMap.get k batchResults = Some result ->
       exists e (w3 w4 : W),
         In e batch /\ key e = k /\
         (translate provider (optionsOf e group) w3 = (Ret result, w4) \/
          exists individualError,
            translate provider (optionsOf e group) w3 = (Throw individualError, w4) /\
            result = {| translation := js "[ERROR]"; category := js "Error";
                        reasoning := messageOf individualError |})).
Proof.
  intros Hthrow Hsingle.
  destruct (processBatch_thrown provider batch group w w1 error Hthrow Hsingle)
    as [m [w2 [E [Hkeys Hprov]]]].
  exists m, w2. split; [exact E|]. split; [exact Hkeys|].
  intros k result Hget. destruct (Hprov k result Hget) as [e [He [Hk [w3 [w4 Hans]]]]].
  now exists e, w3, w4.
Qed.

End FallbackEntries.

Lemma processBatch_fallback_covers_witness :
  exists batchResults w2,
    Engine.processBatch [hiEntry] spanish batchless tt = (Ret batchResults, w2) /\
    (forall k, JsMap.hasKey k batchResults = true <-> In k (List.map Types.key [hiEntry])) /\
    (forall k result, JsMap.get k batchResults = Some result ->
       exists e (w3 w4 : unit),
         In e [hiEntry] /\ Types.key e = k /\
         (Types.translate batchless (Engine.optionsOf e spanish) w3 = (Ret result, w4) \/
          exists individualError,
            Types.translate batchless (Engine.optionsOf e spanish) w3
            = (Throw individualError, w4) /\
            result = {| Parser.translation := js "[ERROR]"; Parser.category := js "Error";
                        Parser.reasoning := messageOf individualError |})).
Proof.
  apply (processBatch_fallback_covers batchless [hiEntry] spanish tt tt
           (ErrorObj (js "Batch endpoint is down"))).
  - reflexivity.
  - intros options w'. exact I.
Defined.

(** ** The rate limiter in a run of the engine

    [processMixedBatch] constructs a provider for every task, and every
    provider object has a rate limiter of its own. *)

Section FreshLimiters.
Import Types Parser RateLimiter Anthropic Engine.
Local Open Scope m_scope.

Variable Papa_parse : jsstring -> list (list jsstring).

Definition isWait (e : Event) : bool :=
  match e with
  | Slept RateLimitWait _ => true
  | _ => false
  end.

Definition noWait (evs : list Event) : bool := forallb (fun e => negb (isWait e)) evs.

(** The limiter of the provider object [self] has recorded nothing. *)
Definition fresh (self : nat) (w : World) : Prop :=
  (self < List.length (limiters w))%nat /\
  nth self (limiters w) (create 200000) = create 200000.

(** The estimate of the single request for a task. *)
Definition estimateOf (options : TranslateOptions) : Z :=
  estimateRequestTokens (o_systemPrompt options) (singlePrompt options) 1000.

Lemma getRequiredDelay_fresh (now estimatedTokens : Z) :
  (estimatedTokens <= 200000)%Z ->
  getRequiredDelay now estimatedTokens (create 200000) = (0%Z, create 200000).
Proof.
  intros H. unfold getRequiredDelay. cbn zeta.
  change (cleanOldEntries now (create 200000)) with (create 200000).
  change (currentUsage (create 200000)) with 0%Z.
  change (maxTokens (create 200000)) with 200000%Z. rewrite Z.add_0_l.
  destruct (estimatedTokens <=? 200000)%Z eqn:E; [reflexivity|].
  apply Z.leb_gt in E. lia.
Qed.

Lemma update_same {A} (l : list A) (i : nat) (d : A) :
  (i < List.length l)%nat -> firstn i l ++ nth i l d :: skipn (S i) l = l.
Proof.
  revert i. induction l as [|x l IH]; intros i Hi; [cbn in Hi; lia|].
  destruct i as [|i]; [reflexivity|]. cbn [firstn nth skipn app]. f_equal.
  apply IH. cbn in Hi. lia.
Qed.

Lemma withLimiters_same (w : World) : withLimiters w (limiters w) = w.
Proof. now destruct w. Qed.

Lemma onLimiter_fresh (self : nat) (estimatedTokens : Z) (w : World) :
  fresh self w -> (estimatedTokens <= 200000)%Z ->
  onLimiter self (fun now => getRequiredDelay now estimatedTokens) w = (Ret 0%Z, w).
Proof.
  intros [Hlen Hnth] Hest. unfold onLimiter. rewrite Hnth, getRequiredDelay_fresh by exact Hest.
  rewrite <- Hnth at 1. rewrite update_same by exact Hlen. now rewrite withLimiters_same.
Qed.

(** With a fresh limiter the attempt starts with the request. *)
Lemma translateOnce_fresh_start (self : nat) (model : jsstring) (options : TranslateOptions)
    (w : World) :
  fresh self w -> (estimateOf options <= 200000)%Z ->
  translateOnce Papa_parse self model options w =
  (response <- messagesCreate {| r_model := model; r_max_tokens := 1000;
                                 r_system := o_systemPrompt options;
                                 r_prompt := singlePrompt options |} ;;
   onLimiter self (fun now l => (tt, recordUsage now (estimateOf options) l)) ;;;
   lift (if isCSVPrompt (o_userPrompt options)
         then parseCSVResponse Papa_parse response (o_key options) (o_text options)
                (Some (o_language options))
         else parseResponse Papa_parse response (o_text options)
                (Some (o_language options)))) w.
Proof.
  intros Hfresh Hest. unfold translateOnce. cbn zeta. unfold mbind at 1.
  fold (estimateOf options). rewrite onLimiter_fresh by assumption.
  cbn [Z.ltb Z.compare]. unfold mbind at 1. unfold ret at 1. reflexivity.
Qed.

Lemma parse_returns (isCSV : bool) (response : jsstring) (options : TranslateOptions) :
  exists r,
    (if isCSV
     then parseCSVResponse Papa_parse response (o_key options) (o_text options)
            (Some (o_language options))
     else parseResponse Papa_parse response (o_text options) (Some (o_language options)))
    = Ret r.
Proof.
  destruct isCSV; [apply parseCSVResponse_returns|].
  unfold parseResponse. apply parseWithFallbacks_returns.
Qed.

(** An attempt of a provider with a fresh limiter does not wait for the
    limiter, and the limiter is still fresh when the attempt throws. *)
Lemma translateOnce_fresh (self : nat) (model : jsstring) (options : TranslateOptions)
    (w : World) :
  fresh self w -> (estimateOf options <= 200000)%Z ->
  exists new,
    events (snd (translateOnce Papa_parse self model options w)) = events w ++ new /\
    noWait new = true /\
    (forall e, fst (translateOnce Papa_parse self model options w) = Throw e ->
               fresh self (snd (translateOnce Papa_parse self model options w))).
Proof.
  intros Hfresh Hest. rewrite translateOnce_fresh_start by assumption.
  unfold mbind at 1 3 5. unfold messagesCreate. cbn zeta.
  destruct (reply _) as [[text|]|error].
  - unfold mbind, onLimiter. destruct (recordUsage _ _ _). unfold lift.
    destruct (parse_returns (isCSVPrompt (o_userPrompt options)) text options) as [r ->].
    cbn [fst snd events withLimiters]. eexists. split; [reflexivity|].
    split; [reflexivity | discriminate].
  - unfold mbind, onLimiter. destruct (recordUsage _ _ _). unfold lift.
    destruct (parse_returns (isCSVPrompt (o_userPrompt options)) [] options) as [r ->].
    cbn [fst snd events withLimiters]. eexists. split; [reflexivity|].
    split; [reflexivity | discriminate].
  - cbn [fst snd events withEvent]. rewrite <- app_assoc. eexists. split; [reflexivity|].
    split; [reflexivity|]. intros _ _. exact Hfresh.
Qed.

Lemma translateWithRetry_fresh (self : nat) (model : jsstring) (options : TranslateOptions) :
  (estimateOf options <= 200000)%Z ->
  forall fuel attempt w,
    fresh self w ->
    exists new,
      events (snd (translateWithRetry Papa_parse fuel self model options attempt w))
      = events w ++ new /\
      noWait new = true.
Proof.
  intros Hest fuel. induction fuel as [|fuel IH]; intros attempt w Hfresh;
    cbn [translateWithRetry]; unfold tryCatch;
    destruct (translateOnce_fresh self model options w Hfresh Hest)
      as [new [Hev [Hnw Hstill]]];
    destruct (translateOnce Papa_parse self model options w) as [[r|error| |] w1];
    cbn [fst snd] in *; try (exists new; now split).
  - destruct (_ && _); exists new; now split.
  - destruct (_ && _); [|exists new; now split].
    unfold mbind, random, delay. cbn [fst snd].
    set (r := randomStream w1 (randomsDrawn w1)). set (w2 := withEvent _ _).
    destruct (IH (attempt + 1)%Z w2) as [rest [Hrest Hnw2]].
    { exact (Hstill error eq_refl). }
    exists (new ++ Slept (Backoff attempt r) (calculateBackoffDelay attempt r) :: rest).
    split.
    + rewrite Hrest. unfold w2. cbn [events withEvent withClock]. rewrite Hev.
      rewrite <- !app_assoc. reflexivity.
    + unfold noWait in *. rewrite forallb_app, Hnw. cbn [forallb isWait negb andb].
      exact Hnw2.
Qed.

Lemma newProvider_fresh (apiKey model : jsstring) (w : World) :
  exists provider w1,
    newProvider Papa_parse apiKey model w = (Ret provider, w1) /\
    events w1 = events w /\
    forall options, (estimateOf options <= 200000)%Z ->
      exists new,
        events (snd (Types.translate provider options w1)) = events w1 ++ new /\
        noWait new = true.
Proof.
  unfold newProvider. eexists _, _. split; [reflexivity|]. split; [reflexivity|].
  intros options Hest. cbn [Types.translate]. unfold Anthropic.translate.
  apply translateWithRetry_fresh; [exact Hest|]. split.
  - cbn [limiters withLimiters]. rewrite length_app. cbn. lia.
  - cbn [limiters withLimiters]. rewrite app_nth2 by lia. now rewrite Nat.sub_diag.
Qed.

(** X27.  In a run of the engine the rate limiter never delays a request.
    Every task of a mixed batch gets a provider object of its own, whose
    limiter has recorded nothing: whatever was sent before, no request
    waits for the limiter, as long as its own estimate is within the
    200,000 tokens of the budget. *)
Theorem engine_requests_never_wait (batch : list Task) (apiKey : jsstring) (w : World) :
  (forall task, In task batch ->
     (estimateOf (optionsOf (t_entry task) (t_group task)) <= 200000)%Z) ->
  exists new,
    events (snd (processMixedBatch (fun _ key model => newProvider Papa_parse key model)
                   batch apiKey w)) = events w ++ new /\
    forall ms, ~ In (Slept RateLimitWait ms) new.
Proof.
  intros Hest.
  assert (H : exists new,
            events (snd (processMixedBatch
                           (fun _ key model => newProvider Papa_parse key model)
                           batch apiKey w)) = events w ++ new /\
            noWait new = true).
  { revert w. unfold processMixedBatch.
    induction batch as [|task batch IH]; intros w; cbn [mapM].
    - exists []. cbn. now rewrite app_nil_r.
    - unfold mbind at 1. unfold mbind at 1.
      destruct (newProvider_fresh apiKey (model (t_group task)) w)
        as [provider [w1 [-> [Hev1 Htranslate]]]].
      destruct (Htranslate (optionsOf (t_entry task) (t_group task))
                  (Hest task (or_introl eq_refl))) as [new1 [Hnew1 Hnw1]].
      unfold tryCatch.
      destruct (Types.translate provider (optionsOf (t_entry task) (t_group task)) w1)
        as [[r|e| |] w2]; cbn [fst snd] in *.
      + unfold mbind at 1.
        destruct (IH (fun t Ht => Hest t (or_intror Ht)) w2) as [rest [Hrest Hnwr]].
        destruct (mapM _ batch w2) as [[ys|e| |] w3]; cbn [fst snd] in *;
          exists (new1 ++ rest); unfold ret; cbn [snd];
          (split; [rewrite Hrest, Hnew1, Hev1; now rewrite app_assoc|]);
          unfold noWait in *; now rewrite forallb_app, Hnw1, Hnwr.
      + unfold ret at 1. unfold mbind at 1.
        destruct (IH (fun t Ht => Hest t (or_intror Ht)) w2) as [rest [Hrest Hnwr]].
        destruct (mapM _ batch w2) as [[ys|e'| |] w3]; cbn [fst snd] in *;
          exists (new1 ++ rest); unfold ret; cbn [snd];
          (split; [rewrite Hrest, Hnew1, Hev1; now rewrite app_assoc|]);
          unfold noWait in *; now rewrite forallb_app, Hnw1, Hnwr.
      + exists new1. split; [now rewrite Hnew1, Hev1 | exact Hnw1].
      + exists new1. split; [now rewrite Hnew1, Hev1 | exact Hnw1]. }
  destruct H as [new [Hev Hnw]]. exists new. split; [exact Hev|].
  intros ms Hin. unfold noWait in Hnw. rewrite forallb_forall in Hnw.
  specialize (Hnw _ Hin). discriminate.
Qed.

End FreshLimiters.

Lemma engine_requests_never_wait_witness :
  let batch := [{| Engine.t_entry := hiEntry; Engine.t_group := spanish;
                   Engine.t_groupIndex := 0 |}] in
  let w := worldWith 1 rateLimited greetingRow in
  exists new,
    Anthropic.events
      (snd (Engine.processMixedBatch
              (fun _ key model => Anthropic.newProvider rowsOfLine key model)
              batch (js "sk-ant") w)) = Anthropic.events w ++ new /\
    forall ms, ~ In (Anthropic.Slept Anthropic.RateLimitWait ms) new.
Proof.
  apply (engine_requests_never_wait rowsOfLine
           [{| Engine.t_entry := hiEntry; Engine.t_group := spanish;
               Engine.t_groupIndex := 0 |}] (js "sk-ant")
           (worldWith 1 rateLimited greetingRow)).
  intros task [<- | []]. vm_compute. discriminate.
Defined.

(** ** The prompt of a request and the rows of an answer (lib/providers/anthropic.ts) *)

Section Prompts.
Import Re Csv Types Parser Anthropic.

Lemma lit_units_first (c0 : N) (rest : list N) (p : pos) :
  match snd p with
  | c :: _ => (c0 =? c) = false
  | [] => True
  end ->
  match_at noflags (lit_units (c0 :: rest)) p = None.
Proof.
  intros H. unfold match_at.
  destruct rest as [|c1 rest]; cbn [lit_units run];
    (destruct (snd p) as [|c aft]; [reflexivity|]);
    cbn [atom_matches noflags ignoreCase]; now rewrite H.
Qed.

(** A pattern that is a literal text changes nothing in a text that does
    not hold the first code unit of the literal. *)
Lemma replace_literal_absent (c0 : N) (rest : list N) (tmpl s : jsstring) :
  has c0 s = false ->
  replaceAll noflags (lit_units (c0 :: rest)) tmpl s = s.
Proof.
  unfold replaceAll. generalize (@nil N) as bef. induction s as [|c s IH]; intros bef Hs.
  - cbn [replace_loop]. now rewrite lit_units_first.
  - unfold has in Hs. cbn [existsb] in Hs. fold (has c0 s) in Hs.
    apply orb_false_iff in Hs as [Hc Hs].
    cbn [replace_loop]. rewrite lit_units_first by exact Hc. f_equal. now apply IH.
Qed.

Lemma includes_absent (needle s : jsstring) :
  has (hd 0 needle) s = false -> needle <> [] -> includes s needle = false.
Proof.
  destruct needle as [|c0 rest]; [congruence|]. cbn [hd]. intros Hs _.
  induction s as [|c s IH]; [reflexivity|].
  unfold has in Hs. cbn [existsb] in Hs. fold (has c0 s) in Hs.
  apply orb_false_iff in Hs as [Hc Hs].
  cbn [includes startsWith]. rewrite Hc. cbn [andb orb]. now apply IH.
Qed.

Lemma replaceMacro_absent (name : string) (value prompt : jsstring) :
  has 123 prompt = false -> replaceMacro name value prompt = prompt.
Proof. intros H. unfold replaceMacro. now apply replace_literal_absent. Qed.

(** The text after [ENTRIES] that a batch prompt for CSV gets. *)
Definition entriesBlock (options : BatchTranslateOptions) : jsstring :=
  let fullCSV :=
    js "Key,Source,English Original" ++ [NEWLINE] ++
    join [NEWLINE]
      (List.map (fun entry => csvRowOf (key entry) (source entry) (english entry))
         (b_entries options)) in
  let entryCount := ofN (N.of_nat (List.length (b_entries options))) in
  [NEWLINE; NEWLINE] ++ js "ENTRIES (" ++ entryCount ++ js " total):"
  ++ [NEWLINE] ++ js "<<<" ++ [NEWLINE] ++ fullCSV ++ [NEWLINE] ++ js ">>>"
  ++ [NEWLINE; NEWLINE] ++ js "REMINDER: Return exactly " ++ entryCount
  ++ js " output rows, one for each input entry above.".

(** X28.  A user prompt without an opening brace has no macro.  It is sent as
    it is written: followed by the records as CSV when it has one of the
    phrases of a CSV prompt, and otherwise alone, so that the request
    holds neither the key nor the text of any record. *)
Theorem prompt_without_macros :
  (forall options,
     has 123 (o_userPrompt options) = false ->
     singlePrompt options =
     if isCSVPrompt (o_userPrompt options)
     then o_userPrompt options ++ [NEWLINE; NEWLINE] ++ js "Key,Source,English Original"
          ++ [NEWLINE] ++ csvRowOf (o_key options) (o_source options) (o_text options)
     else o_userPrompt options) /\
  (forall options,
     has 123 (b_userPrompt options) = false ->
     batchPrompt options =
     if isCSVPrompt (b_userPrompt options)
     then b_userPrompt options ++ entriesBlock options
     else b_userPrompt options).
Proof.
  split; intros options H.
  - unfold singlePrompt. cbn zeta.
    repeat rewrite (fun name value => replaceMacro_absent name value (o_userPrompt options) H).
    rewrite !(includes_absent _ (o_userPrompt options)) by (exact H || discriminate).
    cbn [negb]. rewrite !andb_true_r. reflexivity.
  - unfold batchPrompt, entriesBlock. cbn zeta.
    repeat rewrite (fun name value => replaceMacro_absent name value (b_userPrompt options) H).
    rewrite !(includes_absent _ (b_userPrompt options)) by (exact H || discriminate).
    cbn [negb]. rewrite !andb_true_r. reflexivity.
Qed.

Definition plainRequest : TranslateOptions :=
  {| o_text := js "Hi"; o_key := js "greeting.hi"; o_source := js "menu";
     o_language := js "French"; o_systemPrompt := [];
     o_userPrompt := js "Translate the text to French." |}.

Definition plainBatch : BatchTranslateOptions :=
  {| b_entries := [hiEntry]; b_language := js "French"; b_systemPrompt := [];
     b_userPrompt := js "Translate the text to French." |}.

Lemma prompt_without_macros_witness :
  singlePrompt plainRequest =
    (if isCSVPrompt (o_userPrompt plainRequest)
     then o_userPrompt plainRequest ++ [NEWLINE; NEWLINE]
          ++ js "Key,Source,English Original" ++ [NEWLINE]
          ++ csvRowOf (o_key plainRequest) (o_source plainRequest) (o_text plainRequest)
     else o_userPrompt plainRequest) /\
  batchPrompt plainBatch =
    (if isCSVPrompt (b_userPrompt plainBatch)
     then b_userPrompt plainBatch ++ entriesBlock plainBatch
     else b_userPrompt plainBatch).
Proof.
  split.
  - apply (proj1 prompt_without_macros plainRequest). reflexivity.
  - apply (proj2 prompt_without_macros plainBatch). reflexivity.
Defined.

(** The request for such a prompt is the same for every record. *)
Example plain_prompt_carries_no_text :
  singlePrompt plainRequest = js "Translate the text to French.".
Proof. reflexivity. Qed.

(** The fields the batch parser reads from a line, and whether the line
    is a partial row: two or three fields. *)
Definition fieldsOf (raw : jsstring) : list jsstring := parseCSVLine (trim raw).
Definition partialRow (raw : jsstring) : bool :=
  truthy (trim raw) && (2 <=? List.length (fieldsOf raw))%nat
  && negb (4 <=? List.length (fieldsOf raw))%nat.

(** X29.  A complete row never replaces a row: once a key has a row, it keeps
    it, whatever rows of four fields follow for the same key.  Only a
    partial row for the key, of two or three fields, replaces it. *)
Theorem complete_rows_do_not_overwrite (lines : list jsstring)
    (results : JsMap.t TranslateResponse) (k : jsstring) (row : TranslateResponse) :
  JsMap.get k results = Some row ->
  (forall raw, In raw lines -> partialRow raw = true -> nth 0 (fieldsOf raw) [] <> k) ->
  JsMap.get k (readRows lines results) = Some row.
Proof.
  revert results. induction lines as [|raw lines IH]; intros results Hrow Hpartial;
    [exact Hrow|].
  assert (Hrest : forall raw', In raw' lines -> partialRow raw' = true ->
                               nth 0 (fieldsOf raw') [] <> k)
    by (intros raw' Hin; apply Hpartial; now right).
  pose proof (Hpartial raw (or_introl eq_refl)) as Hraw.
  unfold partialRow, fieldsOf in Hraw.
  cbn [readRows]. destruct (truthy (trim raw)); cbn [negb andb] in *; [|now apply IH].
  destruct (4 <=? List.length (parseCSVLine (trim raw)))%nat eqn:E4.
  - destruct (JsMap.hasKey _ results) eqn:Eh; [now apply IH|].
    apply IH; [|exact Hrest]. rewrite get_set.
    destruct (str_eqb _ k) eqn:Ek; [|exact Hrow].
    apply str_eqb_eq in Ek. unfold JsMap.hasKey in Eh. rewrite Ek, Hrow in Eh. discriminate.
  - destruct (2 <=? List.length (parseCSVLine (trim raw)))%nat eqn:E2; [|now apply IH].
    apply IH; [|exact Hrest]. rewrite get_set, str_eqb_neq; [exact Hrow|].
    now apply Hraw.
Qed.

Lemma complete_rows_do_not_overwrite_witness :
  let first := {| translation := js "Hola"; category := js "Onboarding";
                  reasoning := js "Friendly greeting" |} in
  JsMap.get (js "greeting.hi")
    (readRows [js "greeting.hi,Buenas,Onboarding,Second answer"; js "menu.home,Inicio"]
       [(js "greeting.hi", first)]) = Some first.
Proof.
  apply (complete_rows_do_not_overwrite
           [js "greeting.hi,Buenas,Onboarding,Second answer"; js "menu.home,Inicio"]
           [(js "greeting.hi",
             {| translation := js "Hola"; category := js "Onboarding";
                reasoning := js "Friendly greeting" |})] (js "greeting.hi")).
  - reflexivity.
  - intros raw [<- | [<- | []]]; vm_compute; congruence.
Defined.

(** A partial row does replace the row of its key. *)
Example partial_row_overwrites :
  JsMap.get (js "greeting.hi")
    (readRows [js "greeting.hi,Hola,Onboarding,Friendly greeting"; js "greeting.hi,Buenas"]
       JsMap.empty)
  = Some {| translation := js "Buenas"; category := js "Unknown";
            reasoning := js "Partial response" |}.
Proof. reflexivity. Qed.

End Prompts.

(** *** The answer to a single request *)

Section SingleAnswers.
Import Re Csv Types Parser Anthropic.

Variable Papa_parse : jsstring -> list (list jsstring).

Lemma trimStart_head (s : jsstring) :
  match trimStart s with
  | c :: _ => isWhiteSpace c = false
  | [] => True
  end.
Proof.
  induction s as [|c s IH]; [exact I|]. cbn [trimStart].
  destruct (isWhiteSpace c) eqn:E; [exact IH | exact E].
Qed.

Lemma trimStart_suffix (s : jsstring) : exists pre, s = pre ++ trimStart s.
Proof.
  induction s as [|c s [pre IH]]; [now exists []|]. cbn [trimStart].
  destruct (isWhiteSpace c); [|now exists []].
  exists (c :: pre). cbn [app]. now f_equal.
Qed.

Lemma trimStart_keeps (s : jsstring) (c : N) :
  isWhiteSpace c = false -> trimStart (s ++ [c]) <> [].
Proof.
  intros Hc. induction s as [|x s IH]; cbn [app trimStart].
  - now rewrite Hc.
  - destruct (isWhiteSpace x); [exact IH | discriminate].
Qed.

(** [trim] leaves no white space at the ends. *)
Lemma trim_edgeFree (s : jsstring) : edgeFree (trim s) = true.
Proof.
  unfold trim, trimEnd. pose proof (trimStart_head s) as Hhead.
  destruct (trimStart s) as [|c t] eqn:Et; [reflexivity|].
  pose proof (trimStart_head (rev (c :: t))) as Hlast.
  destruct (trimStart_suffix (rev (c :: t))) as [pre Hpre].
  destruct (trimStart (rev (c :: t))) as [|d u] eqn:Eu.
  - exfalso. cbn [rev] in Eu. now apply (trimStart_keeps (rev t) c Hhead).
  - (* rev (c :: t) = pre ++ d :: u, so d :: u ends with c *)
    assert (Hrev : c :: t = rev u ++ d :: rev pre).
    { rewrite <- (rev_involutive (c :: t)), Hpre, rev_app_distr. cbn [rev].
      now rewrite <- app_assoc. }
    cbn [rev]. unfold edgeFree.
    destruct (rev u ++ [d]) as [|x rest] eqn:Ex; [now destruct (rev u)|].
    assert (Hx : x = c).
    { destruct (rev u) as [|y v]; cbn [app] in Ex, Hrev; congruence. }
    subst x. rewrite Hhead. cbn [negb andb].
    rewrite <- Ex. rewrite last_last. now rewrite Hlast.
Qed.

Lemma trim_trim (s : jsstring) : trim (trim s) = trim s.
Proof. apply edgeFree_trim, trim_edgeFree. Qed.

Lemma split_whole (sep : N) (s : jsstring) : has sep s = false -> split sep s = [s].
Proof.
  intros H. unfold split. rewrite <- (app_nil_r s) at 1.
  rewrite split_go_part by exact H. reflexivity.
Qed.

(** The row [parseCSVResponse] makes of the fields of a line. *)
Definition rowOfFields (fields : list jsstring) (originalText : jsstring) : TranslateResponse :=
  if (4 <=? List.length fields)%nat then
    {| translation := orElse (nth_error fields 1) originalText;
       category := orElse (nth_error fields 2) (js "Unknown");
       reasoning := orElse (nth_error fields 3) (js "Parsed from CSV response") |}
  else
    {| translation := nth 1 fields [];
       category := orElse (nth_error fields 2) (js "Unknown");
       reasoning := orElse (nth_error fields 3) (js "Parsed from partial CSV response") |}.

(** X30.  An answer of one line is accepted whatever its key.  When the trimmed
    response has no line feed and at least two fields, [parseCSVResponse]
    returns the row of its fields without a look at the first field: the
    key that was asked for plays no part, and with two or three fields the
    translation may be empty. *)
Theorem one_line_answer_ignores_key (response expectedKey originalText : jsstring)
    (language : option jsstring) :
  has NEWLINE (trim response) = false ->
  (2 <= List.length (parseCSVLine (trim response)))%nat ->
  parseCSVResponse Papa_parse response expectedKey originalText language =
  Ret (rowOfFields (parseCSVLine (trim response)) originalText).
Proof.
  intros Hone Hfields. unfold parseCSVResponse, rowOfFields.
  rewrite split_whole by exact Hone. cbn [firstCSVRow List.length]. rewrite trim_trim.
  destruct (truthy (trim response)) eqn:Et.
  - cbn [negb]. destruct (4 <=? _)%nat; [now rewrite orb_true_r|].
    apply Nat.leb_le in Hfields. now rewrite Hfields.
  - destruct (trim response); [cbn in Hfields; lia | discriminate].
Qed.

End SingleAnswers.

Lemma one_line_answer_ignores_key_witness :
  Anthropic.parseCSVResponse rowsOfLine (js "menu.home,Inicio,Menu,Label of the home screen")
    (js "greeting.hi") (js "Hi") None =
  Ret (rowOfFields
         (Csv.parseCSVLine (trim (js "menu.home,Inicio,Menu,Label of the home screen")))
         (js "Hi")).
Proof.
  apply (one_line_answer_ignores_key rowsOfLine
           (js "menu.home,Inicio,Menu,Label of the home screen")).
  - reflexivity.
  - vm_compute. lia.
Defined.
